(** * MA (The Modular Aligner): packed reference, seeds, gap filling and
      SV-jump reseeding

    A shallow embedding of the parts of the aligner that its specification
    makes claims about, with the proofs that settle those claims.

    - [MachineInt]: the fixed-width integers of the C++ sources.
    - [SeedDefs]:   [geom::Interval], [geom::Rectangle], [Seed].
    - [LineSweep]:  the shadows of the line sweep (linesweep.cpp).
    - [Lumping]:    [SeedLumping::execute] (harmonization.h).
    - [GapFill]:    [NeedlemanWunsch::execute] (needlemanWunsch.cpp).
    - [PackStore]:  the packed reference [Pack] (fileReader.h).
    - [PackFiles]:  the .pac/.ann/.amb files of a [Pack].
    - [SvReseed]:   [SvJumpsFromSeeds] (svJumpsFromSeeds.cpp).

    Further properties of the same code:

    - [PackQueries]:  contigs, strands and extraction of a [Pack].
    - [PackBuild]:    [Pack::vAppendSequence] and the extraction with N.
    - [LumpingMore]:  what lumping keeps of its input.
    - [GapFillMore]:  the lengths of the runs that fill a gap.
    - [SvReseedMore]: the rectangles between and next to seeds.
    - [SeedsMore]:    the order of seeds and the main strand (seed.h).
    - [Geom]:         distance and resizing (geom.h). *)

From Stdlib Require Import ZArith List Lia Bool Ascii String.
Import ListNotations.
Open Scope Z_scope.

(* ===================================================================== *)
(** * Fixed-width integers *)
(* ===================================================================== *)

Module MachineInt.

Definition two64 : Z := 2 ^ 64.
Definition two63 : Z := 2 ^ 63.

(** Conversion to [uint64_t] (and the wrap-around of unsigned arithmetic). *)
Definition u64 (x : Z) : Z := x mod two64.

(** Conversion to [int64_t] (two's complement). *)
Definition i64 (x : Z) : Z := (x + two63) mod two64 - two63.

(** Conversion to [int] (32 bits, two's complement). *)
Definition i32 (x : Z) : Z := (x + 2 ^ 31) mod 2 ^ 32 - 2 ^ 31.

(** Conversion to [uint8_t]. *)
Definition u8 (x : Z) : Z := x mod 256.

Definition in_u64 (x : Z) : Prop := 0 <= x < two64.
Definition in_i64 (x : Z) : Prop := - two63 <= x < two63.

Lemma u64_small x : in_u64 x -> u64 x = x.
Proof. unfold in_u64, u64; intros; apply Z.mod_small; assumption. Qed.

Lemma u64_range x : in_u64 (u64 x).
Proof. unfold in_u64, u64, two64; apply Z.mod_pos_bound; lia. Qed.

Lemma u64_idem x : u64 (u64 x) = u64 x.
Proof. apply u64_small, u64_range. Qed.

Lemma i64_small x : in_i64 x -> i64 x = x.
Proof.
  unfold in_i64, i64, two63, two64; intros.
  rewrite Z.mod_small; lia.
Qed.

Lemma i64_of_u64 x : i64 (u64 x) = i64 x.
Proof.
  unfold i64, u64, two64, two63.
  rewrite Z.add_mod_idemp_l by lia. reflexivity.
Qed.

Lemma i32_small x : - 2 ^ 31 <= x < 2 ^ 31 -> i32 x = x.
Proof. unfold i32; intros; rewrite Z.mod_small; lia. Qed.

(** Unsigned arithmetic is arithmetic modulo 2^64: inner wrap-arounds can be
    dropped under an outer one. *)
Lemma u64_add_l x y : u64 (u64 x + y) = u64 (x + y).
Proof. unfold u64, two64; apply Z.add_mod_idemp_l; lia. Qed.

Lemma u64_add_r x y : u64 (x + u64 y) = u64 (x + y).
Proof. unfold u64, two64; apply Z.add_mod_idemp_r; lia. Qed.

Lemma u64_sub_l x y : u64 (u64 x - y) = u64 (x - y).
Proof. unfold u64, two64; apply Zminus_mod_idemp_l. Qed.

Lemma u64_sub_r x y : u64 (x - u64 y) = u64 (x - y).
Proof. unfold u64, two64; apply Zminus_mod_idemp_r. Qed.

End MachineInt.

(* ===================================================================== *)
(** * Intervals, rectangles and seeds (geom.h, seed.h) *)
(* ===================================================================== *)

Module SeedDefs.
Import MachineInt.

(** [geom::Interval<T>]: a start and a size. *)
Record Interval : Type := mkInterval { ivStart : Z; ivSize : Z }.

(** [geom::Rectangle<nucSeqIndex>]: x is the reference, y the query. *)
Record Rectangle : Type := mkRect { xXAxis : Interval; xYAxis : Interval }.

(** The constructor [Rectangle( iStartX, iStartY, iSizeX, iSizeY )]. *)
Definition Rectangle_ (iStartX iStartY iSizeX iSizeY : Z) : Rectangle :=
  mkRect (mkInterval iStartX iSizeX) (mkInterval iStartY iSizeY).

(** [Seed]: an interval on the query ([iStart], [iSize], inherited from
    [Interval<nucSeqIndex>]) and the start of the match on the reference.
    [nucSeqIndex] is [uint64_t]. *)
Record Seed : Type := mkSeed {
  iStart : Z;
  iSize : Z;
  uiPosOnReference : Z;
  uiAmbiguity : Z;
  uiSoCNt : Z;
  bOnForwStrand : bool;
  uiDelta : Z
}.

Definition start (s : Seed) : Z := iStart s.
Definition size (s : Seed) : Z := iSize s.
(** [Interval::end()]: [iStart + iSize]. *)
Definition end_ (s : Seed) : Z := u64 (iStart s + iSize s).
Definition start_ref (s : Seed) : Z := uiPosOnReference s.
(** [Seed::end_ref()]: [uiPosOnReference + size()]. *)
Definition end_ref (s : Seed) : Z := u64 (uiPosOnReference s + size s).

(** A seed whose fields are values of their type and whose two ends do not
    wrap around. *)
Definition seed_ok (s : Seed) : Prop :=
  0 <= iStart s /\ 0 <= iSize s /\ 0 <= uiPosOnReference s /\
  iStart s + iSize s < two64 /\ uiPosOnReference s + iSize s < two64.

Lemma end_ok s : seed_ok s -> end_ s = iStart s + iSize s.
Proof. unfold seed_ok, end_; intros; apply u64_small; unfold in_u64; lia. Qed.

Lemma end_ref_ok s : seed_ok s -> end_ref s = uiPosOnReference s + iSize s.
Proof.
  unfold seed_ok, end_ref, size; intros; apply u64_small; unfold in_u64; lia.
Qed.

End SeedDefs.

(* ===================================================================== *)
(** * The shadows of the line sweep (linesweep.cpp) *)
(* ===================================================================== *)

Module LineSweep.
Import MachineInt SeedDefs.











End LineSweep.

(* ===================================================================== *)
(** * Lumping of seeds (harmonization.h, SeedLumping) *)
(* ===================================================================== *)

Module Lumping.
Import MachineInt SeedDefs.

(** [start_ref( ) - (int64_t)start( )], stored in an [int64_t]: the
    subtraction is done on [uint64_t], the result converted. *)
Definition delta (s : Seed) : Z := i64 (u64 (start_ref s - u64 (i64 (start s)))).

(** [pRet->back( ).iSize += n]. *)
Definition grow (s : Seed) (n : Z) : Seed :=
  mkSeed (iStart s) (u64 (iSize s + n)) (uiPosOnReference s) (uiAmbiguity s)
         (uiSoCNt s) (bOnForwStrand s) (uiDelta s).

(** Overwriting the last element of a vector. *)
Definition set_back (l : list Seed) (s : Seed) : list Seed := removelast l ++ [s].

(** The [while] loop of [SeedLumping::execute]: [xIt] runs over the rest of
    the input, [pRet] is the output so far (never empty), [iDelta] the delta
    of the seed pushed last. *)
Fixpoint lump_loop (xIt : list Seed) (pRet : list Seed) (iDelta : Z) : list Seed :=
  match xIt with
  | [] => pRet
  | x :: rest =>
      let b := last pRet x in
      let iNewDelta := delta x in
      if (iDelta =? iNewDelta) && (start x <=? end_ b) then
        lump_loop rest
          (if end_ b <? end_ x
           then set_back pRet (grow b (u64 (end_ x - end_ b)))
           else pRet)
          iDelta
      else lump_loop rest (pRet ++ [x]) iNewDelta
  end.

(** [SeedLumping::execute].  [pIn->front( )] is read first: on an empty input
    this is an access outside the vector (undefined behaviour), modelled as
    [None]. *)
Definition execute (pIn : list Seed) : option (list Seed) :=
  match pIn with
  | [] => None
  | x :: rest => Some (lump_loop rest [x] (delta x))
  end.

(** Two seeds with the same query start, reference start and size. *)
Definition same_seed (a b : Seed) : Prop :=
  start a = start b /\ start_ref a = start_ref b /\ size a = size b.

(** Every seed of the list is in relation [R] with its successor. *)
Fixpoint chain (R : Seed -> Seed -> Prop) (l : list Seed) : Prop :=
  match l with
  | a :: tl => match tl with b :: _ => R a b | [] => True end /\ chain R tl
  | [] => True
  end.

(** No two neighbours of the list are the same seed. *)
Definition no_equal_adjacent (l : list Seed) : Prop :=
  chain (fun a b => ~ same_seed a b) l.

(** What separates a seed from the one pushed before it: another delta, or a
    query start behind the end of the earlier seed. *)
Definition apart (a b : Seed) : Prop := delta a <> delta b \/ end_ a < start b.

(** The query interval of the seed is a value of its type: it does not wrap. *)
Definition q_ok (s : Seed) : Prop :=
  0 <= iStart s /\ 0 <= iSize s /\ iStart s + iSize s < two64.

(** [b] is [a], possibly with a larger size. *)
Definition grown_from (a b : Seed) : Prop :=
  iStart b = iStart a /\ uiPosOnReference b = uiPosOnReference a /\
  uiAmbiguity b = uiAmbiguity a /\ uiSoCNt b = uiSoCNt a /\
  bOnForwStrand b = bOnForwStrand a /\ uiDelta b = uiDelta a /\
  iSize a <= iSize b.

Lemma grown_from_refl a : grown_from a a.
Proof. unfold grown_from; repeat split; lia. Qed.

Lemma grown_from_trans a b c : grown_from a b -> grown_from b c -> grown_from a c.
Proof. unfold grown_from; intuition congruence || lia. Qed.

Lemma q_end s : q_ok s -> end_ s = iStart s + iSize s.
Proof. unfold q_ok, end_; intros; apply u64_small; unfold in_u64; lia. Qed.

Lemma chain_snoc R l b x :
  chain R (l ++ [b]) -> R b x -> chain R ((l ++ [b]) ++ [x]).
Proof.
  induction l as [|a l IH]; simpl; intros H Hx.
  - tauto.
  - destruct H as [Ha Hc]. split; [|apply IH; assumption].
    destruct l; simpl in *; assumption.
Qed.

Lemma chain_replace_last R l b b' :
  chain R (l ++ [b]) -> (forall a, R a b -> R a b') -> chain R (l ++ [b']).
Proof.
  induction l as [|a l IH]; simpl; intros H Hb.
  - tauto.
  - destruct H as [Ha Hc]. split; [|apply IH; assumption].
    destruct l; simpl in *; auto.
Qed.

Lemma chain_impl (P : Seed -> Prop) (R S : Seed -> Seed -> Prop) l :
  (forall a b, P a -> R a b -> S a b) ->
  Forall P l -> chain R l -> chain S l.
Proof.
  intros HRS; induction l as [|a l IH]; simpl; intros HP H; [exact I|].
  inversion HP; subst. destruct H as [Ha Hc]. split; [|auto].
  destruct l; auto.
Qed.

(** Growing the last seed up to the end of [x] (the merge step). *)
Lemma grow_to_end b x :
  q_ok b -> q_ok x -> end_ b < end_ x ->
  let b' := grow b (u64 (end_ x - end_ b)) in
  q_ok b' /\ end_ b' = end_ x /\ grown_from b b'.
Proof.
  intros Hb Hx Hlt b'.
  pose proof (q_end b Hb) as Eb. pose proof (q_end x Hx) as Ex.
  assert (Hsz : iSize b' = iSize b + (end_ x - end_ b)).
  { unfold b'; simpl. rewrite u64_add_r. apply u64_small.
    unfold q_ok in *. unfold in_u64. lia. }
  assert (Hok : q_ok b').
  { unfold q_ok in *. rewrite Hsz. unfold b'; simpl. lia. }
  split; [exact Hok|]. split.
  - rewrite (q_end b' Hok), Hsz. unfold b'; simpl. lia.
  - unfold grown_from. rewrite Hsz. unfold b'; simpl. repeat split; lia.
Qed.

Lemma apart_not_same a b : q_ok a -> apart a b -> ~ same_seed a b.
Proof.
  intros Ha [Hd | He] (Hs & Hr & Hz).
  - apply Hd. unfold delta. now rewrite Hs, Hr.
  - rewrite (q_end a Ha) in He. unfold start in *. unfold q_ok in Ha. lia.
Qed.

Lemma lump_loop_spec xIt :
  forall done b iDelta x0 d,
    Forall q_ok xIt -> Forall q_ok (done ++ [b]) -> iDelta = delta b ->
    chain apart (done ++ [b]) -> grown_from x0 (hd d (done ++ [b])) ->
    exists r rest,
      lump_loop xIt (done ++ [b]) iDelta = r :: rest /\
      grown_from x0 r /\ Forall q_ok (r :: rest) /\ chain apart (r :: rest).
Proof.
  induction xIt as [|x rest IH]; intros done b iDelta x0 d Hx Hp Hd Hc Hg.
  - simpl. destruct (done ++ [b]) as [|r out] eqn:E.
    + destruct done; discriminate.
    + exists r, out. simpl in Hg. auto.
  - inversion Hx as [|? ? Hqx Hrest]; subst.
    assert (Hqb : q_ok b).
    { apply Forall_app in Hp. destruct Hp as [_ Hb]. now inversion Hb. }
    assert (Hqd : Forall q_ok done) by (apply Forall_app in Hp; tauto).
    simpl. rewrite last_last.
    destruct ((delta b =? delta x) && (start x <=? end_ b)) eqn:Em.
    + destruct (end_ b <? end_ x) eqn:Eg.
      * apply Z.ltb_lt in Eg.
        destruct (grow_to_end b x Hqb Hqx Eg) as (Hq' & He' & Hg').
        unfold set_back. rewrite removelast_last.
        apply (IH done _ (delta b) x0 d); auto.
        -- apply Forall_app; split; auto.
        -- apply chain_replace_last with (b := b); auto.
        -- destruct done; simpl in *; auto.
           apply grown_from_trans with (b := b); auto.
      * apply (IH done b (delta b) x0 d); auto.
    + apply (IH (done ++ [b]) x (delta x) x0 d); auto.
      * apply Forall_app; split; auto.
      * apply chain_snoc; auto.
        apply andb_false_iff in Em. destruct Em as [Em | Em].
        -- left. apply Z.eqb_neq in Em. exact Em.
        -- right. apply Z.leb_gt in Em. exact Em.
      * destruct done; simpl in *; auto.
Qed.

(** A seed that repeats its predecessor leaves the state of the loop as it
    is. *)
Lemma lump_loop_dup x x' rest done b iDelta :
  q_ok x -> same_seed x x' ->
  lump_loop (x :: x' :: rest) (done ++ [b]) iDelta =
  lump_loop (x :: rest) (done ++ [b]) iDelta.
Proof.
  intros Hx (Hs & Hr & Hz).
  assert (Hd : delta x' = delta x) by (unfold delta; now rewrite Hs, Hr).
  assert (He : end_ x' = end_ x).
  { unfold end_. unfold start, size in *. now rewrite Hs, Hz. }
  pose proof (q_end x Hx) as Ex.
  assert (Hle : start x <= end_ x) by (unfold start, q_ok in *; lia).
  cbn [lump_loop]. rewrite !last_last.
  destruct ((iDelta =? delta x) && (start x <=? end_ b)) eqn:Em.
  - apply andb_true_iff in Em. destruct Em as [Ed El]. apply Z.leb_le in El.
    destruct (end_ b <? end_ x) eqn:Eg.
    + apply Z.ltb_lt in Eg.
      unfold set_back. rewrite removelast_last, last_last.
      assert (Eb : end_ (grow b (u64 (end_ x - end_ b))) = end_ x).
      { unfold end_ at 1. cbn [grow iStart iSize].
        rewrite u64_add_r, Z.add_assoc, u64_add_r.
        replace (iStart b + iSize b + (end_ x - end_ b))
          with (end_ x + (iStart b + iSize b - end_ b)) by lia.
        unfold end_ at 2. rewrite <- u64_add_r, u64_sub_r, Z.sub_diag.
        rewrite u64_add_r, Z.add_0_r.
        apply u64_small. rewrite Ex. unfold q_ok, in_u64 in *. lia. }
      rewrite Hd, Ed, <- Hs, Eb, He. simpl.
      replace (start x <=? end_ x) with true by (symmetry; apply Z.leb_le; exact Hle).
      rewrite Z.ltb_irrefl. reflexivity.
    + rewrite !last_last, Hd, Ed, <- Hs, He, Eg. simpl.
      replace (start x <=? end_ b) with true by (symmetry; apply Z.leb_le; exact El).
      reflexivity.
  - rewrite Hd, Z.eqb_refl, <- Hs, He. simpl.
    replace (start x <=? end_ x) with true by (symmetry; apply Z.leb_le; exact Hle).
    rewrite Z.ltb_irrefl. reflexivity.
Qed.

Lemma lump_loop_repeat_back x x' rest done :
  q_ok x -> same_seed x x' ->
  lump_loop (x' :: rest) (done ++ [x]) (delta x) =
  lump_loop rest (done ++ [x]) (delta x).
Proof.
  intros Hx (Hs & Hr & Hz).
  assert (Hd : delta x' = delta x) by (unfold delta; now rewrite Hs, Hr).
  assert (He : end_ x' = end_ x).
  { unfold end_. unfold start, size in *. now rewrite Hs, Hz. }
  pose proof (q_end x Hx) as Ex.
  assert (Hle : start x <= end_ x) by (unfold start, q_ok in *; lia).
  cbn [lump_loop]. rewrite last_last, Hd, Z.eqb_refl, <- Hs, He. simpl.
  replace (start x <=? end_ x) with true by (symmetry; apply Z.leb_le; exact Hle).
  rewrite Z.ltb_irrefl. reflexivity.
Qed.

Lemma lump_loop_dup_at pre : forall x x' rest done b iDelta,
  q_ok x -> same_seed x x' ->
  lump_loop (pre ++ x :: x' :: rest) (done ++ [b]) iDelta =
  lump_loop (pre ++ x :: rest) (done ++ [b]) iDelta.
Proof.
  induction pre as [|p pre IH]; intros x x' rest done b iDelta Hx Hs.
  - apply lump_loop_dup; assumption.
  - cbn [app lump_loop]. rewrite last_last.
    destruct ((iDelta =? delta p) && (start p <=? end_ b)).
    + destruct (end_ b <? end_ p).
      * unfold set_back. rewrite removelast_last. apply IH; assumption.
      * apply IH; assumption.
    + apply IH; assumption.
Qed.

(** C10 (as amended). [execute] reads the first seed of its input before any
    test for emptiness, so the empty input is outside its domain.  On a
    non-empty input whose query intervals do not wrap around, the result is
    non-empty; its first seed is the first input seed, except that its size
    may have grown by the seeds merged into it; no two neighbours of the
    result have the same query start, reference start and size; and a seed
    that repeats its predecessor in the input is merged into it: the result
    is the one for the input without the repetition. *)
Theorem lumping_spec :
  execute [] = None /\
  (forall x rest,
      Forall q_ok (x :: rest) ->
      exists r out,
        execute (x :: rest) = Some (r :: out) /\
        grown_from x r /\ no_equal_adjacent (r :: out)) /\
  (forall pre x x' rest,
      q_ok x -> same_seed x x' ->
      execute (pre ++ x :: x' :: rest) = execute (pre ++ x :: rest)).
Proof.
  split; [reflexivity|]. split.
  - intros x rest H. inversion H as [|? ? Hx Hrest]; subst.
    destruct (lump_loop_spec rest [] x (delta x) x x) as (r & out & E & Hg & Hq & Hc);
      simpl; auto using grown_from_refl.
    exists r, out. unfold execute. simpl in E. rewrite E.
    split; [reflexivity|]. split; [exact Hg|].
    unfold no_equal_adjacent.
    apply chain_impl with (P := q_ok) (R := apart); auto using apart_not_same.
  - intros pre x x' rest Hx Hs. destruct pre as [|p pre]; simpl.
    + f_equal. apply (lump_loop_repeat_back x x' rest []); assumption.
    + f_equal. apply (lump_loop_dup_at pre x x' rest [] p); assumption.
Qed.

(** Three seeds on one diagonal, the second a copy of the first, the third
    overlapping both: the three are lumped into one seed of 8 bases. *)
Lemma lumping_spec_witness :
  let a := mkSeed 0 5 0 1 0 true 0 in
  let b := mkSeed 3 5 3 1 0 true 0 in
  Forall q_ok [a; a; b] /\ q_ok a /\ same_seed a a /\
  (exists r out, execute [a; a; b] = Some (r :: out) /\
                 grown_from a r /\ no_equal_adjacent (r :: out)) /\
  execute ([] ++ [a; a; b]) = execute ([] ++ [a; b]).
Proof.
  cbv zeta.
  assert (Hq : forall n m r, 0 <= n -> 0 <= m -> n + m < two64 ->
                 q_ok (mkSeed n m r 1 0 true 0))
    by (intros; unfold q_ok; simpl; lia).
  assert (H1 : q_ok (mkSeed 0 5 0 1 0 true 0)) by (apply Hq; unfold two64; lia).
  assert (H2 : q_ok (mkSeed 3 5 3 1 0 true 0)) by (apply Hq; unfold two64; lia).
  assert (H3 : same_seed (mkSeed 0 5 0 1 0 true 0) (mkSeed 0 5 0 1 0 true 0))
    by (repeat split).
  assert (HF : Forall q_ok [mkSeed 0 5 0 1 0 true 0; mkSeed 0 5 0 1 0 true 0;
                            mkSeed 3 5 3 1 0 true 0])
    by (apply Forall_cons; [exact H1 | apply Forall_cons; [exact H1 |
        apply Forall_cons; [exact H2 | apply Forall_nil]]]).
  destruct lumping_spec as (_ & Hne & Hdup).
  split; [exact HF|]. split; [exact H1|]. split; [exact H3|]. split.
  - exact (Hne _ _ HF).
  - exact (Hdup [] _ _ [mkSeed 3 5 3 1 0 true 0] H1 H3).
Defined.

(** The claim as stated fails: the first seed of the result is not always the
    first seed of the input.  Two overlapping seeds on one diagonal come out
    as one seed whose size (8) is not the size of the first input seed (5). *)
Lemma lumping_first_seed_grows :
  let a := mkSeed 0 5 0 1 0 true 0 in
  let b := mkSeed 3 5 3 1 0 true 0 in
  execute [a; b] = Some [mkSeed 0 8 0 1 0 true 0] /\
  hd a [mkSeed 0 8 0 1 0 true 0] <> a.
Proof.
  cbv zeta. split; [vm_compute; reflexivity|]. simpl. discriminate.
Qed.

End Lumping.

(* ===================================================================== *)
(** * The packed reference (fileReader.h, class Pack) *)
(* ===================================================================== *)

Module PackStore.
Import MachineInt.

(** [Pack::SequenceInPack]: the descriptor of one contig. *)
Record SequenceInPack : Type := mkSequenceInPack {
  sName : string;
  sComment : string;
  uiStartOffsetUnpacked : Z;
  uiLengthUnpacked : Z;
  gi : Z;
  uiNumberOfHoles : Z
}.

(** [Pack::HoleDescriptor]: a run of bases that are not A, C, G or T. *)
Record HoleDescriptor : Type := mkHoleDescriptor {
  offset : Z;
  length : Z;
  xHoleCharacter : ascii
}.

(** [Pack]: contigs, holes, the forward strand in 2 bits per base (four bases
    per byte), the seed of the random number generator and the number of
    bases of the forward strand. *)
Record Pack : Type := mkPack {
  xVectorOfSequenceDescriptors : list SequenceInPack;
  xVectorOfHoleDescriptors : list HoleDescriptor;
  xPackedNucSeqs : list Z;
  seed : Z;
  uiUnpackedSizeForwardStrand : Z
}.

Definition uiUnpackedSizeForwardPlusReverse (p : Pack) : Z :=
  u64 (uiUnpackedSizeForwardStrand p * 2).

Definition uiStartOfReverseStrand (p : Pack) : Z := uiUnpackedSizeForwardStrand p.

(** [getNucleotideOnPos]:
    [xPackedNucSeqs[ uiPosition >> 2 ] >> ( ( ~uiPosition & 3UL ) << 1 ) & 3].
    A position behind the last byte reads outside the vector in the source;
    here it reads 0. *)
Definition getNucleotideOnPos (p : Pack) (uiPosition : Z) : Z :=
  Z.land
    (Z.shiftr (nth (Z.to_nat (Z.shiftr uiPosition 2)) (xPackedNucSeqs p) 0)
              (Z.shiftl (Z.land (Z.lnot uiPosition) 3) 1))
    3.

Definition bPositionIsOnReversStrand (p : Pack) (uiPosition : Z) : bool :=
  uiStartOfReverseStrand p <=? uiPosition.

(** [iAbsolutePosition( uiPosition )]: computed on [uint64_t], returned as
    [int64_t]. *)
Definition iAbsolutePosition (p : Pack) (uiPosition : Z) : Z :=
  i64 (if bPositionIsOnReversStrand p uiPosition
       then u64 (uiUnpackedSizeForwardPlusReverse p - u64 (uiPosition + 1))
       else uiPosition).

(** [uiPositionToReverseStrand]: [2 * forward size - ( position + 1 )]. *)
Definition uiPositionToReverseStrand (p : Pack) (uiPositionOnForwardStrand : Z) : Z :=
  u64 (uiUnpackedSizeForwardPlusReverse p - u64 (uiPositionOnForwardStrand + 1)).

(** The exceptions of an extraction. *)
Inductive ExtractError : Type :=
| OutOfRange          (* vRangeCheckAndThrow... *)
| BridgingExtraction  (* "Try to extract bridging sequence." *)
| BeginGreaterEnd.    (* "Try to extract with begin greater than end." *)

Inductive result (A : Type) : Type :=
| Ok (a : A)
| Err (e : ExtractError).
Arguments Ok {A} a.
Arguments Err {A} e.

(** Modelled from the spec: [vRangeCheckAndThrowExclusive] and
    [vRangeCheckAndThrowInclusive] are declared in support.h, which is not
    among the sources.  They accept a value in [min, max) and in [min, max],
    and throw for a request outside the address space otherwise. *)
Definition vRangeCheckExclusive (xRangeMin xVal xRangeMax : Z) : bool :=
  (xRangeMin <=? xVal) && (xVal <? xRangeMax).

Definition vRangeCheckInclusive (xRangeMin xVal xRangeMax : Z) : bool :=
  (xRangeMin <=? xVal) && (xVal <=? xRangeMax).

(** The positions [a, a+1, ..., b-1] of a counting-up loop and the positions
    [a, a-1, ..., b+1] of a counting-down loop. *)
Definition upto (a b : Z) : list Z :=
  map (fun i => a + Z.of_nat i) (seq 0 (Z.to_nat (b - a))).

Definition downto (a b : Z) : list Z :=
  map (fun i => a - Z.of_nat i) (seq 0 (Z.to_nat (a - b))).

(** [vExtractSubsection( iBegin, iEnd, rxSequence, bAppend )]: the checks in
    the order of the source, then the bases of the forward strand, or the
    complements [3 - base] of the reverse strand read downwards.  The holes
    are not looked at ([CHECK_HOLE_DESC] is 0).  [iBegin] and [iEnd] are
    [int64_t]. *)
Definition vExtractSubsection (p : Pack) (iBegin iEnd : Z) (rxSequence : list Z)
           (bAppend : bool) : result (list Z) :=
  let iSize := i64 (uiUnpackedSizeForwardPlusReverse p) in
  if negb (vRangeCheckExclusive 0 iBegin iSize) then Err OutOfRange
  else if negb (vRangeCheckInclusive 0 iEnd iSize) then Err OutOfRange
  else if negb (Bool.eqb (bPositionIsOnReversStrand p (u64 iBegin))
                         (bPositionIsOnReversStrand p (u64 (iEnd - 1))))
  then Err BridgingExtraction
  else if negb (iBegin <=? iEnd) then Err BeginGreaterEnd
  else
    let kept := if bAppend then rxSequence else [] in
    if negb (bPositionIsOnReversStrand p (u64 iBegin)) then
      Ok (kept ++ map (fun iPosition => getNucleotideOnPos p (u64 iPosition))
                      (upto iBegin iEnd))
    else
      let iAbsoluteBegin := iAbsolutePosition p (u64 iBegin) in
      let iAbsoluteEnd := iAbsolutePosition p (u64 iEnd) in
      Ok (kept ++ map (fun iPosition => u8 (3 - getNucleotideOnPos p (u64 iPosition)))
                      (downto iAbsoluteBegin iAbsoluteEnd)).

(** [vExtract( iBegin, iEnd )]: the extraction into a fresh sequence. *)
Definition vExtract (p : Pack) (iBegin iEnd : Z) : result (list Z) :=
  vExtractSubsection p iBegin iEnd [] false.

(** The hole iterator of [vExtractSubsectionN] on the forward strand: holes
    that end at or before the position are left behind.  The source starts
    the iterator with [std::lower_bound] and adds [offset + length] in
    [uint64_t]; for holes of positive length that follow each other in order
    inside the pack that is the first hole found here, and the same sum.  For
    holes out of order or of negative length the two can differ. *)
Fixpoint skipHolesForward (holes : list HoleDescriptor) (uiPosition : Z)
  : list HoleDescriptor :=
  match holes with
  | h :: t => if offset h + length h <=? uiPosition
              then skipHolesForward t uiPosition else holes
  | [] => []
  end.

(** The iterator on the reverse strand runs over the holes from the last to
    the first: holes that start behind the position are left behind. *)
Fixpoint skipHolesReverse (holes : list HoleDescriptor) (uiPosition : Z)
  : list HoleDescriptor :=
  match holes with
  | h :: t => if uiPosition <? offset h
              then skipHolesReverse t uiPosition else holes
  | [] => []
  end.

(** The loop over the positions of the forward strand: [4] inside a hole, the
    stored base elsewhere. *)
Fixpoint extractForwardN (p : Pack) (holes : list HoleDescriptor) (positions : list Z)
  : list Z :=
  match positions with
  | [] => []
  | iPosition :: rest =>
      let it := skipHolesForward holes (u64 iPosition) in
      (match it with
       | h :: _ => if offset h <=? u64 iPosition then 4
                   else getNucleotideOnPos p (u64 iPosition)
       | [] => getNucleotideOnPos p (u64 iPosition)
       end) :: extractForwardN p it rest
  end.

Fixpoint extractReverseN (p : Pack) (holes : list HoleDescriptor) (positions : list Z)
  : list Z :=
  match positions with
  | [] => []
  | iPosition :: rest =>
      let it := skipHolesReverse holes (u64 iPosition) in
      (match it with
       | h :: _ => if u64 iPosition <? offset h + length h then 4
                   else u8 (3 - getNucleotideOnPos p (u64 iPosition))
       | [] => u8 (3 - getNucleotideOnPos p (u64 iPosition))
       end) :: extractReverseN p it rest
  end.

(** [vExtractSubsectionN]: as [vExtractSubsection], with the bases of a hole
    given as [4] (N).  An empty request returns before any check.  The start
    of the hole iterator ([std::lower_bound]) is the first hole that does not
    lie before the first position. *)
Definition vExtractSubsectionN (p : Pack) (iBegin iEnd : Z) (rxSequence : list Z)
           (bAppend : bool) : result (list Z) :=
  let kept := if bAppend then rxSequence else [] in
  if iBegin =? iEnd then Ok kept
  else
  let iSize := i64 (uiUnpackedSizeForwardPlusReverse p) in
  if negb (vRangeCheckExclusive 0 iBegin iSize) then Err OutOfRange
  else if negb (vRangeCheckInclusive 0 iEnd iSize) then Err OutOfRange
  else if negb (Bool.eqb (bPositionIsOnReversStrand p (u64 iBegin))
                         (bPositionIsOnReversStrand p (u64 (iEnd - 1))))
  then Err BridgingExtraction
  else if negb (iBegin <=? iEnd) then Err BeginGreaterEnd
  else
    if negb (bPositionIsOnReversStrand p (u64 iBegin)) then
      Ok (kept ++ extractForwardN p
                    (skipHolesForward (xVectorOfHoleDescriptors p) (u64 iBegin))
                    (upto iBegin iEnd))
    else
      let iAbsoluteBegin := iAbsolutePosition p (u64 iBegin) in
      let iAbsoluteEnd := iAbsolutePosition p (u64 iEnd) in
      Ok (kept ++ extractReverseN p
                    (skipHolesReverse (rev (xVectorOfHoleDescriptors p))
                                      (u64 iAbsoluteBegin))
                    (downto iAbsoluteBegin iAbsoluteEnd)).

(** The descriptor that is read outside the vector. *)
Definition noDescriptor : SequenceInPack :=
  mkSequenceInPack EmptyString EmptyString 0 0 0 0.

(** The descriptor with index [iSequenceId]; an index outside the vector is
    an access outside it in the source, and reads an empty descriptor here. *)
Definition descriptorAt (p : Pack) (iSequenceId : Z) : SequenceInPack :=
  nth (Z.to_nat iSequenceId) (xVectorOfSequenceDescriptors p)
      (mkSequenceInPack EmptyString EmptyString 0 0 0 0).

Definition startOfSequenceWithId (p : Pack) (iSequenceId : Z) : Z :=
  uiStartOffsetUnpacked (descriptorAt p iSequenceId).

Definition endOfSequenceWithId (p : Pack) (iSequenceId : Z) : Z :=
  u64 (startOfSequenceWithId p iSequenceId + uiLengthUnpacked (descriptorAt p iSequenceId)).

Definition uiNumContigs (p : Pack) : Z :=
  Z.of_nat (List.length (xVectorOfSequenceDescriptors p)).

(** The binary search of [uiSequenceIdForPosition]: the loop
    [while( uiLeft < uiRight )] with its two [break]s; the value is [uiMid]
    as the loop leaves it.  [fuel] bounds the number of rounds. *)
Fixpoint searchSequenceId (fuel : nat) (p : Pack) (iAbsPosition : Z)
         (uiLeft uiMid uiRight : Z) : Z :=
  match fuel with
  | O => uiMid
  | S f =>
      if uiLeft <? uiRight then
        let uiMid := (uiLeft + uiRight) / 2 in
        if i64 (startOfSequenceWithId p uiMid) <=? iAbsPosition then
          if uiMid =? u64 (uiNumContigs p - 1) then uiMid
          else if iAbsPosition <? i64 (startOfSequenceWithId p (uiMid + 1)) then uiMid
          else searchSequenceId f p iAbsPosition (uiMid + 1) uiMid uiRight
        else searchSequenceId f p iAbsPosition uiLeft uiMid uiMid
      else uiMid
  end.

(** [uiSequenceIdForPosition( uiPosition )]: the position is mapped to the
    forward strand, then searched.  Every round of the loop shrinks
    [uiRight - uiLeft], so one round per contig and one more are enough. *)
Definition uiSequenceIdForPosition (p : Pack) (uiPosition : Z) : Z :=
  searchSequenceId (S (List.length (xVectorOfSequenceDescriptors p))) p
                   (iAbsolutePosition p uiPosition) 0 0 (uiNumContigs p).

(** The invariant of the descriptors (checked by
    [debugCheckSequenceDescriptorVector]): the contigs follow each other
    without a gap from [from] up to [total]; no contig is empty
    ([vAppendSequence] skips empty sequences). *)
Fixpoint contigsChain (from : Z) (descs : list SequenceInPack) (total : Z) : Prop :=
  match descs with
  | [] => from = total
  | d :: t => uiStartOffsetUnpacked d = from /\ 0 < uiLengthUnpacked d /\
              contigsChain (from + uiLengthUnpacked d) t total
  end.

Definition contigs_ok (p : Pack) : Prop :=
  contigsChain 0 (xVectorOfSequenceDescriptors p) (uiUnpackedSizeForwardStrand p).

(** The reverse complement of a sequence of base codes: the bases in reverse
    order, each [b] replaced by [3 - b]. *)
Definition reverseComplement (l : list Z) : list Z := rev (map (fun b => 3 - b) l).

(** The interval of the reverse strand that corresponds to the interval
    [b, e) of the forward strand: its positions are the images
    [2 * forward size - 1 - q] of the positions [q] of [b, e), so it runs
    from the image of [e - 1] to the image of [b], inclusive. *)
Definition reverseInterval (p : Pack) (b e : Z) : Z * Z :=
  (uiPositionToReverseStrand p (e - 1), uiPositionToReverseStrand p b + 1).

(** The two ends of a request lie on opposite sides of the seam between the
    forward and the reverse strand, at position [L]. *)
Definition oppositeSides (L b e : Z) : Prop :=
  (b < L /\ L <= e - 1) \/ (e - 1 < L /\ L <= b).

(** The forward size of a pack is far from the end of [int64_t]. *)
Definition size_ok (p : Pack) : Prop :=
  0 <= uiUnpackedSizeForwardStrand p < 2 ^ 62.

Lemma both_strands_size p :
  size_ok p ->
  uiUnpackedSizeForwardPlusReverse p = 2 * uiUnpackedSizeForwardStrand p /\
  i64 (uiUnpackedSizeForwardPlusReverse p) = 2 * uiUnpackedSizeForwardStrand p.
Proof.
  unfold size_ok, uiUnpackedSizeForwardPlusReverse; intros H.
  assert (E : u64 (uiUnpackedSizeForwardStrand p * 2) = 2 * uiUnpackedSizeForwardStrand p).
  { rewrite u64_small; [lia|]. unfold in_u64, two64. lia. }
  rewrite E. split; [reflexivity|].
  apply i64_small. unfold in_i64, two63. lia.
Qed.

Lemma nucleotide_range p pos : 0 <= getNucleotideOnPos p pos <= 3.
Proof.
  unfold getNucleotideOnPos.
  match goal with |- 0 <= Z.land ?x 3 <= 3 =>
    pose proof (Z.land_ones x 2) as E; pose proof (Z.mod_pos_bound x (2 ^ 2)) as B
  end.
  change (Z.ones 2) with 3 in E. rewrite E by lia. lia.
Qed.

Lemma rev_upto n : forall a,
  rev (map (fun i => a + Z.of_nat i) (seq 0 n)) =
  map (fun i => a + Z.of_nat n - 1 - Z.of_nat i) (seq 0 n).
Proof.
  induction n as [|n IH]; intros a; [reflexivity|].
  rewrite seq_S at 1. rewrite map_app, rev_app_distr. cbn [rev map app plus].
  rewrite IH. cbn [seq map]. f_equal; [lia|].
  rewrite <- seq_shift, map_map. apply map_ext. intros i. lia.
Qed.

Lemma downto_rev_upto b e : b <= e -> downto (e - 1) (b - 1) = rev (upto b e).
Proof.
  intros H. unfold downto, upto. rewrite rev_upto.
  replace (e - 1 - (b - 1)) with (e - b) by lia.
  apply map_ext. intros i. rewrite Z2Nat.id by lia. lia.
Qed.

(** The checks of an extraction for a request inside the address space. *)
Lemma extraction_checks p b e :
  size_ok p -> 0 <= b < e -> e <= 2 * uiUnpackedSizeForwardStrand p ->
  let L := uiUnpackedSizeForwardStrand p in
  vRangeCheckExclusive 0 b (i64 (uiUnpackedSizeForwardPlusReverse p)) = true /\
  vRangeCheckInclusive 0 e (i64 (uiUnpackedSizeForwardPlusReverse p)) = true /\
  bPositionIsOnReversStrand p (u64 b) = (L <=? b) /\
  bPositionIsOnReversStrand p (u64 (e - 1)) = (L <=? e - 1) /\
  (b <=? e) = true.
Proof.
  intros Hs Hb He L. destruct (both_strands_size p Hs) as [_ E]. rewrite E.
  unfold size_ok in Hs. fold L in Hs, He |- *.
  unfold vRangeCheckExclusive, vRangeCheckInclusive, bPositionIsOnReversStrand,
    uiStartOfReverseStrand. fold L.
  rewrite !u64_small by (unfold in_u64, two64; lia).
  repeat split; try reflexivity.
  - apply andb_true_iff; split; [apply Z.leb_le | apply Z.ltb_lt]; lia.
  - apply andb_true_iff; split; apply Z.leb_le; lia.
  - apply Z.leb_le; lia.
Qed.

(** C2. For a request [b, e) with [0 <= b < e <= 2L], both extractions raise
    the bridging error exactly when [b] and [e - 1] lie on opposite sides of
    the seam at [L]; a request that does not bridge returns a sequence (no
    error at all); and on a pack whose forward size is 1000 the request
    [990, 1010) raises the bridging error.  [L] is below 2^62, so that [2L]
    is an [int64_t]. *)
Theorem bridging_extraction_iff :
  forall (p : Pack) (b e : Z) (rx : list Z) (bAppend : bool),
    size_ok p ->
    0 <= b < e -> e <= 2 * uiUnpackedSizeForwardStrand p ->
    let L := uiUnpackedSizeForwardStrand p in
    (vExtractSubsection p b e rx bAppend = Err BridgingExtraction <->
     oppositeSides L b e) /\
    (vExtractSubsectionN p b e rx bAppend = Err BridgingExtraction <->
     oppositeSides L b e) /\
    (~ oppositeSides L b e ->
     exists s t, vExtractSubsection p b e rx bAppend = Ok s /\
                 vExtractSubsectionN p b e rx bAppend = Ok t) /\
    (L = 1000 -> vExtract p 990 1010 = Err BridgingExtraction).
Proof.
  intros p b e rx ap Hs Hb He L.
  destruct (extraction_checks p b e Hs Hb He) as (C1 & C2 & C3 & C4 & C5).
  fold L in C3, C4.
  assert (Hopp : oppositeSides L b e <-> Bool.eqb (L <=? b) (L <=? e - 1) = false).
  { unfold oppositeSides.
    destruct (Z.leb_spec L b), (Z.leb_spec L (e - 1)); simpl; split;
      intros; try discriminate; try lia; auto. }
  assert (Hne : (b =? e) = false) by (apply Z.eqb_neq; lia).
  unfold vExtractSubsectionN, vExtractSubsection.
  rewrite Hne, C1, C2, C3, C4, C5. cbn [negb].
  destruct (Bool.eqb (L <=? b) (L <=? e - 1)) eqn:Eb; cbn [negb].
  - repeat split.
    + destruct (negb (L <=? b)); discriminate.
    + intros H; apply Hopp in H; discriminate.
    + destruct (negb (L <=? b)); discriminate.
    + intros H; apply Hopp in H; discriminate.
    + intros _. destruct (negb (L <=? b)); eauto.
    + intros HL. unfold vExtract.
      assert (Hs' : 0 <= 990 < 1010) by lia.
      assert (He' : 1010 <= 2 * uiUnpackedSizeForwardStrand p) by (fold L; lia).
      destruct (extraction_checks p 990 1010 Hs Hs' He') as (D1 & D2 & D3 & D4 & D5).
      unfold vExtractSubsection. fold L in D3, D4.
      rewrite D1, D2, D3, D4, HL. reflexivity.
  - repeat split; try reflexivity.
    + intros _. apply Hopp. reflexivity.
    + intros _. apply Hopp. reflexivity.
    + intros H. exfalso. apply H, Hopp. reflexivity.
    + intros HL. unfold vExtract.
      assert (Hs' : 0 <= 990 < 1010) by lia.
      assert (He' : 1010 <= 2 * uiUnpackedSizeForwardStrand p) by (fold L; lia).
      destruct (extraction_checks p 990 1010 Hs Hs' He') as (D1 & D2 & D3 & D4 & D5).
      unfold vExtractSubsection. fold L in D3, D4.
      rewrite D1, D2, D3, D4, HL. reflexivity.
Qed.

(** A pack of 1000 bases, all A: the request [990, 1010) bridges the seam. *)
Lemma bridging_extraction_witness :
  let p := mkPack [] [] (repeat 0 250) 1 1000 in
  vExtractSubsection p 990 1010 [] false = Err BridgingExtraction /\
  vExtract p 990 1010 = Err BridgingExtraction.
Proof.
  cbv zeta.
  assert (Hs : size_ok (mkPack [] [] (repeat 0 250) 1 1000))
    by (unfold size_ok; simpl; lia).
  assert (Hb : 0 <= 990 < 1010) by lia.
  assert (He : 1010 <= 2 * uiUnpackedSizeForwardStrand (mkPack [] [] (repeat 0 250) 1 1000))
    by (simpl; lia).
  pose proof (bridging_extraction_iff (mkPack [] [] (repeat 0 250) 1 1000)
                990 1010 [] false Hs Hb He) as H.
  cbv zeta in H. destruct H as (H1 & _ & _ & H4).
  split.
  - apply H1. unfold oppositeSides. simpl. lia.
  - apply H4. reflexivity.
Defined.

(** C1. For every pack and every interval [b, e) of the forward strand
    ([0 <= b < e <= L], so it does not bridge the seam), the extraction of
    the corresponding interval of the reverse strand, whose positions are the
    images [2L - 1 - q] of the positions [q] of [b, e), is the reverse
    complement of the extraction of [b, e): the same bases in reverse order,
    each base [c] replaced by [3 - c]. *)
Theorem reverse_extraction_is_reverse_complement :
  forall (p : Pack) (b e : Z),
    size_ok p ->
    0 <= b < e -> e <= uiUnpackedSizeForwardStrand p ->
    exists fwd,
      vExtract p b e = Ok fwd /\
      Z.of_nat (List.length fwd) = e - b /\
      vExtract p (fst (reverseInterval p b e)) (snd (reverseInterval p b e)) =
        Ok (reverseComplement fwd).
Proof.
  intros p b e Hs Hb He.
  set (L := uiUnpackedSizeForwardStrand p) in *.
  destruct (both_strands_size p Hs) as [E2 _]. fold L in E2.
  assert (HL : 0 <= L < 2 ^ 62) by exact Hs.
  assert (R1 : uiPositionToReverseStrand p (e - 1) = 2 * L - e).
  { unfold uiPositionToReverseStrand. rewrite E2, u64_sub_r.
    rewrite u64_small; [lia | unfold in_u64, two64; lia]. }
  assert (R2 : uiPositionToReverseStrand p b + 1 = 2 * L - b).
  { unfold uiPositionToReverseStrand. rewrite E2, u64_sub_r.
    rewrite u64_small; [lia | unfold in_u64, two64; lia]. }
  unfold reverseInterval; cbn [fst snd]. rewrite R1, R2.
  exists (map (fun q => getNucleotideOnPos p (u64 q)) (upto b e)).
  split; [|split].
  - unfold vExtract, vExtractSubsection.
    destruct (extraction_checks p b e Hs Hb) as (C1 & C2 & C3 & C4 & C5); [fold L; lia|].
    fold L in C3, C4. rewrite C1, C2, C3, C4, C5.
    replace (L <=? b) with false by (symmetry; apply Z.leb_gt; lia).
    replace (L <=? e - 1) with false by (symmetry; apply Z.leb_gt; lia).
    reflexivity.
  - rewrite length_map. unfold upto. rewrite length_map, length_seq. lia.
  - unfold vExtract, vExtractSubsection.
    assert (Hb' : 0 <= 2 * L - e < 2 * L - b) by lia.
    destruct (extraction_checks p (2 * L - e) (2 * L - b) Hs Hb')
      as (C1 & C2 & C3 & C4 & C5); [fold L; lia|].
    fold L in C3, C4. rewrite C1, C2, C3, C4, C5.
    replace (L <=? 2 * L - e) with true by (symmetry; apply Z.leb_le; lia).
    replace (L <=? 2 * L - b - 1) with true by (symmetry; apply Z.leb_le; lia).
    cbn [negb Bool.eqb app]. f_equal.
    assert (A1 : iAbsolutePosition p (u64 (2 * L - e)) = e - 1).
    { unfold iAbsolutePosition, bPositionIsOnReversStrand, uiStartOfReverseStrand.
      fold L. rewrite E2. rewrite (u64_small (2 * L - e)) by (unfold in_u64, two64; lia).
      replace (L <=? 2 * L - e) with true by (symmetry; apply Z.leb_le; lia).
      rewrite u64_sub_r, i64_of_u64.
      replace (2 * L - (2 * L - e + 1)) with (e - 1) by lia.
      apply i64_small. unfold in_i64, two63. lia. }
    assert (A2 : iAbsolutePosition p (u64 (2 * L - b)) = b - 1).
    { unfold iAbsolutePosition, bPositionIsOnReversStrand, uiStartOfReverseStrand.
      fold L. rewrite E2. rewrite (u64_small (2 * L - b)) by (unfold in_u64, two64; lia).
      replace (L <=? 2 * L - b) with true by (symmetry; apply Z.leb_le; lia).
      rewrite u64_sub_r, i64_of_u64.
      replace (2 * L - (2 * L - b + 1)) with (b - 1) by lia.
      apply i64_small. unfold in_i64, two63. lia. }
    rewrite A1, A2, downto_rev_upto by lia.
    unfold reverseComplement. rewrite map_map, <- map_rev.
    apply map_ext. intros q. pose proof (nucleotide_range p (u64 q)).
    unfold u8. apply Z.mod_small. lia.
Qed.

(** The pack of the contig ACGTACGT (two bytes 00011011): the interval
    [2, 6) and its image [10, 14) on the reverse strand. *)
Lemma reverse_extraction_witness :
  let p := mkPack [] [] [27; 27] 1 8 in
  size_ok p /\ 0 <= 2 < 6 /\ 6 <= uiUnpackedSizeForwardStrand p /\
  reverseInterval p 2 6 = (10, 14) /\
  exists fwd,
    vExtract p 2 6 = Ok fwd /\
    Z.of_nat (List.length fwd) = 6 - 2 /\
    vExtract p (fst (reverseInterval p 2 6)) (snd (reverseInterval p 2 6)) =
      Ok (reverseComplement fwd).
Proof.
  cbv zeta.
  assert (Hs : size_ok (mkPack [] [] [27; 27] 1 8)) by (unfold size_ok; simpl; lia).
  assert (Hb : 0 <= 2 < 6) by lia.
  assert (He : 6 <= uiUnpackedSizeForwardStrand (mkPack [] [] [27; 27] 1 8))
    by (simpl; lia).
  split; [exact Hs|]. split; [exact Hb|]. split; [exact He|].
  split; [reflexivity|].
  exact (reverse_extraction_is_reverse_complement _ 2 6 Hs Hb He).
Defined.

(** On that pack the forward interval reads GTAC and so does its reverse
    image, GTAC being its own reverse complement. *)
Example reverse_extraction_example :
  let p := mkPack [] [] [27; 27] 1 8 in
  vExtract p 2 6 = Ok [2; 3; 0; 1] /\ vExtract p 10 14 = Ok [2; 3; 0; 1] /\
  vExtract p 0 3 = Ok [0; 1; 2] /\ vExtract p 13 16 = Ok [1; 2; 3].
Proof. vm_compute. repeat split. Qed.

(** ** The contig of a position *)

(** What the chain of the contigs says about the contig with index [i]. *)
Lemma contigsChain_nth descs : forall from total i,
  contigsChain from descs total -> (i < List.length descs)%nat ->
  let d := nth i descs noDescriptor in
  from <= uiStartOffsetUnpacked d /\ 0 < uiLengthUnpacked d /\
  uiStartOffsetUnpacked d + uiLengthUnpacked d <= total /\
  ((S i < List.length descs)%nat ->
   uiStartOffsetUnpacked (nth (S i) descs noDescriptor) =
   uiStartOffsetUnpacked d + uiLengthUnpacked d) /\
  (S i = List.length descs ->
   uiStartOffsetUnpacked d + uiLengthUnpacked d = total).
Proof.
  induction descs as [|d0 t IH]; intros from total i Hc Hi; [simpl in Hi; lia|].
  destruct Hc as (Hs & Hl & Hc).
  assert (Htot : forall f l tot, contigsChain f l tot -> f <= tot).
  { intros f l; revert f; induction l as [|x l IHl]; intros f tot H; simpl in H.
    - lia.
    - destruct H as (_ & Hx & H). apply IHl in H. lia. }
  destruct i as [|i].
  - cbn [nth]. cbv zeta. pose proof (Htot _ _ _ Hc).
    split; [lia|]. split; [exact Hl|]. split; [lia|]. split.
    + intros Hlen. destruct t as [|d1 t']; [simpl in Hlen; lia|].
      cbn [nth]. destruct Hc as (Hs1 & _). lia.
    + intros Hlen. destruct t; [simpl in Hc; lia | simpl in Hlen; lia].
  - cbn [nth]. simpl in Hi.
    destruct (IH (from + uiLengthUnpacked d0) total i Hc) as (A & B & C & D & E); [lia|].
    cbv zeta. split; [lia|]. split; [exact B|]. split; [exact C|]. split.
    + intros Hlen. apply D. simpl in Hlen. lia.
    + intros Hlen. apply E. simpl in Hlen. lia.
Qed.

(** The starts of the contigs grow with the index. *)
Lemma contig_starts_mono descs total : forall i j,
  contigsChain 0 descs total -> (i < j)%nat -> (j < List.length descs)%nat ->
  uiStartOffsetUnpacked (nth i descs noDescriptor) +
  uiLengthUnpacked (nth i descs noDescriptor) <=
  uiStartOffsetUnpacked (nth j descs noDescriptor).
Proof.
  intros i j Hc Hij. induction Hij as [|j Hij IH]; intros Hj.
  - destruct (contigsChain_nth descs 0 total i Hc) as (_ & _ & _ & D & _); [lia|].
    rewrite D by lia. lia.
  - destruct (contigsChain_nth descs 0 total j Hc) as (_ & B & _ & D & _); [lia|].
    rewrite D by lia. specialize (IH ltac:(lia)). lia.
Qed.

(** The size of the pack and of every contig in the range of [int64_t]. *)
Lemma contig_start_fits p i :
  size_ok p -> contigs_ok p ->
  (i < List.length (xVectorOfSequenceDescriptors p))%nat ->
  i64 (startOfSequenceWithId p (Z.of_nat i)) =
  uiStartOffsetUnpacked (nth i (xVectorOfSequenceDescriptors p) noDescriptor) /\
  0 <= uiStartOffsetUnpacked (nth i (xVectorOfSequenceDescriptors p) noDescriptor)
    < uiUnpackedSizeForwardStrand p.
Proof.
  intros Hs Hc Hi.
  destruct (contigsChain_nth _ 0 _ i Hc Hi) as (A & B & C & _).
  unfold startOfSequenceWithId, descriptorAt. rewrite Nat2Z.id. fold noDescriptor.
  unfold size_ok in Hs. split; [|lia].
  apply i64_small. unfold in_i64, two63. lia.
Qed.

(** The search finds the contig of a position of the forward strand: the
    loop is left by one of its [break]s, at the contig that holds the
    position. *)
Lemma searchSequenceId_spec p iAbs :
  size_ok p -> contigs_ok p ->
  0 <= iAbs < uiUnpackedSizeForwardStrand p ->
  forall fuel l mid r,
    (l <= r)%nat -> (r <= List.length (xVectorOfSequenceDescriptors p))%nat ->
    (r - l < fuel)%nat ->
    (l < List.length (xVectorOfSequenceDescriptors p))%nat ->
    uiStartOffsetUnpacked (nth l (xVectorOfSequenceDescriptors p) noDescriptor) <= iAbs ->
    (r = List.length (xVectorOfSequenceDescriptors p) \/
     iAbs < uiStartOffsetUnpacked (nth r (xVectorOfSequenceDescriptors p) noDescriptor)) ->
    exists k,
      searchSequenceId fuel p iAbs (Z.of_nat l) mid (Z.of_nat r) = Z.of_nat k /\
      (k < List.length (xVectorOfSequenceDescriptors p))%nat /\
      let d := nth k (xVectorOfSequenceDescriptors p) noDescriptor in
      uiStartOffsetUnpacked d <= iAbs < uiStartOffsetUnpacked d + uiLengthUnpacked d.
Proof.
  intros Hs Hc Habs.
  set (descs := xVectorOfSequenceDescriptors p) in *.
  set (n := List.length descs) in *.
  induction fuel as [|f IH]; intros l mid r Hlr Hrn Hf Hln Hl Hr; [lia|].
  cbn [searchSequenceId].
  destruct (Z.ltb_spec (Z.of_nat l) (Z.of_nat r)) as [Hlt | Hge].
  - assert (Em : (Z.of_nat l + Z.of_nat r) / 2 = Z.of_nat ((l + r) / 2)).
    { rewrite <- Nat2Z.inj_add. change 2 with (Z.of_nat 2). now rewrite <- Nat2Z.inj_div. }
    rewrite Em. set (m := ((l + r) / 2)%nat).
    assert (Hm : (l <= m < r)%nat).
    { unfold m. split.
      - apply Nat.div_le_lower_bound; lia.
      - apply Nat.Div0.div_lt_upper_bound; lia. }
    assert (Hmn : (m < n)%nat) by lia.
    destruct (contig_start_fits p m Hs Hc Hmn) as [Es Rs]. fold descs in Es, Rs.
    rewrite Es.
    destruct (contigsChain_nth descs 0 _ m Hc Hmn) as (_ & Bm & Cm & Dm & Em').
    destruct (Z.leb_spec (uiStartOffsetUnpacked (nth m descs noDescriptor)) iAbs)
      as [Hle | Hgt].
    + assert (En : u64 (uiNumContigs p - 1) = Z.of_nat n - 1).
      { unfold uiNumContigs. fold descs. fold n. apply u64_small.
        unfold in_u64, two64. unfold size_ok in Hs.
        destruct (contigsChain_nth descs 0 _ (n - 1) Hc) as (A & B & C & _); [lia|].
        assert (Hcount : forall l' f t, contigsChain f l' t ->
                  Z.of_nat (List.length l') <= t - f).
        { induction l' as [|x l' IHl]; intros f0 t H; simpl in H.
          - simpl. lia.
          - destruct H as (_ & Hx & H). apply IHl in H. cbn [List.length].
            rewrite Nat2Z.inj_succ. lia. }
        pose proof (Hcount descs 0 _ Hc). fold n in H. lia. }
      rewrite En.
      destruct (Z.eqb_spec (Z.of_nat m) (Z.of_nat n - 1)) as [Hlast | Hnl].
      * exists m. split; [reflexivity|]. split; [exact Hmn|]. cbv zeta.
        rewrite <- (Em' ltac:(lia)) in Habs. lia.
      * assert (Hsm : (S m < n)%nat) by lia.
        destruct (contig_start_fits p (S m) Hs Hc Hsm) as [Es' Rs']. fold descs in Es', Rs'.
        replace (Z.of_nat m + 1) with (Z.of_nat (S m)) by lia. rewrite Es'.
        destruct (Z.ltb_spec iAbs (uiStartOffsetUnpacked (nth (S m) descs noDescriptor)))
          as [Hin | Hout].
        -- exists m. split; [reflexivity|]. split; [exact Hmn|]. cbv zeta.
           rewrite (Dm Hsm) in Hin. lia.
        -- assert (Hsr : (S m < r)%nat).
           { destruct (Nat.eq_dec (S m) r) as [E | E]; [|lia].
             destruct Hr as [Hr | Hr]; [lia | rewrite <- E in Hr; lia]. }
           apply (IH (S m) (Z.of_nat m) r); try lia; try exact Hr.
    + assert (Hlm : (l < m)%nat).
      { destruct (Nat.eq_dec l m) as [E | E]; [rewrite <- E in Hgt; lia | lia]. }
      apply (IH l (Z.of_nat m) m); try lia; try (right; exact Hgt).
  - assert (l = r) by lia. subst r. lia.
Qed.

(** The contig [uiSequenceIdForPosition] returns for a position of the
    forward strand holds that position. *)
Lemma uiSequenceIdForPosition_forward p pos :
  size_ok p -> contigs_ok p ->
  0 <= pos < uiUnpackedSizeForwardStrand p ->
  let id := uiSequenceIdForPosition p pos in
  0 <= id < uiNumContigs p /\
  startOfSequenceWithId p id <= pos < endOfSequenceWithId p id /\
  0 <= startOfSequenceWithId p id /\
  endOfSequenceWithId p id <= uiUnpackedSizeForwardStrand p.
Proof.
  intros Hs Hc Hpos. cbv zeta. unfold uiSequenceIdForPosition.
  assert (Ea : iAbsolutePosition p pos = pos).
  { unfold iAbsolutePosition, bPositionIsOnReversStrand, uiStartOfReverseStrand.
    replace (uiUnpackedSizeForwardStrand p <=? pos) with false
      by (symmetry; apply Z.leb_gt; lia).
    apply i64_small. unfold in_i64, two63, size_ok in *. lia. }
  rewrite Ea.
  set (descs := xVectorOfSequenceDescriptors p).
  assert (Hne : (0 < List.length descs)%nat).
  { destruct descs as [|d t] eqn:E; [|simpl; lia].
    unfold contigs_ok in Hc. fold descs in Hc. rewrite E in Hc. simpl in Hc. lia. }
  destruct (contigsChain_nth descs 0 _ 0%nat Hc Hne) as (A0 & B0 & C0 & _).
  assert (E0 : uiStartOffsetUnpacked (nth 0 descs noDescriptor) = 0).
  { unfold contigs_ok in Hc. fold descs in Hc.
    destruct descs as [|d t]; [simpl in Hne; lia|]. simpl in Hc. simpl. tauto. }
  destruct (searchSequenceId_spec p pos Hs Hc Hpos (S (List.length descs)) 0%nat 0
              (List.length descs)) as (k & Ek & Hk & Hin);
    [ lia | fold descs; lia | fold descs; lia | exact Hne | fold descs; lia
    | left; reflexivity | ].
  unfold uiNumContigs. fold descs. change (Z.of_nat 0) with 0 in Ek. rewrite Ek.
  cbv zeta in Hin.
  destruct (contigsChain_nth descs 0 _ k Hc Hk) as (A & B & C & _).
  unfold endOfSequenceWithId, startOfSequenceWithId, descriptorAt.
  rewrite Nat2Z.id. fold descs. fold noDescriptor.
  rewrite u64_small by (unfold in_u64, two64, size_ok in *; lia).
  subst descs. lia.
Qed.

(** The contig of a position of the reverse strand is the contig of its
    image on the forward strand; so the contig found for the position [L]
    itself is the last one. *)
Lemma uiSequenceIdForPosition_anchor p pos :
  size_ok p -> contigs_ok p ->
  0 < uiUnpackedSizeForwardStrand p ->
  0 <= pos <= uiUnpackedSizeForwardStrand p ->
  let id := uiSequenceIdForPosition p pos in
  0 <= startOfSequenceWithId p id <= pos /\
  pos <= endOfSequenceWithId p id <= uiUnpackedSizeForwardStrand p /\
  (pos < uiUnpackedSizeForwardStrand p -> pos < endOfSequenceWithId p id).
Proof.
  intros Hs Hc HL Hpos. cbv zeta.
  destruct (Z.eq_dec pos (uiUnpackedSizeForwardStrand p)) as [E | E].
  - assert (Hid : uiSequenceIdForPosition p pos =
                  uiSequenceIdForPosition p (pos - 1)).
    { unfold uiSequenceIdForPosition. f_equal.
      destruct (both_strands_size p Hs) as [E2 _].
      unfold iAbsolutePosition, bPositionIsOnReversStrand, uiStartOfReverseStrand.
      rewrite E2, E.
      rewrite Z.leb_refl.
      replace (uiUnpackedSizeForwardStrand p <=? uiUnpackedSizeForwardStrand p - 1)
        with false by (symmetry; apply Z.leb_gt; lia).
      rewrite u64_sub_r, i64_of_u64. f_equal. lia. }
    rewrite Hid.
    destruct (uiSequenceIdForPosition_forward p (pos - 1) Hs Hc) as (_ & A & B & C); [lia|].
    cbv zeta in *. lia.
  - destruct (uiSequenceIdForPosition_forward p pos Hs Hc) as (_ & A & B & C); [lia|].
    cbv zeta in *. lia.
Qed.

End PackStore.

(* ===================================================================== *)
(** * The files of a pack (fileReader.h) *)
(* ===================================================================== *)

Module PackFiles.
Import MachineInt PackStore.

(** ** Appending a sequence *)

(** [v.back( )] updated in place.  On an empty vector the source reads
    outside the vector; here nothing is changed. *)
Fixpoint updateBack {A : Type} (f : A -> A) (l : list A) : list A :=
  match l with
  | [] => []
  | [x] => [f x]
  | x :: t => x :: updateBack f t
  end.

(** The variables of the loop of [vAppendSequence] over the symbols. *)
Record AppendState : Type := mkAppendState {
  asHoles : list HoleDescriptor;
  asPacked : list Z;
  asSize : Z;
  asOffset : Z;
  asNumberOfHoles : Z;
  asPrevious : Z;
  asRandCalls : nat
}.

(** The first descriptor of a hole: [HoleDescriptor( offset, 'N' )]. *)
Definition HoleDescriptor_ (uiOffset : Z) (c : ascii) : HoleDescriptor :=
  mkHoleDescriptor uiOffset 1 c.

(** [SequenceInPack( sName, sComment, uiOffsetInPack, length )]: an empty
    comment becomes "none". *)
Definition SequenceInPack_ (rsName rsComment : string) (uiOffsetInPack uiLength : Z)
  : SequenceInPack :=
  mkSequenceInPack rsName
                   (match rsComment with EmptyString => "none"%string | _ => rsComment end)
                   uiOffsetInPack uiLength 0 0.

(** [Pack( )]: an empty pack; the seed is the time of its construction. *)
Definition Pack_ (uiSeed : Z) : Pack := mkPack [] [] [] uiSeed 0.

Section Append.

(** [rand( )]: the values of the generator of the C library, in the order
    of the calls. *)
Variable rand : nat -> Z.

(** One round of the loop over the symbols of the sequence. *)
Definition appendSymbol (st : AppendState) (uiSymbolCode : Z) : AppendState :=
  let bHole := 4 <=? uiSymbolCode in
  let bSame := asPrevious st =? uiSymbolCode in
  let holes :=
    if bHole then
      if bSame
      then updateBack (fun h => mkHoleDescriptor (offset h) (i32 (PackStore.length h + 1))
                                                 (xHoleCharacter h))
                      (asHoles st)
      else asHoles st ++ [HoleDescriptor_ (asOffset st) "N"%char]
    else asHoles st in
  let uiNumberOfHoles :=
    if bHole && negb bSame then i32 (asNumberOfHoles st + 1) else asNumberOfHoles st in
  let uiCode := if bHole then Z.land (rand (asRandCalls st)) 3 else uiSymbolCode in
  let calls := if bHole then S (asRandCalls st) else asRandCalls st in
  let uiShift := Z.shiftl (Z.land (Z.lnot (asSize st)) 3) 1 in
  let packed :=
    if uiShift =? 6
    then asPacked st ++ [u8 (Z.shiftl uiCode uiShift)]
    else updateBack (fun b => u8 (Z.lor b (Z.shiftl uiCode uiShift))) (asPacked st) in
  mkAppendState holes packed (u64 (asSize st + 1)) (u64 (asOffset st + 1))
                uiNumberOfHoles uiSymbolCode calls.

(** [vAppendSequence( rsName, rsComment, rxSequence )]: the pack afterwards,
    and the number of calls of [rand( )] so far.  An empty sequence is
    skipped. *)
Definition vAppendSequence (p : Pack) (calls : nat) (rsName rsComment : string)
           (rxSequence : list Z) : Pack * nat :=
  match rxSequence with
  | [] => (p, calls)
  | _ :: _ =>
      let uiOffsetDistance :=
        match xVectorOfSequenceDescriptors p with
        | [] => 0
        | _ :: _ =>
            let back := last (xVectorOfSequenceDescriptors p) noDescriptor in
            u64 (uiStartOffsetUnpacked back + uiLengthUnpacked back)
        end in
      let xPackedSequenceDescriptor :=
        SequenceInPack_ rsName rsComment uiOffsetDistance
                        (Z.of_nat (List.length rxSequence)) in
      let st := fold_left appendSymbol rxSequence
                          (mkAppendState (xVectorOfHoleDescriptors p) (xPackedNucSeqs p)
                                         (uiUnpackedSizeForwardStrand p) uiOffsetDistance
                                         0 0 calls) in
      (mkPack (xVectorOfSequenceDescriptors p ++
               [mkSequenceInPack (sName xPackedSequenceDescriptor)
                                 (sComment xPackedSequenceDescriptor)
                                 (uiStartOffsetUnpacked xPackedSequenceDescriptor)
                                 (uiLengthUnpacked xPackedSequenceDescriptor)
                                 (gi xPackedSequenceDescriptor)
                                 (asNumberOfHoles st)])
              (asHoles st) (asPacked st) (seed p) (asSize st),
       asRandCalls st)
  end.

(** The packs built by appending sequences to an empty pack.  The symbols
    are bytes, and the bases of the pack are counted in 64 bits. *)
Inductive appended : Pack -> nat -> Prop :=
| appended_empty (uiSeed : Z) :
    0 <= uiSeed < 2 ^ 32 -> appended (Pack_ uiSeed) 0
| appended_sequence (p : Pack) (calls : nat) (rsName rsComment : string)
                    (rxSequence : list Z) :
    appended p calls ->
    Forall (fun c => 0 <= c < 256) rxSequence ->
    uiUnpackedSizeForwardStrand p + Z.of_nat (List.length rxSequence) < two64 ->
    appended (fst (vAppendSequence p calls rsName rsComment rxSequence))
             (snd (vAppendSequence p calls rsName rsComment rxSequence)).

End Append.

(** ** Files and streams *)

(** A file is a sequence of bytes; the files are found by their names. *)
Definition FileSystem : Type := string -> option (list ascii).

Definition writeFile (fs : FileSystem) (sFileName : string) (data : list ascii)
  : FileSystem :=
  fun n => if String.eqb n sFileName then Some data else fs n.

(** Modelled from the spec: [fullFileName] and [fileExists] are not among
    the sources; the files of a pack are [{prefix}.pac], [{prefix}.ann] and
    [{prefix}.amb]. *)
Definition fullFileName (sPrefix sSuffix : string) : string :=
  (sPrefix ++ "." ++ sSuffix)%string.

(** Modelled from the spec: a file exists when the file system has it. *)
Definition fileExists (fs : FileSystem) (sFileName : string) : bool :=
  match fs sFileName with Some _ => true | None => false end.

Definition byteChar (b : Z) : ascii := ascii_of_N (Z.to_N b).
Definition charByte (c : ascii) : Z := Z.of_N (N_of_ascii c).

Definition newline : ascii := "010"%char.
Definition space : ascii := " "%char.

(** The white space of the C locale: the space and the codes 9 to 13. *)
Definition isSpace (c : ascii) : bool :=
  let n := N_of_ascii c in ((n =? 32) || ((9 <=? n) && (n <=? 13)))%N.

Definition isDigit (c : ascii) : bool :=
  let n := N_of_ascii c in ((48 <=? n) && (n <=? 57))%N.

Definition digitValue (c : ascii) : Z := Z.of_N (N_of_ascii c) - 48.
Definition digitChar (d : Z) : ascii := ascii_of_N (Z.to_N (48 + d)).

(** The output [<<] of a number: its decimal digits, the last digit first
    here.  [fuel] bounds the number of digits: a number below [2 * 2 ^ fuel]
    has at most [fuel + 1] of them. *)
Fixpoint decimalRev (fuel : nat) (n : Z) : list ascii :=
  match fuel with
  | O => [digitChar (n mod 10)]
  | S f => if n <? 10 then [digitChar n]
           else digitChar (n mod 10) :: decimalRev f (n / 10)
  end.

Definition showUnsigned (n : Z) : list ascii :=
  rev (decimalRev (Z.to_nat (Z.log2 n)) n).

Definition showSigned (n : Z) : list ascii :=
  if n <? 0 then "-"%char :: showUnsigned (- n) else showUnsigned n.

Definition showString (s : string) : list ascii := list_ascii_of_string s.

(** An input stream: the bytes not yet read, and the two state bits that the
    source tests. *)
Record istream : Type := mkStream {
  buffer : list ascii;
  eofbit : bool;
  failbit : bool
}.

Definition good (s : istream) : bool := negb (eofbit s) && negb (failbit s).

Definition setFail (s : istream) : istream := mkStream (buffer s) (eofbit s) true.

Definition atEnd (l : list ascii) : bool :=
  match l with [] => true | _ :: _ => false end.

Fixpoint skipSpaces (l : list ascii) : list ascii :=
  match l with
  | c :: t => if isSpace c then skipSpaces t else l
  | [] => []
  end.

(** The longest prefix of characters with the property [f], and the rest. *)
Fixpoint span (f : ascii -> bool) (l : list ascii) : list ascii * list ascii :=
  match l with
  | c :: t => if f c then (c :: fst (span f t), snd (span f t)) else ([], l)
  | [] => ([], [])
  end.

(** The start of a formatted input [>>]: a stream that is not good fails;
    else the white space is skipped, and the end of the file there sets both
    bits. *)
Definition sentry (s : istream) : istream :=
  if good s then
    match skipSpaces (buffer s) with
    | [] => mkStream [] true true
    | c :: t => mkStream (c :: t) false false
    end
  else setFail s.

Definition digitsValue (ds : list ascii) : Z :=
  fold_left (fun a c => 10 * a + digitValue c) ds 0.

(** An optional sign. *)
Definition readSign (l : list ascii) : bool * list ascii :=
  match l with
  | c :: t => if Ascii.eqb c "-" then (true, t)
              else if Ascii.eqb c "+" then (false, t) else (false, l)
  | [] => (false, [])
  end.

(** [>>] into an unsigned integer with the greatest value [max]: a sign,
    then digits up to the first character that is none; the end of the file
    there sets [eofbit].  No digit, or a value above [max], sets [failbit].
    A value with a minus sign is negated in the type.  [old] is the value of
    the variable before, which stays when the stream was not good. *)
Definition readUnsigned (max old : Z) (s : istream) : Z * istream :=
  let s1 := sentry s in
  if good s1 then
    let sg := readSign (buffer s1) in
    let ds := span isDigit (snd sg) in
    match fst ds with
    | [] => (0, mkStream (snd ds) (atEnd (snd ds)) true)
    | _ :: _ =>
        let v := digitsValue (fst ds) in
        if v <=? max
        then ((if fst sg then (- v) mod (max + 1) else v),
              mkStream (snd ds) (atEnd (snd ds)) false)
        else (max, mkStream (snd ds) (atEnd (snd ds)) true)
    end
  else (old, s1).

(** [>>] into a signed integer between [min] and [max]. *)
Definition readSigned (min max old : Z) (s : istream) : Z * istream :=
  let s1 := sentry s in
  if good s1 then
    let sg := readSign (buffer s1) in
    let ds := span isDigit (snd sg) in
    match fst ds with
    | [] => (0, mkStream (snd ds) (atEnd (snd ds)) true)
    | _ :: _ =>
        let v := if fst sg then - digitsValue (fst ds) else digitsValue (fst ds) in
        if (min <=? v) && (v <=? max)
        then (v, mkStream (snd ds) (atEnd (snd ds)) false)
        else ((if v <? min then min else max), mkStream (snd ds) (atEnd (snd ds)) true)
    end
  else (old, s1).

Definition readUInt64 : Z -> istream -> Z * istream := readUnsigned (two64 - 1).
Definition readUInt32 : Z -> istream -> Z * istream := readUnsigned (2 ^ 32 - 1).
Definition readInt32 : Z -> istream -> Z * istream := readSigned (- 2 ^ 31) (2 ^ 31 - 1).

(** [>>] into a string: the characters up to the next white space. *)
Definition readWord (old : string) (s : istream) : string * istream :=
  let s1 := sentry s in
  if good s1 then
    let w := span (fun c => negb (isSpace c)) (buffer s1) in
    (string_of_list_ascii (fst w),
     mkStream (snd w) (atEnd (snd w)) (atEnd (fst w)))
  else (old, s1).

(** [std::getline]: the characters up to the end of the line, which is read
    and dropped; no white space is skipped.  At the end of the file [eofbit]
    is set, and [failbit] when nothing was read. *)
Definition getline (old : string) (s : istream) : string * istream :=
  if good s then
    let w := span (fun c => negb (Ascii.eqb c newline)) (buffer s) in
    match snd w with
    | _ :: rest => (string_of_list_ascii (fst w), mkStream rest false false)
    | [] => (string_of_list_ascii (fst w), mkStream [] true (atEnd (fst w)))
    end
  else (old, setFail s).

(** [>>] into a [char]: the first character after the white space. *)
Definition readChar (old : ascii) (s : istream) : ascii * istream :=
  let s1 := sentry s in
  if good s1 then
    match buffer s1 with
    | c :: t => (c, mkStream t false false)
    | [] => (old, mkStream [] true true)
    end
  else (old, s1).

(** ** Storing a pack *)

(** [vStorePack]: the bytes of the pack, a zero byte when the number of
    bases is a multiple of four, and that number modulo four.  Writing is
    taken to succeed. *)
Definition pacFile (rxPackedSequences : list Z) (uiUnpackedSize : Z) : list ascii :=
  map byteChar rxPackedSequences ++
  (if uiUnpackedSize mod 4 =? 0 then [byteChar 0] else []) ++
  [byteChar (u8 (uiUnpackedSize mod 4))].

Definition vStorePack (rsFileNamePrefix : string) (rxPackedSequences : list Z)
           (uiUnpackedSize : Z) (fs : FileSystem) : FileSystem :=
  writeFile fs (rsFileNamePrefix ++ ".pac")%string
            (pacFile rxPackedSequences uiUnpackedSize).

(** The two lines of a contig in the .ann file. *)
Definition annEntry (rxEntry : SequenceInPack) : list ascii :=
  showUnsigned (gi rxEntry) ++ space :: showString (sName rxEntry) ++
  space :: showString (sComment rxEntry) ++
  newline :: showUnsigned (uiStartOffsetUnpacked rxEntry) ++
  space :: showUnsigned (uiLengthUnpacked rxEntry) ++
  space :: showSigned (uiNumberOfHoles rxEntry) ++ [newline].

Definition annFile (p : Pack) : list ascii :=
  showUnsigned (uiUnpackedSizeForwardStrand p) ++
  space :: showUnsigned (Z.of_nat (List.length (xVectorOfSequenceDescriptors p))) ++
  space :: showUnsigned (seed p) ++
  newline :: List.concat (map annEntry (xVectorOfSequenceDescriptors p)).

(** The line of a hole in the .amb file. *)
Definition ambEntry (rxEntry : HoleDescriptor) : list ascii :=
  showUnsigned (offset rxEntry) ++ space :: showSigned (PackStore.length rxEntry) ++
  space :: xHoleCharacter rxEntry :: [newline].

Definition ambFile (p : Pack) : list ascii :=
  showUnsigned (uiUnpackedSizeForwardStrand p) ++
  space :: showUnsigned (Z.of_nat (List.length (xVectorOfSequenceDescriptors p))) ++
  space :: showUnsigned (Z.of_nat (List.length (xVectorOfHoleDescriptors p))) ++
  newline :: List.concat (map ambEntry (xVectorOfHoleDescriptors p)).

(** [vStoreCollectionDescripton]: the .ann file, then the .amb file. *)
Definition vStoreCollectionDescripton (rsFileNamePrefix : string) (p : Pack)
           (fs : FileSystem) : FileSystem :=
  writeFile (writeFile fs (rsFileNamePrefix ++ ".ann")%string (annFile p))
            (rsFileNamePrefix ++ ".amb")%string (ambFile p).

(** [vStoreCollection]. *)
Definition vStoreCollection (rsPackPrefix : string) (p : Pack) (fs : FileSystem)
  : FileSystem :=
  vStoreCollectionDescripton rsPackPrefix p
    (vStorePack rsPackPrefix (xPackedNucSeqs p) (uiUnpackedSizeForwardStrand p) fs).

(** ** Loading a pack *)

(** The exceptions of the loading. *)
Inductive LoadError : Type :=
| NonExistingPack
| NegativeResize
| MissedZeroByte
| WrongChecksum
| InconsistentPackSize
| InconsistentSequenceDescriptors
| InconsistentHoleDescriptors.

Inductive loaded : Type :=
| Loaded (p : Pack)
| LoadFailed (e : LoadError).

(** The loop [while( true )] of [vLoadSequenceDescriptorVector]: the
    descriptors read, and the stream at the [break].  [None] is the end of
    [fuel], which bounds the number of rounds. *)
Fixpoint loadDescriptors (fuel : nat) (s : istream) (v : list SequenceInPack)
  : option (list SequenceInPack * istream) :=
  match fuel with
  | O => None
  | S f =>
      let r1 := readUInt32 0 s in
      let r2 := readWord EmptyString (snd r1) in
      let r3 := getline EmptyString (snd r2) in
      let r4 := readUInt64 0 (snd r3) in
      let r5 := readUInt64 0 (snd r4) in
      let r6 := readInt32 0 (snd r5) in
      if negb (failbit (snd r6))
      then loadDescriptors f (snd r6)
             (v ++ [mkSequenceInPack (fst r2) (fst r3) (fst r4) (fst r5) (fst r1) (fst r6)])
      else Some (v, snd r6)
  end.

(** [vLoadSequenceDescriptorVector] on the bytes of the .ann file.  A round
    of the loop that does not fail reads at least one digit, so there are no
    more rounds than bytes, and one more. *)
Definition vLoadSequenceDescriptorVector (file : list ascii) (p : Pack) : loaded :=
  let s := mkStream file false false in
  let r1 := readUInt64 (uiUnpackedSizeForwardStrand p) s in
  let r2 := readUInt64 0 (snd r1) in
  let r3 := readUInt32 (seed p) (snd r2) in
  match loadDescriptors (S (List.length file)) (snd r3) (xVectorOfSequenceDescriptors p) with
  | None => LoadFailed InconsistentSequenceDescriptors
  | Some (v, s') =>
      if negb (eofbit s') || negb (fst r2 =? Z.of_nat (List.length v))
      then LoadFailed InconsistentSequenceDescriptors
      else Loaded (mkPack v (xVectorOfHoleDescriptors p) (xPackedNucSeqs p)
                          (fst r3) (fst r1))
  end.

(** [vLoadPackedSequence] on the bytes of the .pac file.  A file shorter
    than its two last bytes makes the size of the vector negative, which the
    source does not survive. *)
Definition vLoadPackedSequence (file : list ascii) (uiUnpackedSize : Z) (p : Pack)
  : loaded :=
  let uiFileSize := Z.of_nat (List.length file) in
  let bZeroByteInjection := uiUnpackedSize mod 4 =? 0 in
  let n := uiFileSize - (1 + (if bZeroByteInjection then 1 else 0)) in
  if n <? 0 then LoadFailed NegativeResize
  else
    let packed := map charByte (firstn (Z.to_nat n) file) in
    let rest := skipn (Z.to_nat n) file in
    let afterZero := if bZeroByteInjection then tl rest else rest in
    if bZeroByteInjection && negb (charByte (hd "000"%char rest) =? 0)
    then LoadFailed MissedZeroByte
    else if negb (charByte (hd "000"%char afterZero) =? uiUnpackedSize mod 4)
    then LoadFailed WrongChecksum
    else if negb (Z.shiftr uiUnpackedSize 2 +
                  (if Z.land uiUnpackedSize 3 =? 0 then 0 else 1) =?
                  Z.of_nat (List.length packed))
    then LoadFailed InconsistentPackSize
    else Loaded (mkPack (xVectorOfSequenceDescriptors p) (xVectorOfHoleDescriptors p)
                        packed (seed p) (uiUnpackedSizeForwardStrand p)).

(** The loop of [vLoadHoleDescriptorVector]. *)
Fixpoint loadHoles (fuel : nat) (s : istream) (v : list HoleDescriptor)
  : option (list HoleDescriptor * istream) :=
  match fuel with
  | O => None
  | S f =>
      let r1 := readUInt64 0 s in
      let r2 := readInt32 0 (snd r1) in
      let r3 := readChar "000"%char (snd r2) in
      if negb (failbit (snd r3))
      then loadHoles f (snd r3) (v ++ [mkHoleDescriptor (fst r1) (fst r2) (fst r3)])
      else Some (v, snd r3)
  end.

(** [vLoadHoleDescriptorVector] on the bytes of the .amb file. *)
Definition vLoadHoleDescriptorVector (file : list ascii) (p : Pack) : loaded :=
  let s := mkStream file false false in
  let r1 := readUInt64 0 s in
  let r2 := readUInt64 0 (snd r1) in
  let r3 := readUInt64 0 (snd r2) in
  match loadHoles (S (List.length file)) (snd r3) (xVectorOfHoleDescriptors p) with
  | None => LoadFailed InconsistentHoleDescriptors
  | Some (v, s') =>
      if negb (eofbit s') || negb (fst r3 =? Z.of_nat (List.length v))
      then LoadFailed InconsistentHoleDescriptors
      else Loaded (mkPack (xVectorOfSequenceDescriptors p) v (xPackedNucSeqs p)
                          (seed p) (uiUnpackedSizeForwardStrand p))
  end.

(** [packExistsOnFileSystem]. *)
Definition packExistsOnFileSystem (fs : FileSystem) (rsPrefix : string) : bool :=
  fileExists fs (rsPrefix ++ ".pac")%string &&
  fileExists fs (rsPrefix ++ ".ann")%string &&
  fileExists fs (rsPrefix ++ ".amb")%string.

Definition fileData (fs : FileSystem) (sFileName : string) : list ascii :=
  match fs sFileName with Some d => d | None => [] end.

(** [vLoadCollection] into the pack [p]: the .ann file, the .pac file, the
    .amb file. *)
Definition vLoadCollection (rsFileNamePrefix : string) (fs : FileSystem) (p : Pack)
  : loaded :=
  if negb (packExistsOnFileSystem fs rsFileNamePrefix) then LoadFailed NonExistingPack
  else
    match vLoadSequenceDescriptorVector
            (fileData fs (fullFileName rsFileNamePrefix "ann")) p with
    | LoadFailed e => LoadFailed e
    | Loaded p1 =>
        match vLoadPackedSequence (fileData fs (rsFileNamePrefix ++ ".pac")%string)
                                  (uiUnpackedSizeForwardStrand p1) p1 with
        | LoadFailed e => LoadFailed e
        | Loaded p2 =>
            vLoadHoleDescriptorVector
              (fileData fs (fullFileName rsFileNamePrefix "amb")) p2
        end
    end.

(** ** Properties *)






(** The fields of a descriptor are values of their types. *)
Definition descriptor_ok (d : SequenceInPack) : Prop :=
  0 <= gi d < 2 ^ 32 /\ 0 <= uiStartOffsetUnpacked d < two64 /\
  0 <= uiLengthUnpacked d < two64 /\ - 2 ^ 31 <= uiNumberOfHoles d < 2 ^ 31.

Definition hole_ok (h : HoleDescriptor) : Prop :=
  0 <= offset h < two64 /\ - 2 ^ 31 <= PackStore.length h < 2 ^ 31 /\
  isSpace (xHoleCharacter h) = false.

(** The number of bytes of a pack of [uiUnpackedSize] bases, as the loading
    computes it. *)
Definition bytesFor (uiUnpackedSize : Z) : Z :=
  Z.shiftr uiUnpackedSize 2 + (if Z.land uiUnpackedSize 3 =? 0 then 0 else 1).

(** The fields of a pack are values of their types, and the vectors are as
    long as the number of bases allows. *)
Definition storable (p : Pack) : Prop :=
  0 <= uiUnpackedSizeForwardStrand p < two64 /\
  0 <= seed p < 2 ^ 32 /\
  Forall (fun b => 0 <= b < 256) (xPackedNucSeqs p) /\
  Z.of_nat (List.length (xPackedNucSeqs p)) = bytesFor (uiUnpackedSizeForwardStrand p) /\
  Forall descriptor_ok (xVectorOfSequenceDescriptors p) /\
  Forall hole_ok (xVectorOfHoleDescriptors p) /\
  Z.of_nat (List.length (xVectorOfSequenceDescriptors p)) <= uiUnpackedSizeForwardStrand p /\
  Z.of_nat (List.length (xVectorOfHoleDescriptors p)) <= uiUnpackedSizeForwardStrand p.

(** What the loop of [vAppendSequence] keeps. *)
Definition state_ok (st : AppendState) : Prop :=
  0 <= asSize st < two64 /\
  Forall (fun b => 0 <= b < 256) (asPacked st) /\
  Z.of_nat (List.length (asPacked st)) = bytesFor (asSize st) /\
  Forall hole_ok (asHoles st) /\
  Z.of_nat (List.length (asHoles st)) <= asSize st /\
  0 <= asOffset st < two64 /\
  - 2 ^ 31 <= asNumberOfHoles st < 2 ^ 31.

(** The scenario S1: the contig A = ACGTACGT and the contig B = GGNNCCAA,
    with a generator whose values are all 2. *)
Definition exRand (n : nat) : Z := 2.

Definition exA : Pack * nat :=
  vAppendSequence exRand (Pack_ 42) 0 "A" "first" [0; 1; 2; 3; 0; 1; 2; 3].

Definition exAB : Pack * nat :=
  vAppendSequence exRand (fst exA) (snd exA) "B" EmptyString [2; 2; 4; 4; 1; 1; 0; 0].

Definition noFiles : FileSystem := fun _ => None.

(** *** Characters and digits *)







(** *** The digits of a number *)




(** *** Prefixes *)




(** *** Reading what was written *)







(** *** The descriptors of the contigs *)














(** *** The three files *)









(** *** The packs built by appending *)

Lemma i32_range x : - 2 ^ 31 <= i32 x < 2 ^ 31.
Proof.
  unfold i32. pose proof (Z.mod_pos_bound (x + 2 ^ 31) (2 ^ 32)). lia.
Qed.

Lemma u8_range x : 0 <= u8 x < 256.
Proof. unfold u8. apply Z.mod_pos_bound. lia. Qed.

Lemma updateBack_length {A : Type} (f : A -> A) (l : list A) :
  List.length (updateBack f l) = List.length l.
Proof.
  induction l as [|x t IH]; [reflexivity|].
  destruct t as [|y t']; [reflexivity|].
  change (updateBack f (x :: y :: t')) with (x :: updateBack f (y :: t')).
  cbn [List.length] in *. now rewrite IH.
Qed.

Lemma updateBack_Forall {A : Type} (P : A -> Prop) (f : A -> A) (l : list A) :
  (forall x, P x -> P (f x)) -> Forall P l -> Forall P (updateBack f l).
Proof.
  intros Hf. induction l as [|x t IH]; intros H; [constructor|].
  inversion H as [|? ? Hx Ht]; subst.
  destruct t as [|y t']; [constructor; [apply Hf; exact Hx | constructor]|].
  change (updateBack f (x :: y :: t')) with (x :: updateBack f (y :: t')).
  constructor; [exact Hx | apply IH; exact Ht].
Qed.

Lemma land3 x : Z.land x 3 = x mod 4.
Proof. exact (Z.land_ones x 2 ltac:(lia)). Qed.

Lemma shift_is_six uiSize :
  (Z.shiftl (Z.land (Z.lnot uiSize) 3) 1 =? 6) = (uiSize mod 4 =? 0).
Proof.
  rewrite land3, Z.shiftl_mul_pow2 by lia. unfold Z.lnot.
  change (2 ^ 1) with 2.
  destruct (Z.eqb_spec (uiSize mod 4) 0) as [E | E].
  - apply Z.eqb_eq. replace (Z.pred (- uiSize)) with (3 + (- (uiSize / 4) - 1) * 4)
      by (pose proof (Z.div_mod uiSize 4); lia).
    rewrite Z.mod_add by lia. reflexivity.
  - apply Z.eqb_neq. intros H.
    assert (H3 : Z.pred (- uiSize) mod 4 = 3) by lia.
    pose proof (Z.div_mod (Z.pred (- uiSize)) 4).
    pose proof (Z.div_mod uiSize 4).
    pose proof (Z.mod_pos_bound uiSize 4).
    apply E.
    assert (Hx : uiSize = (- (Z.pred (- uiSize) / 4) - 1) * 4 + 0) by lia.
    rewrite Hx at 1. rewrite Z.add_0_r. apply Z.mod_mul. lia.
Qed.

Lemma bytesFor_succ uiSize :
  0 <= uiSize ->
  bytesFor (uiSize + 1) = bytesFor uiSize + (if uiSize mod 4 =? 0 then 1 else 0).
Proof.
  intros H. unfold bytesFor. rewrite !land3, !Z.shiftr_div_pow2 by lia.
  change (2 ^ 2) with 4.
  pose proof (Z.div_mod uiSize 4). pose proof (Z.mod_pos_bound uiSize 4).
  pose proof (Z.div_mod (uiSize + 1) 4). pose proof (Z.mod_pos_bound (uiSize + 1) 4).
  destruct (Z.eqb_spec (uiSize mod 4) 0) as [E | E];
    destruct (Z.eqb_spec ((uiSize + 1) mod 4) 0) as [E' | E']; lia.
Qed.

Lemma appendSymbol_ok rand st c :
  state_ok st -> asSize st + 1 < two64 ->
  state_ok (appendSymbol rand st c) /\
  asSize (appendSymbol rand st c) = asSize st + 1.
Proof.
  intros (HL & Hb & Hlen & Hh & Hnh & Ho & Hn) Hfit.
  assert (ES : u64 (asSize st + 1) = asSize st + 1)
    by (apply u64_small; unfold in_u64; lia).
  unfold appendSymbol. cbv zeta. unfold state_ok.
  cbn [asSize asPacked asHoles asOffset asNumberOfHoles]. rewrite ES.
  split; [|reflexivity].
  split; [lia|]. split; [|split; [|split; [|split; [|split]]]].
  - rewrite shift_is_six. destruct (asSize st mod 4 =? 0).
    + apply Forall_app. split; [exact Hb|]. constructor; [apply u8_range | constructor].
    + apply updateBack_Forall; [|exact Hb]. intros x _. apply u8_range.
  - rewrite bytesFor_succ by lia. rewrite shift_is_six.
    destruct (asSize st mod 4 =? 0).
    + rewrite length_app, Nat2Z.inj_add. cbn [List.length]. lia.
    + rewrite updateBack_length. lia.
  - destruct (4 <=? c); [|exact Hh].
    destruct (asPrevious st =? c).
    + apply updateBack_Forall; [|exact Hh].
      intros h (A & B & C). unfold hole_ok.
      cbn [offset PackStore.length xHoleCharacter].
      split; [exact A|]. split; [apply i32_range | exact C].
    + apply Forall_app. split; [exact Hh|]. constructor; [|constructor].
      unfold hole_ok, HoleDescriptor_. cbn [offset PackStore.length xHoleCharacter].
      split; [exact Ho|]. split; [lia | reflexivity].
  - destruct (4 <=? c); [|lia].
    destruct (asPrevious st =? c).
    + rewrite updateBack_length. lia.
    + rewrite length_app, Nat2Z.inj_add. cbn [List.length]. lia.
  - pose proof (u64_range (asOffset st + 1)) as H. unfold in_u64 in H. exact H.
  - destruct ((4 <=? c) && negb (asPrevious st =? c)); [apply i32_range | exact Hn].
Qed.

Lemma appendSymbols_ok rand rxSequence : forall st,
  state_ok st -> asSize st + Z.of_nat (List.length rxSequence) < two64 ->
  state_ok (fold_left (appendSymbol rand) rxSequence st) /\
  asSize (fold_left (appendSymbol rand) rxSequence st) =
    asSize st + Z.of_nat (List.length rxSequence).
Proof.
  induction rxSequence as [|c t IH]; intros st Hst Hfit.
  - cbn [fold_left List.length]. split; [exact Hst | cbn; lia].
  - cbn [fold_left]. cbn [List.length] in Hfit |- *.
    destruct (appendSymbol_ok rand st c Hst) as [Hst' ES]; [lia|].
    destruct (IH (appendSymbol rand st c) Hst') as [Hfin EF]; [lia|].
    split; [exact Hfin|]. rewrite EF, ES. lia.
Qed.

Lemma vAppendSequence_storable rand p calls rsName rsComment rxSequence :
  storable p ->
  uiUnpackedSizeForwardStrand p + Z.of_nat (List.length rxSequence) < two64 ->
  storable (fst (vAppendSequence rand p calls rsName rsComment rxSequence)).
Proof.
  intros Hp Hfit. destruct rxSequence as [|c t]; [exact Hp|].
  destruct Hp as (HL & Hseed & Hb & Hlen & Hd & Hh & Hnd & Hnh).
  unfold vAppendSequence. cbv zeta.
  set (uiOffsetDistance :=
         match xVectorOfSequenceDescriptors p with
         | [] => 0
         | _ :: _ =>
             u64 (uiStartOffsetUnpacked (last (xVectorOfSequenceDescriptors p) noDescriptor) +
                  uiLengthUnpacked (last (xVectorOfSequenceDescriptors p) noDescriptor))
         end).
  assert (Hoff : 0 <= uiOffsetDistance < two64).
  { unfold uiOffsetDistance. destruct (xVectorOfSequenceDescriptors p).
    - unfold two64. lia.
    - apply u64_range. }
  set (st0 := mkAppendState (xVectorOfHoleDescriptors p) (xPackedNucSeqs p)
                            (uiUnpackedSizeForwardStrand p) uiOffsetDistance 0 0 calls).
  assert (Hst0 : state_ok st0).
  { unfold state_ok, st0.
    cbn [asSize asPacked asHoles asOffset asNumberOfHoles].
    repeat split; try assumption; try lia. }
  destruct (appendSymbols_ok rand (c :: t) st0 Hst0 Hfit)
    as [(HL' & Hb' & Hlen' & Hh' & Hnh' & Ho' & Hn') ES].
  change (asSize st0) with (uiUnpackedSizeForwardStrand p) in ES.
  cbn [fst]. unfold storable.
  cbn [uiUnpackedSizeForwardStrand seed xPackedNucSeqs xVectorOfSequenceDescriptors
       xVectorOfHoleDescriptors].
  split; [exact HL'|]. split; [exact Hseed|]. split; [exact Hb'|].
  split; [exact Hlen'|].
  split.
  { apply Forall_app. split; [exact Hd|]. constructor; [|constructor].
    unfold descriptor_ok, SequenceInPack_.
    cbn [gi uiStartOffsetUnpacked uiLengthUnpacked uiNumberOfHoles].
    split; [lia|]. split; [exact Hoff|]. split; [lia | exact Hn']. }
  split; [exact Hh'|].
  split; [|exact Hnh'].
  rewrite length_app, Nat2Z.inj_add, ES. cbn [List.length] in *. lia.
Qed.

Lemma appended_storable rand p calls : appended rand p calls -> storable p.
Proof.
  induction 1 as [uiSeed Hs | p calls rsName rsComment rxSequence _ IH _ Hfit].
  - unfold storable, Pack_, two64. cbn.
    repeat split; try constructor; lia.
  - apply vAppendSequence_storable; assumption.
Qed.

(** *** Storing and loading *)


Lemma exAB_appended : appended exRand (fst exAB) (snd exAB).
Proof.
  apply appended_sequence.
  - apply appended_sequence.
    + apply appended_empty. lia.
    + repeat constructor; lia.
    + cbn. unfold two64. lia.
  - repeat constructor; lia.
  - vm_compute. reflexivity.
Qed.



(** The pack of S1, its three files, and the pack that is loaded from
    them. *)
Example store_load_example :
  fst exAB =
    mkPack [mkSequenceInPack "A" "first" 0 8 0 0; mkSequenceInPack "B" "none" 8 8 0 1]
           [mkHoleDescriptor 10 2 "N"] [27; 27; 170; 80] 42 16 /\
  map charByte (pacFile (xPackedNucSeqs (fst exAB)) 16) = [27; 27; 170; 80; 0; 0] /\
  annFile (fst exAB) =
    showString "16 2 42" ++ newline :: showString "0 A first" ++
    newline :: showString "0 8 0" ++ newline :: showString "0 B none" ++
    newline :: showString "8 8 1" ++ [newline] /\
  ambFile (fst exAB) =
    showString "16 2 1" ++ newline :: showString "10 2 N" ++ [newline] /\
  vLoadCollection "ref" (vStoreCollection "ref" (fst exAB) noFiles) (Pack_ 7) =
    Loaded (mkPack [mkSequenceInPack "A" " first" 0 8 0 0;
                    mkSequenceInPack "B" " none" 8 8 0 1]
                   [mkHoleDescriptor 10 2 "N"] [27; 27; 170; 80] 42 16).
Proof. vm_compute. repeat split. Qed.


End PackFiles.

(* ===================================================================== *)
(** * Gap filling between the seeds of a chain (needlemanWunsch.cpp) *)
(* ===================================================================== *)

Module GapFill.
Import MachineInt SeedDefs.

(** [Alignment::MatchType]. *)
Inductive MatchType : Type := match_ | missmatch | insertion | deletion | seed_.

(** Modelled from the spec: the class [Alignment] is declared in alignment.h,
    which is not among the sources.  An alignment is the reference interval
    it was created for and a sequence of runs [{MatchType, length}];
    [append( type, n )] adds a run of [n] steps ([n] is 1 when left out). *)
Record Alignment : Type := mkAlignment {
  uiBeginOnRef : Z;
  uiEndOnRef : Z;
  data : list (MatchType * Z)
}.

Definition append (a : Alignment) (t : MatchType) (n : Z) : Alignment :=
  mkAlignment (uiBeginOnRef a) (uiEndOnRef a) (data a ++ [(t, n)]).

(** The scores of needlemanWunsch.cpp. *)
Definition iDeletion : Z := -50.
Definition iInsertion : Z := -50.
Definition iDeletionContinued : Z := -1.
Definition iInsertionContinued : Z := -1.
Definition iMatch : Z := 20.
Definition iMissMatch : Z := -5.

(** [operator[]] of a nucleotide sequence.  The source does not check the
    index: [None] stands for a read behind the end of the sequence. *)
Definition charAt (s : list Z) (i : Z) : option Z := nth_error s (Z.to_nat i).

(** The sum of two [int]s: [None] stands for a sum that does not fit an
    [int]. *)
Definition addInt (a b : Z) : option Z :=
  if (- 2 ^ 31 <=? a + b) && (a + b <? 2 ^ 31) then Some (a + b) else None.

(** A step that needs the result of a step that can fail. *)
Definition bind {A B : Type} (x : option A) (f : A -> option B) : option B :=
  match x with
  | Some a => f a
  | None => None
  end.

Notation "x <- e ;; k" := (bind e (fun x => k))
  (at level 61, e at next level, right associativity).

(** [while( i > 0 ) { append( type ); i--; }] *)
Fixpoint appendEach (a : Alignment) (t : MatchType) (n : nat) : Alignment :=
  match n with
  | O => a
  | S k => appendEach (append a t 1) t k
  end.

Section Table.

(** The two tables of [needlemanWunsch] are arrays of variable length on the
    stack.  [uiStackCells] is the number of cells that the stack can hold for
    them; it is not a value of the source. *)
Variable uiStackCells : Z.
Variables pQuery pRef : list Z.
Variables fromQuery toQuery fromRef toRef : Z.

(** A cell of the two tables: [s[i][j]], an [int], and [dir[i][j]]
    (1 = match, 2 = insertion, 3 = deletion). *)
Definition cell : Type := (Z * Z)%type.

(** The first column: [s[0][0] = 0], [s[1][0] = iInsertion], then
    [s[i][0] = s[i-1][0] + iInsertionContinued]. *)
Fixpoint col0 (uiI : nat) : option Z :=
  match uiI with
  | O => Some 0
  | S i' => match i' with
            | O => Some iInsertion
            | S _ => v <- col0 i' ;; addInt v iInsertionContinued
            end
  end.

(** The first row, in the same way with the deletion scores. *)
Fixpoint row0 (uiJ : nat) : option Z :=
  match uiJ with
  | O => Some 0
  | S j' => match j' with
            | O => Some iDeletion
            | S _ => v <- row0 j' ;; addInt v iDeletionContinued
            end
  end.

(** The body of the two nested loops for the cell [(uiI, uiJ)], from the
    cells above, to the left and on the diagonal. *)
Definition fillCell (uiI uiJ : nat) (up left diag : cell) : option cell :=
  ins <- addInt (fst up) (if snd up =? 2 then iInsertionContinued else iInsertion) ;;
  del0 <- addInt (fst left) (if snd left =? 3 then iDeletionContinued else iDeletion) ;;
  let del := if (fromQuery =? 0) && (Z.of_nat uiI =? u64 (toQuery - fromQuery))
             then fst left else del0 in
  let c2 : cell := if ins <? del then (del, 3) else (ins, 2) in
  q <- charAt pQuery (u64 (toQuery - Z.of_nat uiI)) ;;
  r <- charAt pRef (u64 (toRef - Z.of_nat uiJ)) ;;
  mat <- addInt (fst diag) (if q =? r then iMatch else iMissMatch) ;;
  Some (if fst c2 <=? mat then (mat, 1) else c2).

(** The tables after the loops, as a function of the indices. *)
Fixpoint cellAt (uiI : nat) : nat -> option cell :=
  match uiI with
  | O => fun uiJ => v <- row0 uiJ ;; Some (v, match uiJ with O => 1 | S _ => 3 end)
  | S i' =>
      fix row (uiJ : nat) : option cell :=
        match uiJ with
        | O => v <- col0 (S i') ;; Some (v, 2)
        | S j' =>
            up <- cellAt i' (S j') ;;
            left <- row j' ;;
            diag <- cellAt i' j' ;;
            fillCell (S i') (S j') up left diag
        end
  end.

(** The backtracking loop [while( iX > 0 || iY > 0 )].  [None] stands for a
    step that would leave the tables (an index below 0), for a cell or a
    base that could not be read, or for the end of the fuel. *)
Fixpoint traceback (fuel : nat) (iX iY : nat) (a : Alignment) : option Alignment :=
  match iX, iY with
  | O, O => Some a
  | _, _ =>
      match fuel with
      | O => None
      | S f =>
          c <- cellAt iX iY ;;
          if snd c =? 1 then
            match iX, iY with
            | S x, S y =>
                q <- charAt pQuery (u64 (toQuery - Z.of_nat iX)) ;;
                r <- charAt pRef (u64 (toRef - Z.of_nat iY)) ;;
                traceback f x y (append a (if q =? r then match_ else missmatch) 1)
            | _, _ => None
            end
          else if snd c =? 3 then
            match iY with
            | S y => traceback f iX y (append a deletion 1)
            | O => None
            end
          else
            match iX with
            | S x => traceback f x iY (append a insertion 1)
            | O => None
            end
      end
  end.

(** [needlemanWunsch( pQuery, pRef, fromQuery, toQuery, fromRef, toRef,
    pAlignment )].  [None]: the tables do not fit the stack, a score does not
    fit an [int], or a base is read behind the end of a sequence. *)
Definition needlemanWunsch (pAlignment : Alignment) : option Alignment :=
  if (toRef <=? fromRef) && (toQuery <=? fromQuery) then Some pAlignment
  else if toQuery <=? fromQuery then
    Some (appendEach pAlignment deletion (Z.to_nat (i32 (u64 (toRef - fromRef)))))
  else if toRef <=? fromRef then
    Some (appendEach pAlignment insertion (Z.to_nat (i32 (u64 (toQuery - fromQuery)))))
  else
    let iX := u64 (toQuery - fromQuery) in
    let iY := u64 (toRef - fromRef) in
    if uiStackCells <? u64 (iX + 1) * u64 (iY + 1) then None
    else traceback (Z.to_nat iX + Z.to_nat iY) (Z.to_nat iX) (Z.to_nat iY) pAlignment.

End Table.

(** The comparison of [pSeeds->sort]: by query start, then reference start. *)
Definition seedLess (a b : Seed) : bool :=
  if start a =? start b then start_ref a <? start_ref b else start a <? start b.

(** [std::list::sort] is stable: a seed goes behind the seeds that are not
    greater. *)
Fixpoint insertSorted (x : Seed) (l : list Seed) : list Seed :=
  match l with
  | [] => [x]
  | y :: t => if seedLess x y then x :: l else y :: insertSorted x t
  end.

Definition sortSeeds (l : list Seed) : list Seed :=
  fold_left (fun acc x => insertSorted x acc) l [].

(** The state of the loop over the seeds. *)
Record LoopState : Type := mkLoopState {
  endOfLastSeedQuery : Z;
  endOfLastSeedReference : Z;
  pRet : Alignment
}.

(** [ovQ] and [ovR] of the loop body. *)
Definition overlapQ (st : LoopState) (rSeed : Seed) : Z :=
  if endOfLastSeedQuery st <? start rSeed then 0
  else u64 (endOfLastSeedQuery st - start rSeed).

Definition overlapR (beginRef : Z) (st : LoopState) (rSeed : Seed) : Z :=
  if u64 (endOfLastSeedReference st + beginRef) <? start_ref rSeed then 0
  else u64 (endOfLastSeedReference st - u64 (start_ref rSeed - beginRef)).

(** The three appends of the loop body that follow the gap. *)
Definition appendSeed (a : Alignment) (ovQ ovR len : Z) : Alignment :=
  let overlap := Z.max ovQ ovR in
  let a1 := if overlap <? len then append a match_ (u64 (len - overlap)) else a in
  let a2 := if ovR <? ovQ then append a1 deletion (u64 (ovQ - ovR)) else a1 in
  if ovQ <? ovR then append a2 insertion (u64 (ovR - ovQ)) else a2.

(** The body of [for( Seed& rSeed : *pSeeds )]. *)
Definition seedStep (uiStackCells : Z) (pQuery pRef : list Z) (beginRef : Z)
           (st : LoopState) (rSeed : Seed) : option LoopState :=
  gap <- needlemanWunsch uiStackCells pQuery pRef
           (endOfLastSeedQuery st) (start rSeed)
           (endOfLastSeedReference st) (u64 (start_ref rSeed - beginRef))
           (pRet st) ;;
  Some (mkLoopState
          (if endOfLastSeedQuery st <? end_ rSeed
           then end_ rSeed else endOfLastSeedQuery st)
          (if u64 (endOfLastSeedReference st + beginRef) <? end_ref rSeed
           then u64 (end_ref rSeed - beginRef) else endOfLastSeedReference st)
          (appendSeed gap (overlapQ st rSeed) (overlapR beginRef st rSeed)
                      (size rSeed))).

Fixpoint seedLoop (uiStackCells : Z) (pQuery pRef : list Z) (beginRef : Z)
         (st : LoopState) (seeds : list Seed) : option LoopState :=
  match seeds with
  | [] => Some st
  | rSeed :: rest =>
      st' <- seedStep uiStackCells pQuery pRef beginRef st rSeed ;;
      seedLoop uiStackCells pQuery pRef beginRef st' rest
  end.

(** The window of the reference that [execute] extracts: [beginRef] and
    [endRef]. *)
Definition refWindow (pSeeds : list Seed) (front : Seed) (pQuery : list Z)
           (pRefPack : PackStore.Pack) : Z * Z :=
  let back := last pSeeds front in
  let beginQuery := start front in
  let beginRef :=
    if u64 (beginQuery * 2) <? start_ref front
    then u64 (start_ref front - u64 (beginQuery * 2)) else 0 in
  let endQuery := end_ back in
  let queryLength := Z.of_nat (List.length pQuery) in
  let half := PackStore.uiUnpackedSizeForwardPlusReverse pRefPack / 2 in
  let reach := u64 (end_ref back + u64 (u64 (queryLength - endQuery) * 2)) in
  (beginRef, if reach <? half then reach else half).

(** [NeedlemanWunsch::execute] on the seeds of a strip, the query and the
    pack.  [None]: the strip has no seed (the source reads [front()] of an
    empty list), the extraction of the reference throws, or a gap could not
    be filled. *)
Definition execute (uiStackCells : Z) (seeds : list Seed) (pQuery : list Z)
           (pRefPack : PackStore.Pack) : option Alignment :=
  let pSeeds := sortSeeds seeds in
  match pSeeds with
  | [] => None
  | front :: _ =>
      let (beginRef, endRef) := refWindow pSeeds front pQuery pRefPack in
      match PackStore.vExtract pRefPack (i64 beginRef) (i64 endRef) with
      | PackStore.Err _ => None
      | PackStore.Ok pRef =>
          st <- seedLoop uiStackCells pQuery pRef beginRef
                  (mkLoopState 0 0 (mkAlignment beginRef endRef [])) pSeeds ;;
          needlemanWunsch uiStackCells pQuery pRef
            (endOfLastSeedQuery st) (Z.of_nat (List.length pQuery))
            (endOfLastSeedReference st) (u64 (endRef - beginRef))
            (pRet st)
      end
  end.

(** The runs a seed of [len] bases adds when it overlaps the end of the
    chain by [ovQ] on the query and by [ovR] on the reference. *)
Definition seedRuns (ovQ ovR len : Z) : list (MatchType * Z) :=
  (if Z.max ovQ ovR <? len then [(match_, len - Z.max ovQ ovR)] else []) ++
  (if ovR <? ovQ then [(deletion, ovQ - ovR)] else []) ++
  (if ovQ <? ovR then [(insertion, ovR - ovQ)] else []).

(** The end of the chain of the seeds [pre]: the largest end of a seed, on
    the query (0 without a seed) and on the reference (the begin of the
    window without a seed). *)
Definition chainEndQuery (pre : list Seed) : Z :=
  fold_left (fun e s => Z.max e (end_ s)) pre 0.

Definition chainEndRef (beginRef : Z) (pre : list Seed) : Z :=
  fold_left (fun e s => Z.max e (end_ref s)) pre beginRef.

(** The seed lies inside the query and inside the window of the reference. *)
Definition seed_inside (pQuery pRef : list Z) (beginRef : Z) (s : Seed) : Prop :=
  seed_ok s /\ end_ s <= Z.of_nat (List.length pQuery) /\
  beginRef <= start_ref s /\ end_ref s - beginRef <= Z.of_nat (List.length pRef).

(** The end of the chain lies inside the query and inside the window of the
    reference. *)
Definition state_ok (pQuery pRef : list Z) (st : LoopState) : Prop :=
  0 <= endOfLastSeedQuery st <= Z.of_nat (List.length pQuery) /\
  0 <= endOfLastSeedReference st <= Z.of_nat (List.length pRef).

(** The tables of every gap of the two sequences fit the stack, and their
    scores fit an [int]: a step costs at most 50. *)
Definition tables_fit (uiStackCells : Z) (pQuery pRef : list Z) : Prop :=
  50 * (Z.of_nat (List.length pQuery) + Z.of_nat (List.length pRef)) < 2 ^ 31 /\
  (Z.of_nat (List.length pQuery) + 1) * (Z.of_nat (List.length pRef) + 1) <= uiStackCells.

(** [b] extends [a]: the same reference interval, and the runs of [a]
    followed by more runs. *)
Definition extends (a b : Alignment) : Prop :=
  uiBeginOnRef b = uiBeginOnRef a /\ uiEndOnRef b = uiEndOnRef a /\
  exists g, data b = data a ++ g.

(** The positions of the query and of the reference that a run takes: a
    deletion takes none of the query, an insertion none of the reference. *)
Definition queryLength (r : MatchType * Z) : Z :=
  match fst r with deletion => 0 | _ => snd r end.

Definition refLength (r : MatchType * Z) : Z :=
  match fst r with insertion => 0 | _ => snd r end.

Definition queryLengthOf (g : list (MatchType * Z)) : Z :=
  fold_right (fun r a => queryLength r + a) 0 g.

Definition refLengthOf (g : list (MatchType * Z)) : Z :=
  fold_right (fun r a => refLength r + a) 0 g.

(** The runs that a step of the backtracking, or a loop of appends, adds. *)
Definition adds (a a' : Alignment) (g : list (MatchType * Z)) : Prop :=
  uiBeginOnRef a' = uiBeginOnRef a /\ uiEndOnRef a' = uiEndOnRef a /\
  data a' = data a ++ g.

(** What the backtracking needs of the direction of a cell: the first row
    points to the left, the first column upwards. *)
Definition dir_ok (i j : nat) (d : Z) : Prop :=
  match i, j with
  | O, S _ => d = 3
  | S _, O => d = 2
  | _, _ => True
  end.

Lemma extends_refl a : extends a a.
Proof. repeat split. exists []. now rewrite app_nil_r. Qed.

Lemma extends_trans a b c : extends a b -> extends b c -> extends a c.
Proof.
  intros (B1 & E1 & g1 & D1) (B2 & E2 & g2 & D2). repeat split; try congruence.
  exists (g1 ++ g2). rewrite D2, D1. now rewrite app_assoc.
Qed.

Lemma adds_extends a a' g : adds a a' g -> extends a a'.
Proof. intros (B & E & D). repeat split; try assumption. now exists g. Qed.

Lemma adds_step a t a' g : adds (append a t 1) a' g -> adds a a' ((t, 1) :: g).
Proof.
  intros (B & E & D). cbn [append uiBeginOnRef uiEndOnRef data] in *.
  repeat split; try assumption. rewrite D, <- app_assoc. reflexivity.
Qed.

Lemma appendEach_adds n : forall a t,
  adds a (appendEach a t n) (repeat (t, 1) n).
Proof.
  induction n as [|n IH]; intros a t; cbn [appendEach repeat].
  - repeat split. now rewrite app_nil_r.
  - apply adds_step. apply IH.
Qed.

Lemma repeat_lengths t n :
  queryLengthOf (repeat (t, 1) n) = (match t with deletion => 0 | _ => Z.of_nat n end) /\
  refLengthOf (repeat (t, 1) n) = (match t with insertion => 0 | _ => Z.of_nat n end).
Proof.
  induction n as [|n [IH1 IH2]].
  - destruct t; split; reflexivity.
  - cbn [repeat queryLengthOf refLengthOf fold_right].
    fold (queryLengthOf (repeat (t, 1) n)). fold (refLengthOf (repeat (t, 1) n)).
    rewrite IH1, IH2. unfold queryLength, refLength. cbn [fst snd].
    destruct t; split; lia.
Qed.

Lemma repeat_steps (t : MatchType) n :
  Forall (fun r : MatchType * Z => snd r = 1) (repeat (t, 1) n).
Proof. induction n as [|n IH]; cbn [repeat]; constructor; [reflexivity | exact IH]. Qed.

Lemma addInt_fits a b : - 2 ^ 31 <= a + b < 2 ^ 31 -> addInt a b = Some (a + b).
Proof.
  intros H. unfold addInt.
  replace (- 2 ^ 31 <=? a + b) with true by (symmetry; apply Z.leb_le; lia).
  replace (a + b <? 2 ^ 31) with true by (symmetry; apply Z.ltb_lt; lia).
  reflexivity.
Qed.

Lemma charAt_inside s i :
  0 <= i < Z.of_nat (List.length s) -> exists v, charAt s i = Some v.
Proof.
  intros H. unfold charAt.
  destruct (nth_error s (Z.to_nat i)) as [v|] eqn:E; [now exists v|].
  apply nth_error_None in E. lia.
Qed.

Lemma col0_value i :
  50 + Z.of_nat i < 2 ^ 31 ->
  col0 i = Some (match i with O => 0 | S k => - 50 - Z.of_nat k end).
Proof.
  induction i as [|i IH]; intros H; [reflexivity|].
  destruct i as [|k]; [reflexivity|].
  change (col0 (S (S k))) with (v <- col0 (S k) ;; addInt v iInsertionContinued).
  rewrite IH by lia. cbn [bind]. unfold iInsertionContinued.
  rewrite addInt_fits by lia. f_equal. lia.
Qed.

Lemma row0_value j :
  50 + Z.of_nat j < 2 ^ 31 ->
  row0 j = Some (match j with O => 0 | S k => - 50 - Z.of_nat k end).
Proof.
  induction j as [|j IH]; intros H; [reflexivity|].
  destruct j as [|k]; [reflexivity|].
  change (row0 (S (S k))) with (v <- row0 (S k) ;; addInt v iDeletionContinued).
  rewrite IH by lia. cbn [bind]. unfold iDeletionContinued.
  rewrite addInt_fits by lia. f_equal. lia.
Qed.

Lemma cellAt_step pQuery pRef fromQuery toQuery toRef i j :
  cellAt pQuery pRef fromQuery toQuery toRef (S i) (S j) =
  (up <- cellAt pQuery pRef fromQuery toQuery toRef i (S j) ;;
   left <- cellAt pQuery pRef fromQuery toQuery toRef (S i) j ;;
   diag <- cellAt pQuery pRef fromQuery toQuery toRef i j ;;
   fillCell pQuery pRef fromQuery toQuery toRef (S i) (S j) up left diag).
Proof. reflexivity. Qed.


(** Every cell of the tables is filled: under the bound on the size of the
    gap no score leaves the range of an [int], and every base that is read
    lies inside its sequence. *)
Lemma cells_fit pQuery pRef fromQuery toQuery toRef (n m : nat) :
  (forall i, (1 <= i <= n)%nat ->
             exists q, charAt pQuery (u64 (toQuery - Z.of_nat i)) = Some q) ->
  (forall j, (1 <= j <= m)%nat ->
             exists r, charAt pRef (u64 (toRef - Z.of_nat j)) = Some r) ->
  50 * (Z.of_nat n + Z.of_nat m) < 2 ^ 31 ->
  forall i j, (i <= n)%nat -> (j <= m)%nat ->
    exists c, cellAt pQuery pRef fromQuery toQuery toRef i j = Some c /\
              - 50 * (Z.of_nat i + Z.of_nat j) <= fst c <= 20 * (Z.of_nat i + Z.of_nat j) /\
              dir_ok i j (snd c).
Proof.
  intros HQ HR HB. induction i as [|i IHi]; intros j Hi Hj.
  - cbn [cellAt]. rewrite row0_value by lia. cbn [bind].
    eexists. split; [reflexivity|]. cbn [fst snd].
    destruct j as [|k]; cbn [dir_ok]; split; try lia; reflexivity.
  - induction j as [|j IHj].
    + cbn [cellAt]. rewrite col0_value by lia. cbn [bind].
      eexists. split; [reflexivity|]. cbn [fst snd dir_ok]. split; [lia | reflexivity].
    + rewrite cellAt_step.
      destruct (IHi (S j)) as (up & Eup & Bup & _); [lia | lia |].
      destruct IHj as (left & Eleft & Bleft & _); [lia|].
      destruct (IHi j) as (diag & Ediag & Bdiag & _); [lia | lia |].
      rewrite Eup, Eleft, Ediag. cbn [bind]. unfold fillCell.
      destruct (HQ (S i)) as [q Eq]; [lia|].
      destruct (HR (S j)) as [r Er]; [lia|].
      unfold iInsertionContinued, iInsertion, iDeletionContinued, iDeletion,
        iMatch, iMissMatch.
      rewrite (addInt_fits (fst up)) by (destruct (snd up =? 2); lia).
      cbn [bind].
      rewrite (addInt_fits (fst left)) by (destruct (snd left =? 3); lia).
      cbn [bind]. rewrite Eq. cbn [bind]. rewrite Er. cbn [bind].
      rewrite (addInt_fits (fst diag)) by (destruct (q =? r); lia).
      cbn [bind]. eexists. split; [reflexivity|]. cbn [dir_ok]. split; [|exact I].
      destruct (snd up =? 2), (snd left =? 3), (q =? r),
        ((fromQuery =? 0) && (Z.of_nat (S i) =? u64 (toQuery - fromQuery)));
        repeat match goal with
               | |- context [if ?c then _ else _] => destruct c eqn:?
               end; cbn [fst snd]; lia.
Qed.

(** The backtracking from the cell [(iX, iY)] never leaves the tables, ends
    within [iX + iY] steps and adds runs that take [iX] positions of the
    query and [iY] positions of the reference. *)
Lemma traceback_fills pQuery pRef fromQuery toQuery toRef (n m : nat) :
  (forall i, (1 <= i <= n)%nat ->
             exists q, charAt pQuery (u64 (toQuery - Z.of_nat i)) = Some q) ->
  (forall j, (1 <= j <= m)%nat ->
             exists r, charAt pRef (u64 (toRef - Z.of_nat j)) = Some r) ->
  50 * (Z.of_nat n + Z.of_nat m) < 2 ^ 31 ->
  forall fuel iX iY a,
    (iX <= n)%nat -> (iY <= m)%nat -> (iX + iY <= fuel)%nat ->
    exists a' g,
      traceback pQuery pRef fromQuery toQuery toRef fuel iX iY a = Some a' /\
      adds a a' g /\
      queryLengthOf g = Z.of_nat iX /\ refLengthOf g = Z.of_nat iY /\
      Forall (fun r => snd r = 1) g.
Proof.
  intros HQ HR HB.
  assert (Hnil : forall a : Alignment, adds a a []).
  { intros a. repeat split. now rewrite app_nil_r. }
  assert (Hcons : forall t a a' g (x y : nat),
             adds (append a t 1) a' g ->
             queryLengthOf g = Z.of_nat x - queryLength (t, 1) ->
             refLengthOf g = Z.of_nat y - refLength (t, 1) ->
             Forall (fun r : MatchType * Z => snd r = 1) g ->
             adds a a' ((t, 1) :: g) /\
             queryLengthOf ((t, 1) :: g) = Z.of_nat x /\
             refLengthOf ((t, 1) :: g) = Z.of_nat y /\
             Forall (fun r : MatchType * Z => snd r = 1) ((t, 1) :: g)).
  { intros t a a' g x y A Q R F. split; [apply adds_step; exact A|].
    cbn [queryLengthOf refLengthOf fold_right].
    fold (queryLengthOf g). fold (refLengthOf g). rewrite Q, R.
    split; [lia|]. split; [lia|]. constructor; [reflexivity | exact F]. }
  induction fuel as [|f IH]; intros iX iY a HX HY Hf.
  - assert (iX = O /\ iY = O) as [-> ->] by lia. cbn [traceback].
    exists a, []. split; [reflexivity|]. split; [apply Hnil|].
    repeat split. constructor.
  - destruct (cells_fit pQuery pRef fromQuery toQuery toRef n m HQ HR HB iX iY HX HY)
      as (c & Ec & _ & Hd).
    destruct iX as [|x], iY as [|y].
    + cbn [traceback]. exists a, [].
      split; [reflexivity|]. split; [apply Hnil|]. repeat split. constructor.
    + cbn [traceback]. rewrite Ec. cbn [bind]. cbn [dir_ok] in Hd. rewrite Hd.
      change (3 =? 1) with false. change (3 =? 3) with true. cbv iota.
      destruct (IH O y (append a deletion 1)) as (a' & g & E & A & Q & R & F);
        [lia | lia | lia |].
      exists a', ((deletion, 1) :: g). split; [exact E|].
      apply Hcons; try assumption; unfold queryLength, refLength; cbn [fst snd]; lia.
    + cbn [traceback]. rewrite Ec. cbn [bind]. cbn [dir_ok] in Hd. rewrite Hd.
      change (2 =? 1) with false. change (2 =? 3) with false. cbv iota.
      destruct (IH x O (append a insertion 1)) as (a' & g & E & A & Q & R & F);
        [lia | lia | lia |].
      exists a', ((insertion, 1) :: g). split; [exact E|].
      apply Hcons; try assumption; unfold queryLength, refLength; cbn [fst snd]; lia.
    + cbn [traceback]. rewrite Ec. cbn [bind].
      destruct (HQ (S x)) as [q Eq]; [lia|].
      destruct (HR (S y)) as [r Er]; [lia|].
      destruct (snd c =? 1).
      * rewrite Eq. cbn [bind]. rewrite Er. cbn [bind].
        destruct (IH x y (append a (if q =? r then match_ else missmatch) 1))
          as (a' & g & E & A & Q & R & F); [lia | lia | lia |].
        exists a', ((if q =? r then match_ else missmatch, 1) :: g).
        split; [exact E|].
        apply Hcons; try assumption; unfold queryLength, refLength; cbn [fst snd];
          destruct (q =? r); lia.
      * destruct (snd c =? 3).
        -- destruct (IH (S x) y (append a deletion 1)) as (a' & g & E & A & Q & R & F);
             [lia | lia | lia |].
           exists a', ((deletion, 1) :: g). split; [exact E|].
           apply Hcons; try assumption; unfold queryLength, refLength; cbn [fst snd]; lia.
        -- destruct (IH x (S y) (append a insertion 1)) as (a' & g & E & A & Q & R & F);
             [lia | lia | lia |].
           exists a', ((insertion, 1) :: g). split; [exact E|].
           apply Hcons; try assumption; unfold queryLength, refLength; cbn [fst snd]; lia.
Qed.

(** Filling a gap whose two sides lie inside the sequences, whose tables fit
    the stack and whose scores fit an [int]: [needlemanWunsch] returns, and
    the runs it adds (each of one step) take exactly the gap on the query and
    on the reference. *)
Lemma needlemanWunsch_fills uiStackCells pQuery pRef fromQuery toQuery fromRef toRef a :
  0 <= fromQuery -> toQuery <= Z.of_nat (List.length pQuery) -> toQuery < two64 ->
  0 <= fromRef -> toRef <= Z.of_nat (List.length pRef) -> toRef < two64 ->
  50 * (Z.max 0 (toQuery - fromQuery) + Z.max 0 (toRef - fromRef)) < 2 ^ 31 ->
  (Z.max 0 (toQuery - fromQuery) + 1) * (Z.max 0 (toRef - fromRef) + 1) <= uiStackCells ->
  exists a' g,
    needlemanWunsch uiStackCells pQuery pRef fromQuery toQuery fromRef toRef a = Some a' /\
    adds a a' g /\
    Forall (fun r => snd r = 1) g /\
    queryLengthOf g = Z.max 0 (toQuery - fromQuery) /\
    refLengthOf g = Z.max 0 (toRef - fromRef).
Proof.
  intros HfQ HtQ HtQ' HfR HtR HtR' HB HS.
  assert (Hsmall : forall d, 0 < d < 2 ^ 31 -> i32 (u64 d) = d /\ u64 d = d).
  { intros d Hd.
    assert (E : u64 d = d) by (apply u64_small; unfold in_u64, two64; lia).
    rewrite E. split; [apply i32_small; lia | reflexivity]. }
  unfold needlemanWunsch.
  destruct (Z.leb_spec toRef fromRef) as [Hr | Hr];
    destruct (Z.leb_spec toQuery fromQuery) as [Hq | Hq]; cbn [andb].
  - exists a, []. split; [reflexivity|].
    split; [repeat split; now rewrite app_nil_r|].
    split; [constructor|]. cbn. lia.
  - destruct (Hsmall (toQuery - fromQuery) ltac:(lia)) as [E _]. rewrite E.
    destruct (repeat_lengths insertion (Z.to_nat (toQuery - fromQuery))) as [L1 L2].
    eexists. eexists. split; [reflexivity|].
    split; [apply appendEach_adds|]. split; [apply repeat_steps|].
    rewrite L1, L2. lia.
  - destruct (Hsmall (toRef - fromRef) ltac:(lia)) as [E _]. rewrite E.
    destruct (repeat_lengths deletion (Z.to_nat (toRef - fromRef))) as [L1 L2].
    eexists. eexists. split; [reflexivity|].
    split; [apply appendEach_adds|]. split; [apply repeat_steps|].
    rewrite L1, L2. lia.
  - destruct (Hsmall (toQuery - fromQuery) ltac:(lia)) as [_ E1].
    destruct (Hsmall (toRef - fromRef) ltac:(lia)) as [_ E2].
    cbv zeta. rewrite E1, E2.
    rewrite (u64_small (toQuery - fromQuery + 1)) by (unfold in_u64, two64; lia).
    rewrite (u64_small (toRef - fromRef + 1)) by (unfold in_u64, two64; lia).
    replace (uiStackCells <? (toQuery - fromQuery + 1) * (toRef - fromRef + 1))
      with false by (symmetry; apply Z.ltb_ge; lia).
    destruct (traceback_fills pQuery pRef fromQuery toQuery toRef
                (Z.to_nat (toQuery - fromQuery)) (Z.to_nat (toRef - fromRef)))
      with (fuel := (Z.to_nat (toQuery - fromQuery) + Z.to_nat (toRef - fromRef))%nat)
           (iX := Z.to_nat (toQuery - fromQuery)) (iY := Z.to_nat (toRef - fromRef))
           (a := a)
      as (a' & g & E & A & Q & R & F); try lia.
    + intros i Hi. apply charAt_inside.
      rewrite u64_small by (unfold in_u64; lia). lia.
    + intros j Hj. apply charAt_inside.
      rewrite u64_small by (unfold in_u64; lia). lia.
    + exists a', g. split; [exact E|]. split; [exact A|]. split; [exact F|].
      rewrite Q, R. lia.
Qed.

Lemma tables_smaller cells Q R n m :
  (Q + 1) * (R + 1) <= cells -> 0 <= n <= Q -> 0 <= m <= R ->
  (n + 1) * (m + 1) <= cells.
Proof.
  intros H Hn Hm. eapply Z.le_trans; [|exact H].
  apply Z.mul_le_mono_nonneg; lia.
Qed.

Lemma overlapQ_value st s :
  0 <= endOfLastSeedQuery st < two64 -> 0 <= start s ->
  overlapQ st s = Z.max 0 (endOfLastSeedQuery st - start s).
Proof.
  intros H Hs. unfold overlapQ.
  destruct (Z.ltb_spec (endOfLastSeedQuery st) (start s)); [lia|].
  rewrite u64_small; [lia | unfold in_u64; lia].
Qed.

Lemma overlapR_value beginRef st s :
  0 <= beginRef -> 0 <= endOfLastSeedReference st ->
  endOfLastSeedReference st + beginRef < two64 -> 0 <= start_ref s ->
  overlapR beginRef st s =
  Z.max 0 (endOfLastSeedReference st + beginRef - start_ref s).
Proof.
  intros Hb H1 H2 Hs. unfold overlapR.
  rewrite (u64_small (endOfLastSeedReference st + beginRef)) by (unfold in_u64; lia).
  destruct (Z.ltb_spec (endOfLastSeedReference st + beginRef) (start_ref s)); [lia|].
  rewrite u64_sub_r.
  rewrite u64_small; [lia | unfold in_u64; lia].
Qed.

Lemma appendSeed_data a ovQ ovR len :
  0 <= ovQ < two64 -> 0 <= ovR < two64 -> 0 <= len < two64 ->
  data (appendSeed a ovQ ovR len) = data a ++ seedRuns ovQ ovR len /\
  extends a (appendSeed a ovQ ovR len).
Proof.
  intros HQ HR Hl.
  assert (D : data (appendSeed a ovQ ovR len) = data a ++ seedRuns ovQ ovR len).
  { unfold appendSeed, seedRuns.
    destruct (Z.ltb_spec (Z.max ovQ ovR) len);
    destruct (Z.ltb_spec ovR ovQ); destruct (Z.ltb_spec ovQ ovR); try lia;
      cbn [append data app uiBeginOnRef uiEndOnRef];
      rewrite ?u64_small by (unfold in_u64; lia);
      rewrite <- ?app_assoc; cbn [app]; rewrite ?app_nil_r; reflexivity. }
  split; [exact D|]. split; [|split].
  - unfold appendSeed.
    destruct (Z.max ovQ ovR <? len), (ovR <? ovQ), (ovQ <? ovR); reflexivity.
  - unfold appendSeed.
    destruct (Z.max ovQ ovR <? len), (ovR <? ovQ), (ovQ <? ovR); reflexivity.
  - eexists. exact D.
Qed.

(** One step of the loop over the seeds: the gap before the seed is filled,
    the runs of the seed follow, and the end of the chain moves to the end of
    the seed where that lies behind it. *)
Lemma seedStep_spec uiStackCells pQuery pRef beginRef st s :
  0 <= beginRef -> beginRef + Z.of_nat (List.length pRef) < two64 ->
  tables_fit uiStackCells pQuery pRef ->
  state_ok pQuery pRef st -> seed_inside pQuery pRef beginRef s ->
  exists gap st',
    needlemanWunsch uiStackCells pQuery pRef (endOfLastSeedQuery st) (start s)
      (endOfLastSeedReference st) (start_ref s - beginRef) (pRet st) = Some gap /\
    extends (pRet st) gap /\
    seedStep uiStackCells pQuery pRef beginRef st s = Some st' /\
    data (pRet st') =
      data gap ++ seedRuns (Z.max 0 (endOfLastSeedQuery st - start s))
                           (Z.max 0 (endOfLastSeedReference st + beginRef - start_ref s))
                           (size s) /\
    extends (pRet st) (pRet st') /\
    state_ok pQuery pRef st' /\
    endOfLastSeedQuery st' = Z.max (endOfLastSeedQuery st) (end_ s) /\
    endOfLastSeedReference st' + beginRef =
      Z.max (endOfLastSeedReference st + beginRef) (end_ref s).
Proof.
  intros Hb Hw (HB & HS) ((Q1 & Q2) & (R1 & R2)) (Hs & HsQ & HsB & HsR).
  pose proof (end_ok s Hs) as Ee. pose proof (end_ref_ok s Hs) as Er.
  pose proof Hs as (S1 & S2 & S3 & S4 & S5).
  rewrite Ee in HsQ. rewrite Er in HsR. unfold start_ref in HsB.
  assert (H31 : 2 ^ 31 < two64) by (unfold two64; lia).
  assert (Eto : u64 (start_ref s - beginRef) = start_ref s - beginRef)
    by (apply u64_small; unfold in_u64, start_ref; lia).
  assert (Hcells : (Z.max 0 (start s - endOfLastSeedQuery st) + 1) *
                   (Z.max 0 (start_ref s - beginRef - endOfLastSeedReference st) + 1)
                   <= uiStackCells).
  { apply (tables_smaller uiStackCells (Z.of_nat (List.length pQuery))
             (Z.of_nat (List.length pRef))); [exact HS | |];
      unfold start, start_ref; lia. }
  destruct (needlemanWunsch_fills uiStackCells pQuery pRef
              (endOfLastSeedQuery st) (start s)
              (endOfLastSeedReference st) (start_ref s - beginRef) (pRet st))
    as (gap & g & Eg & Ag & _); try exact Hcells; try (unfold start, start_ref; lia).
  pose proof (adds_extends _ _ _ Ag) as Xg.
  assert (OQ := overlapQ_value st s ltac:(lia) S1).
  assert (OR := overlapR_value beginRef st s Hb R1 ltac:(lia) S3).
  assert (HQ : 0 <= overlapQ st s < two64) by (rewrite OQ; unfold start; lia).
  assert (HR : 0 <= overlapR beginRef st s < two64) by (rewrite OR; unfold start_ref; lia).
  assert (Hl : 0 <= size s < two64) by (unfold size; lia).
  destruct (appendSeed_data gap _ _ _ HQ HR Hl) as [D X].
  exists gap. eexists. split; [exact Eg|]. split; [exact Xg|].
  unfold seedStep. rewrite Eto, Eg. cbn [bind]. split; [reflexivity|].
  cbn [pRet endOfLastSeedQuery endOfLastSeedReference].
  split; [rewrite D, OQ, OR; reflexivity|].
  split; [eapply extends_trans; eassumption|].
  unfold state_ok; cbn [pRet endOfLastSeedQuery endOfLastSeedReference].
  rewrite (u64_small (endOfLastSeedReference st + beginRef)) by (unfold in_u64; lia).
  rewrite Ee, Er.
  destruct (Z.ltb_spec (endOfLastSeedQuery st) (iStart s + iSize s));
  destruct (Z.ltb_spec (endOfLastSeedReference st + beginRef)
                       (uiPosOnReference s + iSize s));
    rewrite ?u64_small by (unfold in_u64; lia); lia.
Qed.

(** The loop over the seeds returns, and the end of the chain is the largest
    end of a seed so far. *)
Lemma seedLoop_spec uiStackCells pQuery pRef beginRef seeds :
  0 <= beginRef -> beginRef + Z.of_nat (List.length pRef) < two64 ->
  tables_fit uiStackCells pQuery pRef ->
  Forall (seed_inside pQuery pRef beginRef) seeds ->
  forall st,
    state_ok pQuery pRef st ->
    exists st', seedLoop uiStackCells pQuery pRef beginRef st seeds = Some st' /\
                extends (pRet st) (pRet st') /\ state_ok pQuery pRef st' /\
                endOfLastSeedQuery st' =
                  fold_left (fun e s => Z.max e (end_ s)) seeds (endOfLastSeedQuery st) /\
                endOfLastSeedReference st' + beginRef =
                  fold_left (fun e s => Z.max e (end_ref s)) seeds
                            (endOfLastSeedReference st + beginRef).
Proof.
  intros Hb Hw Hfit. induction seeds as [|s rest IH]; intros Hs st Hst.
  - exists st. split; [reflexivity|]. split; [apply extends_refl|].
    split; [exact Hst|]. split; reflexivity.
  - inversion Hs as [|? ? Hs1 Hs2]; subst.
    destruct (seedStep_spec uiStackCells pQuery pRef beginRef st s Hb Hw Hfit Hst Hs1)
      as (gap & st1 & _ & _ & E1 & _ & X1 & O1 & Q1 & R1).
    destruct (IH Hs2 st1 O1) as (st' & E' & X' & O' & Q' & R').
    exists st'. cbn [seedLoop]. rewrite E1. cbn [bind]. split; [exact E'|].
    split; [eapply extends_trans; eassumption|]. split; [exact O'|].
    cbn [fold_left]. rewrite <- Q1, <- R1. split; assumption.
Qed.

Lemma seedLoop_app uiStackCells pQuery pRef beginRef pre : forall st post,
  seedLoop uiStackCells pQuery pRef beginRef st (pre ++ post) =
  (st' <- seedLoop uiStackCells pQuery pRef beginRef st pre ;;
   seedLoop uiStackCells pQuery pRef beginRef st' post).
Proof.
  induction pre as [|s pre IH]; intros st post; cbn [app seedLoop bind]; [reflexivity|].
  destruct (seedStep uiStackCells pQuery pRef beginRef st s); cbn [bind];
    [apply IH | reflexivity].
Qed.

Lemma insertSorted_Forall (P : Seed -> Prop) x l :
  P x -> Forall P l -> Forall P (insertSorted x l).
Proof.
  intros Hx; induction l as [|y l IH]; intros Hl; cbn [insertSorted].
  - constructor; [exact Hx | constructor].
  - inversion Hl; subst. destruct (seedLess x y); constructor; auto.
Qed.

Lemma sortSeeds_Forall (P : Seed -> Prop) l : Forall P l -> Forall P (sortSeeds l).
Proof.
  unfold sortSeeds. assert (G : forall acc, Forall P acc -> Forall P l ->
    Forall P (fold_left (fun acc x => insertSorted x acc) l acc)).
  { induction l as [|x l IH]; intros acc Ha Hl; cbn [fold_left]; [exact Ha|].
    inversion Hl; subst. apply IH; [apply insertSorted_Forall|]; assumption. }
  intros H. apply G; [constructor | exact H].
Qed.

Lemma i64_of_index v : 0 <= v < two64 -> i64 v = v \/ i64 v < 0.
Proof.
  intros H. unfold i64. destruct (Z_lt_le_dec v two63) as [Hl | Hg].
  - left. rewrite Z.mod_small; unfold two64, two63 in *; lia.
  - right. replace (v + two63) with (v - two63 + 1 * two64) by (unfold two64, two63; lia).
    rewrite Z_mod_plus_full. rewrite Z.mod_small; unfold two64, two63 in *; lia.
Qed.

(** The window of the reference lies on the forward strand. *)
Lemma refWindow_range pSeeds front pQuery pack :
  PackStore.size_ok pack ->
  0 <= fst (refWindow pSeeds front pQuery pack) < two64 /\
  0 <= snd (refWindow pSeeds front pQuery pack)
    <= PackStore.uiUnpackedSizeForwardStrand pack.
Proof.
  intros Hs. destruct (PackStore.both_strands_size pack Hs) as [E _].
  unfold PackStore.size_ok in Hs. unfold refWindow. cbv zeta. cbn [fst snd]. rewrite E.
  replace (2 * PackStore.uiUnpackedSizeForwardStrand pack / 2)
    with (PackStore.uiUnpackedSizeForwardStrand pack)
    by (symmetry; rewrite Z.mul_comm; apply Z.div_mul; lia).
  split.
  - destruct (_ <? _); [apply u64_range | unfold two64; lia].
  - match goal with |- context [if ?x <? ?y then _ else _] =>
      destruct (Z.ltb_spec x y) as [Hlt | Hge]; [|lia];
      pose proof (u64_range (end_ref (last pSeeds front) +
                             u64 (u64 (Z.of_nat (List.length pQuery) -
                                       end_ (last pSeeds front)) * 2))) as Hr
    end.
    unfold in_u64 in Hr. lia.
Qed.

(** An extraction from the forward strand returns one base per position. *)
Lemma window_extract pack b e pRef :
  PackStore.size_ok pack -> 0 <= b < two64 ->
  0 <= e <= PackStore.uiUnpackedSizeForwardStrand pack ->
  PackStore.vExtract pack (i64 b) (i64 e) = PackStore.Ok pRef ->
  b <= e /\ Z.of_nat (List.length pRef) = e - b.
Proof.
  intros Hs Hb He H. destruct (PackStore.both_strands_size pack Hs) as [_ E2].
  unfold PackStore.size_ok in Hs.
  assert (Ee : i64 e = e) by (apply i64_small; unfold in_i64, two63; lia).
  unfold PackStore.vExtract, PackStore.vExtractSubsection in H.
  rewrite E2, Ee in H. cbv zeta in H.
  destruct (PackStore.vRangeCheckExclusive 0 (i64 b)
              (2 * PackStore.uiUnpackedSizeForwardStrand pack)) eqn:C1;
    cbn [negb] in H; [|discriminate].
  unfold PackStore.vRangeCheckExclusive in C1. apply andb_true_iff in C1.
  destruct C1 as [C1a C1b]. apply Z.leb_le in C1a. apply Z.ltb_lt in C1b.
  destruct (i64_of_index b Hb) as [Eb | Eb]; [|lia]. rewrite Eb in *.
  destruct (PackStore.vRangeCheckInclusive 0 e
              (2 * PackStore.uiUnpackedSizeForwardStrand pack)); cbn [negb] in H;
    [|discriminate].
  unfold PackStore.bPositionIsOnReversStrand, PackStore.uiStartOfReverseStrand in H.
  rewrite (u64_small b) in H by (unfold in_u64; lia).
  destruct (Bool.eqb (PackStore.uiUnpackedSizeForwardStrand pack <=? b)
                     (PackStore.uiUnpackedSizeForwardStrand pack <=? u64 (e - 1))) eqn:C3;
    cbn [negb] in H; [|discriminate].
  destruct (Z.leb_spec b e) as [C4 | C4]; cbn [negb] in H; [|discriminate].
  split; [exact C4|].
  destruct (Z.leb_spec (PackStore.uiUnpackedSizeForwardStrand pack) b) as [C5 | C5];
    cbn [negb] in H.
  - exfalso. assert (e = b) by lia. subst e.
    rewrite (u64_small (b - 1)) in C3 by (unfold in_u64, two64; lia).
    apply Bool.eqb_prop in C3. symmetry in C3. apply Z.leb_le in C3. lia.
  - injection H as <-. cbn [app]. rewrite length_map. unfold PackStore.upto.
    rewrite length_map, length_seq. lia.
Qed.

(** C7. [execute] sorts the seeds by query position and walks along them.
    When the walk reaches a seed [s], the chain of the seeds before it ends
    at the largest end of one of them, on the query and on the reference, and
    the loop holds exactly these two ends.  With [ovQ] and [ovR] the overlaps
    of [s] with that end (0 when there is none), the alignment that [execute]
    returns holds, behind the runs of the seeds before [s] and of the gap
    before [s], the runs [seedRuns ovQ ovR (size s)]: a match run of
    [size s - max(ovQ, ovR)] steps (when that is positive), a deletion run of
    [ovQ - ovR] steps when [ovQ > ovR], and an insertion run of [ovR - ovQ]
    steps when [ovR > ovQ].  The seeds lie inside the query and inside the
    window of the reference that [execute] extracts, and the tables of the
    gaps fit the stack and an [int]; then [execute] returns. *)
Theorem overlapping_seed_runs :
  forall (uiStackCells : Z) (seeds : list Seed) (pQuery : list Z)
         (pack : PackStore.Pack) (front : Seed) (others : list Seed) (pRef : list Z),
    PackStore.size_ok pack ->
    Forall seed_ok seeds ->
    sortSeeds seeds = front :: others ->
    let window := refWindow (front :: others) front pQuery pack in
    let beginRef := fst window in
    PackStore.vExtract pack (i64 beginRef) (i64 (snd window)) = PackStore.Ok pRef ->
    Forall (fun s => end_ s <= Z.of_nat (List.length pQuery) /\
                     beginRef <= start_ref s /\ end_ref s <= snd window) seeds ->
    tables_fit uiStackCells pQuery pRef ->
    exists result,
      execute uiStackCells seeds pQuery pack = Some result /\
      forall pre s post,
        sortSeeds seeds = pre ++ s :: post ->
        let ovQ := Z.max 0 (chainEndQuery pre - start s) in
        let ovR := Z.max 0 (chainEndRef beginRef pre - start_ref s) in
        exists st gap after,
          seedLoop uiStackCells pQuery pRef beginRef
            (mkLoopState 0 0 (mkAlignment beginRef (snd window) [])) pre = Some st /\
          endOfLastSeedQuery st = chainEndQuery pre /\
          endOfLastSeedReference st + beginRef = chainEndRef beginRef pre /\
          needlemanWunsch uiStackCells pQuery pRef
            (chainEndQuery pre) (start s)
            (chainEndRef beginRef pre - beginRef) (start_ref s - beginRef)
            (pRet st) = Some gap /\
          data result = data gap ++ seedRuns ovQ ovR (size s) ++ after.
Proof.
  intros cells seeds pQuery pack front others pRef Hsize Hok Hsort window beginRef
         Hext Hin Hfit.
  destruct (refWindow_range (front :: others) front pQuery pack Hsize) as [Hb He].
  fold window in Hb, He. fold beginRef in Hb.
  destruct (window_extract pack beginRef (snd window) pRef Hsize Hb He Hext)
    as [Hbe Hlen].
  assert (Hw : beginRef + Z.of_nat (List.length pRef) < two64).
  { unfold PackStore.size_ok in Hsize. unfold two64. lia. }
  assert (Hall : Forall (seed_inside pQuery pRef beginRef) (front :: others)).
  { rewrite <- Hsort. apply sortSeeds_Forall.
    apply Forall_forall. intros x Hx.
    pose proof (proj1 (Forall_forall _ _) Hok x Hx) as H1.
    pose proof (proj1 (Forall_forall _ _) Hin x Hx) as (H2 & H3 & H4).
    unfold seed_inside. split; [exact H1|]. split; [exact H2|].
    split; [exact H3 | lia]. }
  set (init := mkLoopState 0 0 (mkAlignment beginRef (snd window) [])).
  assert (Hinit : state_ok pQuery pRef init).
  { unfold state_ok, init; cbn [endOfLastSeedQuery endOfLastSeedReference]. lia. }
  destruct (seedLoop_spec cells pQuery pRef beginRef (front :: others)
              (proj1 Hb) Hw Hfit Hall init Hinit)
    as (stN & EN & XN & ((QN1 & QN2) & (RN1 & RN2)) & _ & _).
  destruct Hfit as [HB HS].
  assert (Eto : u64 (snd window - beginRef) = snd window - beginRef)
    by (apply u64_small; unfold in_u64, two64 in *; lia).
  destruct (needlemanWunsch_fills cells pQuery pRef
              (endOfLastSeedQuery stN) (Z.of_nat (List.length pQuery))
              (endOfLastSeedReference stN) (snd window - beginRef) (pRet stN))
    as (result & g3 & ER & AR & _); try (unfold two64; lia).
  { apply (tables_smaller cells (Z.of_nat (List.length pQuery))
             (Z.of_nat (List.length pRef))); [exact HS | lia | lia]. }
  exists result. split.
  - unfold execute. rewrite Hsort. fold window.
    rewrite (surjective_pairing window). fold beginRef.
    rewrite Hext. fold init. rewrite EN. cbn [bind]. rewrite Eto. exact ER.
  - intros pre s post Hsplit.
    rewrite Hsort in Hsplit. rewrite Hsplit in EN, Hall.
    apply Forall_app in Hall. destruct Hall as [Hpre Hrest].
    inversion Hrest as [|? ? Hs Hpost]; subst.
    destruct (seedLoop_spec cells pQuery pRef beginRef pre
                (proj1 Hb) Hw (conj HB HS) Hpre init Hinit)
      as (st & Est & Xst & Ost & Qst & Rst).
    rewrite seedLoop_app, Est in EN. cbn [bind seedLoop] in EN.
    destruct (seedStep_spec cells pQuery pRef beginRef st s
                (proj1 Hb) Hw (conj HB HS) Ost Hs)
      as (gap & st1 & Eg & _ & E1 & D1 & _ & O1 & _ & _).
    rewrite E1 in EN. cbn [bind] in EN.
    destruct (seedLoop_spec cells pQuery pRef beginRef post
                (proj1 Hb) Hw (conj HB HS) Hpost st1 O1)
      as (st2 & E2 & X2 & _).
    rewrite E2 in EN. injection EN as <-.
    destruct X2 as (_ & _ & g2 & D2). destruct AR as (_ & _ & D3).
    cbn [endOfLastSeedQuery endOfLastSeedReference init] in Qst, Rst.
    change (fold_left (fun e s0 => Z.max e (end_ s0)) pre 0)
      with (chainEndQuery pre) in Qst.
    change (fold_left (fun e s0 => Z.max e (end_ref s0)) pre (0 + beginRef))
      with (chainEndRef beginRef pre) in Rst.
    exists st, gap, (g2 ++ g3). split; [exact Est|].
    split; [exact Qst|]. split; [exact Rst|].
    rewrite <- Qst, <- Rst.
    replace (endOfLastSeedReference st + beginRef - beginRef)
      with (endOfLastSeedReference st) by lia.
    split; [exact Eg|].
    rewrite D3, D2, D1. rewrite <- !app_assoc. reflexivity.
Qed.

(** Two seeds of four bases on the contig ACGTACGT; the second overlaps the
    first by two bases on the query and by one on the reference. *)
Lemma overlapping_seed_runs_witness :
  let pack := PackStore.mkPack [] [] [27; 27] 1 8 in
  let a := mkSeed 0 4 0 1 0 true 0 in
  let b := mkSeed 2 4 3 1 0 true 0 in
  let pQuery := [0; 1; 2; 3; 0; 1] in
  let pRef := [0; 1; 2; 3; 0; 1; 2] in
  exists result,
    execute 64 [b; a] pQuery pack = Some result /\
    forall pre s post,
      sortSeeds [b; a] = pre ++ s :: post ->
      let ovQ := Z.max 0 (chainEndQuery pre - start s) in
      let ovR := Z.max 0 (chainEndRef 0 pre - start_ref s) in
      exists st gap after,
        seedLoop 64 pQuery pRef 0 (mkLoopState 0 0 (mkAlignment 0 7 [])) pre = Some st /\
        endOfLastSeedQuery st = chainEndQuery pre /\
        endOfLastSeedReference st + 0 = chainEndRef 0 pre /\
        needlemanWunsch 64 pQuery pRef (chainEndQuery pre) (start s)
          (chainEndRef 0 pre - 0) (start_ref s - 0) (pRet st) = Some gap /\
        data result = data gap ++ seedRuns ovQ ovR (size s) ++ after.
Proof.
  cbv zeta.
  assert (Hp : PackStore.size_ok (PackStore.mkPack [] [] [27; 27] 1 8))
    by (unfold PackStore.size_ok; simpl; lia).
  assert (Hq : forall n m r, 0 <= n -> 0 <= m -> 0 <= r ->
                 n + m < two64 -> r + m < two64 ->
                 seed_ok (mkSeed n m r 1 0 true 0))
    by (intros; unfold seed_ok; simpl; lia).
  assert (Ha : seed_ok (mkSeed 0 4 0 1 0 true 0)) by (apply Hq; unfold two64; lia).
  assert (Hb : seed_ok (mkSeed 2 4 3 1 0 true 0)) by (apply Hq; unfold two64; lia).
  assert (HF : Forall seed_ok [mkSeed 2 4 3 1 0 true 0; mkSeed 0 4 0 1 0 true 0])
    by (apply Forall_cons; [exact Hb | apply Forall_cons; [exact Ha | apply Forall_nil]]).
  assert (Hin : Forall (fun s => end_ s <= 6 /\ 0 <= start_ref s /\ end_ref s <= 7)
                       [mkSeed 2 4 3 1 0 true 0; mkSeed 0 4 0 1 0 true 0]).
  { apply Forall_cons; [|apply Forall_cons; [|apply Forall_nil]];
      vm_compute; repeat split; discriminate. }
  assert (Hfit : tables_fit 64 [0; 1; 2; 3; 0; 1] [0; 1; 2; 3; 0; 1; 2])
    by (unfold tables_fit; simpl; lia).
  exact (overlapping_seed_runs 64
           [mkSeed 2 4 3 1 0 true 0; mkSeed 0 4 0 1 0 true 0]
           [0; 1; 2; 3; 0; 1] (PackStore.mkPack [] [] [27; 27] 1 8)
           (mkSeed 0 4 0 1 0 true 0) [mkSeed 2 4 3 1 0 true 0]
           [0; 1; 2; 3; 0; 1; 2] Hp HF eq_refl eq_refl Hin Hfit).
Defined.

(** The alignments of three chains on the contig ACGTACGT.  An overlap of 2
    on the query and 1 on the reference shortens the match run by 2 and adds
    a deletion of 1; an overlap of 1 on the reference alone shortens the
    match run by 1 and adds an insertion of 1; two seeds of one diagonal that
    overlap by 2 on both axes give a shortened match run and no insertion or
    deletion.  A single seed is surrounded by the runs of the two gaps; with
    tables of 16 cells and a stack for 15, or with a seed behind the end of
    the query, there is no alignment. *)
Example overlapping_seed_runs_examples :
  let pack := PackStore.mkPack [] [] [27; 27] 1 8 in
  let a := mkSeed 0 4 0 1 0 true 0 in
  execute 64 [mkSeed 2 4 3 1 0 true 0; a] [0; 1; 2; 3; 0; 1] pack =
    Some (mkAlignment 0 7 [(match_, 4); (match_, 2); (deletion, 1)]) /\
  execute 64 [a; mkSeed 4 3 3 1 0 true 0] [0; 1; 2; 3; 3; 0; 1] pack =
    Some (mkAlignment 0 6 [(match_, 4); (match_, 2); (insertion, 1)]) /\
  execute 64 [a; mkSeed 2 4 2 1 0 true 0] [0; 1; 2; 3; 0; 1] pack =
    Some (mkAlignment 0 6 [(match_, 4); (match_, 2)]) /\
  execute 64 [mkSeed 3 1 3 1 0 true 0] [0; 1; 2; 3; 0; 1] pack =
    Some (mkAlignment 0 8 [(match_, 1); (match_, 1); (match_, 1); (match_, 1);
                           (match_, 1); (match_, 1); (deletion, 1); (deletion, 1)]) /\
  execute 15 [mkSeed 3 1 3 1 0 true 0] [0; 1; 2; 3; 0; 1] pack = None /\
  execute 64 [mkSeed 8 1 3 1 0 true 0] [0; 1; 2; 3; 0; 1] pack = None.
Proof. vm_compute. repeat split. Qed.
End GapFill.

(* ===================================================================== *)
(** * SV jumps by recursive reseeding (svJumpsFromSeeds.cpp) *)
(* ===================================================================== *)

Module SvReseed.
Import MachineInt SeedDefs PackStore.

(** A query: its nucleotide codes and the id of the read. *)
Record NucSeq : Type := mkNucSeq { codes : list Z; iId : Z }.

Definition qLength (q : NucSeq) : Z := Z.of_nat (List.length (codes q)).

(** [NucSeq::fromTo( uiStart, uiEnd )]: the codes from [uiStart] up to
    [uiEnd], or up to the end of the sequence. *)
Definition fromTo (l : list Z) (uiStart uiEnd : Z) : list Z :=
  firstn (Z.to_nat (uiEnd - uiStart)) (skipn (Z.to_nat uiStart) l).

(** [NucSeq::nucleotideComplement]. *)
Definition nucleotideComplement (c : Z) : Z := if c <? 4 then 3 - c else 5.

(** Modelled from the spec: the class [SvJump] is declared in svJump.h, which
    is not among the sources.  A jump is kept as the constructor call that
    makes it: a dummy jump from one seed, the length of the query, the side
    of the seed, the id of the read and the maximal distance; or a jump
    between two seeds. *)
Inductive SvJump : Type :=
| DummyJump (rA : Seed) (qLen : Z) (bFromSeedStart : bool) (iReadId : Z)
            (uiMaxJumpLen : Z)
| SeedJump (rA rB : Seed) (bFromSeedStart : bool) (iReadId : Z).

(** Modelled from the spec: the fields of a left dummy jump, made from the
    seed [next] with [bFromSeedStart = false]:
    [{q_from = 0, to = next.r_start, max_dist = max_dist_dummy, dummy}]. *)
Record DummyFields : Type := mkDummyFields {
  q_from : Z;
  to_pos : Z;
  max_dist : Z;
  dummy_flag : bool
}.

Definition leftDummyFields (j : SvJump) : option DummyFields :=
  match j with
  | DummyJump rA _ false _ uiMaxJumpLen =>
      Some (mkDummyFields 0 (start_ref rA) uiMaxJumpLen true)
  | _ => None
  end.

Definition isLeftDummy (j : SvJump) : bool :=
  match j with DummyJump _ _ false _ _ => true | _ => false end.

Definition isRightDummy (j : SvJump) : bool :=
  match j with DummyJump _ _ true _ _ => true | _ => false end.

(** The empty rectangle [Rectangle( 0, 0, 0, 0 )]. *)
Definition emptyRect : Rectangle := Rectangle_ 0 0 0 0.

(** [std::sort] by query start.  Seeds with equal starts are left in the
    order they had (the standard leaves their order open). *)
Fixpoint insertByStart (x : Seed) (l : list Seed) : list Seed :=
  match l with
  | [] => [x]
  | y :: t => if start x <? start y then x :: l else y :: insertByStart x t
  end.

Definition sortByStart (l : list Seed) : list Seed :=
  fold_left (fun acc x => insertByStart x acc) l [].

Definition isDummy (o : option Seed) : bool :=
  match o with None => true | Some _ => false end.

Definition ivEnd (i : Interval) : Z := u64 (ivStart i + ivSize i).


(** ** Small references *)

(** The members that are not part of the sources, for the examples: an
    extra seeding area of 1.5 times the query distance, a k-mer seeder that
    finds nothing, filters that keep every seed, and an alignment whose score
    is the code of the first base of the reference window, with one seed at
    the start of the alignment. *)
Definition exArea (n : Z) : Z := Z.quot (3 * n) 2.
Definition exAmbiguity (pRef pRefRevComp : list Z) : Z := 0.
Definition exUnique (uiSampledAmbiguity uiWidth : Z) : bool := true.
Definition exRepetitive (uiSampledAmbiguity uiWidth : Z) : bool := false.
Definition exKMerSize (xArea : Rectangle) : Z := 5.
Definition exSeeding (uiSeedSize : Z) (pQuerySegment pRef : list Z) : list Seed := [].
Definition exConfirm (l : list Seed) (pQuery : NucSeq) (pRefSeq : Pack) : list Seed := l.
Definition exKsw (pQuery : NucSeq) (pRef : list Z) (uiQFrom uiQTo uiRFrom uiRTo : Z)
           (xStart : Z * Z) : Z * list Seed :=
  (nth 0 pRef 0, [mkSeed (snd xStart) 1 (fst xStart) 1 0 true 0]).
Definition exLumper (l : list Seed) (pQuery : NucSeq) (pRefSeq : Pack) : list Seed := l.
Definition exFilter (l : list Seed) : list Seed := l.
Definition exValidJump (a b : Seed) (bFromSeedStart : bool) : bool := true.
Definition exDummySeed : Seed := mkSeed 0 0 0 0 0 true 0.

(** Two contigs of 100 bases each, ACGT repeated. *)
Definition twoContigs : Pack :=
  mkPack [mkSequenceInPack "chr1" EmptyString 0 100 0 0;
          mkSequenceInPack "chr2" EmptyString 100 100 0 0]
         [] (repeat 27 50) 1 200.

(** One contig of 2000 bases, ACGT repeated. *)
Definition oneContig : Pack :=
  mkPack [mkSequenceInPack "chr1" EmptyString 0 2000 0 0] [] (repeat 27 500) 1 2000.

(** A read of 500 bases with the id 7. *)
Definition exRead : NucSeq := mkNucSeq (repeat 0 500) 7.

Section Module_.

#[local] Set Default Proof Using "Type".

(** The parameters of the module. *)
Variable iMaxSizeReseed : Z.
Variable bDoDummyJumps : bool.
Variable uiMinDistDummy : Z.
Variable uiMaxDistDummy : Z.

(** [( int64_t )( n * dExtraSeedingAreaFactor )]: the product with a
    [double] and its truncation. *)
Variable extraSeedingArea : Z -> Z.

(** [sampleSequenceAmbiguity( ref, refRevComp, dProbabilityForRandomMatch )]
    (statisticSequenceAnalysis.h). *)
Variable sampleSequenceAmbiguity : list Z -> list Z -> Z.

(** [uiSampledAmbiguity <= width * ( 1 + dMaxSequenceSimilarity )], a
    comparison in [double]. *)
Variable ambiguityBelowThreshold : Z -> Z -> bool.

(** [getKMerSizeForRectangle( xArea, dProbabilityForRandomMatch )]. *)
Variable getKMerSizeForRectangle : Rectangle -> Z.

(** [HashMapSeeding::execute] with the seed size, on a query segment and a
    reference. *)
Variable hashMapSeeding : Z -> list Z -> list Z -> list Seed.

(** [Seeds::confirmSeedPositions( pQuery, pRef, false )]. *)
Variable confirmSeedPositions : list Seed -> NucSeq -> Pack -> list Seed.

(** [xNW.ksw] on the query interval and the whole reference window, into an
    alignment that starts at the given reference and query positions: the
    score of the alignment and its seeds ([Alignment::toSeeds]). *)
Variable kswAlign : NucSeq -> list Z -> Z -> Z -> Z -> Z -> Z * Z -> Z * list Seed.

(** [xSeedLumper.execute( pSeeds, pQuery, pRefSeq )]. *)
Variable xSeedLumper : list Seed -> NucSeq -> Pack -> list Seed.

(** [xParlindromeFilter.execute]. *)
Variable xParlindromeFilter : list Seed -> list Seed.

(** [SvJump::validJump( a, b, bFromSeedStart )]. *)
Variable validJump : Seed -> Seed -> bool -> bool.

(** The member [xDummySeed]: the seed that stands for "no seed".  The source
    tells it from the other seeds by its address; here a seed argument is
    [None] for the dummy and [Some s] for a seed [s], and [seedOf] gives the
    object that is read. *)
Variable xDummySeed : Seed.

Definition seedOf (o : option Seed) : Seed :=
  match o with Some s => s | None => xDummySeed end.

(** The estimate of the width of a rectangle next to one seed:
    [iQueryDistance], capped at [iMaxSizeReseed / 2]. *)
Definition queryDistance (uiGap : Z) : Z :=
  let iQueryDistance := extraSeedingArea uiGap in
  if Z.quot iMaxSizeReseed 2 <? iQueryDistance
  then Z.quot iMaxSizeReseed 2 else iQueryDistance.

(** [iLastRef] (inclusive) of [getPositionsForSeeds]. *)
Definition lastRef (rLast rNext : option Seed) (uiQStart : Z) (pRefSeq : Pack) : Z :=
  match rLast with
  | None =>
      let next := seedOf rNext in
      if bOnForwStrand next then
        let iStartOfContig :=
          i64 (startOfSequenceWithId pRefSeq
                 (uiSequenceIdForPosition pRefSeq (start_ref next))) in
        let iQueryDistance := queryDistance (u64 (start next - uiQStart)) in
        Z.max iStartOfContig (i64 (start_ref next) - iQueryDistance)
      else
        let iEndOfContig :=
          i64 (endOfSequenceWithId pRefSeq
                 (uiSequenceIdForPosition pRefSeq (u64 (start_ref next + 1)))) in
        let iQueryDistance := queryDistance (u64 (start next - uiQStart)) in
        Z.min iEndOfContig (i64 (start_ref next) + 1 + iQueryDistance)
  | Some last =>
      if bOnForwStrand last then i64 (end_ref last)
      else i64 (u64 (u64 (i64 (start_ref last) - size last) + 1))
  end.

(** [iNextRef] (exclusive) of [getPositionsForSeeds]. *)
Definition nextRef (rLast rNext : option Seed) (uiQEnd : Z) (pRefSeq : Pack) : Z :=
  match rNext with
  | None =>
      let last := seedOf rLast in
      if bOnForwStrand last then
        let iEndOfContig :=
          i64 (endOfSequenceWithId pRefSeq
                 (uiSequenceIdForPosition pRefSeq (end_ref last))) in
        let iQueryDistance := queryDistance (u64 (uiQEnd - end_ last)) in
        Z.min iEndOfContig (i64 (end_ref last) + iQueryDistance)
      else
        let iStartOfContig :=
          i64 (startOfSequenceWithId pRefSeq
                 (uiSequenceIdForPosition pRefSeq
                    (u64 (u64 (start_ref last + 1) - size last)))) in
        let iQueryDistance := queryDistance (u64 (uiQEnd - end_ last)) in
        Z.max iStartOfContig
              (i64 (start_ref last) + 1 - i64 (u64 (size last + iQueryDistance)))
  | Some next =>
      if bOnForwStrand next then i64 (start_ref next)
      else i64 (start_ref next) + 1
  end.

(** The three tests at the head of [getPositionsForSeeds] that end it with
    two empty rectangles. *)
Definition emptyAtOnce (rLast rNext : option Seed) (uiQStart uiQEnd : Z) : bool :=
  match rLast, rNext with
  | Some last, Some next =>
      (start next <? end_ last) || (uiQEnd <=? end_ last) || (start next <=? uiQStart)
  | Some last, None => uiQEnd <=? end_ last
  | None, Some next => start next <=? uiQStart
  | None, None => false
  end.

(** [iRefSize] of two seeds: the distance on the reference in the direction
    of the strand, and -1 for seeds on different strands. *)
Definition refSize (last next : Seed) (iLastRef iNextRef : Z) : Z :=
  if bOnForwStrand last && bOnForwStrand next then iNextRef - iLastRef
  else if negb (bOnForwStrand last) && negb (bOnForwStrand next)
       then iLastRef - iNextRef
       else -1.

(** The test for two rectangles: the seeds are too far apart, point the
    wrong way (or lie on different strands), or their reference ends lie in
    different contigs. *)
Definition needsSplit (last next : Seed) (iLastRef iNextRef : Z) (pRefSeq : Pack) : bool :=
  let iRefSize := refSize last next iLastRef iNextRef in
  (iMaxSizeReseed <? iRefSize) || (iRefSize <? 0) ||
  negb (uiSequenceIdForPosition pRefSeq (u64 iLastRef) =?
        uiSequenceIdForPosition pRefSeq (u64 (iNextRef - 1))).

(** The one rectangle between [iLastRef] and [iNextRef]. *)
Definition rectBetween (rLast rNext : option Seed) (uiQStart uiQEnd : Z)
           (iLastRef iNextRef : Z) : Rectangle :=
  let iRefStart := Z.min iLastRef iNextRef in
  let iRefEnd := Z.max iLastRef iNextRef in
  let iRefSize := iRefEnd - iRefStart in
  let iRectQStart := i64 (match rLast with Some last => end_ last | None => uiQStart end) in
  let iRectQEnd := i64 (match rNext with Some next => start next | None => uiQEnd end) in
  Rectangle_ (u64 iRefStart) (u64 iRectQStart) (u64 iRefSize)
             (u64 (iRectQEnd - iRectQStart)).

(** [SvJumpsFromSeeds::getPositionsForSeeds].  The dummy seed is [None].
    [fuel] bounds the depth of the calls of the function by itself; a call
    with a dummy seed makes none, so 2 is enough. *)
Fixpoint getPositionsFuel (fuel : nat) (rLast rNext : option Seed)
         (uiQStart uiQEnd : Z) (pRefSeq : Pack) : Rectangle * Rectangle :=
  if emptyAtOnce rLast rNext uiQStart uiQEnd then (emptyRect, emptyRect)
  else
    let iLastRef := lastRef rLast rNext uiQStart pRefSeq in
    let iNextRef := nextRef rLast rNext uiQEnd pRefSeq in
    if iLastRef =? iNextRef then (emptyRect, emptyRect)
    else
      let one := (rectBetween rLast rNext uiQStart uiQEnd iLastRef iNextRef,
                  emptyRect) in
      match rLast, rNext with
      | Some last, Some next =>
          if needsSplit last next iLastRef iNextRef pRefSeq then
            match fuel with
            | O => (emptyRect, emptyRect)
            | S f =>
                (fst (getPositionsFuel f rLast None (end_ last) (start next) pRefSeq),
                 fst (getPositionsFuel f None rNext (end_ last) (start next) pRefSeq))
            end
          else one
      | _, _ => one
      end.

Definition getPositionsForSeeds (rLast rNext : option Seed) (uiQStart uiQEnd : Z)
           (pRefSeq : Pack) : Rectangle * Rectangle :=
  getPositionsFuel 2 rLast rNext uiQStart uiQEnd pRefSeq.

(** The positions of the seeds of the reverse complement, put back on the
    reference: [bOnForwStrand = false],
    [uiPosOnReference = xArea.xXAxis.end( ) - uiPosOnReference - 1],
    [iStart += xArea.xYAxis.start( )]. *)
Definition fixReverse (xArea : Rectangle) (s : Seed) : Seed :=
  mkSeed (u64 (iStart s + ivStart (xYAxis xArea))) (iSize s)
         (u64 (u64 (ivEnd (xXAxis xArea) - uiPosOnReference s) - 1))
         (uiAmbiguity s) (uiSoCNt s) false (uiDelta s).

(** The positions of the seeds of the forward strand:
    [uiPosOnReference += xArea.xXAxis.start( )],
    [iStart += xArea.xYAxis.start( )]. *)
Definition fixForward (xArea : Rectangle) (s : Seed) : Seed :=
  mkSeed (u64 (iStart s + ivStart (xYAxis xArea))) (iSize s)
         (u64 (uiPosOnReference s + ivStart (xXAxis xArea)))
         (uiAmbiguity s) (uiSoCNt s) (bOnForwStrand s) (uiDelta s).

(** The two alignments of the fall-back to dynamic programming in a
    rectangle: the score and the seeds on the forward strand, the score and
    the seeds on the reverse complement (put back on the reference). *)
Definition dpForward (xArea : Rectangle) (pQuery : NucSeq) (pRef : list Z)
  : Z * list Seed :=
  kswAlign pQuery pRef
           (ivStart (xYAxis xArea)) (u64 (ivEnd (xYAxis xArea) - 1))
           0 (u64 (Z.of_nat (List.length pRef) - 1))
           (ivStart (xXAxis xArea), ivStart (xYAxis xArea)).

Definition dpReverse (xArea : Rectangle) (pQuery : NucSeq) (pRefRevComp : list Z)
  : Z * list Seed :=
  let r := kswAlign pQuery pRefRevComp
             (ivStart (xYAxis xArea)) (u64 (ivEnd (xYAxis xArea) - 1))
             0 (u64 (Z.of_nat (List.length pRefRevComp) - 1))
             (0, 0) in
  (fst r, map (fixReverse xArea) (snd r)).

(** [computeSeeds( xArea, pQuery, pRefSeq, rvRet, pOutExtra )] for one
    rectangle: the seeds in [rvRet] afterwards.  [None] is an exception of
    the extraction.  The optional record [pOutExtra] of the Python interface
    is left out. *)
Definition computeSeedsIn (xArea : Rectangle) (pQuery : NucSeq) (pRefSeq : Pack)
           (rvRet : list Seed) : option (list Seed) :=
  if (ivSize (xXAxis xArea) =? 0) || (ivSize (xYAxis xArea) =? 0) then Some rvRet
  else
    match vExtract pRefSeq (i64 (ivStart (xXAxis xArea))) (i64 (ivEnd (xXAxis xArea))) with
    | Err _ => None
    | Ok pRef =>
        let pRefRevComp := map nucleotideComplement (rev pRef) in
        let uiSampledAmbiguity := sampleSequenceAmbiguity pRef pRefRevComp in
        if ambiguityBelowThreshold uiSampledAmbiguity (ivSize (xXAxis xArea)) then
          let uiSeedSize := getKMerSizeForRectangle xArea in
          if (ivSize (xXAxis xArea) <? uiSeedSize) || (ivSize (xYAxis xArea) <? uiSeedSize)
          then Some rvRet
          else
            let pQuerySegment :=
              fromTo (codes pQuery) (ivStart (xYAxis xArea)) (ivEnd (xYAxis xArea)) in
            let pSeeds := map (fixForward xArea)
                              (hashMapSeeding uiSeedSize pQuerySegment pRef) in
            let pSeedsRev := map (fixReverse xArea)
                                 (hashMapSeeding uiSeedSize pQuerySegment pRefRevComp) in
            Some (rvRet ++ confirmSeedPositions pSeeds pQuery pRefSeq
                        ++ confirmSeedPositions pSeedsRev pQuery pRefSeq)
        else
          let f := dpForward xArea pQuery pRef in
          let r := dpReverse xArea pQuery pRefRevComp in
          if fst r <=? fst f then Some (rvRet ++ snd f) else Some (rvRet ++ snd r)
    end.

(** [computeSeeds( xAreas, pQuery, pRefSeq, pOutExtra )] for the pair of
    rectangles: the seeds of both, lumped when there are any. *)
Definition computeSeeds (xAreas : Rectangle * Rectangle) (pQuery : NucSeq)
           (pRefSeq : Pack) : option (list Seed) :=
  match computeSeedsIn (fst xAreas) pQuery pRefSeq [] with
  | None => None
  | Some s1 =>
      match computeSeedsIn (snd xAreas) pQuery pRefSeq s1 with
      | None => None
      | Some pSeeds =>
          match pSeeds with
          | [] => Some pSeeds
          | _ :: _ => Some (xSeedLumper pSeeds pQuery pRefSeq)
          end
      end
  end.

(** The end of the recursion: the jumps for a pair of seeds between which no
    seed was found.  With a dummy seed in the pair and [bDoDummyJumps], the
    dummy jumps; else the two jumps between the seeds that are valid. *)
Definition emitJumps (rLast rNext : option Seed) (pQuery : NucSeq) (pRet : list SvJump)
  : list SvJump :=
  if (isDummy rLast || isDummy rNext) && bDoDummyJumps then
    let pRet1 :=
      match rNext with
      | Some next =>
          if uiMinDistDummy <? start next
          then pRet ++ [DummyJump next (qLength pQuery) false (iId pQuery) uiMaxDistDummy]
          else pRet
      | None => pRet
      end in
    match rLast with
    | Some last =>
        if u64 (end_ last + uiMinDistDummy) <=? qLength pQuery
        then pRet1 ++ [DummyJump last (qLength pQuery) true (iId pQuery) uiMaxDistDummy]
        else pRet1
    | None => pRet1
    end
  else
    let last := seedOf rLast in
    let next := seedOf rNext in
    let pRet1 := if validJump next last true
                 then pRet ++ [SeedJump next last true (iId pQuery)] else pRet in
    if validJump last next false
    then pRet1 ++ [SeedJump last next false (iId pQuery)] else pRet1.

(** The seeds found between two seeds: the rectangles, the seeds in them,
    the palindrome filter, the sort by query start. *)
Definition reseed (rLast rNext : option Seed) (pQuery : NucSeq) (pRefSeq : Pack)
  : option (list Seed) :=
  let xRectangles := getPositionsForSeeds rLast rNext 0 (qLength pQuery) pRefSeq in
  match computeSeeds xRectangles pQuery pRefSeq with
  | None => None
  | Some found => Some (sortByStart (xParlindromeFilter found))
  end.

(** [makeJumpsByReseedingRecursive]: [pRet] afterwards.  [None] is an
    exception of the extraction, or the end of [fuel], which bounds the depth
    of the recursion.  [walk] is the loop over the seeds found, from [pCurr]
    to each seed and from the last of them to [rNext]. *)
Fixpoint makeJumpsByReseedingRecursive (fuel : nat) (rLast rNext : option Seed)
         (pQuery : NucSeq) (pRefSeq : Pack) (pRet : list SvJump)
  : option (list SvJump) :=
  match fuel with
  | O => None
  | S f =>
      match reseed rLast rNext pQuery pRefSeq with
      | None => None
      | Some [] => Some (emitJumps rLast rNext pQuery pRet)
      | Some pvSeeds =>
          (fix walk (pCurr : option Seed) (l : list Seed) (pRet : list SvJump)
             : option (list SvJump) :=
             match l with
             | [] => makeJumpsByReseedingRecursive f pCurr rNext pQuery pRefSeq pRet
             | rSeed :: rest =>
                 match makeJumpsByReseedingRecursive f pCurr (Some rSeed)
                         pQuery pRefSeq pRet with
                 | None => None
                 | Some pRet' => walk (Some rSeed) rest pRet'
                 end
             end) rLast pvSeeds pRet
      end
  end.

(** The loop of [execute_helper] over the filtered seeds of the read, sorted
    by query start: from the dummy to the first seed, from each seed to the
    next, from the last seed to the dummy. *)
Fixpoint jumpsAlong (fuel : nat) (pCurr : option Seed) (l : list Seed)
         (pQuery : NucSeq) (pRefSeq : Pack) (pRet : list SvJump)
  : option (list SvJump) :=
  match l with
  | [] => makeJumpsByReseedingRecursive fuel pCurr None pQuery pRefSeq pRet
  | rSeed :: rest =>
      match makeJumpsByReseedingRecursive fuel pCurr (Some rSeed) pQuery pRefSeq pRet with
      | None => None
      | Some pRet' => jumpsAlong fuel (Some rSeed) rest pQuery pRefSeq pRet'
      end
  end.

(** [execute_helper] from the seeds of the segments on: the palindrome
    filter, the sort, the loop. *)
Definition jumpsOfSeeds (fuel : nat) (pSeeds : list Seed) (pQuery : NucSeq)
           (pRefSeq : Pack) : option (list SvJump) :=
  jumpsAlong fuel None (sortByStart (xParlindromeFilter pSeeds)) pQuery pRefSeq [].

(** The dummy jumps of a pair: the left one, the right one. *)
Definition leftDummyJump (rNext : option Seed) (pQuery : NucSeq) : list SvJump :=
  match rNext with
  | Some next =>
      if uiMinDistDummy <? start next
      then [DummyJump next (qLength pQuery) false (iId pQuery) uiMaxDistDummy]
      else []
  | None => []
  end.

Definition rightDummyJump (rLast : option Seed) (pQuery : NucSeq) : list SvJump :=
  match rLast with
  | Some last =>
      if end_ last + uiMinDistDummy <=? qLength pQuery
      then [DummyJump last (qLength pQuery) true (iId pQuery) uiMaxDistDummy]
      else []
  | None => []
  end.

(** The parameters are values of their types: the maximal size is not
    negative, and the scaled query distance of a distance is none either. *)
Definition params_ok : Prop :=
  0 <= iMaxSizeReseed < 2 ^ 62 /\ (forall n, 0 <= n -> 0 <= extraSeedingArea n).

(** The seed lies on the reference: a forward seed covers
    [r_start, r_start + size), a reverse seed covers
    [r_start - size + 1, r_start], both on the forward strand. *)
Definition seed_on_reference (p : Pack) (s : Seed) : Prop :=
  seed_ok s /\
  if bOnForwStrand s
  then uiPosOnReference s + iSize s <= uiUnpackedSizeForwardStrand p
  else iSize s <= uiPosOnReference s + 1 /\
       uiPosOnReference s < uiUnpackedSizeForwardStrand p.

(** The position at which a rectangle next to one seed starts: the end of
    [last], or the start of [next], on the reference. *)
Definition anchor (rLast rNext : option Seed) : Z :=
  match rLast, rNext with
  | Some last, None =>
      if bOnForwStrand last then end_ref last
      else u64 (u64 (start_ref last + 1) - size last)
  | None, Some next =>
      if bOnForwStrand next then start_ref next else u64 (start_ref next + 1)
  | _, _ => 0
  end.

(** The rectangle lies in the contig [id], and is at most [w] wide. *)
Definition rectWithin (p : Pack) (id w : Z) (r : Rectangle) : Prop :=
  0 < ivSize (xXAxis r) <= w /\
  startOfSequenceWithId p id <= ivStart (xXAxis r) /\
  ivStart (xXAxis r) + ivSize (xXAxis r) <= endOfSequenceWithId p id.

(** The construction of the rectangles reads none of the other members. *)
Ltac geometry_only :=
  clear bDoDummyJumps uiMinDistDummy uiMaxDistDummy sampleSequenceAmbiguity
        ambiguityBelowThreshold getKMerSizeForRectangle hashMapSeeding
        confirmSeedPositions kswAlign xSeedLumper xParlindromeFilter validJump.

(** ** The fall-back to dynamic programming *)

(** C9. In a rectangle that is not empty, whose reference can be extracted
    and whose sampled ambiguity is above the threshold, [computeSeeds] falls
    back to dynamic programming on both strands.  The seeds of the reverse
    complement are taken only when its score is strictly greater than the
    score on the forward strand; on equal scores, and when the forward score
    is greater, the seeds of the forward strand are taken.  The result is a
    function of the two alignments. *)
Theorem dp_fallback_prefers_forward :
  forall (xArea : Rectangle) (pQuery : NucSeq) (pRefSeq : Pack)
         (rvRet : list Seed) (pRef : list Z),
    ivSize (xXAxis xArea) <> 0 -> ivSize (xYAxis xArea) <> 0 ->
    vExtract pRefSeq (i64 (ivStart (xXAxis xArea))) (i64 (ivEnd (xXAxis xArea))) = Ok pRef ->
    let pRefRevComp := map nucleotideComplement (rev pRef) in
    ambiguityBelowThreshold (sampleSequenceAmbiguity pRef pRefRevComp)
                            (ivSize (xXAxis xArea)) = false ->
    let f := dpForward xArea pQuery pRef in
    let r := dpReverse xArea pQuery pRefRevComp in
    (fst f < fst r -> computeSeedsIn xArea pQuery pRefSeq rvRet = Some (rvRet ++ snd r)) /\
    (fst f = fst r -> computeSeedsIn xArea pQuery pRefSeq rvRet = Some (rvRet ++ snd f)) /\
    (fst r < fst f -> computeSeedsIn xArea pQuery pRefSeq rvRet = Some (rvRet ++ snd f)).
Proof.
  intros xArea pQuery pRefSeq rvRet pRef Hx Hy Hext pRefRevComp Hamb f r.
  assert (E : computeSeedsIn xArea pQuery pRefSeq rvRet =
              if fst r <=? fst f then Some (rvRet ++ snd f) else Some (rvRet ++ snd r)).
  { unfold computeSeedsIn.
    apply Z.eqb_neq in Hx. apply Z.eqb_neq in Hy. rewrite Hx, Hy. cbn [orb].
    rewrite Hext. fold pRefRevComp. rewrite Hamb. reflexivity. }
  rewrite E. repeat split; intros H.
  - replace (fst r <=? fst f) with false by (symmetry; apply Z.leb_gt; lia). reflexivity.
  - replace (fst r <=? fst f) with true by (symmetry; apply Z.leb_le; lia). reflexivity.
  - replace (fst r <=? fst f) with true by (symmetry; apply Z.leb_le; lia). reflexivity.
Qed.

(** ** Empty rectangles *)



(** ** Dummy jumps *)

Lemma emitJumps_dummy rLast rNext pQuery pRet :
  bDoDummyJumps = true -> rLast = None \/ rNext = None ->
  0 <= uiMinDistDummy ->
  (forall last, rLast = Some last -> end_ last + uiMinDistDummy < two64) ->
  emitJumps rLast rNext pQuery pRet =
  pRet ++ leftDummyJump rNext pQuery ++ rightDummyJump rLast pQuery.
Proof.
  intros Hd Hor Hm Hfit. unfold emitJumps. rewrite Hd.
  replace (isDummy rLast || isDummy rNext) with true
    by (destruct Hor; subst; simpl; rewrite ?orb_true_r; reflexivity).
  cbn [andb]. unfold leftDummyJump, rightDummyJump.
  destruct rLast as [last|], rNext as [next|].
  - destruct Hor; discriminate.
  - rewrite u64_small.
    + destruct (_ <=? _); cbn [app]; rewrite ?app_nil_r; reflexivity.
    + specialize (Hfit last eq_refl). pose proof (u64_range (iStart last + iSize last)).
      unfold in_u64, end_ in *. lia.
  - destruct (_ <? _); cbn [app]; rewrite ?app_nil_r; reflexivity.
  - now rewrite app_nil_r.
Qed.

(** C5. With [bDoDummyJumps], for a pair that holds the dummy seed and
    between whose seeds no seed was found, the recursion emits the left dummy
    jump if and only if [next] is a seed whose query start exceeds
    [uiMinDistDummy], and the right dummy jump if and only if [last] is a
    seed that ends at least [uiMinDistDummy] before the end of the query; it
    emits nothing else.  For a read of 500 bases with the single seed
    [q_start = 50], [r_start = 1000] on the forward strand and
    [uiMinDistDummy = 10], the jumps of the read hold exactly one left dummy
    jump, with [q_from = 0], target 1000 and [max_dist = uiMaxDistDummy]. *)
Theorem dummy_jump_emission :
  forall (pQuery : NucSeq) (pRefSeq : Pack),
    bDoDummyJumps = true -> 0 <= uiMinDistDummy ->
    (forall rLast rNext fuel pRet,
        rLast = None \/ rNext = None ->
        reseed rLast rNext pQuery pRefSeq = Some [] ->
        (forall last, rLast = Some last -> end_ last + uiMinDistDummy < two64) ->
        let out := leftDummyJump rNext pQuery ++ rightDummyJump rLast pQuery in
        makeJumpsByReseedingRecursive (S fuel) rLast rNext pQuery pRefSeq pRet =
          Some (pRet ++ out) /\
        (forall j, In j out -> isLeftDummy j = true \/ isRightDummy j = true) /\
        ((exists j, In j out /\ isLeftDummy j = true) <->
         (exists next, rNext = Some next /\ uiMinDistDummy < start next)) /\
        ((exists j, In j out /\ isRightDummy j = true) <->
         (exists last, rLast = Some last /\
                       end_ last + uiMinDistDummy <= qLength pQuery))) /\
    (forall pSeeds next fuel,
        xParlindromeFilter pSeeds = [next] ->
        reseed None (Some next) pQuery pRefSeq = Some [] ->
        reseed (Some next) None pQuery pRefSeq = Some [] ->
        qLength pQuery = 500 -> uiMinDistDummy = 10 ->
        start next = 50 -> start_ref next = 1000 -> bOnForwStrand next = true ->
        end_ next + uiMinDistDummy < two64 ->
        exists jumps left,
          jumpsOfSeeds (S fuel) pSeeds pQuery pRefSeq = Some jumps /\
          filter isLeftDummy jumps = [left] /\
          left = DummyJump next 500 false (iId pQuery) uiMaxDistDummy /\
          leftDummyFields left = Some (mkDummyFields 0 1000 uiMaxDistDummy true)).
Proof.
  intros pQuery pRefSeq Hd Hm.
  assert (Step : forall rLast rNext fuel pRet,
             rLast = None \/ rNext = None ->
             reseed rLast rNext pQuery pRefSeq = Some [] ->
             (forall last, rLast = Some last -> end_ last + uiMinDistDummy < two64) ->
             makeJumpsByReseedingRecursive (S fuel) rLast rNext pQuery pRefSeq pRet =
             Some (pRet ++ leftDummyJump rNext pQuery ++ rightDummyJump rLast pQuery)).
  { intros rLast rNext fuel pRet Hor Hre Hfit.
    cbn [makeJumpsByReseedingRecursive]. rewrite Hre.
    now rewrite emitJumps_dummy. }
  split.
  - intros rLast rNext fuel pRet Hor Hre Hfit out.
    split; [apply Step; assumption|]. unfold out, leftDummyJump, rightDummyJump.
    split; [|split].
    + intros j Hj. apply in_app_or in Hj. destruct Hj as [Hj | Hj].
      * destruct rNext as [next|]; [|destruct Hj].
        destruct (_ <? _); [|destruct Hj].
        destruct Hj as [<- | []]. left. reflexivity.
      * destruct rLast as [last|]; [|destruct Hj].
        destruct (_ <=? _); [|destruct Hj].
        destruct Hj as [<- | []]. right. reflexivity.
    + split.
      * intros (j & Hj & Hl). apply in_app_or in Hj. destruct Hj as [Hj | Hj].
        -- destruct rNext as [next|]; [|destruct Hj].
           destruct (Z.ltb_spec uiMinDistDummy (start next)); [|destruct Hj].
           exists next. split; [reflexivity | assumption].
        -- destruct rLast as [last|]; [|destruct Hj].
           destruct (_ <=? _); [|destruct Hj].
           destruct Hj as [<- | []]. discriminate.
      * intros (next & -> & Hlt).
        exists (DummyJump next (qLength pQuery) false (iId pQuery) uiMaxDistDummy).
        split; [|reflexivity]. apply in_or_app. left.
        replace (uiMinDistDummy <? start next) with true
          by (symmetry; apply Z.ltb_lt; exact Hlt).
        left. reflexivity.
    + split.
      * intros (j & Hj & Hl). apply in_app_or in Hj. destruct Hj as [Hj | Hj].
        -- destruct rNext as [next|]; [|destruct Hj].
           destruct (_ <? _); [|destruct Hj].
           destruct Hj as [<- | []]. discriminate.
        -- destruct rLast as [last|]; [|destruct Hj].
           destruct (Z.leb_spec (end_ last + uiMinDistDummy) (qLength pQuery));
             [|destruct Hj].
           exists last. split; [reflexivity | assumption].
      * intros (last & -> & Hle).
        exists (DummyJump last (qLength pQuery) true (iId pQuery) uiMaxDistDummy).
        split; [|reflexivity]. apply in_or_app. right.
        replace (end_ last + uiMinDistDummy <=? qLength pQuery) with true
          by (symmetry; apply Z.leb_le; exact Hle).
        left. reflexivity.
  - intros pSeeds next fuel Hf R1 R2 Hq Hmin Hs Hr Hfw Hfit.
    unfold jumpsOfSeeds. rewrite Hf.
    change (sortByStart [next]) with [next]. cbn [jumpsAlong].
    rewrite (Step None (Some next) fuel []); [|left; reflexivity | exact R1 | discriminate].
    rewrite (Step (Some next) None fuel); [|right; reflexivity | exact R2 |].
    2:{ intros last E. injection E as <-. exact Hfit. }
    eexists. eexists. split; [reflexivity|].
    unfold leftDummyJump, rightDummyJump. rewrite Hs, Hmin, Hq. cbn [Z.ltb Z.compare app].
    split; [|split; [reflexivity|]].
    + destruct (_ <=? _); reflexivity.
    + cbn [leftDummyFields]. rewrite Hr. reflexivity.
Qed.

(** ** The rectangles between two seeds *)

Lemma queryDistance_range g :
  params_ok -> 0 <= g -> 0 <= queryDistance g <= Z.quot iMaxSizeReseed 2.
Proof.
  intros [Hmax Hex] Hg. unfold queryDistance. cbv zeta.
  specialize (Hex g Hg).
  assert (0 <= Z.quot iMaxSizeReseed 2) by (apply Z.quot_pos; lia).
  destruct (Z.ltb_spec (Z.quot iMaxSizeReseed 2) (extraSeedingArea g)); lia.
Qed.

(** A call with the dummy seed makes no further call. *)
Lemma getPositionsFuel_one_sided n rLast rNext uiQStart uiQEnd p :
  rLast = None \/ rNext = None ->
  getPositionsFuel n rLast rNext uiQStart uiQEnd p =
  if emptyAtOnce rLast rNext uiQStart uiQEnd then (emptyRect, emptyRect)
  else if lastRef rLast rNext uiQStart p =? nextRef rLast rNext uiQEnd p
       then (emptyRect, emptyRect)
       else (rectBetween rLast rNext uiQStart uiQEnd
                         (lastRef rLast rNext uiQStart p) (nextRef rLast rNext uiQEnd p),
             emptyRect).
Proof.
  intros [-> | ->]; destruct n; try destruct rLast; try destruct rNext; reflexivity.
Qed.

Lemma rectBetween_x rLast rNext uiQStart uiQEnd iLastRef iNextRef :
  xXAxis (rectBetween rLast rNext uiQStart uiQEnd iLastRef iNextRef) =
  mkInterval (u64 (Z.min iLastRef iNextRef))
             (u64 (Z.max iLastRef iNextRef - Z.min iLastRef iNextRef)).
Proof. reflexivity. Qed.

Lemma rectWithin_between p id w rLast rNext uiQStart uiQEnd iLastRef iNextRef :
  0 <= startOfSequenceWithId p id ->
  startOfSequenceWithId p id <= Z.min iLastRef iNextRef ->
  Z.max iLastRef iNextRef <= endOfSequenceWithId p id ->
  endOfSequenceWithId p id < two64 ->
  iLastRef <> iNextRef ->
  Z.max iLastRef iNextRef - Z.min iLastRef iNextRef <= w ->
  rectWithin p id w (rectBetween rLast rNext uiQStart uiQEnd iLastRef iNextRef).
Proof.
  intros H0 H1 H2 H3 H4 H5. unfold rectWithin. rewrite rectBetween_x.
  cbn [ivStart ivSize].
  rewrite !u64_small by (unfold in_u64; lia). lia.
Qed.

(** The rectangle next to one seed: the second rectangle is empty, and the
    first is empty or lies in the contig of the position the seed points to,
    with a width of at most [iMaxSizeReseed / 2]. *)
Lemma one_sided_rectangle rLast rNext uiQStart uiQEnd p s :
  params_ok -> size_ok p -> contigs_ok p -> 0 < uiUnpackedSizeForwardStrand p ->
  seed_on_reference p s ->
  (rLast = Some s /\ rNext = None) \/ (rLast = None /\ rNext = Some s) ->
  let r := getPositionsForSeeds rLast rNext uiQStart uiQEnd p in
  snd r = emptyRect /\
  (fst r = emptyRect \/
   rectWithin p (uiSequenceIdForPosition p (anchor rLast rNext))
              (Z.quot iMaxSizeReseed 2) (fst r)).
Proof.
  geometry_only.
  intros Hp Hs Hc HL [Hok Href] Hside. cbv zeta.
  unfold getPositionsForSeeds. rewrite getPositionsFuel_one_sided by tauto.
  destruct (emptyAtOnce rLast rNext uiQStart uiQEnd); [cbn; tauto|].
  destruct (Z.eqb_spec (lastRef rLast rNext uiQStart p) (nextRef rLast rNext uiQEnd p))
    as [E | E]; [cbn; tauto|].
  cbn [fst snd]. split; [reflexivity|]. right.
  pose proof (end_ref_ok s Hok) as Eend.
  assert (HL2 : uiUnpackedSizeForwardStrand p < 2 ^ 62) by (unfold size_ok in Hs; lia).
  unfold seed_ok in Hok.
  destruct Hside as [[-> ->] | [-> ->]]; unfold lastRef, nextRef, anchor, seedOf in *;
    cbv zeta in *; unfold start_ref, size in *;
    destruct (bOnForwStrand s) eqn:Hfw.
  - (* last forward, next dummy *)
    set (g := u64 (uiQEnd - end_ s)) in *.
    pose proof (queryDistance_range g Hp (proj1 (u64_range _))) as Hq.
    rewrite Eend in *.
    destruct (uiSequenceIdForPosition_anchor p (uiPosOnReference s + iSize s) Hs Hc HL)
      as (A & B & C); [lia|].
    cbv zeta in A, B, C.
    set (id := uiSequenceIdForPosition p (uiPosOnReference s + iSize s)) in *.
    rewrite (i64_small (uiPosOnReference s + iSize s)) in *
      by (unfold in_i64, two63; lia).
    rewrite (i64_small (endOfSequenceWithId p id)) in *
      by (unfold in_i64, two63; lia).
    apply rectWithin_between; unfold two64; lia.
  - (* last reverse, next dummy *)
    set (g := u64 (uiQEnd - end_ s)) in *.
    pose proof (queryDistance_range g Hp (proj1 (u64_range _))) as Hq.
    assert (Ea : u64 (u64 (uiPosOnReference s + 1) - iSize s) =
                 uiPosOnReference s + 1 - iSize s).
    { rewrite u64_sub_l. apply u64_small. unfold in_u64, two64. lia. }
    assert (Eb : i64 (u64 (u64 (i64 (uiPosOnReference s) - iSize s) + 1)) =
                 uiPosOnReference s + 1 - iSize s).
    { rewrite u64_add_l, i64_of_u64.
      rewrite (i64_small (uiPosOnReference s)) by (unfold in_i64, two63; lia).
      replace (uiPosOnReference s - iSize s + 1) with (uiPosOnReference s + 1 - iSize s)
        by lia.
      apply i64_small. unfold in_i64, two63. lia. }
    rewrite Ea, Eb in *.
    destruct (uiSequenceIdForPosition_anchor p (uiPosOnReference s + 1 - iSize s) Hs Hc HL)
      as (A & B & C); [lia|].
    cbv zeta in A, B, C.
    set (id := uiSequenceIdForPosition p (uiPosOnReference s + 1 - iSize s)) in *.
    rewrite (i64_small (uiPosOnReference s)) in *
      by (unfold in_i64, two63; lia).
    rewrite (i64_small (startOfSequenceWithId p id)) in *
      by (unfold in_i64, two63; lia).
    assert (Ec : i64 (u64 (iSize s + queryDistance g)) = iSize s + queryDistance g).
    { rewrite i64_of_u64. apply i64_small.
      destruct Hp as [Hmax _].
      assert (Z.quot iMaxSizeReseed 2 <= iMaxSizeReseed)
        by (apply Z.quot_le_upper_bound; lia).
      unfold in_i64, two63. lia. }
    rewrite Ec in *.
    apply rectWithin_between; unfold two64; lia.
  - (* last dummy, next forward *)
    set (g := u64 (start s - uiQStart)) in *.
    pose proof (queryDistance_range g Hp (proj1 (u64_range _))) as Hq.
    destruct (uiSequenceIdForPosition_anchor p (uiPosOnReference s) Hs Hc HL)
      as (A & B & C); [lia|].
    cbv zeta in A, B, C.
    set (id := uiSequenceIdForPosition p (uiPosOnReference s)) in *.
    rewrite (i64_small (uiPosOnReference s)) in *
      by (unfold in_i64, two63; lia).
    rewrite (i64_small (startOfSequenceWithId p id)) in *
      by (unfold in_i64, two63; lia).
    apply rectWithin_between; unfold two64; lia.
  - (* last dummy, next reverse *)
    set (g := u64 (start s - uiQStart)) in *.
    pose proof (queryDistance_range g Hp (proj1 (u64_range _))) as Hq.
    rewrite (u64_small (uiPosOnReference s + 1)) in *
      by (unfold in_u64, two64; lia).
    destruct (uiSequenceIdForPosition_anchor p (uiPosOnReference s + 1) Hs Hc HL)
      as (A & B & C); [lia|].
    cbv zeta in A, B, C.
    set (id := uiSequenceIdForPosition p (uiPosOnReference s + 1)) in *.
    rewrite (i64_small (uiPosOnReference s)) in *
      by (unfold in_i64, two63; lia).
    rewrite (i64_small (endOfSequenceWithId p id)) in *
      by (unfold in_i64, two63; lia).
    apply rectWithin_between; unfold two64; lia.
Qed.

Lemma getPositionsFuel_two_sided n last next uiQStart uiQEnd p :
  getPositionsFuel (S n) (Some last) (Some next) uiQStart uiQEnd p =
  let iLastRef := lastRef (Some last) (Some next) uiQStart p in
  let iNextRef := nextRef (Some last) (Some next) uiQEnd p in
  if emptyAtOnce (Some last) (Some next) uiQStart uiQEnd then (emptyRect, emptyRect)
  else if iLastRef =? iNextRef then (emptyRect, emptyRect)
  else if needsSplit last next iLastRef iNextRef p
       then (fst (getPositionsFuel n (Some last) None (end_ last) (start next) p),
             fst (getPositionsFuel n None (Some next) (end_ last) (start next) p))
       else (rectBetween (Some last) (Some next) uiQStart uiQEnd iLastRef iNextRef,
             emptyRect).
Proof. reflexivity. Qed.

(** Two seeds on different strands have the distance -1. *)
Lemma refSize_strands last next iLastRef iNextRef :
  bOnForwStrand last <> bOnForwStrand next ->
  refSize last next iLastRef iNextRef = -1.
Proof.
  unfold refSize. destruct (bOnForwStrand last), (bOnForwStrand next);
    intros H; try reflexivity; exfalso; apply H; reflexivity.
Qed.

(** C4 (as amended). For two seeds [last] and [next], the construction of
    the rectangles first returns two empty rectangles when the seeds overlap
    on the query, when [last] ends at or behind the end of the query window,
    when [next] starts at or before its start, or when the two reference
    ends [iLastRef] and [iNextRef] are equal.  Otherwise, when the seeds lie
    on different strands or point the wrong way (the distance on the
    reference in the direction of the strand is negative), or the two
    reference ends lie in different contigs, or that distance exceeds
    [iMaxSizeReseed], the result is two rectangles: the first is the first
    rectangle of the construction called with [next] replaced by the dummy
    seed, the second the first rectangle of the construction called with
    [last] replaced by the dummy seed, both on the query window from the end
    of [last] to the start of [next].  Each of the two is empty, or at most
    [iMaxSizeReseed / 2] wide and inside the contig of the position its seed
    points to. *)
Theorem rectangle_split :
  forall (last next : Seed) (uiQStart uiQEnd : Z) (p : Pack),
    let iLastRef := lastRef (Some last) (Some next) uiQStart p in
    let iNextRef := nextRef (Some last) (Some next) uiQEnd p in
    let iRefSize := refSize last next iLastRef iNextRef in
    let r := getPositionsForSeeds (Some last) (Some next) uiQStart uiQEnd p in
    let r1 := getPositionsForSeeds (Some last) None (end_ last) (start next) p in
    let r2 := getPositionsForSeeds None (Some next) (end_ last) (start next) p in
    params_ok -> size_ok p -> contigs_ok p -> 0 < uiUnpackedSizeForwardStrand p ->
    seed_on_reference p last -> seed_on_reference p next ->
    (start next < end_ last \/ uiQEnd <= end_ last \/ start next <= uiQStart \/
     iLastRef = iNextRef ->
     r = (emptyRect, emptyRect)) /\
    (end_ last <= start next -> end_ last < uiQEnd -> uiQStart < start next ->
     iLastRef <> iNextRef ->
     bOnForwStrand last <> bOnForwStrand next \/ iRefSize < 0 \/
     uiSequenceIdForPosition p (u64 iLastRef) <>
       uiSequenceIdForPosition p (u64 (iNextRef - 1)) \/
     iMaxSizeReseed < iRefSize ->
     r = (fst r1, fst r2) /\
     (fst r = emptyRect \/
      rectWithin p (uiSequenceIdForPosition p (anchor (Some last) None))
                 (Z.quot iMaxSizeReseed 2) (fst r)) /\
     (snd r = emptyRect \/
      rectWithin p (uiSequenceIdForPosition p (anchor None (Some next)))
                 (Z.quot iMaxSizeReseed 2) (snd r))).
Proof.
  geometry_only.
  intros last next uiQStart uiQEnd p iLastRef iNextRef iRefSize r r1 r2
         Hp Hs Hc HL Hlast Hnext.
  assert (Er : r =
    if emptyAtOnce (Some last) (Some next) uiQStart uiQEnd then (emptyRect, emptyRect)
    else if iLastRef =? iNextRef then (emptyRect, emptyRect)
    else if needsSplit last next iLastRef iNextRef p then (fst r1, fst r2)
         else (rectBetween (Some last) (Some next) uiQStart uiQEnd iLastRef iNextRef,
               emptyRect)).
  { unfold r, r1, r2, getPositionsForSeeds.
    rewrite getPositionsFuel_two_sided. cbv zeta.
    rewrite !getPositionsFuel_one_sided by tauto. reflexivity. }
  split.
  - intros H. rewrite Er. unfold emptyAtOnce.
    destruct (Z.ltb_spec (start next) (end_ last)); [reflexivity|].
    destruct (Z.leb_spec uiQEnd (end_ last)); [reflexivity|].
    destruct (Z.leb_spec (start next) uiQStart); [reflexivity|].
    cbn [orb].
    destruct (Z.eqb_spec iLastRef iNextRef); [reflexivity|].
    exfalso. lia.
  - intros H1 H2 H3 Hne Hsplit.
    assert (E : r = (fst r1, fst r2)).
    { rewrite Er. unfold emptyAtOnce.
      replace (start next <? end_ last) with false by (symmetry; apply Z.ltb_ge; lia).
      replace (uiQEnd <=? end_ last) with false by (symmetry; apply Z.leb_gt; lia).
      replace (start next <=? uiQStart) with false by (symmetry; apply Z.leb_gt; lia).
      cbn [orb].
      replace (iLastRef =? iNextRef) with false by (symmetry; apply Z.eqb_neq; exact Hne).
      replace (needsSplit last next iLastRef iNextRef p) with true; [reflexivity|].
      symmetry. unfold needsSplit. cbv zeta. fold iRefSize.
      assert (Hcases : iRefSize < 0 \/
                       uiSequenceIdForPosition p (u64 iLastRef) <>
                         uiSequenceIdForPosition p (u64 (iNextRef - 1)) \/
                       iMaxSizeReseed < iRefSize).
      { destruct Hsplit as [Hd | Hrest]; [|exact Hrest].
        left. unfold iRefSize. rewrite (refSize_strands _ _ _ _ Hd). lia. }
      destruct Hcases as [Hn | [Hid | Hbig]].
      - replace (iRefSize <? 0) with true by (symmetry; apply Z.ltb_lt; exact Hn).
        now rewrite orb_true_r.
      - replace (_ =? _) with false by (symmetry; apply Z.eqb_neq; exact Hid).
        now rewrite orb_true_r.
      - replace (iMaxSizeReseed <? iRefSize) with true
          by (symmetry; apply Z.ltb_lt; exact Hbig).
        reflexivity. }
    split; [exact E|]. rewrite E. cbn [fst snd].
    split.
    + exact (proj2 (one_sided_rectangle (Some last) None (end_ last) (start next) p last
                      Hp Hs Hc HL Hlast (or_introl (conj eq_refl eq_refl)))).
    + exact (proj2 (one_sided_rectangle None (Some next) (end_ last) (start next) p next
                      Hp Hs Hc HL Hnext (or_intror (conj eq_refl eq_refl)))).
Qed.

(** When none of the conditions holds, the result is the one rectangle
    between the two reference ends. *)
Lemma rectangle_single last next uiQStart uiQEnd p :
  let iLastRef := lastRef (Some last) (Some next) uiQStart p in
  let iNextRef := nextRef (Some last) (Some next) uiQEnd p in
  emptyAtOnce (Some last) (Some next) uiQStart uiQEnd = false ->
  iLastRef <> iNextRef ->
  needsSplit last next iLastRef iNextRef p = false ->
  getPositionsForSeeds (Some last) (Some next) uiQStart uiQEnd p =
  (rectBetween (Some last) (Some next) uiQStart uiQEnd iLastRef iNextRef, emptyRect).
Proof.
  intros iLastRef iNextRef H1 H2 H3. unfold getPositionsForSeeds.
  rewrite getPositionsFuel_two_sided. cbv zeta. fold iLastRef iNextRef.
  rewrite H1. apply Z.eqb_neq in H2. rewrite H2, H3. reflexivity.
Qed.

End Module_.

(** ** The module on small references *)

Lemma exArea_params : params_ok 100 exArea.
Proof.
  split; [lia|]. intros n Hn. unfold exArea. apply Z.quot_pos; lia.
Qed.

(** The scenario S3: contigs that end at 100 and 200, a forward seed that
    ends at 95 on the reference and a forward seed that starts at 150.  The
    two reference ends lie in different contigs, and the result is the
    rectangle from 95 to the end of the first contig and the rectangle from
    the start of the second contig to 150, both on the query from the end of
    the first seed to the start of the second. *)
Lemma rectangle_split_witness :
  let last := mkSeed 0 10 85 1 0 true 0 in
  let next := mkSeed 50 10 150 1 0 true 0 in
  let r := getPositionsForSeeds 100 exArea exDummySeed (Some last) (Some next) 0 70
                                twoContigs in
  seed_on_reference twoContigs last /\ seed_on_reference twoContigs next /\
  r = (fst (getPositionsForSeeds 100 exArea exDummySeed (Some last) None
                                 (end_ last) (start next) twoContigs),
       fst (getPositionsForSeeds 100 exArea exDummySeed None (Some next)
                                 (end_ last) (start next) twoContigs)) /\
  r = (Rectangle_ 95 10 5 40, Rectangle_ 100 10 50 40) /\
  rectWithin twoContigs 0 50 (fst r) /\ rectWithin twoContigs 1 50 (snd r).
Proof.
  cbv zeta.
  assert (Hl : seed_on_reference twoContigs (mkSeed 0 10 85 1 0 true 0))
    by (unfold seed_on_reference, seed_ok, two64; cbn; lia).
  assert (Hn : seed_on_reference twoContigs (mkSeed 50 10 150 1 0 true 0))
    by (unfold seed_on_reference, seed_ok, two64; cbn; lia).
  assert (Hs : size_ok twoContigs) by (unfold size_ok; cbn; lia).
  assert (Hc : contigs_ok twoContigs) by (unfold contigs_ok; cbn; lia).
  assert (HL : 0 < uiUnpackedSizeForwardStrand twoContigs) by (cbn; lia).
  pose proof (rectangle_split 100 exArea exDummySeed _ _ 0 70 twoContigs
                              exArea_params Hs Hc HL Hl Hn) as H.
  cbv zeta in H. destruct H as [_ H].
  destruct H as (E & B1 & B2).
  - vm_compute. discriminate.
  - vm_compute. reflexivity.
  - vm_compute. reflexivity.
  - vm_compute. discriminate.
  - right. right. left. vm_compute. discriminate.
  - split; [exact Hl|]. split; [exact Hn|]. split; [exact E|].
    split; [vm_compute; reflexivity|].
    split.
    + destruct B1 as [B1 | B1]; [vm_compute in B1; discriminate|].
      replace (uiSequenceIdForPosition twoContigs
                 (anchor (Some (mkSeed 0 10 85 1 0 true 0)) None)) with 0 in B1
        by (vm_compute; reflexivity).
      exact B1.
    + destruct B2 as [B2 | B2]; [vm_compute in B2; discriminate|].
      replace (uiSequenceIdForPosition twoContigs
                 (anchor None (Some (mkSeed 50 10 150 1 0 true 0)))) with 1 in B2
        by (vm_compute; reflexivity).
      exact B2.
Defined.

(** The claim without the test for equal reference ends: a forward seed on
    the query [0, 10) and the reference [100, 110), followed by a reverse
    seed on the query [20, 30) that starts at 109 on the reference.  The two
    seeds lie on different strands, and none of the three tests on the query
    window holds; but both reference ends are 110, and the result is two
    empty rectangles, although the construction with either seed replaced by
    the dummy seed gives the rectangle of width 15 at 110. *)
Lemma rectangle_split_equal_ends :
  let last := mkSeed 0 10 100 1 0 true 0 in
  let next := mkSeed 20 10 109 1 0 false 0 in
  seed_on_reference oneContig last /\ seed_on_reference oneContig next /\
  bOnForwStrand last = true /\ bOnForwStrand next = false /\
  emptyAtOnce (Some last) (Some next) 0 500 = false /\
  lastRef 100 exArea exDummySeed (Some last) (Some next) 0 oneContig = 110 /\
  nextRef 100 exArea exDummySeed (Some last) (Some next) 500 oneContig = 110 /\
  getPositionsForSeeds 100 exArea exDummySeed (Some last) (Some next) 0 500 oneContig =
    (emptyRect, emptyRect) /\
  fst (getPositionsForSeeds 100 exArea exDummySeed (Some last) None
                            (end_ last) (start next) oneContig) =
    Rectangle_ 110 10 15 10 /\
  fst (getPositionsForSeeds 100 exArea exDummySeed None (Some next)
                            (end_ last) (start next) oneContig) =
    Rectangle_ 110 10 15 10.
Proof.
  cbv zeta.
  split; [unfold seed_on_reference, seed_ok, two64; cbn; lia|].
  split; [unfold seed_on_reference, seed_ok, two64; cbn; lia|].
  vm_compute. repeat split.
Qed.

(** The fall-back to dynamic programming on the contig ACGTACGT...: in the
    window [0, 4) both strands read ACGT, the two scores are equal and the
    seeds of the forward strand are taken; in the window [0, 3) the forward
    strand reads ACG and the reverse complement CGT, the score of the reverse
    complement is greater and its seeds are taken. *)
Lemma dp_fallback_witness :
  computeSeedsIn exAmbiguity exRepetitive exKMerSize exSeeding exConfirm exKsw
                 (Rectangle_ 0 0 4 4) exRead oneContig [] =
    Some (snd (dpForward exKsw (Rectangle_ 0 0 4 4) exRead [0; 1; 2; 3])) /\
  computeSeedsIn exAmbiguity exRepetitive exKMerSize exSeeding exConfirm exKsw
                 (Rectangle_ 0 0 3 4) exRead oneContig [] =
    Some (snd (dpReverse exKsw (Rectangle_ 0 0 3 4) exRead [1; 2; 3])) /\
  fst (dpForward exKsw (Rectangle_ 0 0 4 4) exRead [0; 1; 2; 3]) =
    fst (dpReverse exKsw (Rectangle_ 0 0 4 4) exRead [0; 1; 2; 3]) /\
  fst (dpForward exKsw (Rectangle_ 0 0 3 4) exRead [0; 1; 2]) <
    fst (dpReverse exKsw (Rectangle_ 0 0 3 4) exRead [1; 2; 3]).
Proof.
  assert (Hx4 : ivSize (xXAxis (Rectangle_ 0 0 4 4)) <> 0) by (cbn; lia).
  assert (Hx3 : ivSize (xXAxis (Rectangle_ 0 0 3 4)) <> 0) by (cbn; lia).
  assert (Hy4 : ivSize (xYAxis (Rectangle_ 0 0 4 4)) <> 0) by (cbn; lia).
  assert (Hy3 : ivSize (xYAxis (Rectangle_ 0 0 3 4)) <> 0) by (cbn; lia).
  pose proof (dp_fallback_prefers_forward exAmbiguity exRepetitive exKMerSize exSeeding
                exConfirm exKsw (Rectangle_ 0 0 4 4) exRead oneContig [] [0; 1; 2; 3]
                Hx4 Hy4 eq_refl eq_refl) as H4.
  pose proof (dp_fallback_prefers_forward exAmbiguity exRepetitive exKMerSize exSeeding
                exConfirm exKsw (Rectangle_ 0 0 3 4) exRead oneContig [] [0; 1; 2]
                Hx3 Hy3 eq_refl eq_refl) as H3.
  cbv zeta in H4, H3.
  destruct H4 as (_ & Htie & _). destruct H3 as (Hrev & _ & _).
  split; [exact (Htie eq_refl)|].
  split; [apply Hrev; vm_compute; reflexivity|].
  split; [reflexivity|].
  vm_compute. reflexivity.
Defined.



(** The scenario S4: a read of 500 bases whose only seed starts at 50 on
    the query and at 1000 on the reference, on the forward strand, with
    [uiMinDistDummy = 10].  The k-mer seeder finds nothing in the two
    rectangles, and the jumps of the read are the left dummy jump, with
    target 1000, and the right dummy jump. *)
Lemma dummy_jump_witness :
  let next := mkSeed 50 30 1000 1 0 true 0 in
  let left := DummyJump next 500 false 7 50 in
  fst (getPositionsForSeeds 100 exArea exDummySeed None (Some next) 0 (qLength exRead)
                            oneContig) = Rectangle_ 950 0 50 50 /\
  jumpsOfSeeds 100 true 10 50 exArea exAmbiguity exUnique exKMerSize
    exSeeding exConfirm exKsw exLumper exFilter exValidJump exDummySeed
    1 [next] exRead oneContig = Some [left; DummyJump next 500 true 7 50] /\
  exists jumps left',
    jumpsOfSeeds 100 true 10 50 exArea exAmbiguity exUnique exKMerSize
      exSeeding exConfirm exKsw exLumper exFilter exValidJump exDummySeed
      1 [next] exRead oneContig = Some jumps /\
    filter isLeftDummy jumps = [left'] /\
    left' = left /\
    leftDummyFields left' = Some (mkDummyFields 0 1000 50 true).
Proof.
  cbv zeta.
  split; [vm_compute; reflexivity|].
  split; [vm_compute; reflexivity|].
  assert (Hmin : 0 <= 10) by lia.
  pose proof (dummy_jump_emission 100 true 10 50 exArea exAmbiguity exUnique
                exKMerSize exSeeding exConfirm exKsw exLumper exFilter exValidJump
                exDummySeed exRead oneContig eq_refl Hmin) as [_ H].
  apply (H [mkSeed 50 30 1000 1 0 true 0] (mkSeed 50 30 1000 1 0 true 0) 0%nat);
    try (vm_compute; reflexivity).
Defined.

End SvReseed.

(* ===================================================================== *)
(** * Contigs, strands and sections of a pack (fileReader.h) *)
(* ===================================================================== *)

Module PackQueries.
Import MachineInt PackStore.

(** [isForwPositionInSequenceWithId]. *)
Definition isForwPositionInSequenceWithId (p : Pack) (iSequenceId uiPosition : Z) : bool :=
  (startOfSequenceWithId p iSequenceId <=? uiPosition) &&
  (uiPosition <? endOfSequenceWithId p iSequenceId).

Definition lengthOfSequenceWithId (p : Pack) (iSequenceId : Z) : Z :=
  uiLengthUnpacked (descriptorAt p iSequenceId).

(** The loop [for( seq : xVectorOfSequenceDescriptors )] that returns at the
    first descriptor with the name. *)
Fixpoint firstWithName (name : string) (descs : list SequenceInPack)
  : option SequenceInPack :=
  match descs with
  | [] => None
  | seq :: t => if String.eqb (sName seq) name then Some seq else firstWithName name t
  end.

Definition startOfSequenceWithName (p : Pack) (name : string) : Z :=
  match firstWithName name (xVectorOfSequenceDescriptors p) with
  | Some seq => uiStartOffsetUnpacked seq
  | None => 0
  end.

Definition endOfSequenceWithName (p : Pack) (name : string) : Z :=
  match firstWithName name (xVectorOfSequenceDescriptors p) with
  | Some seq => u64 (uiStartOffsetUnpacked seq + uiLengthUnpacked seq)
  | None => 0
  end.

Definition lengthOfSequenceWithName (p : Pack) (name : string) : Z :=
  match firstWithName name (xVectorOfSequenceDescriptors p) with
  | Some seq => uiLengthUnpacked seq
  | None => 0
  end.

(** [nameOfSequenceWithId]: the name "*" for a negative id. *)
Definition nameOfSequenceWithId (p : Pack) (iSequenceId : Z) : string :=
  if 0 <=? iSequenceId then sName (descriptorAt p iSequenceId) else "*"%string.

(** The loop of [uiSequenceIdForName] from the index [iId] on. *)
Fixpoint searchName (name : string) (descs : list SequenceInPack) (iId : Z) : Z :=
  match descs with
  | [] => -1
  | d :: t => if String.eqb (sName d) name then iId else searchName name t (iId + 1)
  end.

Definition uiSequenceIdForName (p : Pack) (name : string) : Z :=
  searchName name (xVectorOfSequenceDescriptors p) 0.

Definition nameOfSequenceForPosition (p : Pack) (uiPosition : Z) : string :=
  nameOfSequenceWithId p (uiSequenceIdForPosition p uiPosition).

(** [uiSequenceIdForPositionOrRev]: twice the id of the contig, plus one on
    the reverse strand. *)
Definition uiSequenceIdForPositionOrRev (p : Pack) (uiPosition : Z) : Z :=
  if bPositionIsOnReversStrand p uiPosition
  then i64 (uiSequenceIdForPosition p (uiPositionToReverseStrand p uiPosition) * 2 + 1)
  else i64 (uiSequenceIdForPosition p uiPosition * 2).

Definition endOfSequenceWithIdOrReverse (p : Pack) (iSequenceId : Z) : Z :=
  if Z.rem iSequenceId 2 =? 1
  then u64 (uiPositionToReverseStrand p (startOfSequenceWithId p (Z.quot iSequenceId 2)) - 1)
  else endOfSequenceWithId p (Z.quot iSequenceId 2).

Definition startOfSequenceWithIdOrReverse (p : Pack) (iSequenceId : Z) : Z :=
  if Z.rem iSequenceId 2 =? 1
  then u64 (uiPositionToReverseStrand p (endOfSequenceWithId p (Z.quot iSequenceId 2)) + 1)
  else startOfSequenceWithId p (Z.quot iSequenceId 2).

Definition lengthOfSequenceWithIdOrReverse (p : Pack) (iSequenceId : Z) : Z :=
  if Z.rem iSequenceId 2 =? 1
  then u64 (uiPositionToReverseStrand p (startOfSequenceWithId p (Z.quot iSequenceId 2)) - 1)
  else lengthOfSequenceWithId p (Z.quot iSequenceId 2).

(** [bridgingSubsection( uiBegin, uiSize, riSequenceId )]: the answer, and
    [riSequenceId] afterwards. *)
Definition bridgingSubsectionId (p : Pack) (uiBegin uiSize riSequenceId : Z) : bool * Z :=
  if 0 <? uiSize then
    let id := uiSequenceIdForPosition p uiBegin in
    if u64 (uiUnpackedSizeForwardStrand p * 2) <? u64 (uiBegin + uiSize) then (true, id)
    else
      (negb (Bool.eqb (bPositionIsOnReversStrand p uiBegin)
                      (bPositionIsOnReversStrand p (u64 (u64 (uiBegin + uiSize) - 1)))) ||
       negb (id =? uiSequenceIdForPosition p (u64 (u64 (uiBegin + uiSize) - 1))),
       id)
  else (false, riSequenceId).

(** [bridgingSubsection( uiBegin, uiSize )]. *)
Definition bridgingSubsection (p : Pack) (uiBegin uiSize : Z) : bool :=
  if 0 <? uiSize then
    let riSequenceId := uiSequenceIdForPositionOrRev p uiBegin in
    negb (Bool.eqb (bPositionIsOnReversStrand p uiBegin)
                   (bPositionIsOnReversStrand p (u64 (u64 (uiBegin + uiSize) - 1)))) ||
    negb (riSequenceId =?
          uiSequenceIdForPositionOrRev p (u64 (u64 (uiBegin + uiSize) - 1)))
  else false.

Definition bridgingPositions (p : Pack) (uiA uiB : Z) : bool :=
  negb (Bool.eqb (bPositionIsOnReversStrand p uiA) (bPositionIsOnReversStrand p uiB)) ||
  negb (uiSequenceIdForPositionOrRev p uiA =? uiSequenceIdForPositionOrRev p uiB).

Definition onContigBorder (p : Pack) (uiA : Z) : bool :=
  if uiA =? 0 then true else bridgingPositions p (u64 (uiA - 1)) uiA.

(** [unBridgeSubsection( uiBegin, uiSize )]: the two arguments afterwards. *)
Definition unBridgeSubsection (p : Pack) (uiBegin uiSize : Z) : Z * Z :=
  let startId := uiSequenceIdForPositionOrRev p uiBegin in
  let uiSplit := endOfSequenceWithIdOrReverse p startId in
  if uiSplit <? u64 (uiBegin + uiSize / 2)
  then (uiSplit, u64 (u64 (uiSize + uiBegin) - uiSplit))
  else (uiBegin, u64 (uiSplit - uiBegin)).

(** [vAlignPositions( riBegin, iMiddle, riEnd )]: [riBegin] and [riEnd]
    afterwards. *)
Definition vAlignPositions (p : Pack) (riBegin iMiddle riEnd : Z) : Z * Z :=
  let iSequenceId := uiSequenceIdForPosition p (u64 iMiddle) in
  let iSequenceBegin := startOfSequenceWithId p iSequenceId in
  let iSequenceEnd := endOfSequenceWithId p iSequenceId in
  if negb (bPositionIsOnReversStrand p (u64 iMiddle)) then
    ((if riBegin <? i64 iSequenceBegin then i64 iSequenceBegin else riBegin),
     (if i64 iSequenceEnd <? riEnd then i64 iSequenceEnd else riEnd))
  else
    ((if riBegin <? i64 (uiPositionToReverseStrand p iSequenceEnd) + 1
      then i64 (u64 (uiPositionToReverseStrand p iSequenceEnd + 1)) else riBegin),
     (if i64 (uiPositionToReverseStrand p iSequenceBegin) + 1 <? riEnd
      then i64 (u64 (uiPositionToReverseStrand p iSequenceBegin + 1)) else riEnd)).

(** [NucSeq::nucleotideComplement] on the code of a base. *)
Definition nucleotideComplement (c : Z) : Z := if c <? 4 then 3 - c else 5.

(** [vExtract( uiPosition )]: one base, of either strand. *)
Definition vExtractBase (p : Pack) (uiPosition : Z) : Z :=
  if bPositionIsOnReversStrand p (u64 uiPosition)
  then nucleotideComplement
         (getNucleotideOnPos p (uiPositionToReverseStrand p (u64 uiPosition)))
  else getNucleotideOnPos p (u64 uiPosition).

(** [vColletionAsNucSeq]: the forward strand, and the reverse strand appended
    to it. *)
Definition vColletionAsNucSeq (p : Pack) : result (list Z) :=
  match vExtractSubsection p 0 (i64 (uiStartOfReverseStrand p)) [] false with
  | Err e => Err e
  | Ok pRet =>
      vExtractSubsection p (i64 (uiStartOfReverseStrand p))
                         (i64 (uiUnpackedSizeForwardPlusReverse p)) pRet true
  end.

(** [vColletionWithoutReverseStrandAsNucSeq]: nothing is extracted from an
    empty pack. *)
Definition vColletionWithoutReverseStrandAsNucSeq (p : Pack) : result (list Z) :=
  if uiUnpackedSizeForwardStrand p =? 0 then Ok []
  else vExtractSubsection p 0 (i64 (uiStartOfReverseStrand p)) [] false.

(** [vExtractContig( iId )]. *)
Definition vExtractContig (p : Pack) (iId : Z) (rxSequence : list Z) (bAppend : bool)
  : result (list Z) :=
  vExtractSubsectionN p (i64 (startOfSequenceWithIdOrReverse p iId))
                      (i64 (endOfSequenceWithIdOrReverse p iId)) rxSequence bAppend.

(** [isHole( uiX )]. *)
Fixpoint isHoleIn (holes : list HoleDescriptor) (uiX : Z) : bool :=
  match holes with
  | [] => false
  | rHole :: t =>
      if (offset rHole <=? uiX) && (uiX <? u64 (offset rHole + PackStore.length rHole))
      then true else isHoleIn t uiX
  end.

Definition isHole (p : Pack) (uiX : Z) : bool :=
  isHoleIn (xVectorOfHoleDescriptors p) uiX.

(** The contig with the index [k]. *)
Definition contig (p : Pack) (k : nat) : SequenceInPack :=
  nth k (xVectorOfSequenceDescriptors p) noDescriptor.

(** The pack of the contigs A = ACGTACGT and B = GGNNCCAA, the two N stored
    as G. *)
Definition exPack : Pack :=
  mkPack [mkSequenceInPack "A" "first" 0 8 0 0; mkSequenceInPack "B" "none" 8 8 0 1]
         [mkHoleDescriptor 10 2 "N"] [27; 27; 170; 80] 42 16.

(** ** The contigs of a pack that is well formed *)

Lemma exPack_size : size_ok exPack.
Proof. unfold size_ok. cbn. lia. Qed.

Lemma exPack_contigs : contigs_ok exPack.
Proof. unfold contigs_ok. cbn. lia. Qed.

Lemma contig_bounds p k :
  size_ok p -> contigs_ok p ->
  (k < List.length (xVectorOfSequenceDescriptors p))%nat ->
  startOfSequenceWithId p (Z.of_nat k) = uiStartOffsetUnpacked (contig p k) /\
  endOfSequenceWithId p (Z.of_nat k) =
    uiStartOffsetUnpacked (contig p k) + uiLengthUnpacked (contig p k) /\
  0 <= uiStartOffsetUnpacked (contig p k) /\
  0 < uiLengthUnpacked (contig p k) /\
  uiStartOffsetUnpacked (contig p k) + uiLengthUnpacked (contig p k)
    <= uiUnpackedSizeForwardStrand p.
Proof.
  intros Hs Hc Hk.
  destruct (contigsChain_nth _ 0 _ k Hc Hk) as (A & B & C & _).
  unfold endOfSequenceWithId, startOfSequenceWithId, descriptorAt, contig.
  rewrite Nat2Z.id. fold noDescriptor. unfold size_ok in Hs.
  rewrite u64_small by (unfold in_u64, two64; lia).
  repeat split; try reflexivity; lia.
Qed.

Lemma contig_unique p pos i j :
  contigs_ok p ->
  (i < List.length (xVectorOfSequenceDescriptors p))%nat ->
  (j < List.length (xVectorOfSequenceDescriptors p))%nat ->
  uiStartOffsetUnpacked (contig p i) <= pos
    < uiStartOffsetUnpacked (contig p i) + uiLengthUnpacked (contig p i) ->
  uiStartOffsetUnpacked (contig p j) <= pos
    < uiStartOffsetUnpacked (contig p j) + uiLengthUnpacked (contig p j) ->
  i = j.
Proof.
  intros Hc Hi Hj Pi Pj. unfold contig in *.
  destruct (Nat.lt_trichotomy i j) as [H | [H | H]]; [|exact H|].
  - pose proof (contig_starts_mono _ _ i j Hc H Hj). lia.
  - pose proof (contig_starts_mono _ _ j i Hc H Hi). lia.
Qed.

Lemma id_is_nat p pos :
  size_ok p -> contigs_ok p -> 0 <= pos < uiUnpackedSizeForwardStrand p ->
  exists k, uiSequenceIdForPosition p pos = Z.of_nat k /\
            (k < List.length (xVectorOfSequenceDescriptors p))%nat /\
            uiStartOffsetUnpacked (contig p k) <= pos
              < uiStartOffsetUnpacked (contig p k) + uiLengthUnpacked (contig p k).
Proof.
  intros Hs Hc Hpos.
  destruct (uiSequenceIdForPosition_forward p pos Hs Hc Hpos) as (A & B & _).
  cbv zeta in A, B. unfold uiNumContigs in A.
  exists (Z.to_nat (uiSequenceIdForPosition p pos)).
  assert (Hk : (Z.to_nat (uiSequenceIdForPosition p pos) <
                List.length (xVectorOfSequenceDescriptors p))%nat) by lia.
  split; [rewrite Z2Nat.id; lia|]. split; [exact Hk|].
  destruct (contig_bounds p _ Hs Hc Hk) as (E1 & E2 & _).
  rewrite Z2Nat.id in E1, E2 by lia. rewrite <- E1. rewrite E1 at 2. rewrite <- E2.
  exact B.
Qed.

Lemma id_characterised p pos k :
  size_ok p -> contigs_ok p -> 0 <= pos < uiUnpackedSizeForwardStrand p ->
  (k < List.length (xVectorOfSequenceDescriptors p))%nat ->
  uiStartOffsetUnpacked (contig p k) <= pos
    < uiStartOffsetUnpacked (contig p k) + uiLengthUnpacked (contig p k) ->
  uiSequenceIdForPosition p pos = Z.of_nat k.
Proof.
  intros Hs Hc Hpos Hk Hin.
  destruct (id_is_nat p pos Hs Hc Hpos) as (k' & E & Hk' & Hin').
  rewrite E. f_equal. exact (contig_unique p pos k' k Hc Hk' Hk Hin' Hin).
Qed.

Lemma mirror_value p pos :
  size_ok p -> 0 <= pos < 2 * uiUnpackedSizeForwardStrand p ->
  uiPositionToReverseStrand p pos = 2 * uiUnpackedSizeForwardStrand p - 1 - pos.
Proof.
  intros Hs Hpos. destruct (both_strands_size p Hs) as [E _].
  unfold uiPositionToReverseStrand. rewrite E, u64_sub_r.
  unfold size_ok in Hs. rewrite u64_small; [lia | unfold in_u64, two64; lia].
Qed.

Lemma on_reverse_strand p pos :
  bPositionIsOnReversStrand p pos = (uiUnpackedSizeForwardStrand p <=? pos).
Proof. reflexivity. Qed.

Lemma absolute_position p pos :
  size_ok p -> 0 <= pos < 2 * uiUnpackedSizeForwardStrand p ->
  iAbsolutePosition p pos =
  if uiUnpackedSizeForwardStrand p <=? pos
  then 2 * uiUnpackedSizeForwardStrand p - 1 - pos else pos.
Proof.
  intros Hs Hpos. destruct (both_strands_size p Hs) as [E _].
  unfold iAbsolutePosition. rewrite on_reverse_strand, E. unfold size_ok in Hs.
  destruct (uiUnpackedSizeForwardStrand p <=? pos).
  - rewrite u64_sub_r, i64_of_u64. rewrite i64_small; [lia|].
    unfold in_i64, two63. lia.
  - apply i64_small. unfold in_i64, two63. lia.
Qed.

(** The contig of a position of the reverse strand is the contig of its
    image on the forward strand. *)
Lemma id_of_mirror p pos :
  size_ok p -> 0 <= pos < 2 * uiUnpackedSizeForwardStrand p ->
  uiSequenceIdForPosition p (uiPositionToReverseStrand p pos) =
  uiSequenceIdForPosition p pos.
Proof.
  intros Hs Hpos. rewrite (mirror_value p pos Hs Hpos).
  unfold uiSequenceIdForPosition. f_equal.
  rewrite !absolute_position by (try assumption; lia).
  destruct (Z.leb_spec (uiUnpackedSizeForwardStrand p) pos);
    destruct (Z.leb_spec (uiUnpackedSizeForwardStrand p)
                         (2 * uiUnpackedSizeForwardStrand p - 1 - pos)); lia.
Qed.

(** ** The contig of a position *)

(** X1. In a pack whose contigs follow each other without a gap, the binary
    search of [uiSequenceIdForPosition] returns, for a position of the
    forward strand, the index of the one contig that holds the position. *)
Theorem contig_of_position :
  forall (p : Pack) (pos : Z),
    size_ok p -> contigs_ok p -> 0 <= pos < uiUnpackedSizeForwardStrand p ->
    let id := uiSequenceIdForPosition p pos in
    0 <= id < uiNumContigs p /\
    isForwPositionInSequenceWithId p id pos = true /\
    (forall id', 0 <= id' < uiNumContigs p ->
                 isForwPositionInSequenceWithId p id' pos = true -> id' = id).
Proof.
  intros p pos Hs Hc Hpos. cbv zeta.
  destruct (id_is_nat p pos Hs Hc Hpos) as (k & E & Hk & Hin).
  destruct (contig_bounds p k Hs Hc Hk) as (E1 & E2 & _).
  rewrite E. unfold uiNumContigs, isForwPositionInSequenceWithId.
  split; [lia|]. split.
  - rewrite E1, E2. apply andb_true_intro. split; [apply Z.leb_le | apply Z.ltb_lt]; lia.
  - intros id' Hid' H. apply andb_prop in H. destruct H as [A B].
    apply Z.leb_le in A. apply Z.ltb_lt in B.
    assert (Hk' : (Z.to_nat id' < List.length (xVectorOfSequenceDescriptors p))%nat) by lia.
    destruct (contig_bounds p _ Hs Hc Hk') as (F1 & F2 & _).
    rewrite Z2Nat.id in F1, F2 by lia. rewrite F1 in A. rewrite F2 in B.
    rewrite (contig_unique p pos k (Z.to_nat id') Hc Hk Hk' Hin (conj A B)).
    rewrite Z2Nat.id; lia.
Qed.

Lemma contig_of_position_witness :
  size_ok exPack /\ contigs_ok exPack /\
  uiSequenceIdForPosition exPack 11 = 1 /\
  isForwPositionInSequenceWithId exPack (uiSequenceIdForPosition exPack 11) 11 = true.
Proof.
  split; [exact exPack_size|]. split; [exact exPack_contigs|].
  split; [reflexivity|].
  assert (H : 0 <= 11 < uiUnpackedSizeForwardStrand exPack) by (cbn; lia).
  exact (proj1 (proj2 (contig_of_position exPack 11 exPack_size exPack_contigs H))).
Defined.

(** X2. The two strands mirror each other: for a position [pos] of either
    strand, [uiPositionToReverseStrand] gives [2L - 1 - pos], which lies on
    the other strand and is mapped back to [pos]; the contig found for a
    position and for its image is the same; and
    [uiSequenceIdForPositionOrRev] is twice that contig, plus one exactly on
    the reverse strand. *)
Theorem strands_mirror :
  forall (p : Pack) (pos : Z),
    size_ok p -> contigs_ok p -> 0 <= pos < 2 * uiUnpackedSizeForwardStrand p ->
    let img := uiPositionToReverseStrand p pos in
    img = 2 * uiUnpackedSizeForwardStrand p - 1 - pos /\
    uiPositionToReverseStrand p img = pos /\
    bPositionIsOnReversStrand p img = negb (bPositionIsOnReversStrand p pos) /\
    uiSequenceIdForPosition p img = uiSequenceIdForPosition p pos /\
    0 <= uiSequenceIdForPosition p pos < uiNumContigs p /\
    uiSequenceIdForPositionOrRev p pos =
      2 * uiSequenceIdForPosition p pos +
      (if bPositionIsOnReversStrand p pos then 1 else 0).
Proof.
  intros p pos Hs Hc Hpos. cbv zeta.
  set (L := uiUnpackedSizeForwardStrand p) in *.
  pose proof (mirror_value p pos Hs Hpos) as Em. fold L in Em.
  assert (Himg : 0 <= 2 * L - 1 - pos < 2 * L) by lia.
  pose proof (mirror_value p _ Hs Himg) as Em2. fold L in Em2.
  assert (Hid : 0 <= uiSequenceIdForPosition p pos < uiNumContigs p).
  { destruct (Z.leb_spec L pos) as [Hr | Hf].
    - rewrite <- (id_of_mirror p pos Hs Hpos), Em.
      apply (uiSequenceIdForPosition_forward p (2 * L - 1 - pos) Hs Hc). fold L. lia.
    - apply (uiSequenceIdForPosition_forward p pos Hs Hc). fold L. lia. }
  assert (Hn : uiNumContigs p <= L).
  { unfold uiNumContigs.
    assert (Hcount : forall l' f t, contigsChain f l' t ->
              Z.of_nat (List.length l') <= t - f).
    { induction l' as [|x l' IHl]; intros f0 t H; simpl in H.
      - simpl. lia.
      - destruct H as (_ & Hx & H). apply IHl in H. cbn [List.length].
        rewrite Nat2Z.inj_succ. lia. }
    pose proof (Hcount _ 0 _ Hc). fold L in H. lia. }
  split; [exact Em|]. rewrite Em, Em2.
  split; [lia|]. split.
  - rewrite !on_reverse_strand. fold L.
    destruct (Z.leb_spec L pos); destruct (Z.leb_spec L (2 * L - 1 - pos)); try reflexivity; lia.
  - split; [rewrite <- Em; apply id_of_mirror; assumption|]. split; [exact Hid|].
    unfold uiSequenceIdForPositionOrRev. rewrite (id_of_mirror p pos Hs Hpos).
    unfold size_ok in Hs. fold L in Hs.
    destruct (bPositionIsOnReversStrand p pos);
      rewrite i64_small; try lia; unfold in_i64, two63; lia.
Qed.

Lemma strands_mirror_witness :
  size_ok exPack /\ contigs_ok exPack /\
  uiPositionToReverseStrand exPack 21 = 10 /\
  uiPositionToReverseStrand exPack (uiPositionToReverseStrand exPack 21) = 21 /\
  uiSequenceIdForPositionOrRev exPack 21 = 3 /\
  uiSequenceIdForPositionOrRev exPack 10 = 2.
Proof.
  split; [exact exPack_size|]. split; [exact exPack_contigs|].
  assert (H : 0 <= 21 < 2 * uiUnpackedSizeForwardStrand exPack) by (cbn; lia).
  pose proof (strands_mirror exPack 21 exPack_size exPack_contigs H) as M.
  cbv zeta in M. destruct M as (_ & M2 & _).
  split; [reflexivity|]. split; [exact M2|]. split; reflexivity.
Defined.

(** ** Contigs by name *)

Lemma searchName_spec name : forall descs i0,
  0 <= i0 ->
  let r := searchName name descs i0 in
  (r = -1 <-> Forall (fun d => sName d <> name) descs) /\
  (r = -1 -> firstWithName name descs = None) /\
  (r <> -1 ->
   i0 <= r < i0 + Z.of_nat (List.length descs) /\
   sName (nth (Z.to_nat (r - i0)) descs noDescriptor) = name /\
   firstWithName name descs = Some (nth (Z.to_nat (r - i0)) descs noDescriptor) /\
   (forall j, i0 <= j < r ->
              sName (nth (Z.to_nat (j - i0)) descs noDescriptor) <> name)).
Proof.
  induction descs as [|d t IH]; intros i0 H0; cbv zeta.
  - cbn [searchName firstWithName].
    split; [split; [constructor | reflexivity]|]. split; [reflexivity | congruence].
  - cbn [searchName firstWithName].
    destruct (String.eqb_spec (sName d) name) as [E | E].
    + split; [split; [lia | intros H; inversion H; congruence]|].
      split; [lia|]. intros _.
      cbn [List.length]. rewrite Z.sub_diag. cbn [Z.to_nat nth].
      split; [lia|]. split; [exact E|]. split; [reflexivity|]. intros j Hj. lia.
    + destruct (IH (i0 + 1) ltac:(lia)) as (A & B & C).
      split.
      { split.
        - intros H. constructor; [exact E | apply A; exact H].
        - intros H. inversion H; subst. apply A. assumption. }
      split; [exact B|].
      intros Hr. destruct (C Hr) as (C1 & C2 & C3 & C4).
      cbn [List.length]. rewrite Nat2Z.inj_succ.
      assert (En : Z.to_nat (searchName name t (i0 + 1) - i0) =
                   S (Z.to_nat (searchName name t (i0 + 1) - (i0 + 1)))) by lia.
      rewrite En. cbn [nth].
      split; [lia|]. split; [exact C2|]. split; [exact C3|].
      intros j Hj. destruct (Z.eq_dec j i0) as [-> | Hne].
      * rewrite Z.sub_diag. cbn [Z.to_nat nth]. exact E.
      * replace (Z.to_nat (j - i0)) with (S (Z.to_nat (j - (i0 + 1)))) by lia.
        cbn [nth]. apply C4. lia.
Qed.

(** X3. The lookup of a contig by its name: [uiSequenceIdForName] returns -1
    exactly when no contig has the name, and else the index of the first
    contig with the name, whose name [nameOfSequenceWithId] gives back.  The
    start, the end and the length of a name are those of that contig, and 0
    for a name that no contig has. *)
Theorem name_lookup :
  forall (p : Pack) (name : string),
    let id := uiSequenceIdForName p name in
    (id = -1 <-> Forall (fun d => sName d <> name) (xVectorOfSequenceDescriptors p)) /\
    (id = -1 ->
     startOfSequenceWithName p name = 0 /\ endOfSequenceWithName p name = 0 /\
     lengthOfSequenceWithName p name = 0) /\
    (id <> -1 ->
     0 <= id < uiNumContigs p /\
     nameOfSequenceWithId p id = name /\
     (forall j, 0 <= j < id -> nameOfSequenceWithId p j <> name) /\
     startOfSequenceWithName p name = startOfSequenceWithId p id /\
     endOfSequenceWithName p name = endOfSequenceWithId p id /\
     lengthOfSequenceWithName p name = lengthOfSequenceWithId p id).
Proof.
  intros p name. cbv zeta. unfold uiSequenceIdForName.
  destruct (searchName_spec name (xVectorOfSequenceDescriptors p) 0 ltac:(lia))
    as (A & B & C).
  split; [exact A|]. split.
  - intros H. unfold startOfSequenceWithName, endOfSequenceWithName,
      lengthOfSequenceWithName. rewrite (B H). repeat split.
  - intros H. destruct (C H) as (C1 & C2 & C3 & C4).
    rewrite Z.sub_0_r in C2, C3.
    unfold uiNumContigs, nameOfSequenceWithId, startOfSequenceWithName,
      endOfSequenceWithName, lengthOfSequenceWithName, endOfSequenceWithId,
      startOfSequenceWithId, lengthOfSequenceWithId, descriptorAt.
    fold noDescriptor. rewrite C3.
    replace (0 <=? searchName name (xVectorOfSequenceDescriptors p) 0) with true
      by (symmetry; apply Z.leb_le; lia).
    split; [lia|]. split; [exact C2|]. split; [|repeat split].
    intros j Hj. replace (0 <=? j) with true by (symmetry; apply Z.leb_le; lia).
    specialize (C4 j Hj). rewrite Z.sub_0_r in C4. exact C4.
Qed.

(** On the pack of A and B: B is the contig 1, and no contig is called C. *)
Example name_lookup_example :
  uiSequenceIdForName exPack "B" = 1 /\ startOfSequenceWithName exPack "B" = 8 /\
  uiSequenceIdForName exPack "C" = -1 /\ startOfSequenceWithName exPack "C" = 0 /\
  nameOfSequenceWithId exPack (-1) = "*"%string.
Proof. repeat split. Qed.

(** ** Contigs of both strands *)

Lemma half_of_even k : Z.quot (2 * Z.of_nat k) 2 = Z.of_nat k /\ Z.rem (2 * Z.of_nat k) 2 = 0.
Proof.
  split.
  - rewrite Z.mul_comm. apply Z.quot_mul. lia.
  - rewrite Z.mul_comm. apply Z.rem_mul. lia.
Qed.

Lemma half_of_odd k :
  Z.quot (2 * Z.of_nat k + 1) 2 = Z.of_nat k /\ Z.rem (2 * Z.of_nat k + 1) 2 = 1.
Proof.
  assert (H : 0 <= 2 * Z.of_nat k + 1) by lia.
  rewrite (Z.quot_div_nonneg _ 2 H) by lia. rewrite (Z.rem_mod_nonneg _ 2 H) by lia.
  pose proof (Z.div_mod (2 * Z.of_nat k + 1) 2).
  pose proof (Z.mod_pos_bound (2 * Z.of_nat k + 1) 2). lia.
Qed.

Lemma contig_bounds_or_reverse_aux p k :
  size_ok p -> contigs_ok p ->
  (k < List.length (xVectorOfSequenceDescriptors p))%nat ->
  startOfSequenceWithIdOrReverse p (2 * Z.of_nat k) = uiStartOffsetUnpacked (contig p k) /\
  endOfSequenceWithIdOrReverse p (2 * Z.of_nat k) =
    uiStartOffsetUnpacked (contig p k) + uiLengthUnpacked (contig p k) /\
  startOfSequenceWithIdOrReverse p (2 * Z.of_nat k + 1) =
    2 * uiUnpackedSizeForwardStrand p -
    (uiStartOffsetUnpacked (contig p k) + uiLengthUnpacked (contig p k)) /\
  endOfSequenceWithIdOrReverse p (2 * Z.of_nat k + 1) =
    2 * uiUnpackedSizeForwardStrand p - uiStartOffsetUnpacked (contig p k) - 2.
Proof.
  intros Hs Hc Hk.
  destruct (contig_bounds p k Hs Hc Hk) as (E1 & E2 & B1 & B2 & B3).
  destruct (half_of_even k) as [Q0 R0]. destruct (half_of_odd k) as [Q1 R1].
  unfold startOfSequenceWithIdOrReverse, endOfSequenceWithIdOrReverse.
  rewrite Q0, R0, Q1, R1, E1, E2.
  change (0 =? 1) with false. change (1 =? 1) with true. cbv iota.
  rewrite !mirror_value by (try assumption; lia).
  unfold size_ok in Hs.
  rewrite !u64_small by (unfold in_u64, two64; lia).
  repeat split; lia.
Qed.

(** X4. The ids of both strands: for the even id [2k] the start, the end and
    the length are those of the contig [k].  For the odd id [2k + 1] the
    start is the image [2L - end] of the end of the contig, the end is
    [2L - start - 2], two less than the end [2L - start] of the image of the
    contig, and the length that is returned is that same value. *)
Theorem contig_bounds_or_reverse :
  forall (p : Pack) (k : nat),
    size_ok p -> contigs_ok p ->
    (k < List.length (xVectorOfSequenceDescriptors p))%nat ->
    let s := uiStartOffsetUnpacked (contig p k) in
    let n := uiLengthUnpacked (contig p k) in
    let L := uiUnpackedSizeForwardStrand p in
    startOfSequenceWithIdOrReverse p (2 * Z.of_nat k) = s /\
    endOfSequenceWithIdOrReverse p (2 * Z.of_nat k) = s + n /\
    lengthOfSequenceWithIdOrReverse p (2 * Z.of_nat k) = n /\
    startOfSequenceWithIdOrReverse p (2 * Z.of_nat k + 1) = 2 * L - (s + n) /\
    endOfSequenceWithIdOrReverse p (2 * Z.of_nat k + 1) = 2 * L - s - 2 /\
    lengthOfSequenceWithIdOrReverse p (2 * Z.of_nat k + 1) = 2 * L - s - 2.
Proof.
  intros p k Hs Hc Hk. cbv zeta.
  destruct (contig_bounds p k Hs Hc Hk) as (E1 & E2 & B1 & B2 & B3).
  destruct (half_of_even k) as [Q0 R0]. destruct (half_of_odd k) as [Q1 R1].
  unfold startOfSequenceWithIdOrReverse, endOfSequenceWithIdOrReverse,
    lengthOfSequenceWithIdOrReverse, lengthOfSequenceWithId.
  rewrite Q0, R0, Q1, R1, E1, E2.
  change (0 =? 1) with false. change (1 =? 1) with true. cbv iota.
  rewrite !mirror_value by (try assumption; lia).
  unfold size_ok in Hs.
  rewrite !u64_small by (unfold in_u64, two64; lia).
  unfold descriptorAt. rewrite Nat2Z.id. fold noDescriptor. fold (contig p k).
  repeat split; lia.
Qed.

Lemma contig_bounds_or_reverse_witness :
  size_ok exPack /\ contigs_ok exPack /\
  startOfSequenceWithIdOrReverse exPack 3 = 16 /\
  endOfSequenceWithIdOrReverse exPack 3 = 22 /\
  startOfSequenceWithIdOrReverse exPack 2 = 8 /\
  endOfSequenceWithIdOrReverse exPack 2 = 16.
Proof.
  split; [exact exPack_size|]. split; [exact exPack_contigs|].
  assert (Hk : (1 < List.length (xVectorOfSequenceDescriptors exPack))%nat) by (cbn; lia).
  pose proof (contig_bounds_or_reverse exPack 1 exPack_size exPack_contigs Hk) as H.
  cbv zeta in H. destruct H as (H1 & H2 & _ & H4 & H5 & _).
  split; [exact H4|]. split; [exact H5|]. split; [exact H1 | exact H2].
Defined.

Lemma extractForwardN_length p : forall positions holes,
  List.length (extractForwardN p holes positions) = List.length positions.
Proof.
  induction positions as [|q t IH]; intros holes; [reflexivity|].
  cbn [extractForwardN List.length]. now rewrite IH.
Qed.

Lemma extractReverseN_length p : forall positions holes,
  List.length (extractReverseN p holes positions) = List.length positions.
Proof.
  induction positions as [|q t IH]; intros holes; [reflexivity|].
  cbn [extractReverseN List.length]. now rewrite IH.
Qed.

Lemma upto_length a b : a <= b -> Z.of_nat (List.length (upto a b)) = b - a.
Proof. intros H. unfold upto. rewrite length_map, length_seq. lia. Qed.

Lemma downto_length a b : b <= a -> Z.of_nat (List.length (downto a b)) = a - b.
Proof. intros H. unfold downto. rewrite length_map, length_seq. lia. Qed.

(** The extraction with N of a request inside one strand returns one symbol
    for each position. *)
Lemma vExtractSubsectionN_length p b e :
  size_ok p -> 0 <= b < e -> e <= 2 * uiUnpackedSizeForwardStrand p ->
  (e <= uiUnpackedSizeForwardStrand p \/ uiUnpackedSizeForwardStrand p <= b) ->
  exists l, vExtractSubsectionN p b e [] false = Ok l /\
            Z.of_nat (List.length l) = e - b.
Proof.
  intros Hs Hb He Hside.
  set (L := uiUnpackedSizeForwardStrand p) in *.
  destruct (extraction_checks p b e Hs Hb He) as (C1 & C2 & C3 & C4 & C5).
  fold L in C3, C4.
  unfold vExtractSubsectionN.
  replace (b =? e) with false by (symmetry; apply Z.eqb_neq; lia).
  rewrite C1, C2, C3, C4, C5. cbn [negb].
  destruct Hside as [Hf | Hr].
  - replace (L <=? b) with false by (symmetry; apply Z.leb_gt; lia).
    replace (L <=? e - 1) with false by (symmetry; apply Z.leb_gt; lia).
    cbn [Bool.eqb negb app]. eexists. split; [reflexivity|].
    rewrite extractForwardN_length. apply upto_length. lia.
  - replace (L <=? b) with true by (symmetry; apply Z.leb_le; lia).
    replace (L <=? e - 1) with true by (symmetry; apply Z.leb_le; lia).
    cbn [Bool.eqb negb app]. eexists. split; [reflexivity|].
    rewrite extractReverseN_length.
    unfold size_ok in Hs. fold L in Hs.
    rewrite (u64_small b), (u64_small e) by (unfold in_u64, two64; lia).
    rewrite (absolute_position p b Hs) by (fold L; lia).
    fold L.
    replace (L <=? b) with true by (symmetry; apply Z.leb_le; lia).
    destruct (Z.eq_dec e (2 * L)) as [-> | Hne].
    + assert (Ea : iAbsolutePosition p (2 * L) = -1).
      { destruct (both_strands_size p Hs) as [E _]. fold L in E.
        unfold iAbsolutePosition. rewrite on_reverse_strand. fold L. rewrite E.
        replace (L <=? 2 * L) with true by (symmetry; apply Z.leb_le; lia).
        rewrite u64_sub_r, i64_of_u64.
        replace (2 * L - (2 * L + 1)) with (-1) by lia.
        apply i64_small. unfold in_i64, two63. lia. }
      rewrite Ea. rewrite downto_length by lia. lia.
    + rewrite (absolute_position p e Hs) by (fold L; lia). fold L.
      replace (L <=? e) with true by (symmetry; apply Z.leb_le; lia).
      rewrite downto_length by lia. lia.
Qed.

(** X5. [vExtractContig] with the even id [2k] returns as many symbols as the
    contig [k] is long.  With the odd id [2k + 1] it returns two symbols
    fewer than the contig is long (for a contig of at least 3 bases), since
    the end that is used for the reverse strand is two positions short. *)
Theorem extract_contig_length :
  forall (p : Pack) (k : nat),
    size_ok p -> contigs_ok p ->
    (k < List.length (xVectorOfSequenceDescriptors p))%nat ->
    let n := uiLengthUnpacked (contig p k) in
    (exists l, vExtractContig p (2 * Z.of_nat k) [] false = Ok l /\
               Z.of_nat (List.length l) = n) /\
    (3 <= n ->
     exists l, vExtractContig p (2 * Z.of_nat k + 1) [] false = Ok l /\
               Z.of_nat (List.length l) = n - 2).
Proof.
  intros p k Hs Hc Hk. cbv zeta.
  destruct (contig_bounds p k Hs Hc Hk) as (_ & _ & B1 & B2 & B3).
  pose proof (contig_bounds_or_reverse_aux p k Hs Hc Hk) as (A1 & A2 & A4 & A5).
  unfold vExtractContig. rewrite A1, A2, A4, A5.
  unfold size_ok in Hs.
  rewrite !i64_small by (unfold in_i64, two63; lia).
  split.
  - destruct (vExtractSubsectionN_length p
                (uiStartOffsetUnpacked (contig p k))
                (uiStartOffsetUnpacked (contig p k) + uiLengthUnpacked (contig p k)))
      as (l & E & Hl); try assumption; try lia.
    exists l. split; [exact E | lia].
  - intros H3.
    destruct (vExtractSubsectionN_length p
                (2 * uiUnpackedSizeForwardStrand p -
                 (uiStartOffsetUnpacked (contig p k) + uiLengthUnpacked (contig p k)))
                (2 * uiUnpackedSizeForwardStrand p - uiStartOffsetUnpacked (contig p k) - 2))
      as (l & E & Hl); try assumption; try lia.
    exists l. split; [exact E | lia].
Qed.

Lemma extract_contig_length_witness :
  size_ok exPack /\ contigs_ok exPack /\
  (exists l, vExtractContig exPack 2 [] false = Ok l /\ Z.of_nat (List.length l) = 8) /\
  (exists l, vExtractContig exPack 3 [] false = Ok l /\ Z.of_nat (List.length l) = 6).
Proof.
  split; [exact exPack_size|]. split; [exact exPack_contigs|].
  assert (Hk : (1 < List.length (xVectorOfSequenceDescriptors exPack))%nat) by (cbn; lia).
  pose proof (extract_contig_length exPack 1 exPack_size exPack_contigs Hk) as H.
  cbv zeta in H. destruct H as [H1 H2].
  split; [exact H1|]. apply H2. cbn. lia.
Defined.

(** On the pack of A and B: the contig B with its two N, and the reverse
    strand of B without the complements of its first two bases. *)
Example extract_contig_example :
  vExtractContig exPack 2 [] false = Ok [2; 2; 4; 4; 1; 1; 0; 0] /\
  vExtractContig exPack 3 [] false = Ok [3; 3; 2; 2; 4; 4].
Proof. split; reflexivity. Qed.

(** ** Sections that bridge contigs *)

(** The contig of a position of either strand, and the id of both strands. *)
Lemma id_both_strands p pos :
  size_ok p -> contigs_ok p -> 0 <= pos < 2 * uiUnpackedSizeForwardStrand p ->
  exists k, (k < List.length (xVectorOfSequenceDescriptors p))%nat /\
    uiSequenceIdForPosition p pos = Z.of_nat k /\
    uiSequenceIdForPositionOrRev p pos =
      2 * Z.of_nat k + (if uiUnpackedSizeForwardStrand p <=? pos then 1 else 0) /\
    let f := if uiUnpackedSizeForwardStrand p <=? pos
             then 2 * uiUnpackedSizeForwardStrand p - 1 - pos else pos in
    uiStartOffsetUnpacked (contig p k) <= f
      < uiStartOffsetUnpacked (contig p k) + uiLengthUnpacked (contig p k).
Proof.
  intros Hs Hc Hpos. cbv zeta.
  set (L := uiUnpackedSizeForwardStrand p) in *.
  pose proof (mirror_value p pos Hs Hpos) as Em. fold L in Em.
  pose proof (id_of_mirror p pos Hs Hpos) as Ei. rewrite Em in Ei.
  unfold uiSequenceIdForPositionOrRev. rewrite on_reverse_strand. fold L.
  rewrite Em, Ei.
  assert (Hf : 0 <= (if L <=? pos then 2 * L - 1 - pos else pos) < L)
    by (destruct (Z.leb_spec L pos); lia).
  destruct (id_is_nat p _ Hs Hc Hf) as (k & E & Hk & Hin).
  assert (Eid : uiSequenceIdForPosition p pos = Z.of_nat k).
  { destruct (L <=? pos); [rewrite <- Ei|]; exact E. }
  assert (Hn : Z.of_nat k < L).
  { destruct (contig_bounds p k Hs Hc Hk) as (_ & _ & B1 & B2 & B3).
    fold L in B3.
    assert (Hcount : forall l' f t j, contigsChain f l' t -> (j < List.length l')%nat ->
              f + Z.of_nat j <= uiStartOffsetUnpacked (nth j l' noDescriptor)).
    { induction l' as [|x l' IHl]; intros f0 t j H Hj; cbn [List.length] in Hj; [lia|].
      cbn [contigsChain] in H. destruct H as (Hx & Hp & H).
      destruct j as [|j]; cbn [nth]; [lia|].
      specialize (IHl _ _ j H ltac:(lia)). lia. }
    pose proof (Hcount _ 0 _ k Hc Hk) as Hst. fold (contig p k) in Hst. lia. }
  exists k. split; [exact Hk|]. split; [exact Eid|]. split; [|exact Hin].
  rewrite Eid. unfold size_ok in Hs. fold L in Hs.
  destruct (L <=? pos); rewrite i64_small; try lia; unfold in_i64, two63; lia.
Qed.

(** The sections that do not bridge. *)
Lemma bridging_subsection_spec :
  forall (p : Pack) (b size r : Z),
    size_ok p -> contigs_ok p -> 0 <= b -> 0 < size ->
    b + size < 2 * uiUnpackedSizeForwardStrand p ->
    let L := uiUnpackedSizeForwardStrand p in
    (bridgingSubsection p b size = false <->
     exists k, (k < List.length (xVectorOfSequenceDescriptors p))%nat /\
       let s := uiStartOffsetUnpacked (contig p k) in
       let e := s + uiLengthUnpacked (contig p k) in
       (s <= b /\ b + size <= e) \/ (2 * L - e <= b /\ b + size <= 2 * L - s)) /\
    bridgingSubsectionId p b size r =
      (bridgingSubsection p b size, uiSequenceIdForPosition p b).
Proof.
  intros p b size r Hs Hc Hb Hsize Hend. cbv zeta.
  set (L := uiUnpackedSizeForwardStrand p) in *.
  assert (Hb' : 0 <= b < 2 * L) by lia.
  assert (He' : 0 <= b + size - 1 < 2 * L) by lia.
  destruct (id_both_strands p b Hs Hc Hb') as (kb & Hkb & Eb & Rb & Ib).
  destruct (id_both_strands p _ Hs Hc He') as (ke & Hke & Ee & Re & Ie).
  fold L in Rb, Re, Ib, Ie. cbv zeta in Ib, Ie.
  destruct (contig_bounds p kb Hs Hc Hkb) as (_ & _ & Bb1 & Bb2 & Bb3).
  destruct (contig_bounds p ke Hs Hc Hke) as (_ & _ & Be1 & Be2 & Be3).
  fold L in Bb3, Be3.
  destruct (both_strands_size p Hs) as [E2 _]. fold L in E2.
  unfold size_ok in Hs. fold L in Hs.
  assert (Eend : u64 (u64 (b + size) - 1) = b + size - 1).
  { rewrite u64_sub_l. apply u64_small. unfold in_u64, two64. lia. }
  assert (Esum : u64 (b + size) = b + size)
    by (apply u64_small; unfold in_u64, two64; lia).
  assert (Ebr : bridgingSubsection p b size =
                negb (Bool.eqb (L <=? b) (L <=? b + size - 1)) || negb (kb =? ke)%nat).
  { unfold bridgingSubsection.
    replace (0 <? size) with true by (symmetry; apply Z.ltb_lt; lia).
    cbv zeta. rewrite Eend, Rb, Re, !on_reverse_strand. fold L.
    destruct (L <=? b); destruct (L <=? b + size - 1); cbn [Bool.eqb negb orb];
      try reflexivity; f_equal;
      destruct (Nat.eqb_spec kb ke) as [-> | Hne];
      try (apply Z.eqb_refl); apply Z.eqb_neq; lia. }
  split.
  - rewrite Ebr. split.
    + intros H. apply orb_false_elim in H. destruct H as [H1 H2].
      apply negb_false_iff in H1. apply negb_false_iff in H2.
      apply Nat.eqb_eq in H2. subst ke.
      exists kb. split; [exact Hkb|].
      destruct (Z.leb_spec L b) as [Hrb | Hfb];
        destruct (Z.leb_spec L (b + size - 1)) as [Hre | Hfe];
        try discriminate H1; [right | left]; lia.
    + intros (k & Hk & Hin).
      destruct (contig_bounds p k Hs Hc Hk) as (_ & _ & B1 & B2 & B3). fold L in B3.
      assert (Hside : (L <=? b) = (L <=? b + size - 1)).
      { destruct (Z.leb_spec L b); destruct (Z.leb_spec L (b + size - 1));
          try reflexivity; lia. }
      rewrite Hside, Bool.eqb_reflx. cbn [negb orb].
      apply negb_false_iff. apply Nat.eqb_eq.
      assert (Eb' : kb = k).
      { apply (contig_unique p (if L <=? b then 2 * L - 1 - b else b) kb k Hc Hkb Hk Ib).
        destruct (Z.leb_spec L b); lia. }
      assert (Ee' : ke = k).
      { apply (contig_unique p (if L <=? b + size - 1 then 2 * L - 1 - (b + size - 1)
                                else b + size - 1) ke k Hc Hke Hk Ie).
        destruct (Z.leb_spec L (b + size - 1)); destruct (Z.leb_spec L b); lia. }
      congruence.
  - rewrite Ebr. unfold bridgingSubsectionId.
    replace (0 <? size) with true by (symmetry; apply Z.ltb_lt; lia).
    cbv zeta. unfold uiUnpackedSizeForwardPlusReverse in E2. fold L in E2 |- *.
    rewrite Eend, E2, Esum.
    replace (2 * L <? b + size) with false by (symmetry; apply Z.ltb_ge; lia).
    rewrite Eb, Ee, !on_reverse_strand. fold L.
    f_equal. f_equal. f_equal.
    destruct (Nat.eqb_spec kb ke) as [-> | Hne];
      [apply Z.eqb_refl | apply Z.eqb_neq; lia].
Qed.

(** X6. A section [b, b + size) of positive size inside the address space
    (the source asserts [b + size < 2L]) does not bridge exactly when it lies
    inside one contig of the forward strand, or inside the image
    [2L - end, 2L - start) of one contig on the reverse strand.  The overload
    that also returns the id gives the same answer, and the contig of [b]. *)
Theorem bridging_subsection_iff :
  forall (p : Pack) (b size r : Z),
    size_ok p -> contigs_ok p -> 0 <= b -> 0 < size ->
    b + size < 2 * uiUnpackedSizeForwardStrand p ->
    let L := uiUnpackedSizeForwardStrand p in
    (bridgingSubsection p b size = false <->
     exists k, (k < List.length (xVectorOfSequenceDescriptors p))%nat /\
       let s := uiStartOffsetUnpacked (contig p k) in
       let e := s + uiLengthUnpacked (contig p k) in
       (s <= b /\ b + size <= e) \/ (2 * L - e <= b /\ b + size <= 2 * L - s)) /\
    bridgingSubsectionId p b size r =
      (bridgingSubsection p b size, uiSequenceIdForPosition p b).
Proof. exact bridging_subsection_spec. Qed.

Lemma bridging_subsection_witness :
  size_ok exPack /\ contigs_ok exPack /\
  bridgingSubsection exPack 8 8 = false /\
  bridgingSubsection exPack 7 2 = true /\
  (bridgingSubsection exPack 16 8 = false <->
   exists k, (k < List.length (xVectorOfSequenceDescriptors exPack))%nat /\
     let s := uiStartOffsetUnpacked (contig exPack k) in
     let e := s + uiLengthUnpacked (contig exPack k) in
     (s <= 16 /\ 16 + 8 <= e) \/ (2 * 16 - e <= 16 /\ 16 + 8 <= 2 * 16 - s)).
Proof.
  split; [exact exPack_size|]. split; [exact exPack_contigs|].
  split; [reflexivity|]. split; [reflexivity|].
  refine (proj1 (bridging_subsection_iff exPack 16 8 0 exPack_size exPack_contigs _ _ _));
    cbn; lia.
Defined.

(** Two positions bridge when they lie on different strands or in different
    contigs. *)
Lemma bridging_positions_ids p x y :
  size_ok p -> contigs_ok p ->
  0 <= x < 2 * uiUnpackedSizeForwardStrand p ->
  0 <= y < 2 * uiUnpackedSizeForwardStrand p ->
  let L := uiUnpackedSizeForwardStrand p in
  let image q := if L <=? q then 2 * L - 1 - q else q in
  exists kx ky,
    (kx < List.length (xVectorOfSequenceDescriptors p))%nat /\
    (ky < List.length (xVectorOfSequenceDescriptors p))%nat /\
    uiStartOffsetUnpacked (contig p kx) <= image x
      < uiStartOffsetUnpacked (contig p kx) + uiLengthUnpacked (contig p kx) /\
    uiStartOffsetUnpacked (contig p ky) <= image y
      < uiStartOffsetUnpacked (contig p ky) + uiLengthUnpacked (contig p ky) /\
    bridgingPositions p x y =
      negb (Bool.eqb (L <=? x) (L <=? y)) || negb (kx =? ky)%nat.
Proof.
  intros Hs Hc Hx Hy. cbv zeta.
  destruct (id_both_strands p x Hs Hc Hx) as (kx & Hkx & _ & Rx & Ix).
  destruct (id_both_strands p y Hs Hc Hy) as (ky & Hky & _ & Ry & Iy).
  exists kx, ky. split; [exact Hkx|]. split; [exact Hky|].
  split; [exact Ix|]. split; [exact Iy|].
  unfold bridgingPositions. rewrite Rx, Ry, !on_reverse_strand.
  destruct (uiUnpackedSizeForwardStrand p <=? x);
    destruct (uiUnpackedSizeForwardStrand p <=? y); cbn [Bool.eqb negb orb];
    try reflexivity; f_equal;
    destruct (Nat.eqb_spec kx ky) as [-> | Hne];
    try (apply Z.eqb_refl); apply Z.eqb_neq; lia.
Qed.

(** X7. A position of either strand is on a contig border exactly when a
    contig starts there: at the start of a contig of the forward strand, or
    at the start [2L - end] of the image of a contig on the reverse strand
    (the seam [L] is the start of the image of the last contig). *)
Theorem contig_border_iff :
  forall (p : Pack) (a : Z),
    size_ok p -> contigs_ok p -> 0 <= a < 2 * uiUnpackedSizeForwardStrand p ->
    let L := uiUnpackedSizeForwardStrand p in
    onContigBorder p a = true <->
    exists k, (k < List.length (xVectorOfSequenceDescriptors p))%nat /\
      (a = uiStartOffsetUnpacked (contig p k) \/
       a = 2 * L - (uiStartOffsetUnpacked (contig p k) + uiLengthUnpacked (contig p k))).
Proof.
  intros p a Hs Hc Ha. cbv zeta.
  set (L := uiUnpackedSizeForwardStrand p) in *.
  unfold onContigBorder. destruct (Z.eqb_spec a 0) as [-> | Hne].
  - split; [intros _ | reflexivity].
    destruct (id_is_nat p 0 Hs Hc ltac:(fold L; lia)) as (k & _ & Hk & Hin).
    destruct (contig_bounds p k Hs Hc Hk) as (_ & _ & B1 & _).
    exists k. split; [exact Hk | left; lia].
  - assert (Ha1 : 0 <= a - 1 < 2 * L) by lia.
    unfold size_ok in Hs. fold L in Hs.
    rewrite (u64_small (a - 1)) by (unfold in_u64, two64; lia).
    destruct (bridging_positions_ids p (a - 1) a Hs Hc Ha1 Ha)
      as (kj & k & Hkj & Hk & Ij & Ik & E).
    fold L in Ij, Ik, E. rewrite E.
    destruct (contig_bounds p kj Hs Hc Hkj) as (_ & _ & Bj1 & Bj2 & Bj3).
    destruct (contig_bounds p k Hs Hc Hk) as (_ & _ & Bk1 & Bk2 & Bk3).
    fold L in Bj3, Bk3.
    split.
    + intros H. apply orb_true_iff in H.
      destruct (Z.leb_spec L (a - 1)) as [Hr1 | Hf1];
        destruct (Z.leb_spec L a) as [Hr | Hf]; try lia.
      * destruct H as [H | H]; [discriminate H|].
        apply negb_true_iff in H. apply Nat.eqb_neq in H.
        exists k. split; [exact Hk|]. right.
        destruct (Z.eq_dec (2 * L - a)
                    (uiStartOffsetUnpacked (contig p k) + uiLengthUnpacked (contig p k)))
          as [Heq | Hneq]; [lia|].
        exfalso. apply H.
        apply (contig_unique p (2 * L - 1 - (a - 1)) kj k Hc Hkj Hk Ij). lia.
      * exists kj. split; [exact Hkj|]. right. lia.
      * destruct H as [H | H]; [discriminate H|].
        apply negb_true_iff in H. apply Nat.eqb_neq in H.
        exists k. split; [exact Hk|]. left.
        destruct (Z.eq_dec a (uiStartOffsetUnpacked (contig p k))) as [Heq | Hneq];
          [exact Heq|].
        exfalso. apply H.
        apply (contig_unique p (a - 1) kj k Hc Hkj Hk Ij). lia.
    + intros (k0 & Hk0 & Hcase).
      destruct (contig_bounds p k0 Hs Hc Hk0) as (_ & _ & B1 & B2 & B3). fold L in B3.
      apply orb_true_iff.
      destruct (Z.leb_spec L (a - 1)) as [Hr1 | Hf1];
        destruct (Z.leb_spec L a) as [Hr | Hf].
      * right. apply negb_true_iff. apply Nat.eqb_neq. intros Heq. subst kj.
        destruct Hcase as [Hcase | Hcase]; [lia|].
        assert (k = k0) by (apply (contig_unique p (2 * L - 1 - a) k k0 Hc Hk Hk0 Ik); lia).
        subst k0. lia.
      * lia.
      * left. reflexivity.
      * right. apply negb_true_iff. apply Nat.eqb_neq. intros Heq. subst kj.
        destruct Hcase as [Hcase | Hcase]; [|lia].
        assert (k = k0) by (apply (contig_unique p a k k0 Hc Hk Hk0 Ik); lia).
        subst k0. lia.
Qed.

Lemma contig_border_witness :
  size_ok exPack /\ contigs_ok exPack /\
  onContigBorder exPack 8 = true /\ onContigBorder exPack 9 = false /\
  onContigBorder exPack 16 = true /\ onContigBorder exPack 24 = true /\
  exists k, (k < List.length (xVectorOfSequenceDescriptors exPack))%nat /\
    (24 = uiStartOffsetUnpacked (contig exPack k) \/
     24 = 2 * 16 - (uiStartOffsetUnpacked (contig exPack k) +
                    uiLengthUnpacked (contig exPack k))).
Proof.
  split; [exact exPack_size|]. split; [exact exPack_contigs|].
  split; [reflexivity|]. split; [reflexivity|]. split; [reflexivity|].
  split; [reflexivity|].
  assert (H : 0 <= 24 < 2 * uiUnpackedSizeForwardStrand exPack) by (cbn; lia).
  exact (proj1 (contig_border_iff exPack 24 exPack_size exPack_contigs H) eq_refl).
Defined.

(** ** The largest piece of a bridging section *)

(** X8. [unBridgeSubsection] on a section [b, b + size) that starts in the
    contig [k] of the forward strand and runs over its end [e]: the section is
    cut at [e]; the piece behind [e] is kept when [b + size / 2 > e], the piece
    before [e] otherwise.  The piece that is kept lies inside the section, is
    shorter than the section and at least [size / 2] long; the piece before
    [e] does not bridge. *)
Theorem unbridge_forward :
  forall (p : Pack) (b size : Z) (k : nat),
    size_ok p -> contigs_ok p ->
    (k < List.length (xVectorOfSequenceDescriptors p))%nat ->
    let e := uiStartOffsetUnpacked (contig p k) + uiLengthUnpacked (contig p k) in
    uiStartOffsetUnpacked (contig p k) <= b < e ->
    e < b + size ->
    b + size < 2 * uiUnpackedSizeForwardStrand p ->
    let r := unBridgeSubsection p b size in
    r = (if e <? b + size / 2 then (e, b + size - e) else (b, e - b)) /\
    b <= fst r /\ fst r + snd r <= b + size /\
    0 < snd r < size /\ size / 2 <= snd r /\
    (fst r = b -> bridgingSubsection p (fst r) (snd r) = false).
Proof.
  intros p b size k Hs Hc Hk e Hb He Hend r.
  set (L := uiUnpackedSizeForwardStrand p) in *.
  destruct (contig_bounds p k Hs Hc Hk) as (_ & _ & B1 & B2 & B3). fold L in B3.
  fold e in B3.
  assert (HbL : 0 <= b < 2 * L) by lia.
  destruct (id_both_strands p b Hs Hc HbL) as (k' & Hk' & _ & R & I).
  fold L in R, I. cbv zeta in I.
  replace (L <=? b) with false in R, I by (symmetry; apply Z.leb_gt; lia).
  assert (k' = k) by (apply (contig_unique p b k' k Hc Hk' Hk I); fold e; lia).
  subst k'. rewrite Z.add_0_r in R.
  destruct (contig_bounds_or_reverse_aux p k Hs Hc Hk) as (_ & A2 & _). fold e in A2.
  pose proof (Z.div_mod size 2 ltac:(lia)) as Hdm.
  pose proof (Z.mod_pos_bound size 2 ltac:(lia)) as Hmb.
  assert (Er : r = (if e <? b + size / 2 then (e, b + size - e) else (b, e - b))).
  { unfold r, unBridgeSubsection. cbv zeta. rewrite R, A2.
    unfold size_ok in Hs. fold L in Hs.
    rewrite (u64_small (b + size / 2)) by (unfold in_u64, two64; lia).
    destruct (e <? b + size / 2).
    - rewrite u64_sub_l. f_equal. rewrite u64_small; [lia|].
      unfold in_u64, two64. lia.
    - f_equal. apply u64_small. unfold in_u64, two64. lia. }
  split; [exact Er|]. rewrite Er.
  destruct (Z.ltb_spec e (b + size / 2)) as [Hlt | Hge]; cbn [fst snd].
  - repeat split; lia.
  - repeat split; try lia. intros _.
    apply (proj1 (bridging_subsection_spec p b (e - b) 0 Hs Hc ltac:(lia) ltac:(lia)
                    ltac:(fold L; lia))).
    exists k. split; [exact Hk|]. cbv zeta. left. fold e. lia.
Qed.

Lemma unbridge_forward_witness :
  size_ok exPack /\ contigs_ok exPack /\
  unBridgeSubsection exPack 5 10 = (8, 7) /\
  unBridgeSubsection exPack 2 10 = (2, 6) /\
  bridgingSubsection exPack 2 6 = false /\
  fst (unBridgeSubsection exPack 5 10) + snd (unBridgeSubsection exPack 5 10) <= 5 + 10.
Proof.
  split; [exact exPack_size|]. split; [exact exPack_contigs|].
  split; [reflexivity|]. split; [reflexivity|]. split; [reflexivity|].
  assert (Hk : (0 < List.length (xVectorOfSequenceDescriptors exPack))%nat) by (cbn; lia).
  assert (Hb : uiStartOffsetUnpacked (contig exPack 0) <= 5 <
               uiStartOffsetUnpacked (contig exPack 0) + uiLengthUnpacked (contig exPack 0))
    by (cbn; lia).
  assert (He : uiStartOffsetUnpacked (contig exPack 0) + uiLengthUnpacked (contig exPack 0)
               < 5 + 10) by (cbn; lia).
  assert (Hend : 5 + 10 < 2 * uiUnpackedSizeForwardStrand exPack) by (cbn; lia).
  exact (proj1 (proj2 (proj2 (unbridge_forward exPack 5 10 0 exPack_size exPack_contigs
                                               Hk Hb He Hend)))).
Defined.

(** X9. [unBridgeSubsection] on a section [b, b + size) that starts in the
    image of the contig [k] on the reverse strand and runs over its end
    [2L - s]: the section is cut at [2L - s - 2], the value of
    [endOfSequenceWithIdOrReverse], two positions before the end of the image.
    The piece before the cut does not bridge; the piece behind the cut, kept
    when [b + size / 2] is greater than the cut, starts with the last two
    positions of the image and still bridges. *)
Theorem unbridge_reverse :
  forall (p : Pack) (b size : Z) (k : nat),
    size_ok p -> contigs_ok p ->
    (k < List.length (xVectorOfSequenceDescriptors p))%nat ->
    let L := uiUnpackedSizeForwardStrand p in
    let s := uiStartOffsetUnpacked (contig p k) in
    let e := s + uiLengthUnpacked (contig p k) in
    2 * L - e <= b <= 2 * L - s - 2 ->
    2 * L - s < b + size ->
    b + size < 2 * L ->
    let r := unBridgeSubsection p b size in
    r = (if 2 * L - s - 2 <? b + size / 2
         then (2 * L - s - 2, b + size - (2 * L - s - 2))
         else (b, 2 * L - s - 2 - b)) /\
    bridgingSubsection p (fst r) (snd r) = (2 * L - s - 2 <? b + size / 2).
Proof.
  intros p b size k Hs Hc Hk L s e Hb He Hend r.
  destruct (contig_bounds p k Hs Hc Hk) as (_ & _ & B1 & B2 & B3).
  fold L in B3. fold s in B1, B3. fold e in B3.
  assert (HbL : 0 <= b < 2 * L) by lia.
  destruct (id_both_strands p b Hs Hc HbL) as (k' & Hk' & _ & R & I).
  fold L in R, I. cbv zeta in I.
  replace (L <=? b) with true in R, I by (symmetry; apply Z.leb_le; lia).
  assert (k' = k) by (apply (contig_unique p _ k' k Hc Hk' Hk I); fold s; fold e; lia).
  subst k'.
  destruct (contig_bounds_or_reverse_aux p k Hs Hc Hk) as (_ & _ & _ & A5).
  fold L in A5. fold s in A5.
  pose proof (Z.div_mod size 2 ltac:(lia)) as Hdm.
  pose proof (Z.mod_pos_bound size 2 ltac:(lia)) as Hmb.
  assert (Er : r = (if 2 * L - s - 2 <? b + size / 2
                    then (2 * L - s - 2, b + size - (2 * L - s - 2))
                    else (b, 2 * L - s - 2 - b))).
  { unfold r, unBridgeSubsection. cbv zeta. rewrite R, A5.
    pose proof Hs as Hs'. unfold size_ok in Hs'. fold L in Hs'.
    rewrite (u64_small (b + size / 2)) by (unfold in_u64, two64; lia).
    destruct (2 * L - s - 2 <? b + size / 2).
    - rewrite u64_sub_l. f_equal. rewrite u64_small; [lia|].
      unfold in_u64, two64. lia.
    - f_equal. apply u64_small. unfold in_u64, two64. lia. }
  split; [exact Er|]. rewrite Er.
  destruct (Z.ltb_spec (2 * L - s - 2) (b + size / 2)) as [Hlt | Hge]; cbn [fst snd].
  - apply not_false_is_true. intros Hf.
    assert (H1 : 0 <= 2 * L - s - 2) by lia.
    assert (H2 : 0 < b + size - (2 * L - s - 2)) by lia.
    assert (H3 : 2 * L - s - 2 + (b + size - (2 * L - s - 2)) < 2 * L) by lia.
    apply (proj1 (bridging_subsection_spec p _ _ 0 Hs Hc H1 H2 H3)) in Hf.
    destruct Hf as (k2 & Hk2 & Hin). cbv zeta in Hin. fold L in Hin.
    destruct (contig_bounds p k2 Hs Hc Hk2) as (_ & _ & C1 & C2 & C3). fold L in C3.
    destruct Hin as [Hin | Hin]; [lia|].
    assert (k2 = k).
    { apply (contig_unique p (s + 1) k2 k Hc Hk2 Hk); [lia|]. fold s. fold e. lia. }
    subst k2. fold s in Hin. lia.
  - destruct (Z.eq_dec b (2 * L - s - 2)) as [Heq | Hneq].
    + replace (2 * L - s - 2 - b) with 0 by lia. reflexivity.
    + assert (H1 : 0 <= b) by lia.
      assert (H2 : 0 < 2 * L - s - 2 - b) by lia.
      assert (H3 : b + (2 * L - s - 2 - b) < 2 * L) by lia.
      apply (proj1 (bridging_subsection_spec p b _ 0 Hs Hc H1 H2 H3)).
      exists k. split; [exact Hk|]. cbv zeta. right. fold L. fold s. fold e. lia.
Qed.

Lemma unbridge_reverse_witness :
  size_ok exPack /\ contigs_ok exPack /\
  unBridgeSubsection exPack 19 8 = (22, 5) /\
  bridgingSubsection exPack 22 5 = true /\
  unBridgeSubsection exPack 17 9 = (17, 5) /\
  bridgingSubsection exPack (fst (unBridgeSubsection exPack 17 9))
                     (snd (unBridgeSubsection exPack 17 9)) = false.
Proof.
  split; [exact exPack_size|]. split; [exact exPack_contigs|].
  split; [reflexivity|]. split; [reflexivity|]. split; [reflexivity|].
  assert (Hk : (1 < List.length (xVectorOfSequenceDescriptors exPack))%nat) by (cbn; lia).
  refine (proj2 (unbridge_reverse exPack 17 9 1 exPack_size exPack_contigs Hk _ _ _));
    cbn; lia.
Defined.

(** ** Clipping an interval to a contig *)

(** X10. [vAlignPositions] clips the interval [riBegin, riEnd) around
    [iMiddle] to the contig of [iMiddle]: to [s, e) for a position of the
    contig [k] on the forward strand, and to the image [2L - e, 2L - s) for a
    position of its image on the reverse strand.  An interval inside the
    contig is left as it is. *)
Theorem align_positions :
  forall (p : Pack) (riBegin iMiddle riEnd : Z) (k : nat),
    size_ok p -> contigs_ok p ->
    (k < List.length (xVectorOfSequenceDescriptors p))%nat ->
    riBegin <= iMiddle < riEnd ->
    let L := uiUnpackedSizeForwardStrand p in
    let s := uiStartOffsetUnpacked (contig p k) in
    let e := s + uiLengthUnpacked (contig p k) in
    (s <= iMiddle < e ->
     vAlignPositions p riBegin iMiddle riEnd = (Z.max riBegin s, Z.min riEnd e)) /\
    (2 * L - e <= iMiddle < 2 * L - s ->
     vAlignPositions p riBegin iMiddle riEnd =
       (Z.max riBegin (2 * L - e), Z.min riEnd (2 * L - s))).
Proof.
  intros p riBegin m riEnd k Hs Hc Hk Hm L s e.
  destruct (contig_bounds p k Hs Hc Hk) as (E1 & E2 & B1 & B2 & B3).
  fold L in B3. fold s in E1, E2, B1, B3. fold e in E2, B3.
  pose proof Hs as Hs'. unfold size_ok in Hs'. fold L in Hs'.
  assert (Hgen : 0 <= m < 2 * L ->
            s <= (if L <=? m then 2 * L - 1 - m else m) < e ->
            uiSequenceIdForPosition p (u64 m) = Z.of_nat k).
  { intros HmL Hin. rewrite u64_small by (unfold in_u64, two64; lia).
    destruct (id_both_strands p m Hs Hc HmL) as (k' & Hk' & Eid & _ & I).
    fold L in I. cbv zeta in I.
    rewrite Eid. f_equal. apply (contig_unique p _ k' k Hc Hk' Hk I). exact Hin. }
  split; intros Hin.
  - assert (HmL : 0 <= m < 2 * L) by lia.
    unfold vAlignPositions. cbv zeta.
    rewrite Hgen; [|exact HmL|].
    2:{ replace (L <=? m) with false by (symmetry; apply Z.leb_gt; lia). exact Hin. }
    rewrite E1, E2, on_reverse_strand. fold L.
    rewrite (u64_small m) by (unfold in_u64, two64; lia).
    replace (L <=? m) with false by (symmetry; apply Z.leb_gt; lia).
    cbn [negb]. rewrite !i64_small by (unfold in_i64, two63; lia).
    f_equal.
    + destruct (Z.ltb_spec riBegin s); lia.
    + destruct (Z.ltb_spec e riEnd); lia.
  - assert (HmL : 0 <= m < 2 * L) by lia.
    unfold vAlignPositions. cbv zeta.
    rewrite Hgen; [|exact HmL|].
    2:{ replace (L <=? m) with true by (symmetry; apply Z.leb_le; lia). lia. }
    rewrite E1, E2, on_reverse_strand. fold L.
    rewrite (u64_small m) by (unfold in_u64, two64; lia).
    replace (L <=? m) with true by (symmetry; apply Z.leb_le; lia).
    cbn [negb].
    rewrite !mirror_value by (try assumption; fold L; lia). fold L.
    rewrite !(u64_small (2 * L - 1 - _ + 1)) by (unfold in_u64, two64; lia).
    rewrite !i64_small by (unfold in_i64, two63; lia).
    f_equal.
    + destruct (Z.ltb_spec riBegin (2 * L - 1 - e + 1)); lia.
    + destruct (Z.ltb_spec (2 * L - 1 - s + 1) riEnd); lia.
Qed.

Lemma align_positions_witness :
  size_ok exPack /\ contigs_ok exPack /\
  vAlignPositions exPack 5 10 30 = (8, 16) /\
  vAlignPositions exPack 9 10 12 = (9, 12) /\
  vAlignPositions exPack 2 20 30 = (Z.max 2 (2 * 16 - (8 + 8)), Z.min 30 (2 * 16 - 8)).
Proof.
  split; [exact exPack_size|]. split; [exact exPack_contigs|].
  split; [reflexivity|]. split; [reflexivity|].
  assert (Hk : (1 < List.length (xVectorOfSequenceDescriptors exPack))%nat) by (cbn; lia).
  assert (Hm : 2 <= 20 < 30) by lia.
  refine (proj2 (align_positions exPack 2 20 30 1 exPack_size exPack_contigs Hk Hm) _).
  cbn. lia.
Defined.

(** ** Extraction, base by base *)

Lemma in_upto a b q : In q (upto a b) <-> a <= q < b.
Proof.
  unfold upto. rewrite in_map_iff. split.
  - intros (i & E & Hi). apply in_seq in Hi. lia.
  - intros H. exists (Z.to_nat (q - a)). split; [lia|]. apply in_seq. lia.
Qed.

Lemma seq_from n len : seq n len = map (fun i => (n + i)%nat) (seq 0 len).
Proof.
  induction n as [|n IH].
  - cbn [plus]. now rewrite map_id.
  - rewrite <- seq_shift, IH, map_map. reflexivity.
Qed.

Lemma upto_app a m b : a <= m <= b -> upto a b = upto a m ++ upto m b.
Proof.
  intros H. unfold upto.
  replace (Z.to_nat (b - a)) with (Z.to_nat (m - a) + Z.to_nat (b - m))%nat by lia.
  rewrite seq_app, map_app. f_equal. cbn [plus].
  rewrite (seq_from (Z.to_nat (m - a))), map_map.
  apply map_ext. intros i. lia.
Qed.

Lemma complement_of_base c : 0 <= c <= 3 -> nucleotideComplement c = 3 - c /\ u8 (3 - c) = 3 - c.
Proof.
  intros H. unfold nucleotideComplement, u8.
  replace (c <? 4) with true by (symmetry; apply Z.ltb_lt; lia).
  split; [reflexivity|]. apply Z.mod_small. lia.
Qed.

Lemma base_forward p q :
  size_ok p -> 0 <= q < uiUnpackedSizeForwardStrand p ->
  vExtractBase p q = getNucleotideOnPos p q.
Proof.
  intros Hs Hq. unfold size_ok in Hs. unfold vExtractBase.
  rewrite u64_small by (unfold in_u64, two64; lia).
  rewrite on_reverse_strand.
  replace (uiUnpackedSizeForwardStrand p <=? q) with false
    by (symmetry; apply Z.leb_gt; lia).
  reflexivity.
Qed.

Lemma base_reverse p q :
  size_ok p ->
  uiUnpackedSizeForwardStrand p <= q < 2 * uiUnpackedSizeForwardStrand p ->
  vExtractBase p q = 3 - getNucleotideOnPos p (2 * uiUnpackedSizeForwardStrand p - 1 - q).
Proof.
  intros Hs Hq. pose proof Hs as Hs'. unfold size_ok in Hs'. unfold vExtractBase.
  rewrite u64_small by (unfold in_u64, two64; lia).
  rewrite on_reverse_strand.
  replace (uiUnpackedSizeForwardStrand p <=? q) with true
    by (symmetry; apply Z.leb_le; lia).
  rewrite mirror_value by (try assumption; lia).
  apply complement_of_base. apply nucleotide_range.
Qed.

(** The extraction of a request inside one strand, base by base. *)
Lemma vExtractSubsection_pointwise p b e acc bAppend :
  size_ok p -> 0 <= b < e -> e <= 2 * uiUnpackedSizeForwardStrand p ->
  (e <= uiUnpackedSizeForwardStrand p \/ uiUnpackedSizeForwardStrand p <= b) ->
  vExtractSubsection p b e acc bAppend =
  Ok ((if bAppend then acc else []) ++ map (vExtractBase p) (upto b e)).
Proof.
  intros Hs Hb He Hside.
  set (L := uiUnpackedSizeForwardStrand p) in *.
  destruct (extraction_checks p b e Hs Hb He) as (C1 & C2 & C3 & C4 & C5).
  fold L in C3, C4.
  pose proof Hs as Hs'. unfold size_ok in Hs'. fold L in Hs'.
  unfold vExtractSubsection. cbv zeta.
  rewrite C1, C2, C3, C4, C5. cbn [negb].
  destruct Hside as [Hf | Hr].
  - replace (L <=? b) with false by (symmetry; apply Z.leb_gt; lia).
    replace (L <=? e - 1) with false by (symmetry; apply Z.leb_gt; lia).
    cbn [Bool.eqb negb]. f_equal. f_equal.
    apply map_ext_in. intros q Hq. apply in_upto in Hq.
    rewrite u64_small by (unfold in_u64, two64; lia).
    symmetry. apply base_forward; [exact Hs | fold L; lia].
  - replace (L <=? b) with true by (symmetry; apply Z.leb_le; lia).
    replace (L <=? e - 1) with true by (symmetry; apply Z.leb_le; lia).
    cbn [Bool.eqb negb]. f_equal. f_equal.
    rewrite (u64_small b), (u64_small e) by (unfold in_u64, two64; lia).
    rewrite (absolute_position p b Hs) by (fold L; lia). fold L.
    replace (L <=? b) with true by (symmetry; apply Z.leb_le; lia).
    assert (Ea : iAbsolutePosition p e = 2 * L - 1 - e).
    { destruct (Z.eq_dec e (2 * L)) as [-> | Hne].
      - destruct (both_strands_size p Hs) as [E _]. fold L in E.
        unfold iAbsolutePosition. rewrite on_reverse_strand. fold L. rewrite E.
        replace (L <=? 2 * L) with true by (symmetry; apply Z.leb_le; lia).
        rewrite u64_sub_r, i64_of_u64.
        replace (2 * L - (2 * L + 1)) with (2 * L - 1 - 2 * L) by lia.
        apply i64_small. unfold in_i64, two63. lia.
      - rewrite (absolute_position p e Hs) by (fold L; lia). fold L.
        replace (L <=? e) with true by (symmetry; apply Z.leb_le; lia). reflexivity. }
    rewrite Ea. unfold downto, upto. rewrite !map_map.
    replace (2 * L - 1 - b - (2 * L - 1 - e)) with (e - b) by lia.
    apply map_ext_in. intros i Hi. apply in_seq in Hi.
    rewrite u64_small by (unfold in_u64, two64; lia).
    rewrite base_reverse by (try assumption; fold L; lia). fold L.
    replace (2 * L - 1 - (b + Z.of_nat i)) with (2 * L - 1 - b - Z.of_nat i) by lia.
    apply complement_of_base. apply nucleotide_range.
Qed.

(** X11. The extraction of a request [b, e) inside one strand returns, at
    each index [i], the base that the extraction of the single position
    [b + i] returns: the stored base on the forward strand, the complement of
    the base at the image of the position on the reverse strand. *)
Theorem extract_pointwise :
  forall (p : Pack) (b e : Z),
    size_ok p -> 0 <= b < e -> e <= 2 * uiUnpackedSizeForwardStrand p ->
    (e <= uiUnpackedSizeForwardStrand p \/ uiUnpackedSizeForwardStrand p <= b) ->
    vExtract p b e = Ok (map (vExtractBase p) (upto b e)) /\
    (forall q, b <= q < e ->
       0 <= vExtractBase p q <= 3 /\
       vExtractBase p q =
         if uiUnpackedSizeForwardStrand p <=? q
         then 3 - getNucleotideOnPos p (2 * uiUnpackedSizeForwardStrand p - 1 - q)
         else getNucleotideOnPos p q).
Proof.
  intros p b e Hs Hb He Hside. split.
  - unfold vExtract. apply (vExtractSubsection_pointwise p b e [] false Hs Hb He Hside).
  - intros q Hq. destruct (Z.leb_spec (uiUnpackedSizeForwardStrand p) q) as [Hr | Hf].
    + rewrite base_reverse by (try assumption; lia).
      pose proof (nucleotide_range p (2 * uiUnpackedSizeForwardStrand p - 1 - q)).
      split; [lia | reflexivity].
    + rewrite base_forward by (try assumption; lia).
      split; [apply nucleotide_range | reflexivity].
Qed.

Lemma extract_pointwise_witness :
  size_ok exPack /\
  vExtract exPack 16 20 = Ok (map (vExtractBase exPack) (upto 16 20)) /\
  vExtract exPack 16 20 = Ok [3; 3; 2; 2].
Proof.
  split; [exact exPack_size|].
  split; [|reflexivity].
  refine (proj1 (extract_pointwise exPack 16 20 exPack_size _ _ _)); cbn; lia.
Defined.

(** X12. Extractions compose: for [b < m < e] inside one strand, extracting
    [b, m) and then [m, e) in append mode gives the extraction of [b, e).
    Without the append mode, what the receiver held is dropped. *)
Theorem extract_concatenation :
  forall (p : Pack) (b m e : Z) (old : list Z),
    size_ok p -> 0 <= b < m -> m < e -> e <= 2 * uiUnpackedSizeForwardStrand p ->
    (e <= uiUnpackedSizeForwardStrand p \/ uiUnpackedSizeForwardStrand p <= b) ->
    exists l1 l2,
      vExtractSubsection p b m old false = Ok l1 /\
      vExtractSubsection p m e l1 true = Ok (l1 ++ l2) /\
      vExtract p m e = Ok l2 /\
      vExtract p b e = Ok (l1 ++ l2).
Proof.
  intros p b m e old Hs Hb Hm He Hside.
  exists (map (vExtractBase p) (upto b m)), (map (vExtractBase p) (upto m e)).
  unfold vExtract.
  rewrite !vExtractSubsection_pointwise by (try assumption; lia).
  cbn [app]. rewrite (upto_app b m e), map_app by lia. repeat split.
Qed.

Lemma extract_concatenation_witness :
  size_ok exPack /\
  exists l1 l2,
    vExtractSubsection exPack 2 5 [9; 9] false = Ok l1 /\
    vExtractSubsection exPack 5 11 l1 true = Ok (l1 ++ l2) /\
    vExtract exPack 5 11 = Ok l2 /\
    vExtract exPack 2 11 = Ok (l1 ++ l2).
Proof.
  split; [exact exPack_size|].
  refine (extract_concatenation exPack 2 5 11 [9; 9] exPack_size _ _ _ _);
    cbn; lia.
Defined.

(** X13. The whole collection as one sequence: for a pack that is not empty,
    [vColletionWithoutReverseStrandAsNucSeq] returns the [L] bases of the
    forward strand, and [vColletionAsNucSeq] returns them followed by their
    reverse complement, [2L] bases together. *)
Theorem collection_as_sequence :
  forall (p : Pack),
    size_ok p -> 0 < uiUnpackedSizeForwardStrand p ->
    let forward := map (getNucleotideOnPos p) (upto 0 (uiUnpackedSizeForwardStrand p)) in
    vColletionWithoutReverseStrandAsNucSeq p = Ok forward /\
    vColletionAsNucSeq p = Ok (forward ++ reverseComplement forward) /\
    Z.of_nat (List.length forward) = uiUnpackedSizeForwardStrand p /\
    Z.of_nat (List.length (forward ++ reverseComplement forward)) =
      2 * uiUnpackedSizeForwardStrand p.
Proof.
  intros p Hs HL forward.
  set (L := uiUnpackedSizeForwardStrand p) in *.
  pose proof Hs as Hs'. unfold size_ok in Hs'. fold L in Hs'.
  assert (Ei : i64 (uiStartOfReverseStrand p) = L).
  { unfold uiStartOfReverseStrand. apply i64_small. unfold in_i64, two63. fold L. lia. }
  destruct (both_strands_size p Hs) as [_ E2]. fold L in E2.
  assert (Ef : vExtractSubsection p 0 L [] false = Ok forward).
  { rewrite vExtractSubsection_pointwise by (try assumption; fold L; lia).
    cbn [app]. f_equal. apply map_ext_in. intros q Hq. apply in_upto in Hq.
    apply base_forward; [exact Hs | fold L; lia]. }
  assert (Er : map (vExtractBase p) (upto L (2 * L)) = reverseComplement forward).
  { unfold reverseComplement, forward. rewrite map_map, <- map_rev.
    unfold upto at 2. rewrite rev_upto. unfold upto. rewrite !map_map.
    replace (2 * L - L) with (L - 0) by lia.
    apply map_ext_in. intros i Hi. apply in_seq in Hi.
    rewrite base_reverse by (try assumption; fold L; lia). fold L.
    rewrite Z2Nat.id by lia. f_equal. f_equal. lia. }
  assert (Hlen : Z.of_nat (List.length forward) = L).
  { unfold forward. rewrite length_map, upto_length; lia. }
  split; [|split; [|split]].
  - unfold vColletionWithoutReverseStrandAsNucSeq. fold L.
    replace (L =? 0) with false by (symmetry; apply Z.eqb_neq; lia).
    rewrite Ei. exact Ef.
  - unfold vColletionAsNucSeq. rewrite Ei, Ef, E2.
    rewrite vExtractSubsection_pointwise by (try assumption; fold L; lia).
    rewrite Er. reflexivity.
  - exact Hlen.
  - rewrite length_app. unfold reverseComplement.
    rewrite length_rev, length_map. lia.
Qed.

Lemma collection_as_sequence_witness :
  size_ok exPack /\
  vColletionWithoutReverseStrandAsNucSeq exPack =
    Ok [0; 1; 2; 3; 0; 1; 2; 3; 2; 2; 2; 2; 1; 1; 0; 0] /\
  vColletionAsNucSeq exPack =
    Ok (map (getNucleotideOnPos exPack) (upto 0 16) ++
        reverseComplement (map (getNucleotideOnPos exPack) (upto 0 16))).
Proof.
  split; [exact exPack_size|]. split; [reflexivity|].
  assert (HL : 0 < uiUnpackedSizeForwardStrand exPack) by (cbn; lia).
  exact (proj1 (proj2 (collection_as_sequence exPack exPack_size HL))).
Defined.

End PackQueries.

(* ===================================================================== *)
(** * Building a pack and reading it back (fileReader.h) *)
(* ===================================================================== *)

Module PackBuild.
Import MachineInt PackStore PackFiles PackQueries.

(** The invariant of the holes: they follow each other in the order of their
    offsets, without overlap, each at least one base long, from [from] on and
    inside the first [total] bases. *)
Fixpoint holesChain (from : Z) (holes : list HoleDescriptor) (total : Z) : Prop :=
  match holes with
  | [] => from <= total
  | h :: t => from <= offset h /\ 0 < PackStore.length h /\
              holesChain (offset h + PackStore.length h) t total
  end.

Definition holes_ok (p : Pack) : Prop :=
  holesChain 0 (xVectorOfHoleDescriptors p) (uiUnpackedSizeForwardStrand p).

(** The expression of [getNucleotideOnPos] on a vector of bytes. *)
Definition packedBase (bytes : list Z) (uiPosition : Z) : Z :=
  Z.land
    (Z.shiftr (nth (Z.to_nat (Z.shiftr uiPosition 2)) bytes 0)
              (Z.shiftl (Z.land (Z.lnot uiPosition) 3) 1))
    3.

(** The two bits of a byte that hold the base with the index [j] of the four
    bases of the byte. *)
Definition slot (b j : Z) : Z := Z.land (Z.shiftr b (Z.shiftl (3 - j) 1)) 3.

(** The bases behind the last one are stored as 0. *)
Definition blank (bytes : list Z) (uiSize : Z) : Prop :=
  forall q, uiSize <= q -> packedBase bytes q = 0.

(** The code that is stored for a symbol: the symbol itself for a base, two
    bits of a random number for every other symbol. *)
Definition storedCode (rand : nat -> Z) (calls : nat) (uiSymbolCode : Z) : Z :=
  if 4 <=? uiSymbolCode then Z.land (rand calls) 3 else uiSymbolCode.

(** The symbol as the extraction with N returns it. *)
Definition withN (uiSymbolCode : Z) : Z := if 4 <=? uiSymbolCode then 4 else uiSymbolCode.

(** [vExtractUntil( iPos )]: from the start of the contig of [iPos] up to
    [iPos]; the sequence and the value that is returned. *)
Definition vExtractUntil (p : Pack) (iPos : Z) (rxSequence : list Z) (bAppend : bool)
  : result (list Z) * Z :=
  (vExtractSubsectionN p
     (i64 (startOfSequenceWithIdOrReverse p (uiSequenceIdForPositionOrRev p (u64 iPos))))
     iPos rxSequence bAppend,
   startOfSequenceWithIdOrReverse p (uiSequenceIdForPositionOrRev p (u64 iPos))).

(** [vExtractFrom( iPos )]: from [iPos] up to the end of its contig. *)
Definition vExtractFrom (p : Pack) (iPos : Z) (rxSequence : list Z) (bAppend : bool)
  : result (list Z) * Z :=
  (vExtractSubsectionN p iPos
     (i64 (endOfSequenceWithIdOrReverse p (uiSequenceIdForPositionOrRev p (u64 iPos))))
     rxSequence bAppend,
   endOfSequenceWithIdOrReverse p (uiSequenceIdForPositionOrRev p (u64 iPos))).

Definition vExtractContext (p : Pack) (iPos : Z) (rxSequence : list Z)
           (bAppend bForwardContext : bool) : result (list Z) * Z :=
  if bForwardContext then vExtractFrom p iPos rxSequence bAppend
  else vExtractUntil p iPos rxSequence bAppend.

(** [vColletionWithoutReverseStrandAsNucSeqWithN]. *)
Definition vColletionWithoutReverseStrandAsNucSeqWithN (p : Pack) : result (list Z) :=
  vExtractSubsectionN p 0 (i64 (uiStartOfReverseStrand p)) [] false.

(** The end of the last hole, and [from] without a hole. *)
Fixpoint holesEnd (from : Z) (holes : list HoleDescriptor) : Z :=
  match holes with
  | [] => from
  | h :: t => holesEnd (offset h + PackStore.length h) t
  end.

(** [xVectorOfHoleDescriptors.back( ).length += 1]. *)
Definition growHole (h : HoleDescriptor) : HoleDescriptor :=
  mkHoleDescriptor (offset h) (i32 (PackStore.length h + 1)) (xHoleCharacter h).

(** What the loop of [vAppendSequence] keeps of the holes: they are in
    order, the offset of the loop is the size of the pack, and after a symbol
    that is no base the last hole ends at the size of the pack. *)
Definition holes_state_ok (st : AppendState) : Prop :=
  holesChain 0 (asHoles st) (asSize st) /\
  asOffset st = asSize st /\
  (4 <= asPrevious st -> asHoles st <> [] /\ holesEnd 0 (asHoles st) = asSize st).

(** The variables of the loop of [vAppendSequence] before the first symbol,
    for a pack whose last contig ends at the size of the pack. *)
Definition startState (p : Pack) (calls : nat) : AppendState :=
  mkAppendState (xVectorOfHoleDescriptors p) (xPackedNucSeqs p)
                (uiUnpackedSizeForwardStrand p) (uiUnpackedSizeForwardStrand p) 0 0 calls.

(** The comment of a descriptor: "none" for an empty comment. *)
Definition commentOrNone (rsComment : string) : string :=
  match rsComment with EmptyString => "none"%string | _ => rsComment end.

(** The holes in the order of the reverse iterator: each hole ends at or
    before [upper], the next one ends at or before its offset, and the last
    one starts at or behind [lower]. *)
Fixpoint holesChainRev (upper : Z) (holes : list HoleDescriptor) (lower : Z) : Prop :=
  match holes with
  | [] => lower <= upper
  | h :: t => offset h + PackStore.length h <= upper /\ 0 < PackStore.length h /\
              holesChainRev (offset h) t lower
  end.

(** The symbol of a position of either strand with the holes restored: 4 (N)
    when the position, or its image on the forward strand, lies in a hole,
    and the base of [vExtract( uiPosition )] elsewhere. *)
Definition symbolWithN (p : Pack) (q : Z) : Z :=
  if isHole p (if uiUnpackedSizeForwardStrand p <=? q
               then 2 * uiUnpackedSizeForwardStrand p - 1 - q else q)
  then 4 else vExtractBase p q.

(** The numbers [0, 1, ..., n - 1]. *)
Definition below (n : nat) : list Z := map Z.of_nat (seq 0 n).

(** A byte with one base in its first two bits: the base is read at the index
    0, and 0 at the other indices. *)
Definition first_base_check : bool :=
  forallb (fun c => forallb (fun j =>
    slot (u8 (Z.shiftl c 6)) j =? (if j =? 0 then c else 0)) (below 4)) (below 4).

(** A base that is joined to a byte by [|=] at the index [k] is joined to the
    two bits of that index, and the other bases of the byte stay. *)
Definition joined_base_check : bool :=
  forallb (fun b => forallb (fun c => forallb (fun k => forallb (fun j =>
    slot (u8 (Z.lor b (Z.shiftl c (Z.shiftl (3 - k) 1)))) j =?
    (if j =? k then Z.lor (slot b k) c else slot b j))
    (below 4)) (below 4)) (below 4)) (below 256).

(** ** The bits of a byte *)

Lemma in_below n x : 0 <= x < Z.of_nat n -> In x (below n).
Proof.
  intros H. unfold below. apply in_map_iff. exists (Z.to_nat x).
  split; [lia|]. apply in_seq. lia.
Qed.

Lemma first_base c j :
  0 <= c < 4 -> 0 <= j < 4 -> slot (u8 (Z.shiftl c 6)) j = if j =? 0 then c else 0.
Proof.
  intros Hc Hj.
  assert (H : first_base_check = true) by (vm_compute; reflexivity).
  unfold first_base_check in H.
  rewrite forallb_forall in H. specialize (H c (in_below 4 c Hc)).
  rewrite forallb_forall in H. specialize (H j (in_below 4 j Hj)).
  apply Z.eqb_eq in H. exact H.
Qed.

Lemma joined_base b c k j :
  0 <= b < 256 -> 0 <= c < 4 -> 0 <= k < 4 -> 0 <= j < 4 ->
  slot (u8 (Z.lor b (Z.shiftl c (Z.shiftl (3 - k) 1)))) j =
  if j =? k then Z.lor (slot b k) c else slot b j.
Proof.
  intros Hb Hc Hk Hj.
  assert (H : joined_base_check = true) by (vm_compute; reflexivity).
  unfold joined_base_check in H.
  rewrite forallb_forall in H. specialize (H b (in_below 256 b Hb)).
  rewrite forallb_forall in H. specialize (H c (in_below 4 c Hc)).
  rewrite forallb_forall in H. specialize (H k (in_below 4 k Hk)).
  rewrite forallb_forall in H. specialize (H j (in_below 4 j Hj)).
  apply Z.eqb_eq in H. exact H.
Qed.

Lemma lnot_land3 q : Z.land (Z.lnot q) 3 = 3 - q mod 4.
Proof.
  rewrite land3. unfold Z.lnot.
  pose proof (Z.div_mod q 4 ltac:(lia)). pose proof (Z.mod_pos_bound q 4 ltac:(lia)).
  replace (Z.pred (- q)) with (3 - q mod 4 + (- (q / 4) - 1) * 4) by lia.
  rewrite Z.mod_add by lia. apply Z.mod_small. lia.
Qed.

Lemma packedBase_slot bytes q :
  packedBase bytes q = slot (nth (Z.to_nat (q / 4)) bytes 0) (q mod 4).
Proof.
  unfold packedBase, slot. rewrite lnot_land3, (Z.shiftr_div_pow2 q 2) by lia.
  reflexivity.
Qed.

Lemma base_is_packedBase p q : getNucleotideOnPos p q = packedBase (xPackedNucSeqs p) q.
Proof. reflexivity. Qed.

Lemma slot_zero j : slot 0 j = 0.
Proof. unfold slot. rewrite Z.shiftr_0_l. reflexivity. Qed.

Lemma nth_updateBack {A : Type} (f : A -> A) (d : A) (l : list A) : forall i,
  l <> [] ->
  nth i (updateBack f l) d =
  if (i =? List.length l - 1)%nat then f (nth i l d) else nth i l d.
Proof.
  induction l as [|x t IH]; intros i Hne; [congruence|].
  destruct t as [|y t'].
  - cbn [updateBack List.length]. destruct i as [|i]; [reflexivity|].
    cbn [nth Nat.sub Nat.eqb]. destruct i; reflexivity.
  - change (updateBack f (x :: y :: t')) with (x :: updateBack f (y :: t')).
    destruct i as [|i].
    + cbn [nth List.length Nat.sub Nat.eqb]. reflexivity.
    + cbn [nth]. rewrite IH by congruence. cbn [List.length Nat.sub Nat.eqb].
      rewrite Nat.sub_0_r. reflexivity.
Qed.

(** ** The bases that [vAppendSequence] stores *)

Lemma storedCode_range rand calls c : 0 <= c -> 0 <= storedCode rand calls c < 4.
Proof.
  intros H. unfold storedCode. destruct (Z.leb_spec 4 c); [|lia].
  rewrite land3. apply Z.mod_pos_bound. lia.
Qed.

Lemma bytesFor_value uiSize :
  0 <= uiSize -> bytesFor uiSize = uiSize / 4 + (if uiSize mod 4 =? 0 then 0 else 1).
Proof.
  intros H. unfold bytesFor. rewrite land3, Z.shiftr_div_pow2 by lia. reflexivity.
Qed.

(** One round of the loop stores the code of the symbol at the position
    [uiUnpackedSizeForwardStrand], and leaves the other positions as they
    are. *)
Lemma appendSymbol_base rand st c q :
  state_ok st -> blank (asPacked st) (asSize st) -> 0 <= c -> 0 <= q ->
  packedBase (asPacked (appendSymbol rand st c)) q =
  if q =? asSize st then storedCode rand (asRandCalls st) c
  else packedBase (asPacked st) q.
Proof.
  intros (HL & Hb & Hlen & _) Hblank Hc Hq.
  pose proof (storedCode_range rand (asRandCalls st) c Hc) as Hcode.
  set (L := asSize st) in *. set (bytes := asPacked st) in *.
  rewrite bytesFor_value in Hlen by lia.
  pose proof (Z.div_mod L 4 ltac:(lia)) as HdL.
  pose proof (Z.mod_pos_bound L 4 ltac:(lia)) as HmL.
  pose proof (Z.div_mod q 4 ltac:(lia)) as Hdq.
  pose proof (Z.mod_pos_bound q 4 ltac:(lia)) as Hmq.
  assert (HqL : 0 <= L / 4) by (apply Z.div_pos; lia).
  assert (Hqq : 0 <= q / 4) by (apply Z.div_pos; lia).
  assert (Ebytes : asPacked (appendSymbol rand st c) =
            if L mod 4 =? 0
            then bytes ++ [u8 (Z.shiftl (storedCode rand (asRandCalls st) c) 6)]
            else updateBack
                   (fun b => u8 (Z.lor b (Z.shiftl (storedCode rand (asRandCalls st) c)
                                                   (Z.shiftl (3 - L mod 4) 1))))
                   bytes).
  { unfold appendSymbol. cbv zeta. cbn [asPacked]. fold L. fold bytes.
    rewrite shift_is_six, lnot_land3. unfold storedCode.
    destruct (Z.eqb_spec (L mod 4) 0) as [E | E]; [rewrite E|]; reflexivity. }
  rewrite Ebytes. remember (packedBase bytes q) as old eqn:Eold.
  rewrite packedBase_slot.
  destruct (Z.eqb_spec (L mod 4) 0) as [E0 | E0].
  - destruct (Z.lt_trichotomy (q / 4) (L / 4)) as [Hlt | [Heq | Hgt]].
    + rewrite app_nth1 by lia.
      replace (q =? L) with false by (symmetry; apply Z.eqb_neq; lia).
      rewrite Eold. symmetry. apply packedBase_slot.
    + replace (Z.to_nat (q / 4)) with (List.length bytes) by lia.
      rewrite nth_middle. rewrite first_base by lia.
      destruct (Z.eqb_spec q L) as [-> | Hne].
      * rewrite E0. reflexivity.
      * replace (q mod 4 =? 0) with false by (symmetry; apply Z.eqb_neq; lia).
        rewrite Eold. symmetry. apply Hblank. lia.
    + rewrite nth_overflow by (rewrite length_app; cbn [List.length]; lia).
      rewrite slot_zero.
      replace (q =? L) with false by (symmetry; apply Z.eqb_neq; lia).
      rewrite Eold. symmetry. apply Hblank. lia.
  - assert (Hne : bytes <> []).
    { intros H. rewrite H in Hlen. cbn [List.length] in Hlen.
      destruct (L mod 4 =? 0); lia. }
    replace (L mod 4 =? 0) with false in Hlen by (symmetry; apply Z.eqb_neq; lia).
    rewrite nth_updateBack by exact Hne.
    destruct (Nat.eqb_spec (Z.to_nat (q / 4)) (List.length bytes - 1)) as [Ei | Ei].
    + assert (Eq4 : q / 4 = L / 4) by lia.
      assert (Hbyte : 0 <= nth (Z.to_nat (q / 4)) bytes 0 < 256).
      { rewrite Forall_forall in Hb. apply Hb. apply nth_In. lia. }
      rewrite joined_base by lia.
      destruct (Z.eqb_spec q L) as [-> | HneL].
      * rewrite Z.eqb_refl. rewrite <- packedBase_slot.
        rewrite (Hblank L) by lia. reflexivity.
      * replace (q mod 4 =? L mod 4) with false by (symmetry; apply Z.eqb_neq; lia).
        rewrite Eold. symmetry. apply packedBase_slot.
    + replace (q =? L) with false by (symmetry; apply Z.eqb_neq; lia).
      rewrite Eold. symmetry. apply packedBase_slot.
Qed.

Lemma appendSymbol_blank rand st c :
  state_ok st -> blank (asPacked st) (asSize st) -> 0 <= c -> asSize st + 1 < two64 ->
  blank (asPacked (appendSymbol rand st c)) (asSize (appendSymbol rand st c)).
Proof.
  intros Hst Hblank Hc Hfit q Hq.
  destruct (appendSymbol_ok rand st c Hst Hfit) as [_ ES]. rewrite ES in Hq.
  destruct Hst as (HL & Hrest).
  rewrite appendSymbol_base; try assumption; try lia; [|exact (conj HL Hrest)].
  replace (q =? asSize st) with false by (symmetry; apply Z.eqb_neq; lia).
  apply Hblank. lia.
Qed.

(** The codes that the loop stores for a sequence, the calls of [rand( )]
    counted from [calls] on. *)
Lemma appendSymbols_bases rand rxSequence : forall st,
  state_ok st -> blank (asPacked st) (asSize st) ->
  Forall (fun c => 0 <= c < 256) rxSequence ->
  asSize st + Z.of_nat (List.length rxSequence) < two64 ->
  let st' := fold_left (appendSymbol rand) rxSequence st in
  blank (asPacked st') (asSize st') /\
  (forall q, 0 <= q < asSize st -> packedBase (asPacked st') q = packedBase (asPacked st) q) /\
  (forall i, (i < List.length rxSequence)%nat ->
     0 <= packedBase (asPacked st') (asSize st + Z.of_nat i) <= 3 /\
     (nth i rxSequence 0 < 4 ->
      packedBase (asPacked st') (asSize st + Z.of_nat i) = nth i rxSequence 0)).
Proof.
  induction rxSequence as [|c t IH]; intros st Hst Hblank Hsym Hfit; cbv zeta.
  - cbn [fold_left List.length]. split; [exact Hblank|]. split; [reflexivity|].
    intros i Hi. lia.
  - cbn [fold_left]. cbn [List.length] in Hfit |- *.
    inversion Hsym as [|? ? Hc Ht]; subst.
    destruct (appendSymbol_ok rand st c Hst) as [Hst' ES]; [lia|].
    pose proof (appendSymbol_blank rand st c Hst Hblank ltac:(lia) ltac:(lia)) as Hblank'.
    destruct (IH (appendSymbol rand st c) Hst' Hblank' Ht) as (A & B & C); [lia|].
    cbv zeta in A, B, C. rewrite ES in B, C.
    pose proof Hst as (HL & _).
    split; [exact A|]. split.
    + intros q Hq. rewrite B by lia.
      rewrite appendSymbol_base; try assumption; try lia.
      replace (q =? asSize st) with false by (symmetry; apply Z.eqb_neq; lia).
      reflexivity.
    + intros i Hi. destruct i as [|i].
      * rewrite Z.add_0_r. cbn [nth]. rewrite B by lia.
        rewrite appendSymbol_base; try assumption; try lia.
        rewrite Z.eqb_refl.
        pose proof (storedCode_range rand (asRandCalls st) c ltac:(lia)).
        split; [lia|]. intros H4. unfold storedCode.
        replace (4 <=? c) with false by (symmetry; apply Z.leb_gt; lia). reflexivity.
      * cbn [nth]. specialize (C i ltac:(lia)).
        replace (asSize st + Z.of_nat (S i)) with (asSize st + 1 + Z.of_nat i) by lia.
        exact C.
Qed.

(** ** The holes that [vAppendSequence] records *)

Lemma holesChain_end f l : forall t, holesChain f l t -> f <= holesEnd f l <= t.
Proof.
  revert f. induction l as [|h r IH]; intros f t H; cbn [holesChain holesEnd] in *.
  - lia.
  - destruct H as (A & B & C). specialize (IH _ _ C). lia.
Qed.

Lemma holesChain_weaken f l : forall t t', holesChain f l t -> t <= t' -> holesChain f l t'.
Proof.
  revert f. induction l as [|h r IH]; intros f t t' H Ht; cbn [holesChain] in *.
  - lia.
  - destruct H as (A & B & C). split; [exact A|]. split; [exact B|].
    exact (IH _ _ _ C Ht).
Qed.

Lemma holesChain_app f l h : forall t,
  holesChain f l t -> t <= offset h -> 0 < PackStore.length h ->
  holesChain f (l ++ [h]) (offset h + PackStore.length h) /\
  holesEnd f (l ++ [h]) = offset h + PackStore.length h.
Proof.
  revert f. induction l as [|x r IH]; intros f t H Ht Hlen; cbn [holesChain holesEnd app] in *.
  - split; [|reflexivity]. split; [lia|]. split; [exact Hlen | lia].
  - destruct H as (A & B & C). destruct (IH _ _ C Ht Hlen) as [D E].
    split; [|exact E]. split; [exact A|]. split; [exact B | exact D].
Qed.

Lemma isHoleIn_app l h q :
  isHoleIn (l ++ [h]) q =
  isHoleIn l q || ((offset h <=? q) && (q <? u64 (offset h + PackStore.length h))).
Proof.
  induction l as [|x r IH]; cbn [isHoleIn app].
  - destruct ((offset h <=? q) && (q <? u64 (offset h + PackStore.length h))); reflexivity.
  - rewrite IH.
    destruct ((offset x <=? q) && (q <? u64 (offset x + PackStore.length x))); reflexivity.
Qed.

Lemma isHoleIn_outside l q : forall f t,
  0 <= f -> holesChain f l t -> t < two64 -> q < f \/ t <= q -> isHoleIn l q = false.
Proof.
  induction l as [|h r IH]; intros f t Hf H Ht Hq; cbn [isHoleIn holesChain] in *;
    [reflexivity|].
  destruct H as (A & B & C). pose proof (holesChain_end _ _ _ C) as Hend.
  rewrite u64_small by (unfold in_u64; lia).
  rewrite (IH (offset h + PackStore.length h) t ltac:(lia) C Ht) by lia.
  destruct (Z.leb_spec (offset h) q); destruct (Z.ltb_spec q (offset h + PackStore.length h));
    try reflexivity; lia.
Qed.

Lemma growHole_last l : forall f t,
  l <> [] -> 0 <= f -> holesChain f l t -> holesEnd f l = t -> t + 1 < 2 ^ 31 ->
  holesChain f (updateBack growHole l) (t + 1) /\
  holesEnd f (updateBack growHole l) = t + 1 /\
  updateBack growHole l <> [] /\
  forall q, isHoleIn (updateBack growHole l) q = isHoleIn l q || (q =? t).
Proof.
  induction l as [|x r IH]; intros f t Hne Hf H He Ht; [congruence|].
  destruct r as [|y r'].
  - cbn [updateBack holesChain holesEnd isHoleIn growHole offset PackStore.length] in *.
    destruct H as (A & B & C).
    assert (Ei : i32 (PackStore.length x + 1) = PackStore.length x + 1)
      by (apply i32_small; lia).
    rewrite Ei. split; [lia|]. split; [lia|]. split; [congruence|].
    intros q. rewrite !u64_small by (unfold in_u64, two64; lia).
    destruct (Z.leb_spec (offset x) q);
      destruct (Z.ltb_spec q (offset x + (PackStore.length x + 1)));
      destruct (Z.ltb_spec q (offset x + PackStore.length x));
      destruct (Z.eqb_spec q t); try reflexivity; lia.
  - change (updateBack growHole (x :: y :: r')) with (x :: updateBack growHole (y :: r')).
    cbn [holesChain holesEnd isHoleIn] in *.
    destruct H as (A & B & C).
    destruct (IH (offset x + PackStore.length x) t ltac:(congruence) ltac:(lia) C He Ht)
      as (D1 & D2 & D3 & D4).
    split; [split; [exact A|]; split; [exact B | exact D1]|].
    split; [exact D2|]. split; [congruence|].
    intros q. rewrite D4.
    destruct ((offset x <=? q) && (q <? u64 (offset x + PackStore.length x)));
      reflexivity.
Qed.

(** One round of the loop records the symbol that is no base in a hole, and
    leaves the other positions as they are. *)
Lemma appendSymbol_hole rand st c :
  holes_state_ok st -> 0 <= asSize st -> asSize st + 1 < 2 ^ 31 ->
  holes_state_ok (appendSymbol rand st c) /\
  forall q, isHoleIn (asHoles (appendSymbol rand st c)) q =
            if q =? asSize st then 4 <=? c else isHoleIn (asHoles st) q.
Proof.
  intros (Hch & Hoff & Hprev) HL Hfit.
  assert (ES : u64 (asSize st + 1) = asSize st + 1)
    by (apply u64_small; unfold in_u64, two64; lia).
  assert (Hout : isHoleIn (asHoles st) (asSize st) = false).
  { apply (isHoleIn_outside _ _ 0 (asSize st)); try assumption; try lia.
    unfold two64. lia. }
  unfold holes_state_ok, appendSymbol. cbv zeta.
  cbn [asHoles asSize asOffset asPrevious]. rewrite Hoff, ES.
  destruct (Z.leb_spec 4 c) as [H4 | H4].
  - destruct (Z.eqb_spec (asPrevious st) c) as [Esame | Ediff].
    + destruct (Hprev ltac:(lia)) as [Hne Hend].
      destruct (growHole_last (asHoles st) 0 (asSize st) Hne ltac:(lia) Hch Hend Hfit)
        as (D1 & D2 & D3 & D4).
      fold growHole.
      split; [split; [exact D1|]; split; [reflexivity|]; intros _; split; assumption|].
      intros q. rewrite D4. destruct (Z.eqb_spec q (asSize st)) as [-> | Hq].
      * rewrite Hout. reflexivity.
      * apply orb_false_r.
    + destruct (holesChain_app 0 (asHoles st) (HoleDescriptor_ (asSize st) "N"%char)
                               (asSize st) Hch) as [D1 D2];
        [cbn; lia | cbn; lia |].
      cbn [HoleDescriptor_ offset PackStore.length] in D1, D2.
      split.
      { split; [exact D1|]. split; [reflexivity|]. intros _. split; [|exact D2].
        destruct (asHoles st); discriminate. }
      intros q. rewrite isHoleIn_app. cbn [HoleDescriptor_ offset PackStore.length].
      rewrite ES. destruct (Z.eqb_spec q (asSize st)) as [-> | Hq].
      * rewrite Hout, Z.leb_refl. cbn [orb andb]. apply Z.ltb_lt. lia.
      * destruct (Z.leb_spec (asSize st) q); destruct (Z.ltb_spec q (asSize st + 1));
          cbn [andb]; try apply orb_false_r; lia.
  - split.
    + split; [apply (holesChain_weaken _ _ (asSize st)); [exact Hch | lia]|].
      split; [reflexivity|]. intros H. lia.
    + intros q. destruct (Z.eqb_spec q (asSize st)) as [-> | Hq]; [exact Hout | reflexivity].
Qed.

Lemma appendSymbols_holes rand rxSequence : forall st,
  state_ok st -> holes_state_ok st ->
  asSize st + Z.of_nat (List.length rxSequence) < 2 ^ 31 ->
  let st' := fold_left (appendSymbol rand) rxSequence st in
  holes_state_ok st' /\
  (forall q, q < asSize st -> isHoleIn (asHoles st') q = isHoleIn (asHoles st) q) /\
  (forall i, (i < List.length rxSequence)%nat ->
     isHoleIn (asHoles st') (asSize st + Z.of_nat i) = (4 <=? nth i rxSequence 0)).
Proof.
  induction rxSequence as [|c t IH]; intros st Hst Hh Hfit; cbv zeta.
  - cbn [fold_left List.length]. split; [exact Hh|]. split; [reflexivity|].
    intros i Hi. lia.
  - cbn [fold_left]. cbn [List.length] in Hfit |- *.
    pose proof Hst as (HL & _).
    destruct (appendSymbol_ok rand st c Hst) as [Hst' ES]; [unfold two64; lia|].
    destruct (appendSymbol_hole rand st c Hh ltac:(lia) ltac:(lia)) as [Hh' Hq'].
    destruct (IH (appendSymbol rand st c) Hst' Hh') as (A & B & C); [lia|].
    cbv zeta in A, B, C. rewrite ES in B, C.
    split; [exact A|]. split.
    + intros q Hq. rewrite B by lia. rewrite Hq'.
      replace (q =? asSize st) with false by (symmetry; apply Z.eqb_neq; lia).
      reflexivity.
    + intros i Hi. destruct i as [|i].
      * rewrite Z.add_0_r. cbn [nth]. rewrite B by lia. rewrite Hq', Z.eqb_refl.
        reflexivity.
      * cbn [nth]. specialize (C i ltac:(lia)).
        replace (asSize st + Z.of_nat (S i)) with (asSize st + 1 + Z.of_nat i) by lia.
        exact C.
Qed.

(** ** The pack after [vAppendSequence] *)

Lemma contigsChain_last l : forall f t,
  contigsChain f l t ->
  match l with
  | [] => f
  | _ :: _ => uiStartOffsetUnpacked (last l noDescriptor) +
              uiLengthUnpacked (last l noDescriptor)
  end = t.
Proof.
  induction l as [|d r IH]; intros f t H; cbn [contigsChain] in H; [exact H|].
  destruct H as (A & B & C). specialize (IH _ _ C).
  destruct r as [|d' r']; [cbn [last]; lia|].
  exact IH.
Qed.

Lemma contigsChain_app l d : forall f t,
  contigsChain f l t -> uiStartOffsetUnpacked d = t -> 0 < uiLengthUnpacked d ->
  contigsChain f (l ++ [d]) (t + uiLengthUnpacked d).
Proof.
  induction l as [|x r IH]; intros f t H Hd Hlen; cbn [contigsChain app] in *.
  - subst f. split; [exact Hd|]. split; [exact Hlen | lia].
  - destruct H as (A & B & C). split; [exact A|]. split; [exact B|].
    exact (IH _ _ C Hd Hlen).
Qed.

(** The pack after a sequence that is not empty was appended to a pack whose
    contigs follow each other. *)
Lemma vAppendSequence_unfold rand p calls rsName rsComment c t :
  storable p -> contigs_ok p ->
  let st := fold_left (appendSymbol rand) (c :: t) (startState p calls) in
  vAppendSequence rand p calls rsName rsComment (c :: t) =
  (mkPack (xVectorOfSequenceDescriptors p ++
           [mkSequenceInPack rsName (commentOrNone rsComment)
                             (uiUnpackedSizeForwardStrand p)
                             (Z.of_nat (List.length (c :: t))) 0 (asNumberOfHoles st)])
          (asHoles st) (asPacked st) (seed p) (asSize st),
   asRandCalls st).
Proof.
  intros (HL & _) Hc. cbv zeta.
  assert (Eoff : match xVectorOfSequenceDescriptors p with
                 | [] => 0
                 | _ :: _ =>
                   u64 (uiStartOffsetUnpacked (last (xVectorOfSequenceDescriptors p) noDescriptor) +
                        uiLengthUnpacked (last (xVectorOfSequenceDescriptors p) noDescriptor))
                 end = uiUnpackedSizeForwardStrand p).
  { pose proof (contigsChain_last _ _ _ Hc) as E.
    destruct (xVectorOfSequenceDescriptors p); [exact E|].
    rewrite E. apply u64_small. exact HL. }
  unfold vAppendSequence. cbv zeta. rewrite Eoff. reflexivity.
Qed.

Lemma startState_ok p calls : storable p -> state_ok (startState p calls).
Proof.
  intros (HL & Hseed & Hb & Hlen & Hd & Hh & Hnd & Hnh).
  unfold state_ok, startState. cbn [asSize asPacked asHoles asOffset asNumberOfHoles].
  repeat split; try assumption; try lia.
Qed.

(** What holds of every pack that is built by appending. *)
Lemma appended_chain rand p calls :
  appended rand p calls ->
  contigs_ok p /\ blank (xPackedNucSeqs p) (uiUnpackedSizeForwardStrand p).
Proof.
  induction 1 as [uiSeed Hs | p calls rsName rsComment rxSequence Happ IH Hsym Hfit].
  - split; [reflexivity|]. intros q Hq. unfold packedBase. cbn [Pack_ xPackedNucSeqs].
    destruct (Z.to_nat (Z.shiftr q 2)); cbn [nth]; rewrite Z.shiftr_0_l; reflexivity.
  - destruct IH as [Hc Hblank].
    pose proof (appended_storable rand p calls Happ) as Hst.
    destruct rxSequence as [|c t]; [split; assumption|].
    rewrite (vAppendSequence_unfold rand p calls rsName rsComment c t Hst Hc).
    cbv zeta. cbn [fst].
    pose proof (startState_ok p calls Hst) as Hst0.
    destruct (appendSymbols_ok rand (c :: t) (startState p calls) Hst0 Hfit) as [_ ES].
    destruct (appendSymbols_bases rand (c :: t) (startState p calls) Hst0 Hblank Hsym Hfit)
      as (A & _).
    cbv zeta in A. cbn [startState asSize] in ES.
    split; [|exact A].
    unfold contigs_ok.
    cbn [xVectorOfSequenceDescriptors uiUnpackedSizeForwardStrand]. rewrite ES.
    apply (contigsChain_app _ (mkSequenceInPack _ _ _ _ _ _) 0 _ Hc);
      cbn [uiStartOffsetUnpacked uiLengthUnpacked]; [reflexivity|].
    cbn [List.length]. lia.
Qed.

Lemma startState_holes p calls : holes_ok p -> holes_state_ok (startState p calls).
Proof.
  intros H. unfold holes_state_ok, startState. cbn [asHoles asSize asOffset asPrevious].
  split; [exact H|]. split; [reflexivity|]. intros H4. lia.
Qed.

Lemma appended_holes rand p calls :
  appended rand p calls -> uiUnpackedSizeForwardStrand p < 2 ^ 31 -> holes_ok p.
Proof.
  induction 1 as [uiSeed Hs | p calls rsName rsComment rxSequence Happ IH Hsym Hfit];
    intros Hsize.
  - unfold holes_ok. cbn. lia.
  - pose proof (appended_storable rand p calls Happ) as Hst.
    destruct (appended_chain rand p calls Happ) as [Hc _].
    destruct rxSequence as [|c t]; [exact (IH Hsize)|].
    rewrite (vAppendSequence_unfold rand p calls rsName rsComment c t Hst Hc) in Hsize |- *.
    cbv zeta in Hsize |- *. cbn [fst uiUnpackedSizeForwardStrand] in Hsize.
    unfold holes_ok. cbn [fst xVectorOfHoleDescriptors uiUnpackedSizeForwardStrand].
    pose proof (startState_ok p calls Hst) as Hst0.
    destruct (appendSymbols_ok rand (c :: t) (startState p calls) Hst0 Hfit) as [_ ES].
    rewrite ES in Hsize. cbn [startState asSize] in Hsize.
    assert (HL : uiUnpackedSizeForwardStrand p < 2 ^ 31) by lia.
    destruct (appendSymbols_holes rand (c :: t) (startState p calls) Hst0
                (startState_holes p calls (IH HL))) as ((A & _) & _); [exact Hsize|].
    exact A.
Qed.

(** ** Extraction with N on the forward strand *)

(** The hole iterator after it was moved to a position: the holes that were
    passed end at or before the position, and the iterator is at a hole
    that starts at or before the position exactly inside a hole. *)
Lemma skipHolesForward_spec pos t : forall it f,
  0 <= f -> holesChain f it t -> t < two64 ->
  (exists f', 0 <= f' /\ holesChain f' (skipHolesForward it pos) t) /\
  (forall q, pos <= q -> isHoleIn (skipHolesForward it pos) q = isHoleIn it q) /\
  match skipHolesForward it pos with
  | h :: _ => offset h <=? pos
  | [] => false
  end = isHoleIn it pos.
Proof.
  induction it as [|h r IH]; intros f Hf H Ht.
  - cbn [skipHolesForward isHoleIn]. split; [exists f; split; assumption|].
    split; reflexivity.
  - cbn [skipHolesForward]. pose proof H as (A & B & C).
    pose proof (holesChain_end _ _ _ C) as Hend.
    destruct (Z.leb_spec (offset h + PackStore.length h) pos) as [Hpast | Hin].
    + destruct (IH (offset h + PackStore.length h) ltac:(lia) C Ht) as (I1 & I2 & I3).
      split; [exact I1|]. split.
      * intros q Hq. rewrite (I2 q Hq). cbn [isHoleIn].
        rewrite u64_small by (unfold in_u64; lia).
        destruct (Z.leb_spec (offset h) q);
          destruct (Z.ltb_spec q (offset h + PackStore.length h)); try reflexivity; lia.
      * rewrite I3. cbn [isHoleIn]. rewrite u64_small by (unfold in_u64; lia).
        destruct (Z.leb_spec (offset h) pos);
          destruct (Z.ltb_spec pos (offset h + PackStore.length h)); try reflexivity; lia.
    + split; [exists f; split; assumption|]. split; [reflexivity|].
      cbn [isHoleIn]. rewrite u64_small by (unfold in_u64; lia).
      destruct (Z.leb_spec (offset h) pos) as [Hle | Hgt].
      * replace (pos <? offset h + PackStore.length h) with true
          by (symmetry; apply Z.ltb_lt; lia).
        reflexivity.
      * cbn [andb]. symmetry.
        apply (isHoleIn_outside r pos (offset h + PackStore.length h) t); try assumption; lia.
Qed.

Lemma extractForwardN_map p t n : forall b it f,
  0 <= f -> holesChain f it t -> t < two64 -> 0 <= b -> b + Z.of_nat n < two64 ->
  extractForwardN p it (map (fun i => b + Z.of_nat i) (seq 0 n)) =
  map (fun i => if isHoleIn it (b + Z.of_nat i) then 4
                else getNucleotideOnPos p (b + Z.of_nat i)) (seq 0 n).
Proof.
  induction n as [|n IH]; intros b it f Hf H Ht Hb Hfit; [reflexivity|].
  cbn [seq map extractForwardN]. rewrite Z.add_0_r.
  rewrite (u64_small b) by (unfold in_u64; lia).
  destruct (skipHolesForward_spec b t it f Hf H Ht) as ((f' & Hf' & H') & S2 & S3).
  f_equal.
  - rewrite <- S3. destruct (skipHolesForward it b); reflexivity.
  - rewrite <- seq_shift, !map_map.
    rewrite (map_ext (fun i => b + Z.of_nat (S i)) (fun i => b + 1 + Z.of_nat i))
      by (intros i; lia).
    rewrite (IH (b + 1) _ f' Hf' H' Ht) by lia.
    apply map_ext. intros i. rewrite S2 by lia.
    replace (b + 1 + Z.of_nat i) with (b + Z.of_nat (S i)) by lia. reflexivity.
Qed.

Lemma size_ok_of_holes p : size_ok p -> uiUnpackedSizeForwardStrand p < two64.
Proof. unfold size_ok, two64. lia. Qed.

Lemma vExtractSubsectionN_forward p b e acc bAppend :
  size_ok p -> holes_ok p -> 0 <= b < e -> e <= uiUnpackedSizeForwardStrand p ->
  vExtractSubsectionN p b e acc bAppend =
  Ok ((if bAppend then acc else []) ++
      map (fun q => if isHole p q then 4 else getNucleotideOnPos p q) (upto b e)).
Proof.
  intros Hs Hh Hb He.
  set (L := uiUnpackedSizeForwardStrand p) in *.
  destruct (extraction_checks p b e Hs Hb ltac:(fold L; lia)) as (C1 & C2 & C3 & C4 & C5).
  fold L in C3, C4.
  pose proof (size_ok_of_holes p Hs) as Ht. fold L in Ht.
  unfold size_ok in Hs. fold L in Hs.
  unfold vExtractSubsectionN. cbv zeta.
  replace (b =? e) with false by (symmetry; apply Z.eqb_neq; lia).
  rewrite C1, C2, C3, C4, C5. cbn [negb].
  replace (L <=? b) with false by (symmetry; apply Z.leb_gt; lia).
  replace (L <=? e - 1) with false by (symmetry; apply Z.leb_gt; lia).
  cbn [Bool.eqb negb]. f_equal. f_equal.
  rewrite (u64_small b) by (unfold in_u64, two64; lia).
  destruct (skipHolesForward_spec b L (xVectorOfHoleDescriptors p) 0 ltac:(lia) Hh Ht)
    as ((f' & Hf' & H') & S2 & _).
  unfold upto.
  rewrite (extractForwardN_map p L (Z.to_nat (e - b)) b _ f' Hf' H' Ht) by lia.
  rewrite map_map. apply map_ext. intros i. unfold isHole. rewrite S2 by lia.
  reflexivity.
Qed.

(** ** What appending a sequence changes *)

Lemma map_nth_all {A : Type} (d : A) (l : list A) :
  map (fun i => nth i l d) (seq 0 (List.length l)) = l.
Proof.
  induction l as [|x r IH]; [reflexivity|].
  cbn [List.length seq map nth]. f_equal.
  rewrite <- seq_shift, map_map. exact IH.
Qed.

Lemma append_facts rand p calls rsName rsComment c t :
  appended rand p calls ->
  Forall (fun c => 0 <= c < 256) (c :: t) ->
  uiUnpackedSizeForwardStrand p + Z.of_nat (List.length (c :: t)) < two64 ->
  let L := uiUnpackedSizeForwardStrand p in
  let p' := fst (vAppendSequence rand p calls rsName rsComment (c :: t)) in
  uiUnpackedSizeForwardStrand p' = L + Z.of_nat (List.length (c :: t)) /\
  (exists holes,
     xVectorOfSequenceDescriptors p' =
     xVectorOfSequenceDescriptors p ++
     [mkSequenceInPack rsName (commentOrNone rsComment) L
                       (Z.of_nat (List.length (c :: t))) 0 holes]) /\
  (forall q, 0 <= q < L -> getNucleotideOnPos p' q = getNucleotideOnPos p q) /\
  (forall i, (i < List.length (c :: t))%nat ->
     nth i (c :: t) 0 < 4 -> getNucleotideOnPos p' (L + Z.of_nat i) = nth i (c :: t) 0) /\
  (L + Z.of_nat (List.length (c :: t)) < 2 ^ 31 ->
   (forall q, q < L -> isHole p' q = isHole p q) /\
   (forall i, (i < List.length (c :: t))%nat ->
      isHole p' (L + Z.of_nat i) = (4 <=? nth i (c :: t) 0))).
Proof.
  intros Happ Hsym Hfit L p'.
  pose proof (appended_storable rand p calls Happ) as Hst.
  destruct (appended_chain rand p calls Happ) as [Hc Hblank].
  pose proof (startState_ok p calls Hst) as Hst0.
  destruct (appendSymbols_ok rand (c :: t) (startState p calls) Hst0 Hfit) as [_ ES].
  destruct (appendSymbols_bases rand (c :: t) (startState p calls) Hst0 Hblank Hsym Hfit)
    as (_ & B & C).
  cbv zeta in B, C. cbn [startState asSize asPacked] in ES, B, C.
  unfold p'. rewrite (vAppendSequence_unfold rand p calls rsName rsComment c t Hst Hc).
  cbv zeta. cbn [fst uiUnpackedSizeForwardStrand xVectorOfSequenceDescriptors].
  split; [exact ES|]. split; [eexists; reflexivity|].
  split; [exact B|]. split.
  - intros i Hi H4. exact (proj2 (C i Hi) H4).
  - intros Hsmall. unfold isHole. cbn [xVectorOfHoleDescriptors].
    assert (HL : uiUnpackedSizeForwardStrand p < 2 ^ 31) by (fold L; lia).
    pose proof (appended_holes rand p calls Happ HL) as Hh.
    destruct (appendSymbols_holes rand (c :: t) (startState p calls) Hst0
                (startState_holes p calls Hh) Hsmall) as (_ & H1 & H2).
    cbv zeta in H1, H2. cbn [startState asSize asHoles] in H1, H2.
    split; assumption.
Qed.

(** X14. Every pack that is built by appending sequences to an empty pack is
    well formed: its contigs follow each other without a gap up to the size
    of the pack, it holds one byte for every four bases, the bits behind the
    last base are 0, and (below 2^31 bases, the range of the length of a
    hole) its holes follow each other in order inside the pack. *)
Theorem appended_invariants :
  forall (rand : nat -> Z) (p : Pack) (calls : nat),
    appended rand p calls ->
    let L := uiUnpackedSizeForwardStrand p in
    contigs_ok p /\
    Z.of_nat (List.length (xPackedNucSeqs p)) = bytesFor L /\
    (forall q, L <= q -> getNucleotideOnPos p q = 0) /\
    (L < 2 ^ 31 -> holes_ok p).
Proof.
  intros rand p calls Happ L.
  destruct (appended_chain rand p calls Happ) as [Hc Hblank].
  destruct (appended_storable rand p calls Happ) as (_ & _ & _ & Hlen & _).
  split; [exact Hc|]. split; [exact Hlen|]. split; [exact Hblank|].
  exact (appended_holes rand p calls Happ).
Qed.

Lemma appended_invariants_witness :
  appended exRand (fst exAB) (snd exAB) /\
  contigs_ok (fst exAB) /\ holes_ok (fst exAB).
Proof.
  split; [exact exAB_appended|].
  pose proof (appended_invariants exRand (fst exAB) (snd exAB) exAB_appended) as H.
  cbv zeta in H. destruct H as (H1 & _ & _ & H4).
  split; [exact H1|]. apply H4. vm_compute. reflexivity.
Defined.

(** X15. Appending a sequence that is not empty adds one contig behind the
    others: the size of the pack grows by the length of the sequence, the new
    contig has the name that was given, starts at the old size and has the
    length of the sequence, the earlier contigs are as they were, and every
    position of the new contig is found in it. *)
Theorem append_adds_contig :
  forall (rand : nat -> Z) (p : Pack) (calls : nat) (rsName rsComment : string)
         (rxSequence : list Z),
    appended rand p calls ->
    rxSequence <> [] ->
    Forall (fun c => 0 <= c < 256) rxSequence ->
    uiUnpackedSizeForwardStrand p + Z.of_nat (List.length rxSequence) < 2 ^ 62 ->
    let L := uiUnpackedSizeForwardStrand p in
    let n := Z.of_nat (List.length rxSequence) in
    let p' := fst (vAppendSequence rand p calls rsName rsComment rxSequence) in
    uiUnpackedSizeForwardStrand p' = L + n /\
    uiNumContigs p' = uiNumContigs p + 1 /\
    nameOfSequenceWithId p' (uiNumContigs p) = rsName /\
    startOfSequenceWithId p' (uiNumContigs p) = L /\
    lengthOfSequenceWithId p' (uiNumContigs p) = n /\
    (forall id, 0 <= id < uiNumContigs p -> descriptorAt p' id = descriptorAt p id) /\
    (forall q, L <= q < L + n -> uiSequenceIdForPosition p' q = uiNumContigs p).
Proof.
  intros rand p calls rsName rsComment rxSequence Happ Hne Hsym Hfit L n p'.
  destruct rxSequence as [|c t]; [congruence|].
  assert (Hfit' : uiUnpackedSizeForwardStrand p + Z.of_nat (List.length (c :: t)) < two64)
    by (unfold two64; lia).
  destruct (append_facts rand p calls rsName rsComment c t Happ Hsym Hfit')
    as (ES & (holes & Ed) & _).
  fold p' in ES, Ed. fold L in ES, Ed. fold n in ES, Ed.
  assert (Happ' : appended rand p' (snd (vAppendSequence rand p calls rsName rsComment (c :: t))))
    by (apply appended_sequence; assumption).
  destruct (appended_chain rand p' _ Happ') as [Hc' _].
  pose proof (appended_storable rand p calls Happ) as (HL & _). fold L in HL.
  assert (Hs' : size_ok p') by (unfold size_ok; rewrite ES; fold n in Hfit; lia).
  set (k := List.length (xVectorOfSequenceDescriptors p)).
  assert (Ek : uiNumContigs p = Z.of_nat k) by reflexivity.
  assert (Enew : contig p' k =
                 mkSequenceInPack rsName (commentOrNone rsComment) L n 0 holes).
  { unfold contig. rewrite Ed. apply nth_middle. }
  assert (Hk : (k < List.length (xVectorOfSequenceDescriptors p'))%nat).
  { rewrite Ed, length_app. cbn [List.length]. fold k. lia. }
  split; [exact ES|]. split.
  { unfold uiNumContigs. rewrite Ed, length_app, Nat2Z.inj_add. reflexivity. }
  rewrite Ek.
  assert (Eat : descriptorAt p' (Z.of_nat k) = contig p' k).
  { unfold descriptorAt, contig. rewrite Nat2Z.id. reflexivity. }
  split.
  { unfold nameOfSequenceWithId.
    replace (0 <=? Z.of_nat k) with true by (symmetry; apply Z.leb_le; lia).
    rewrite Eat, Enew. reflexivity. }
  split; [unfold startOfSequenceWithId; rewrite Eat, Enew; reflexivity|].
  split; [unfold lengthOfSequenceWithId; rewrite Eat, Enew; reflexivity|].
  split.
  - intros id Hid. unfold descriptorAt. rewrite Ed. apply app_nth1. fold k. lia.
  - intros q Hq. apply (id_characterised p' q k Hs' Hc'); [rewrite ES; lia | exact Hk|].
    rewrite Enew. cbn [uiStartOffsetUnpacked uiLengthUnpacked]. lia.
Qed.

Lemma append_adds_contig_witness :
  appended exRand (fst exA) (snd exA) /\
  uiUnpackedSizeForwardStrand (fst exAB) = 16 /\
  nameOfSequenceWithId (fst exAB) 1 = "B"%string /\
  startOfSequenceWithId (fst exAB) 1 = 8.
Proof.
  assert (Ha : appended exRand (fst exA) (snd exA)).
  { apply appended_sequence.
    - apply appended_empty. lia.
    - repeat constructor; lia.
    - cbn. unfold two64. lia. }
  split; [exact Ha|].
  assert (Hne : [2; 2; 4; 4; 1; 1; 0; 0] <> []) by discriminate.
  assert (Hsym : Forall (fun c => 0 <= c < 256) [2; 2; 4; 4; 1; 1; 0; 0])
    by (repeat constructor; lia).
  assert (Hfit : uiUnpackedSizeForwardStrand (fst exA) +
                 Z.of_nat (List.length [2; 2; 4; 4; 1; 1; 0; 0]) < 2 ^ 62)
    by (vm_compute; reflexivity).
  pose proof (append_adds_contig exRand (fst exA) (snd exA) "B" EmptyString
                                 [2; 2; 4; 4; 1; 1; 0; 0] Ha Hne Hsym Hfit) as H.
  cbv zeta in H. destruct H as (H1 & _ & H3 & H4 & _).
  split; [exact H1|]. split; [exact H3 | exact H4].
Defined.

(** ** Appending and reading back *)

(** X16. A sequence that was appended is read back: in a pack below 2^31
    bases, the extraction with N of the new contig (by its positions, or by
    its id with [vExtractContig]) returns the sequence, with 4 (N) for every
    symbol that is no base; [isHole] marks exactly these symbols; and without
    such symbols the plain extraction returns the sequence itself. *)
Theorem append_extract_round_trip :
  forall (rand : nat -> Z) (p : Pack) (calls : nat) (rsName rsComment : string)
         (rxSequence : list Z),
    appended rand p calls ->
    rxSequence <> [] ->
    Forall (fun c => 0 <= c < 256) rxSequence ->
    uiUnpackedSizeForwardStrand p + Z.of_nat (List.length rxSequence) < 2 ^ 31 ->
    let L := uiUnpackedSizeForwardStrand p in
    let n := Z.of_nat (List.length rxSequence) in
    let p' := fst (vAppendSequence rand p calls rsName rsComment rxSequence) in
    vExtractSubsectionN p' L (L + n) [] false = Ok (map withN rxSequence) /\
    vExtractContig p' (2 * uiNumContigs p) [] false = Ok (map withN rxSequence) /\
    (forall i, (i < List.length rxSequence)%nat ->
       isHole p' (L + Z.of_nat i) = (4 <=? nth i rxSequence 0)) /\
    (Forall (fun c => c < 4) rxSequence -> vExtract p' L (L + n) = Ok rxSequence).
Proof.
  intros rand p calls rsName rsComment rxSequence Happ Hne Hsym Hfit L n p'.
  destruct rxSequence as [|c t]; [congruence|].
  assert (Hfit' : uiUnpackedSizeForwardStrand p + Z.of_nat (List.length (c :: t)) < two64)
    by (unfold two64; lia).
  destruct (append_facts rand p calls rsName rsComment c t Happ Hsym Hfit')
    as (ES & (holes & Ed) & _ & Hbase & Hhole).
  fold p' in ES, Ed, Hbase, Hhole. fold L in ES, Ed, Hbase, Hhole.
  fold n in ES, Ed.
  destruct (Hhole Hfit) as [_ Hmark].
  assert (Happ' : appended rand p' (snd (vAppendSequence rand p calls rsName rsComment (c :: t))))
    by (apply appended_sequence; assumption).
  destruct (appended_chain rand p' _ Happ') as [Hc' _].
  assert (Hh' : holes_ok p').
  { apply (appended_holes rand p' _ Happ'). rewrite ES. exact Hfit. }
  pose proof (appended_storable rand p calls Happ) as (HL & _). fold L in HL.
  assert (Hs' : size_ok p') by (unfold size_ok; rewrite ES; fold n in Hfit; lia).
  assert (Hn : 0 < n) by (unfold n; cbn [List.length]; lia).
  assert (EN : vExtractSubsectionN p' L (L + n) [] false = Ok (map withN (c :: t))).
  { rewrite vExtractSubsectionN_forward; try assumption; try lia.
    cbn [app]. f_equal. unfold upto.
    replace (Z.to_nat (L + n - L)) with (List.length (c :: t)) by (unfold n; lia).
    rewrite map_map. rewrite <- (map_nth_all 0 (c :: t)) at 2. rewrite map_map.
    apply map_ext_in. intros i Hi. apply in_seq in Hi.
    rewrite Hmark by lia. unfold withN.
    destruct (Z.leb_spec 4 (nth i (c :: t) 0)) as [H4 | H4]; [reflexivity|].
    apply Hbase; lia. }
  split; [exact EN|]. split; [|split; [exact Hmark|]].
  - set (k := List.length (xVectorOfSequenceDescriptors p)).
    assert (Hk : (k < List.length (xVectorOfSequenceDescriptors p'))%nat).
    { rewrite Ed, length_app. cbn [List.length]. fold k. lia. }
    assert (Enew : contig p' k =
                   mkSequenceInPack rsName (commentOrNone rsComment) L n 0 holes).
    { unfold contig. rewrite Ed. apply nth_middle. }
    destruct (contig_bounds_or_reverse_aux p' k Hs' Hc' Hk) as (A1 & A2 & _).
    rewrite Enew in A1, A2. cbn [uiStartOffsetUnpacked uiLengthUnpacked] in A1, A2.
    unfold vExtractContig, uiNumContigs. fold k. rewrite A1, A2.
    rewrite !i64_small by (unfold in_i64, two63; lia).
    exact EN.
  - intros Hall. unfold vExtract.
    rewrite vExtractSubsection_pointwise; try assumption; try lia.
    cbn [app]. f_equal. unfold upto.
    replace (Z.to_nat (L + n - L)) with (List.length (c :: t)) by (unfold n; lia).
    rewrite map_map. rewrite <- (map_nth_all 0 (c :: t)) at 2.
    apply map_ext_in. intros i Hi. apply in_seq in Hi.
    rewrite base_forward by (try assumption; rewrite ES; lia).
    apply Hbase; [lia|].
    rewrite Forall_forall in Hall. apply Hall. apply nth_In. lia.
Qed.

Lemma append_extract_witness :
  appended exRand (fst exA) (snd exA) /\
  vExtractSubsectionN (fst exAB) 8 16 [] false = Ok [2; 2; 4; 4; 1; 1; 0; 0] /\
  vExtractContig (fst exAB) 2 [] false = Ok (map withN [2; 2; 4; 4; 1; 1; 0; 0]).
Proof.
  assert (Ha : appended exRand (fst exA) (snd exA)).
  { apply appended_sequence.
    - apply appended_empty. lia.
    - repeat constructor; lia.
    - cbn. unfold two64. lia. }
  split; [exact Ha|]. split; [reflexivity|].
  assert (Hne : [2; 2; 4; 4; 1; 1; 0; 0] <> []) by discriminate.
  assert (Hsym : Forall (fun c => 0 <= c < 256) [2; 2; 4; 4; 1; 1; 0; 0])
    by (repeat constructor; lia).
  assert (Hfit : uiUnpackedSizeForwardStrand (fst exA) +
                 Z.of_nat (List.length [2; 2; 4; 4; 1; 1; 0; 0]) < 2 ^ 31)
    by (vm_compute; reflexivity).
  exact (proj1 (proj2 (append_extract_round_trip exRand (fst exA) (snd exA) "B" EmptyString
                         [2; 2; 4; 4; 1; 1; 0; 0] Ha Hne Hsym Hfit))).
Defined.

(** X17. Appending a sequence leaves what the pack held as it was: in a pack
    below 2^31 bases, every extraction inside the earlier contigs, with N or
    without, returns what it returned before, [isHole] answers as before for
    the earlier positions, and the earlier positions are found in the same
    contigs. *)
Theorem append_keeps_earlier :
  forall (rand : nat -> Z) (p : Pack) (calls : nat) (rsName rsComment : string)
         (rxSequence old : list Z) (b e : Z) (bAppend : bool),
    appended rand p calls ->
    Forall (fun c => 0 <= c < 256) rxSequence ->
    uiUnpackedSizeForwardStrand p + Z.of_nat (List.length rxSequence) < 2 ^ 31 ->
    0 <= b < e -> e <= uiUnpackedSizeForwardStrand p ->
    let p' := fst (vAppendSequence rand p calls rsName rsComment rxSequence) in
    vExtractSubsectionN p' b e old bAppend = vExtractSubsectionN p b e old bAppend /\
    vExtractSubsection p' b e old bAppend = vExtractSubsection p b e old bAppend /\
    (forall q, b <= q < e ->
       isHole p' q = isHole p q /\
       uiSequenceIdForPosition p' q = uiSequenceIdForPosition p q).
Proof.
  intros rand p calls rsName rsComment rxSequence old b e bAppend Happ Hsym Hfit Hb He p'.
  destruct rxSequence as [|c t].
  { unfold p'. cbn [vAppendSequence fst]. split; [reflexivity|]. split; [reflexivity|].
    intros q Hq. split; reflexivity. }
  set (L := uiUnpackedSizeForwardStrand p) in *.
  assert (Hfit' : L + Z.of_nat (List.length (c :: t)) < two64) by (unfold two64; lia).
  destruct (append_facts rand p calls rsName rsComment c t Happ Hsym Hfit')
    as (ES & (holes & Ed) & Hold & _ & Hhole).
  fold p' in ES, Ed, Hold, Hhole. fold L in ES, Ed, Hold, Hhole.
  destruct (Hhole Hfit) as [Hmark _].
  assert (Happ' : appended rand p' (snd (vAppendSequence rand p calls rsName rsComment (c :: t))))
    by (apply appended_sequence; assumption).
  destruct (appended_chain rand p' _ Happ') as [Hc' _].
  destruct (appended_chain rand p _ Happ) as [Hc _].
  assert (Hh' : holes_ok p').
  { apply (appended_holes rand p' _ Happ'). rewrite ES. exact Hfit. }
  assert (Hh : holes_ok p) by (apply (appended_holes rand p _ Happ); fold L; lia).
  pose proof (appended_storable rand p calls Happ) as (HL & _). fold L in HL.
  assert (Hs' : size_ok p') by (unfold size_ok; rewrite ES; lia).
  assert (Hs : size_ok p) by (unfold size_ok; fold L; lia).
  split; [|split].
  - rewrite !vExtractSubsectionN_forward; try assumption; try (fold L; lia).
    f_equal. f_equal. apply map_ext_in. intros q Hq. apply in_upto in Hq.
    rewrite Hmark, Hold by lia. reflexivity.
  - rewrite !vExtractSubsection_pointwise; try assumption; try (fold L; lia).
    f_equal. f_equal. apply map_ext_in. intros q Hq. apply in_upto in Hq.
    rewrite !base_forward by (try assumption; try rewrite ES; fold L; lia).
    apply Hold. lia.
  - intros q Hq. split; [apply Hmark; lia|].
    destruct (id_is_nat p q Hs Hc ltac:(fold L; lia)) as (k & E & Hk & Hin).
    rewrite E.
    assert (Ek : contig p' k = contig p k).
    { unfold contig. rewrite Ed. apply app_nth1. exact Hk. }
    apply (id_characterised p' q k Hs' Hc'); [rewrite ES; lia | |rewrite Ek; exact Hin].
    rewrite Ed, length_app. lia.
Qed.

Lemma append_keeps_earlier_witness :
  appended exRand (fst exA) (snd exA) /\
  vExtractSubsectionN (fst exAB) 2 7 [] false = vExtractSubsectionN (fst exA) 2 7 [] false /\
  vExtractSubsectionN (fst exA) 2 7 [] false = Ok [2; 3; 0; 1; 2].
Proof.
  assert (Ha : appended exRand (fst exA) (snd exA)).
  { apply appended_sequence.
    - apply appended_empty. lia.
    - repeat constructor; lia.
    - cbn. unfold two64. lia. }
  split; [exact Ha|]. split; [|reflexivity].
  assert (Hsym : Forall (fun c => 0 <= c < 256) [2; 2; 4; 4; 1; 1; 0; 0])
    by (repeat constructor; lia).
  assert (Hfit : uiUnpackedSizeForwardStrand (fst exA) +
                 Z.of_nat (List.length [2; 2; 4; 4; 1; 1; 0; 0]) < 2 ^ 31)
    by (vm_compute; reflexivity).
  assert (Hb : 0 <= 2 < 7) by lia.
  assert (He : 7 <= uiUnpackedSizeForwardStrand (fst exA)) by (vm_compute; discriminate).
  exact (proj1 (append_keeps_earlier exRand (fst exA) (snd exA) "B" EmptyString
                  [2; 2; 4; 4; 1; 1; 0; 0] [] 2 7 false Ha Hsym Hfit Hb He)).
Defined.

(** ** Extraction with N on the reverse strand *)

Lemma holesChainRev_app l h : forall u lo,
  holesChainRev u l lo -> offset h + PackStore.length h <= lo -> 0 < PackStore.length h ->
  forall lo', lo' <= offset h -> holesChainRev u (l ++ [h]) lo'.
Proof.
  induction l as [|x r IH]; intros u lo H Hh Hlen lo' Hlo'; cbn [holesChainRev app] in *.
  - split; [lia|]. split; [exact Hlen | exact Hlo'].
  - destruct H as (A & B & C). split; [exact A|]. split; [exact B|].
    exact (IH _ _ C Hh Hlen lo' Hlo').
Qed.

Lemma holesChainRev_lower l : forall u lo lo',
  holesChainRev u l lo -> lo' <= lo -> holesChainRev u l lo'.
Proof.
  induction l as [|x r IH]; intros u lo lo' H Hlo; cbn [holesChainRev] in *.
  - lia.
  - destruct H as (A & B & C). split; [exact A|]. split; [exact B|].
    exact (IH _ _ _ C Hlo).
Qed.

Lemma holesChain_rev l : forall f t, holesChain f l t -> holesChainRev t (rev l) f.
Proof.
  induction l as [|h r IH]; intros f t H; cbn [holesChain rev] in *.
  - cbn [holesChainRev]. exact H.
  - destruct H as (A & B & C).
    apply (holesChainRev_app (rev r) h t (offset h + PackStore.length h));
      [apply IH; exact C | lia | exact B | exact A].
Qed.

Lemma isHoleIn_concat l1 l2 q : isHoleIn (l1 ++ l2) q = isHoleIn l1 q || isHoleIn l2 q.
Proof.
  induction l1 as [|x r IH]; cbn [isHoleIn app]; [reflexivity|].
  rewrite IH.
  destruct ((offset x <=? q) && (q <? u64 (offset x + PackStore.length x))); reflexivity.
Qed.

Lemma isHoleIn_rev l q : isHoleIn (rev l) q = isHoleIn l q.
Proof.
  induction l as [|x r IH]; [reflexivity|].
  cbn [rev]. rewrite isHoleIn_concat, IH. cbn [isHoleIn].
  destruct ((offset x <=? q) && (q <? u64 (offset x + PackStore.length x)));
    [apply orb_true_r | rewrite orb_false_r; reflexivity].
Qed.

Lemma holesChainRev_bounds l : forall u lo, holesChainRev u l lo -> lo <= u.
Proof.
  induction l as [|x r IH]; intros u lo H; cbn [holesChainRev] in *; [exact H|].
  destruct H as (A & B & C). specialize (IH _ _ C). lia.
Qed.

Lemma isHoleIn_outside_rev l q : forall u lo,
  0 <= lo -> holesChainRev u l lo -> u < two64 -> q < lo \/ u <= q -> isHoleIn l q = false.
Proof.
  induction l as [|h r IH]; intros u lo Hlo H Hu Hq; cbn [isHoleIn holesChainRev] in *;
    [reflexivity|].
  destruct H as (A & B & C). pose proof (holesChainRev_bounds _ _ _ C) as Hb.
  rewrite u64_small by (unfold in_u64; lia).
  rewrite (IH (offset h) lo Hlo C ltac:(lia)) by lia.
  destruct (Z.leb_spec (offset h) q); destruct (Z.ltb_spec q (offset h + PackStore.length h));
    try reflexivity; lia.
Qed.

Lemma skipHolesReverse_spec pos lo : forall it u,
  0 <= lo -> holesChainRev u it lo -> u < two64 ->
  (exists u', u' < two64 /\ holesChainRev u' (skipHolesReverse it pos) lo) /\
  (forall q, q <= pos -> isHoleIn (skipHolesReverse it pos) q = isHoleIn it q) /\
  match skipHolesReverse it pos with
  | h :: _ => pos <? offset h + PackStore.length h
  | [] => false
  end = isHoleIn it pos.
Proof.
  induction it as [|h r IH]; intros u Hlo H Hu.
  - cbn [skipHolesReverse isHoleIn]. split; [exists u; split; assumption|].
    split; reflexivity.
  - cbn [skipHolesReverse]. pose proof H as (A & B & C).
    pose proof (holesChainRev_bounds _ _ _ C) as Hb.
    destruct (Z.ltb_spec pos (offset h)) as [Hpast | Hin].
    + destruct (IH (offset h) Hlo C ltac:(lia)) as (I1 & I2 & I3).
      split; [exact I1|]. split.
      * intros q Hq. rewrite (I2 q Hq). cbn [isHoleIn].
        rewrite u64_small by (unfold in_u64; lia).
        destruct (Z.leb_spec (offset h) q);
          destruct (Z.ltb_spec q (offset h + PackStore.length h)); try reflexivity; lia.
      * rewrite I3. cbn [isHoleIn]. rewrite u64_small by (unfold in_u64; lia).
        destruct (Z.leb_spec (offset h) pos);
          destruct (Z.ltb_spec pos (offset h + PackStore.length h)); try reflexivity; lia.
    + split; [exists u; split; assumption|]. split; [reflexivity|].
      cbn [isHoleIn]. rewrite u64_small by (unfold in_u64; lia).
      replace (offset h <=? pos) with true by (symmetry; apply Z.leb_le; lia).
      destruct (Z.ltb_spec pos (offset h + PackStore.length h)) as [Hlt | Hge];
        [reflexivity|].
      cbn [andb]. symmetry.
      apply (isHoleIn_outside_rev r pos (offset h) lo); try assumption; lia.
Qed.

Lemma extractReverseN_map p lo n : forall a it u,
  0 <= lo -> holesChainRev u it lo -> u < two64 ->
  Z.of_nat n <= a + 1 -> a < two64 ->
  extractReverseN p it (map (fun i => a - Z.of_nat i) (seq 0 n)) =
  map (fun i => if isHoleIn it (a - Z.of_nat i) then 4
                else u8 (3 - getNucleotideOnPos p (a - Z.of_nat i))) (seq 0 n).
Proof.
  induction n as [|n IH]; intros a it u Hlo H Hu Ha Hfit; [reflexivity|].
  cbn [seq map extractReverseN]. rewrite Z.sub_0_r.
  rewrite (u64_small a) by (unfold in_u64; lia).
  destruct (skipHolesReverse_spec a lo it u Hlo H Hu) as ((u' & Hu' & H') & S2 & S3).
  f_equal.
  - rewrite <- S3. destruct (skipHolesReverse it a); reflexivity.
  - rewrite <- seq_shift, !map_map.
    rewrite (map_ext (fun i => a - Z.of_nat (S i)) (fun i => a - 1 - Z.of_nat i))
      by (intros i; lia).
    rewrite (IH (a - 1) _ u' Hlo H' Hu') by lia.
    apply map_ext. intros i. rewrite S2 by lia.
    replace (a - 1 - Z.of_nat i) with (a - Z.of_nat (S i)) by lia. reflexivity.
Qed.

Lemma vExtractSubsectionN_reverse p b e acc bAppend :
  size_ok p -> holes_ok p ->
  uiUnpackedSizeForwardStrand p <= b -> b < e -> e <= 2 * uiUnpackedSizeForwardStrand p ->
  vExtractSubsectionN p b e acc bAppend =
  Ok ((if bAppend then acc else []) ++
      map (fun q => if isHole p (2 * uiUnpackedSizeForwardStrand p - 1 - q) then 4
                    else 3 - getNucleotideOnPos p (2 * uiUnpackedSizeForwardStrand p - 1 - q))
          (upto b e)).
Proof.
  intros Hs Hh HLb Hb He.
  set (L := uiUnpackedSizeForwardStrand p) in *.
  pose proof Hs as Hs'. unfold size_ok in Hs'. fold L in Hs'.
  destruct (extraction_checks p b e Hs ltac:(lia) He) as (C1 & C2 & C3 & C4 & C5).
  fold L in C3, C4.
  pose proof (size_ok_of_holes p Hs) as Ht. fold L in Ht.
  unfold vExtractSubsectionN. cbv zeta.
  replace (b =? e) with false by (symmetry; apply Z.eqb_neq; lia).
  rewrite C1, C2, C3, C4, C5. cbn [negb].
  replace (L <=? b) with true by (symmetry; apply Z.leb_le; lia).
  replace (L <=? e - 1) with true by (symmetry; apply Z.leb_le; lia).
  cbn [Bool.eqb negb]. f_equal. f_equal.
  rewrite (u64_small b), (u64_small e) by (unfold in_u64, two64; lia).
  rewrite (absolute_position p b Hs) by (fold L; lia). fold L.
  replace (L <=? b) with true by (symmetry; apply Z.leb_le; lia).
  assert (Ea : iAbsolutePosition p e = 2 * L - 1 - e).
  { destruct (Z.eq_dec e (2 * L)) as [-> | Hne].
    - destruct (both_strands_size p Hs) as [E _]. fold L in E.
      unfold iAbsolutePosition. rewrite on_reverse_strand. fold L. rewrite E.
      replace (L <=? 2 * L) with true by (symmetry; apply Z.leb_le; lia).
      rewrite u64_sub_r, i64_of_u64.
      replace (2 * L - (2 * L + 1)) with (2 * L - 1 - 2 * L) by lia.
      apply i64_small. unfold in_i64, two63. lia.
    - rewrite (absolute_position p e Hs) by (fold L; lia). fold L.
      replace (L <=? e) with true by (symmetry; apply Z.leb_le; lia). reflexivity. }
  rewrite Ea. rewrite (u64_small (2 * L - 1 - b)) by (unfold in_u64, two64; lia).
  pose proof (holesChain_rev _ _ _ Hh) as Hrev. fold L in Hrev.
  destruct (skipHolesReverse_spec (2 * L - 1 - b) 0 _ L ltac:(lia) Hrev Ht)
    as ((u' & Hu' & H') & S2 & _).
  unfold downto, upto.
  replace (2 * L - 1 - b - (2 * L - 1 - e)) with (e - b) by lia.
  rewrite (extractReverseN_map p 0 (Z.to_nat (e - b)) (2 * L - 1 - b) _ u'
             ltac:(lia) H' Hu') by (unfold two64; lia).
  rewrite map_map. apply map_ext. intros i. unfold isHole.
  rewrite S2 by lia. rewrite isHoleIn_rev.
  replace (2 * L - 1 - (b + Z.of_nat i)) with (2 * L - 1 - b - Z.of_nat i) by lia.
  destruct (isHoleIn (xVectorOfHoleDescriptors p) (2 * L - 1 - b - Z.of_nat i));
    [reflexivity|].
  apply complement_of_base. apply nucleotide_range.
Qed.

(** ** Extraction with N, symbol by symbol *)

Lemma vExtractSubsectionN_strand p b e acc bAppend :
  size_ok p -> holes_ok p -> 0 <= b <= e -> e <= 2 * uiUnpackedSizeForwardStrand p ->
  (e <= uiUnpackedSizeForwardStrand p \/ uiUnpackedSizeForwardStrand p <= b) ->
  vExtractSubsectionN p b e acc bAppend =
  Ok ((if bAppend then acc else []) ++ map (symbolWithN p) (upto b e)).
Proof.
  intros Hs Hh Hb He Hside.
  set (L := uiUnpackedSizeForwardStrand p) in *.
  destruct (Z.eq_dec b e) as [<- | Hne].
  - unfold vExtractSubsectionN. rewrite Z.eqb_refl. unfold upto.
    rewrite Z.sub_diag. cbn [Z.to_nat seq map]. rewrite app_nil_r. reflexivity.
  - destruct Hside as [Hf | Hr].
    + rewrite vExtractSubsectionN_forward; try assumption; try (fold L; lia).
      f_equal. f_equal. apply map_ext_in. intros q Hq. apply in_upto in Hq.
      unfold symbolWithN. fold L.
      replace (L <=? q) with false by (symmetry; apply Z.leb_gt; lia).
      rewrite base_forward by (try assumption; fold L; lia). reflexivity.
    + rewrite vExtractSubsectionN_reverse; try assumption; try (fold L; lia).
      f_equal. f_equal. apply map_ext_in. intros q Hq. apply in_upto in Hq.
      unfold symbolWithN. fold L.
      replace (L <=? q) with true by (symmetry; apply Z.leb_le; lia).
      rewrite base_reverse by (try assumption; fold L; lia). reflexivity.
Qed.

(** X18. The extraction with N of a request [b, e) inside one strand of a
    pack whose holes are in order returns, for each position, 4 (N) when the
    position (on the reverse strand: its image on the forward strand) lies in
    a hole, and the base of the extraction without N elsewhere. *)
Theorem extract_with_holes :
  forall (p : Pack) (b e : Z),
    size_ok p -> holes_ok p -> 0 <= b < e -> e <= 2 * uiUnpackedSizeForwardStrand p ->
    (e <= uiUnpackedSizeForwardStrand p \/ uiUnpackedSizeForwardStrand p <= b) ->
    vExtractSubsectionN p b e [] false = Ok (map (symbolWithN p) (upto b e)) /\
    vExtract p b e = Ok (map (vExtractBase p) (upto b e)) /\
    (forall q, b <= q < e ->
       0 <= vExtractBase p q <= 3 /\
       symbolWithN p q =
         if isHole p (if uiUnpackedSizeForwardStrand p <=? q
                      then 2 * uiUnpackedSizeForwardStrand p - 1 - q else q)
         then 4 else vExtractBase p q).
Proof.
  intros p b e Hs Hh Hb He Hside.
  split; [rewrite vExtractSubsectionN_strand by (try assumption; lia); reflexivity|].
  split; [unfold vExtract; apply vExtractSubsection_pointwise; assumption|].
  intros q Hq. split; [|reflexivity].
  destruct (Z.leb_spec (uiUnpackedSizeForwardStrand p) q) as [Hr | Hf].
  - rewrite base_reverse by (try assumption; lia).
    pose proof (nucleotide_range p (2 * uiUnpackedSizeForwardStrand p - 1 - q)). lia.
  - rewrite base_forward by (try assumption; lia). apply nucleotide_range.
Qed.

Lemma extract_with_holes_witness :
  size_ok exPack /\ holes_ok exPack /\
  vExtractSubsectionN exPack 19 24 [] false = Ok (map (symbolWithN exPack) (upto 19 24)) /\
  vExtractSubsectionN exPack 19 24 [] false = Ok [2; 4; 4; 1; 1] /\
  vExtract exPack 19 24 = Ok [2; 1; 1; 1; 1].
Proof.
  split; [exact exPack_size|].
  assert (Hh : holes_ok exPack) by (unfold holes_ok; cbn; lia).
  split; [exact Hh|].
  split; [|split; reflexivity].
  assert (Hb : 0 <= 19 < 24) by lia.
  assert (He : 24 <= 2 * uiUnpackedSizeForwardStrand exPack) by (cbn; lia).
  assert (Hside : 24 <= uiUnpackedSizeForwardStrand exPack \/
                  uiUnpackedSizeForwardStrand exPack <= 19) by (right; cbn; lia).
  exact (proj1 (extract_with_holes exPack 19 24 exPack_size Hh Hb He Hside)).
Defined.

(** X19. The extraction towards a position and the extraction from it
    compose to the contig: for a position [pos] between the start and the end
    that the pack gives for the id of its contig and strand, [vExtractUntil]
    returns the symbols from that start up to [pos], [vExtractFrom] in append
    mode adds those from [pos] up to that end, and together they are what
    [vExtractContig] returns for the id.  The values that are returned are
    the start and the end. *)
Theorem extract_context_composes :
  forall (p : Pack) (pos : Z) (k : nat),
    size_ok p -> contigs_ok p -> holes_ok p ->
    (k < List.length (xVectorOfSequenceDescriptors p))%nat ->
    let L := uiUnpackedSizeForwardStrand p in
    let s := uiStartOffsetUnpacked (contig p k) in
    let e := s + uiLengthUnpacked (contig p k) in
    (s <= pos < e \/ 2 * L - e <= pos <= 2 * L - s - 2) ->
    let id := uiSequenceIdForPositionOrRev p pos in
    exists l1 l2,
      vExtractUntil p pos [] false = (Ok l1, startOfSequenceWithIdOrReverse p id) /\
      vExtractFrom p pos l1 true = (Ok (l1 ++ l2), endOfSequenceWithIdOrReverse p id) /\
      vExtractContig p id [] false = Ok (l1 ++ l2) /\
      Z.of_nat (List.length l1) = pos - startOfSequenceWithIdOrReverse p id /\
      Z.of_nat (List.length l2) = endOfSequenceWithIdOrReverse p id - pos.
Proof.
  intros p pos k Hs Hc Hh Hk L s e Hpos id.
  destruct (contig_bounds p k Hs Hc Hk) as (_ & _ & B1 & B2 & B3).
  fold L in B3. fold s in B1, B3. fold e in B3.
  pose proof Hs as Hs'. unfold size_ok in Hs'. fold L in Hs'.
  assert (HposL : 0 <= pos < 2 * L) by lia.
  destruct (id_both_strands p pos Hs Hc HposL) as (k' & Hk' & _ & R & I).
  fold L in R, I. cbv zeta in I. fold id in R.
  assert (k' = k).
  { apply (contig_unique p _ k' k Hc Hk' Hk I). fold s. fold e.
    destruct (Z.leb_spec L pos); lia. }
  subst k'.
  destruct (contig_bounds_or_reverse_aux p k Hs Hc Hk) as (A1 & A2 & A4 & A5).
  fold L in A4, A5. fold s in A1, A2, A4, A5. fold e in A2, A4.
  set (st := startOfSequenceWithIdOrReverse p id).
  set (en := endOfSequenceWithIdOrReverse p id).
  assert (Hval : (st = s /\ en = e /\ pos < L) \/
                 (st = 2 * L - e /\ en = 2 * L - s - 2 /\ L <= pos)).
  { unfold st, en. rewrite R. destruct (Z.leb_spec L pos) as [Hr | Hf].
    - right. rewrite A4, A5. lia.
    - left. rewrite Z.add_0_r, A1, A2. lia. }
  assert (Hrange : 0 <= st <= pos /\ pos <= en /\ en <= 2 * L /\ (en <= L \/ L <= st)) by lia.
  exists (map (symbolWithN p) (upto st pos)), (map (symbolWithN p) (upto pos en)).
  unfold vExtractUntil, vExtractFrom, vExtractContig.
  rewrite (u64_small pos) by (unfold in_u64, two64; lia).
  fold id. fold st. fold en.
  rewrite !i64_small by (unfold in_i64, two63; lia).
  rewrite !vExtractSubsectionN_strand by (try assumption; fold L; lia).
  cbn [app]. rewrite (upto_app st pos en), map_app by lia.
  rewrite !length_map. rewrite !upto_length by lia.
  repeat split.
Qed.

Lemma extract_context_witness :
  size_ok exPack /\ contigs_ok exPack /\ holes_ok exPack /\
  vExtractUntil exPack 11 [] false = (Ok [2; 2; 4], 8) /\
  vExtractFrom exPack 11 [2; 2; 4] true = (Ok [2; 2; 4; 4; 1; 1; 0; 0], 16) /\
  exists l1 l2,
    vExtractUntil exPack 19 [] false = (Ok l1, 16) /\
    vExtractFrom exPack 19 l1 true = (Ok (l1 ++ l2), 22) /\
    vExtractContig exPack 3 [] false = Ok (l1 ++ l2).
Proof.
  split; [exact exPack_size|]. split; [exact exPack_contigs|].
  assert (Hh : holes_ok exPack) by (unfold holes_ok; cbn; lia).
  split; [exact Hh|]. split; [reflexivity|]. split; [reflexivity|].
  assert (Hk : (1 < List.length (xVectorOfSequenceDescriptors exPack))%nat) by (cbn; lia).
  assert (Hpos : uiStartOffsetUnpacked (contig exPack 1) <= 19 <
                 uiStartOffsetUnpacked (contig exPack 1) + uiLengthUnpacked (contig exPack 1) \/
                 2 * uiUnpackedSizeForwardStrand exPack -
                 (uiStartOffsetUnpacked (contig exPack 1) + uiLengthUnpacked (contig exPack 1))
                 <= 19 <=
                 2 * uiUnpackedSizeForwardStrand exPack -
                 uiStartOffsetUnpacked (contig exPack 1) - 2) by (right; cbn; lia).
  destruct (extract_context_composes exPack 19 1 exPack_size exPack_contigs Hh Hk Hpos)
    as (l1 & l2 & H1 & H2 & H3 & _).
  exists l1, l2. split; [exact H1|]. split; [exact H2 | exact H3].
Defined.

End PackBuild.

(* ===================================================================== *)
(** * More on the lumping of seeds (harmonization.h, SeedLumping) *)
(* ===================================================================== *)

Module LumpingMore.
Import MachineInt SeedDefs Lumping.

(** The seed [r] covers the seed [x]: both lie on the same diagonal, and the
    query interval of [x] lies inside the one of [r]. *)
Definition covers (r x : Seed) : Prop :=
  delta r = delta x /\ start r <= start x /\ end_ x <= end_ r.

Definition covered (l : list Seed) (x : Seed) : Prop :=
  exists r, In r l /\ covers r x.

(** The seeds are in the order of their query starts. *)
Fixpoint ascending (l : list Seed) : Prop :=
  match l with
  | [] => True
  | a :: t => Forall (fun b => start a <= start b) t /\ ascending t
  end.

(** The seed [r] is one of the seeds of [l], possibly with a larger size. *)
Definition from_input (l : list Seed) (r : Seed) : Prop :=
  exists y, In y l /\ grown_from y r.

(** Three seeds on the diagonal 0 that overlap, and one on the diagonal 10. *)
Definition exSeeds : list Seed :=
  [mkSeed 0 5 0 1 0 true 0; mkSeed 3 5 3 1 0 true 0; mkSeed 6 4 6 1 0 true 0;
   mkSeed 20 5 30 1 0 true 0].

(** ** Lumping what is lumped *)

Lemma chain_middle R l b x r : chain R (l ++ b :: x :: r) -> R b x.
Proof.
  induction l as [|a l IH]; cbn [app chain]; intros H.
  - tauto.
  - apply IH. tauto.
Qed.

Lemma lump_loop_apart rest : forall done b,
  chain apart ((done ++ [b]) ++ rest) ->
  lump_loop rest (done ++ [b]) (delta b) = (done ++ [b]) ++ rest.
Proof.
  induction rest as [|x r IH]; intros done b H.
  - cbn [lump_loop]. now rewrite app_nil_r.
  - cbn [lump_loop]. rewrite last_last.
    assert (Hbx : apart b x).
    { rewrite <- app_assoc in H. cbn [app] in H. exact (chain_middle _ _ _ _ _ H). }
    replace ((delta b =? delta x) && (start x <=? end_ b)) with false.
    + rewrite (IH (done ++ [b]) x).
      * rewrite <- !app_assoc. reflexivity.
      * rewrite <- !app_assoc in *. exact H.
    + symmetry. apply andb_false_iff. destruct Hbx as [Hd | He].
      * left. apply Z.eqb_neq. exact Hd.
      * right. apply Z.leb_gt. exact He.
Qed.

(** X20. Lumping is idempotent: on an input that is not empty and whose
    query intervals do not wrap around, lumping the result once more returns
    the result as it is. *)
Theorem lumping_idempotent :
  forall (pIn : list Seed),
    pIn <> [] -> Forall q_ok pIn ->
    exists out, execute pIn = Some out /\ execute out = Some out.
Proof.
  intros pIn Hne Hq. destruct pIn as [|x rest]; [congruence|].
  inversion Hq as [|? ? Hx Hrest]; subst.
  destruct (lump_loop_spec rest [] x (delta x) x x) as (r & out & E & _ & _ & Hc);
    cbn [app]; auto using grown_from_refl.
  - cbn [chain]. tauto.
  - cbn [app] in E. exists (r :: out). unfold execute at 1. rewrite E.
    split; [reflexivity|]. unfold execute. f_equal.
    exact (lump_loop_apart out [] r Hc).
Qed.

Lemma lumping_idempotent_witness :
  exSeeds <> [] /\ Forall q_ok exSeeds /\
  execute exSeeds = Some [mkSeed 0 10 0 1 0 true 0; mkSeed 20 5 30 1 0 true 0] /\
  exists out, execute exSeeds = Some out /\ execute out = Some out.
Proof.
  assert (Hne : exSeeds <> []) by discriminate.
  assert (Hq : Forall q_ok exSeeds)
    by (repeat constructor; unfold q_ok, two64; cbn; lia).
  split; [exact Hne|]. split; [exact Hq|]. split; [reflexivity|].
  exact (lumping_idempotent exSeeds Hne Hq).
Defined.

(** ** No seed is lost *)

Lemma delta_grow b n : delta (grow b n) = delta b.
Proof. reflexivity. Qed.

Lemma covers_refl x : covers x x.
Proof. unfold covers. repeat split; lia. Qed.

Lemma covered_app_l l1 l2 c : covered l1 c -> covered (l1 ++ l2) c.
Proof.
  intros (r & Hr & Hc). exists r. split; [apply in_or_app; left; exact Hr | exact Hc].
Qed.

Lemma covered_grow done b b' c :
  delta b' = delta b -> start b' = start b -> end_ b <= end_ b' ->
  covered (done ++ [b]) c -> covered (done ++ [b']) c.
Proof.
  intros Hd Hs He (r & Hr & Hc). apply in_app_or in Hr. destruct Hr as [Hr | Hr].
  - exists r. split; [apply in_or_app; left; exact Hr | exact Hc].
  - destruct Hr as [<- | []]. exists b'. split; [apply in_or_app; right; left; reflexivity|].
    destruct Hc as (C1 & C2 & C3). unfold covers. rewrite Hd, Hs. repeat split; lia.
Qed.

Lemma lump_loop_covered xIt : forall done b,
  Forall q_ok xIt -> Forall q_ok (done ++ [b]) ->
  Forall (fun x => start b <= start x) xIt -> ascending xIt ->
  (forall c, covered (done ++ [b]) c -> covered (lump_loop xIt (done ++ [b]) (delta b)) c) /\
  (forall x, In x xIt -> covered (lump_loop xIt (done ++ [b]) (delta b)) x).
Proof.
  induction xIt as [|x rest IH]; intros done b Hx Hp Hsb Hasc.
  - cbn [lump_loop]. split; [intros c H; exact H | intros x []].
  - inversion Hx as [|? ? Hqx Hrest]; subst.
    inversion Hsb as [|? ? Hbx Hbrest]; subst.
    destruct Hasc as [Hxrest Hasc].
    assert (Hqb : q_ok b).
    { apply Forall_app in Hp. destruct Hp as [_ Hb]. now inversion Hb. }
    assert (Hqd : Forall q_ok done) by (apply Forall_app in Hp; tauto).
    cbn [lump_loop]. rewrite last_last.
    destruct ((delta b =? delta x) && (start x <=? end_ b)) eqn:Em.
    + apply andb_true_iff in Em. destruct Em as [Ed El].
      apply Z.eqb_eq in Ed. apply Z.leb_le in El.
      destruct (Z.ltb_spec (end_ b) (end_ x)) as [Eg | Eg].
      * destruct (grow_to_end b x Hqb Hqx Eg) as (Hq' & He' & Hg').
        set (b' := grow b (u64 (end_ x - end_ b))) in *.
        unfold set_back. rewrite removelast_last.
        assert (Hsb' : start b' = start b) by reflexivity.
        destruct (IH done b') as [I1 I2]; try assumption.
        { apply Forall_app; split; [exact Hqd | constructor; [exact Hq' | constructor]]. }
        change (delta b') with (delta b) in I1, I2.
        split.
        -- intros c Hc. apply I1.
           apply (covered_grow done b b' c); [reflexivity | exact Hsb' | lia | exact Hc].
        -- intros y [<- | Hy]; [|apply I2; exact Hy].
           apply I1. exists b'. split; [apply in_or_app; right; left; reflexivity|].
           unfold covers. change (delta b') with (delta b). rewrite Hsb'. repeat split; lia.
      * destruct (IH done b) as [I1 I2]; try assumption.
        split; [exact I1|].
        intros y [<- | Hy]; [|apply I2; exact Hy].
        apply I1. exists b. split; [apply in_or_app; right; left; reflexivity|].
        unfold covers. repeat split; lia.
    + destruct (IH (done ++ [b]) x) as [I1 I2]; try assumption.
      { apply Forall_app; split; [exact Hp | constructor; [exact Hqx | constructor]]. }
      split.
      * intros c Hc. apply I1. apply covered_app_l. exact Hc.
      * intros y [<- | Hy]; [|apply I2; exact Hy].
        apply I1. exists x. split; [apply in_or_app; right; left; reflexivity|].
        apply covers_refl.
Qed.

(** X21. Lumping loses no seed: for an input that is not empty, in the order
    of the query starts and without wrap-around, every seed of the input is
    covered by a seed of the result: a seed on the same diagonal whose query
    interval holds the one of the input seed. *)
Theorem lumping_covers :
  forall (pIn : list Seed),
    pIn <> [] -> Forall q_ok pIn -> ascending pIn ->
    exists out,
      execute pIn = Some out /\
      forall x, In x pIn ->
        exists r, In r out /\ delta r = delta x /\
                  start r <= start x /\ end_ x <= end_ r.
Proof.
  intros pIn Hne Hq Hasc. destruct pIn as [|x rest]; [congruence|].
  inversion Hq as [|? ? Hx Hrest]; subst. destruct Hasc as [Hxrest Hasc].
  exists (lump_loop rest [x] (delta x)). split; [reflexivity|].
  destruct (lump_loop_covered rest [] x Hrest) as [I1 I2]; try assumption.
  { constructor; [exact Hx | constructor]. }
  cbn [app] in I1, I2.
  intros y [<- | Hy].
  - apply I1. exists x. split; [left; reflexivity | apply covers_refl].
  - apply I2. exact Hy.
Qed.

Lemma lumping_covers_witness :
  exSeeds <> [] /\ Forall q_ok exSeeds /\ ascending exSeeds /\
  exists out,
    execute exSeeds = Some out /\
    forall x, In x exSeeds ->
      exists r, In r out /\ delta r = delta x /\
                start r <= start x /\ end_ x <= end_ r.
Proof.
  assert (Hne : exSeeds <> []) by discriminate.
  assert (Hq : Forall q_ok exSeeds)
    by (repeat constructor; unfold q_ok, two64; cbn; lia).
  assert (Ha : ascending exSeeds)
    by (cbn; repeat split; repeat constructor; cbn; lia).
  split; [exact Hne|]. split; [exact Hq|]. split; [exact Ha|].
  exact (lumping_covers exSeeds Hne Hq Ha).
Defined.

(** ** The seeds of the result *)

Lemma lump_loop_origin xIt : forall done b orig,
  Forall q_ok xIt -> Forall q_ok (done ++ [b]) ->
  (forall r, In r (done ++ [b]) -> from_input orig r) ->
  (forall x, In x xIt -> In x orig) ->
  let out := lump_loop xIt (done ++ [b]) (delta b) in
  (forall r, In r out -> from_input orig r) /\
  (List.length out <= List.length (done ++ [b]) + List.length xIt)%nat.
Proof.
  induction xIt as [|x rest IH]; intros done b orig Hx Hp Hfrom Hin; cbv zeta.
  - cbn [lump_loop List.length]. split; [exact Hfrom | lia].
  - inversion Hx as [|? ? Hqx Hrest]; subst.
    assert (Hqb : q_ok b).
    { apply Forall_app in Hp. destruct Hp as [_ Hb]. now inversion Hb. }
    assert (Hqd : Forall q_ok done) by (apply Forall_app in Hp; tauto).
    cbn [lump_loop]. rewrite last_last.
    destruct ((delta b =? delta x) && (start x <=? end_ b)).
    + destruct (Z.ltb_spec (end_ b) (end_ x)) as [Eg | Eg].
      * destruct (grow_to_end b x Hqb Hqx Eg) as (Hq' & He' & Hg').
        set (b' := grow b (u64 (end_ x - end_ b))) in *.
        unfold set_back. rewrite removelast_last.
        destruct (IH done b' orig) as [I1 I2]; try assumption.
        { apply Forall_app; split; [exact Hqd | constructor; [exact Hq' | constructor]]. }
        { intros r Hr. apply in_app_or in Hr. destruct Hr as [Hr | [<- | []]].
          - apply Hfrom. apply in_or_app. left. exact Hr.
          - destruct (Hfrom b) as (y & Hy & Hg);
              [apply in_or_app; right; left; reflexivity|].
            exists y. split; [exact Hy | exact (grown_from_trans _ _ _ Hg Hg')]. }
        { intros y Hy. apply Hin. right. exact Hy. }
        cbv zeta in I1, I2. change (delta b') with (delta b) in I1, I2.
        split; [exact I1|]. rewrite !length_app in *. cbn [List.length] in *. lia.
      * destruct (IH done b orig) as [I1 I2]; try assumption.
        { intros y Hy. apply Hin. right. exact Hy. }
        cbv zeta in I1, I2. split; [exact I1|]. cbn [List.length]. lia.
    + destruct (IH (done ++ [b]) x orig) as [I1 I2]; try assumption.
      { apply Forall_app; split; [exact Hp | constructor; [exact Hqx | constructor]]. }
      { intros r Hr. apply in_app_or in Hr. destruct Hr as [Hr | [<- | []]].
        - apply Hfrom. exact Hr.
        - exists x. split; [apply Hin; left; reflexivity | apply grown_from_refl]. }
      { intros y Hy. apply Hin. right. exact Hy. }
      cbv zeta in I1, I2. split; [exact I1|].
      rewrite !length_app in *. cbn [List.length] in *. lia.
Qed.

(** X22. Lumping invents no seed: for an input that is not empty and without
    wrap-around, the result has at least one and at most as many seeds as the
    input, and each seed of the result is a seed of the input (the same query
    start, reference start, strand and other fields) whose size is the same
    or larger. *)
Theorem lumping_output_from_input :
  forall (pIn : list Seed),
    pIn <> [] -> Forall q_ok pIn ->
    exists out,
      execute pIn = Some out /\
      (1 <= List.length out <= List.length pIn)%nat /\
      forall r, In r out -> exists y, In y pIn /\ grown_from y r.
Proof.
  intros pIn Hne Hq. destruct pIn as [|x rest]; [congruence|].
  inversion Hq as [|? ? Hx Hrest]; subst.
  exists (lump_loop rest [x] (delta x)). split; [reflexivity|].
  destruct (lump_loop_spec rest [] x (delta x) x x) as (r & out & E & _);
    cbn [app]; auto using grown_from_refl.
  { cbn [chain]. tauto. }
  cbn [app] in E.
  destruct (lump_loop_origin rest [] x (x :: rest) Hrest) as [I1 I2].
  - constructor; [exact Hx | constructor].
  - intros r0 [<- | []]. exists x. split; [left; reflexivity | apply grown_from_refl].
  - intros y Hy. right. exact Hy.
  - cbv zeta in I1, I2. cbn [app List.length] in I1, I2.
    split; [|exact I1]. rewrite E in *. cbn [List.length] in *. lia.
Qed.

Lemma lumping_output_witness :
  exSeeds <> [] /\ Forall q_ok exSeeds /\
  exists out,
    execute exSeeds = Some out /\
    (1 <= List.length out <= List.length exSeeds)%nat /\
    forall r, In r out -> exists y, In y exSeeds /\ grown_from y r.
Proof.
  assert (Hne : exSeeds <> []) by discriminate.
  assert (Hq : Forall q_ok exSeeds)
    by (repeat constructor; unfold q_ok, two64; cbn; lia).
  split; [exact Hne|]. split; [exact Hq|].
  exact (lumping_output_from_input exSeeds Hne Hq).
Defined.

End LumpingMore.

(* ===================================================================== *)
(** * The runs that fill a gap (needlemanWunsch.cpp) *)
(* ===================================================================== *)

Module GapFillMore.
Import MachineInt SeedDefs GapFill.

(** The query ACGT and the reference ACT. *)
Definition exQuery : list Z := [0; 1; 2; 3].
Definition exRef : list Z := [0; 1; 3].

(** X23. Filling a gap takes the whole gap.  The gap [fromQuery, toQuery) of
    the query and [fromRef, toRef) of the reference lies inside the two
    sequences; with [n] and [m] the lengths of its sides, [50 * (n + m)] is
    below 2^31, so that every score fits an [int], and the tables of
    [(n + 1) * (m + 1)] cells fit the stack.  Then [needlemanWunsch] returns,
    and the runs it adds to the alignment (each of one step) take exactly
    [n] positions of the query and [m] positions of the reference; for an
    empty side they take none of it. *)
Theorem gap_fill_lengths :
  forall (uiStackCells : Z) (pQuery pRef : list Z)
         (fromQuery toQuery fromRef toRef : Z) (a : Alignment),
    0 <= fromQuery -> toQuery <= Z.of_nat (List.length pQuery) -> toQuery < two64 ->
    0 <= fromRef -> toRef <= Z.of_nat (List.length pRef) -> toRef < two64 ->
    let n := Z.max 0 (toQuery - fromQuery) in
    let m := Z.max 0 (toRef - fromRef) in
    50 * (n + m) < 2 ^ 31 ->
    (n + 1) * (m + 1) <= uiStackCells ->
    exists a' g,
      needlemanWunsch uiStackCells pQuery pRef fromQuery toQuery fromRef toRef a
        = Some a' /\
      uiBeginOnRef a' = uiBeginOnRef a /\ uiEndOnRef a' = uiEndOnRef a /\
      data a' = data a ++ g /\
      Forall (fun r => snd r = 1) g /\
      queryLengthOf g = n /\
      refLengthOf g = m.
Proof.
  intros cells pQuery pRef fromQuery toQuery fromRef toRef a
         HfQ HtQ HtQ' HfR HtR HtR' n m HB HS.
  destruct (needlemanWunsch_fills cells pQuery pRef fromQuery toQuery fromRef toRef a
              HfQ HtQ HtQ' HfR HtR HtR' HB HS)
    as (a' & g & E & (B & En & D) & F & Q & R).
  exists a', g. split; [exact E|].
  split; [exact B|]. split; [exact En|]. split; [exact D|].
  split; [exact F|]. split; [exact Q | exact R].
Qed.

Lemma gap_fill_lengths_witness :
  exists a' g,
    needlemanWunsch 20 exQuery exRef 0 4 0 3 (mkAlignment 0 3 []) = Some a' /\
    uiBeginOnRef a' = 0 /\ uiEndOnRef a' = 3 /\
    data a' = [] ++ g /\
    Forall (fun r => snd r = 1) g /\
    queryLengthOf g = Z.max 0 (4 - 0) /\
    refLengthOf g = Z.max 0 (3 - 0).
Proof.
  refine (gap_fill_lengths 20 exQuery exRef 0 4 0 3 (mkAlignment 0 3 [])
            _ _ _ _ _ _ _ _);
    unfold two64; cbn; lia.
Defined.

(** The gap between ACGT and ACT is filled by two matches, an insertion and
    a match.  The tables have 20 cells: a stack for 19 cells gives no
    alignment, and neither does a gap that ends behind the query. *)
Example gap_fill_example :
  needlemanWunsch 20 exQuery exRef 0 4 0 3 (mkAlignment 0 3 []) =
    Some (mkAlignment 0 3 [(match_, 1); (match_, 1); (insertion, 1); (match_, 1)]) /\
  needlemanWunsch 19 exQuery exRef 0 4 0 3 (mkAlignment 0 3 []) = None /\
  needlemanWunsch 64 exQuery exRef 0 5 0 3 (mkAlignment 0 3 []) = None.
Proof. vm_compute. repeat split. Qed.

End GapFillMore.

(* ===================================================================== *)
(** * The rectangle between two seeds (svJumpsFromSeeds.cpp) *)
(* ===================================================================== *)

Module SvReseedMore.
Import MachineInt SeedDefs PackStore SvReseed.

Section Rectangles.

#[local] Set Default Proof Using "Type".

(** The parameters that the construction of the rectangles reads. *)
Variable iMaxSizeReseed : Z.
Variable extraSeedingArea : Z -> Z.
Variable xDummySeed : Seed.

(** X24. Two seeds of one strand that follow each other on the query and in
    the direction of the strand on the reference, at most [iMaxSizeReseed]
    apart and with both reference ends in one contig, give one rectangle and
    an empty second one.  The rectangle spans the gap between the seeds: on
    the query from the end of [last] to the start of [next]; on the reference
    from the end of [last] to the start of [next] for forward seeds, and from
    the position behind the start of [next] to the lowest position of [last]
    for reverse seeds. *)
Theorem rectangle_between_seeds :
  forall (last next : Seed) (uiQStart uiQEnd : Z) (p : Pack),
    let iLastRef := lastRef iMaxSizeReseed extraSeedingArea xDummySeed
                            (Some last) (Some next) uiQStart p in
    let iNextRef := nextRef iMaxSizeReseed extraSeedingArea xDummySeed
                            (Some last) (Some next) uiQEnd p in
    let r := getPositionsForSeeds iMaxSizeReseed extraSeedingArea xDummySeed
                                  (Some last) (Some next) uiQStart uiQEnd p in
    size_ok p -> seed_on_reference p last -> seed_on_reference p next ->
    end_ last <= start next -> start next < 2 ^ 63 ->
    end_ last < uiQEnd -> uiQStart < start next ->
    uiSequenceIdForPosition p (u64 iLastRef) =
      uiSequenceIdForPosition p (u64 (iNextRef - 1)) ->
    (bOnForwStrand last = true -> bOnForwStrand next = true ->
     end_ref last < start_ref next ->
     start_ref next - end_ref last <= iMaxSizeReseed ->
     iLastRef = end_ref last /\ iNextRef = start_ref next /\
     r = (Rectangle_ (end_ref last) (end_ last)
                     (start_ref next - end_ref last) (start next - end_ last),
          emptyRect)) /\
    (bOnForwStrand last = false -> bOnForwStrand next = false ->
     start_ref next + 1 < start_ref last + 1 - size last ->
     start_ref last - size last - start_ref next <= iMaxSizeReseed ->
     iLastRef = start_ref last + 1 - size last /\ iNextRef = start_ref next + 1 /\
     r = (Rectangle_ (start_ref next + 1) (end_ last)
                     (start_ref last - size last - start_ref next)
                     (start next - end_ last),
          emptyRect)).
Proof.
  intros last next uiQStart uiQEnd p iLastRef iNextRef r Hs [Hlok Hlref] [Hnok Hnref]
         Hq1 Hq63 Hq2 Hq3 Hid.
  pose proof (end_ok last Hlok) as Eend.
  pose proof (end_ref_ok last Hlok) as Eref.
  unfold size_ok in Hs.
  assert (Hempty : emptyAtOnce (Some last) (Some next) uiQStart uiQEnd = false).
  { unfold emptyAtOnce.
    replace (start next <? end_ last) with false by (symmetry; apply Z.ltb_ge; lia).
    replace (uiQEnd <=? end_ last) with false by (symmetry; apply Z.leb_gt; lia).
    replace (start next <=? uiQStart) with false by (symmetry; apply Z.leb_gt; lia).
    reflexivity. }
  assert (Hy : forall x w,
            Rectangle_ (u64 x) (u64 (i64 (end_ last))) (u64 w)
                       (u64 (i64 (start next) - i64 (end_ last))) =
            Rectangle_ (u64 x) (end_ last) (u64 w) (start next - end_ last)).
  { intros x w. unfold seed_ok in Hlok, Hnok. unfold start in *.
    rewrite !i64_small by (unfold in_i64, two63; lia).
    rewrite (u64_small (end_ last)), (u64_small (iStart next - end_ last))
      by (unfold in_u64, two64; lia).
    reflexivity. }
  split; intros Hfl Hfn Hgap Hmax.
  - rewrite Hfl in Hlref. rewrite Hfn in Hnref.
    assert (El : iLastRef = end_ref last).
    { unfold iLastRef, lastRef. rewrite Hfl. apply i64_small.
      rewrite Eref. unfold seed_ok in Hlok.
      unfold in_i64, two63. lia. }
    assert (En : iNextRef = start_ref next).
    { unfold iNextRef, nextRef. rewrite Hfn. apply i64_small.
      unfold seed_ok in Hnok. unfold start_ref.
      unfold in_i64, two63. lia. }
    split; [exact El|]. split; [exact En|].
    unfold r. rewrite rectangle_single; try assumption.
    + fold iLastRef iNextRef. rewrite El, En. unfold rectBetween. cbv zeta.
      rewrite Z.min_l, Z.max_r by lia. rewrite Hy.
      unfold seed_ok in Hlok, Hnok. unfold start_ref in *. rewrite Eref in *.
      rewrite !u64_small by (unfold in_u64, two64; lia). reflexivity.
    + fold iLastRef iNextRef. rewrite El, En. lia.
    + fold iLastRef iNextRef. unfold needsSplit, refSize. cbv zeta.
      rewrite Hfl, Hfn. cbn [andb]. rewrite Hid, Z.eqb_refl. cbn [negb].
      rewrite El, En.
      replace (iMaxSizeReseed <? start_ref next - end_ref last) with false
        by (symmetry; apply Z.ltb_ge; lia).
      replace (start_ref next - end_ref last <? 0) with false
        by (symmetry; apply Z.ltb_ge; lia).
      reflexivity.
  - rewrite Hfl in Hlref. rewrite Hfn in Hnref. destruct Hlref as [Hl1 Hl2].
    destruct Hnref as [Hn1 Hn2].
    unfold seed_ok in Hlok, Hnok. unfold start_ref, size in *.
    assert (El : iLastRef = uiPosOnReference last + 1 - iSize last).
    { unfold iLastRef, lastRef. rewrite Hfl. unfold start_ref, size.
      rewrite u64_add_l, i64_of_u64.
      rewrite (i64_small (uiPosOnReference last)) by (unfold in_i64, two63; lia).
      replace (uiPosOnReference last - iSize last + 1)
        with (uiPosOnReference last + 1 - iSize last) by lia.
      apply i64_small. unfold in_i64, two63. lia. }
    assert (En : iNextRef = uiPosOnReference next + 1).
    { unfold iNextRef, nextRef. rewrite Hfn. unfold start_ref.
      rewrite i64_small by (unfold in_i64, two63; lia). reflexivity. }
    split; [exact El|]. split; [exact En|].
    unfold r. rewrite rectangle_single; try assumption.
    + fold iLastRef iNextRef. rewrite El, En. unfold rectBetween. cbv zeta.
      rewrite Z.min_r, Z.max_l by lia. rewrite Hy.
      rewrite !u64_small by (unfold in_u64, two64; lia).
      f_equal. unfold Rectangle_. f_equal. f_equal. lia.
    + fold iLastRef iNextRef. rewrite El, En. lia.
    + fold iLastRef iNextRef. unfold needsSplit, refSize. cbv zeta.
      rewrite Hfl, Hfn. cbn [andb negb]. rewrite Hid, Z.eqb_refl. cbn [negb].
      rewrite El, En.
      replace (iMaxSizeReseed <?
               uiPosOnReference last + 1 - iSize last - (uiPosOnReference next + 1))
        with false by (symmetry; apply Z.ltb_ge; lia).
      replace (uiPosOnReference last + 1 - iSize last - (uiPosOnReference next + 1) <? 0)
        with false by (symmetry; apply Z.ltb_ge; lia).
      reflexivity.
Qed.

(** X25. Next to a single seed (the other seed of the pair is the dummy
    seed, at the two ends of a read) the construction gives one rectangle and
    an empty second one.  The rectangle is empty, or it lies inside the
    contig of the position the seed points to and is at most
    [iMaxSizeReseed / 2] wide. *)
Theorem rectangle_next_to_seed :
  forall (rLast rNext : option Seed) (uiQStart uiQEnd : Z) (p : Pack) (s : Seed),
    params_ok iMaxSizeReseed extraSeedingArea ->
    size_ok p -> contigs_ok p -> 0 < uiUnpackedSizeForwardStrand p ->
    seed_on_reference p s ->
    (rLast = Some s /\ rNext = None) \/ (rLast = None /\ rNext = Some s) ->
    let r := getPositionsForSeeds iMaxSizeReseed extraSeedingArea xDummySeed
                                  rLast rNext uiQStart uiQEnd p in
    snd r = emptyRect /\
    (fst r = emptyRect \/
     rectWithin p (uiSequenceIdForPosition p (anchor rLast rNext))
                (Z.quot iMaxSizeReseed 2) (fst r)).
Proof.
  intros rLast rNext uiQStart uiQEnd p s Hp Hs Hc HL Hseed Hside.
  exact (one_sided_rectangle iMaxSizeReseed extraSeedingArea xDummySeed
           rLast rNext uiQStart uiQEnd p s Hp Hs Hc HL Hseed Hside).
Qed.

End Rectangles.

(** Two forward seeds of 10 bases in the contig of 2000 bases: the first on
    the query [0, 10) and the reference [100, 110), the second on the query
    [30, 40) and the reference [150, 160). *)
Lemma rectangle_between_seeds_witness :
  let last := mkSeed 0 10 100 1 0 true 0 in
  let next := mkSeed 30 10 150 1 0 true 0 in
  size_ok oneContig /\ seed_on_reference oneContig last /\
  seed_on_reference oneContig next /\
  getPositionsForSeeds 100 exArea exDummySeed (Some last) (Some next) 0 500 oneContig =
    (Rectangle_ (end_ref last) (end_ last) (start_ref next - end_ref last)
                (start next - end_ last), emptyRect) /\
  getPositionsForSeeds 100 exArea exDummySeed (Some last) (Some next) 0 500 oneContig =
    (Rectangle_ 110 10 40 20, emptyRect).
Proof.
  cbv zeta.
  assert (Hs : size_ok oneContig) by (unfold size_ok; cbn; lia).
  assert (Hl : seed_on_reference oneContig (mkSeed 0 10 100 1 0 true 0))
    by (unfold seed_on_reference, seed_ok, two64; cbn; lia).
  assert (Hn : seed_on_reference oneContig (mkSeed 30 10 150 1 0 true 0))
    by (unfold seed_on_reference, seed_ok, two64; cbn; lia).
  split; [exact Hs|]. split; [exact Hl|]. split; [exact Hn|].
  split; [|vm_compute; reflexivity].
  pose proof (rectangle_between_seeds 100 exArea exDummySeed
                (mkSeed 0 10 100 1 0 true 0) (mkSeed 30 10 150 1 0 true 0) 0 500 oneContig)
    as H.
  cbv zeta in H.
  assert (H1 : end_ (mkSeed 0 10 100 1 0 true 0) <= start (mkSeed 30 10 150 1 0 true 0))
    by (vm_compute; discriminate).
  assert (H2 : start (mkSeed 30 10 150 1 0 true 0) < 2 ^ 63) by (vm_compute; reflexivity).
  assert (H3 : end_ (mkSeed 0 10 100 1 0 true 0) < 500) by (vm_compute; reflexivity).
  assert (H4 : 0 < start (mkSeed 30 10 150 1 0 true 0)) by (vm_compute; reflexivity).
  destruct (H Hs Hl Hn H1 H2 H3 H4) as [Hf _]; [vm_compute; reflexivity|].
  assert (G1 : end_ref (mkSeed 0 10 100 1 0 true 0) < start_ref (mkSeed 30 10 150 1 0 true 0))
    by (vm_compute; reflexivity).
  assert (G2 : start_ref (mkSeed 30 10 150 1 0 true 0) - end_ref (mkSeed 0 10 100 1 0 true 0)
               <= 100) by (vm_compute; discriminate).
  exact (proj2 (proj2 (Hf eq_refl eq_refl G1 G2))).
Defined.

(** The rectangle behind the last seed of a read of 500 bases. *)
Lemma rectangle_next_to_seed_witness :
  let last := mkSeed 0 10 100 1 0 true 0 in
  size_ok oneContig /\ contigs_ok oneContig /\ seed_on_reference oneContig last /\
  getPositionsForSeeds 100 exArea exDummySeed (Some last) None 0 500 oneContig =
    (Rectangle_ 110 10 50 490, emptyRect) /\
  snd (getPositionsForSeeds 100 exArea exDummySeed (Some last) None 0 500 oneContig) =
    emptyRect.
Proof.
  cbv zeta.
  assert (Hs : size_ok oneContig) by (unfold size_ok; cbn; lia).
  assert (Hc : contigs_ok oneContig) by (unfold contigs_ok; cbn; lia).
  assert (Hl : seed_on_reference oneContig (mkSeed 0 10 100 1 0 true 0))
    by (unfold seed_on_reference, seed_ok, two64; cbn; lia).
  assert (HL : 0 < uiUnpackedSizeForwardStrand oneContig) by (cbn; lia).
  split; [exact Hs|]. split; [exact Hc|]. split; [exact Hl|].
  split; [vm_compute; reflexivity|].
  exact (proj1 (rectangle_next_to_seed 100 exArea exDummySeed
                  (Some (mkSeed 0 10 100 1 0 true 0)) None 0 500 oneContig
                  (mkSeed 0 10 100 1 0 true 0) exArea_params Hs Hc HL Hl
                  (or_introl (conj eq_refl eq_refl)))).
Defined.

End SvReseedMore.

(* ===================================================================== *)
(** * The order of seeds and the main strand of a seed set (seed.h) *)
(* ===================================================================== *)

Module SeedsMore.
Import MachineInt SeedDefs.

(** [Seed::operator==]: the query interval, the reference position and the
    strand. *)
Definition seedEq (a b : Seed) : bool :=
  ((iStart a =? iStart b) && (iSize a =? iSize b)) &&
  (uiPosOnReference a =? uiPosOnReference b) &&
  Bool.eqb (bOnForwStrand a) (bOnForwStrand b).

(** [Seed::operator<]: the first of the query start, the reference start, the
    size, the strand (forward first), the ambiguity, the SoC number and the
    delta that differs decides. *)
Definition seedLt (a b : Seed) : bool :=
  if negb (start a =? start b) then start a <? start b
  else if negb (start_ref a =? start_ref b) then start_ref a <? start_ref b
  else if negb (size a =? size b) then size a <? size b
  else if negb (Bool.eqb (bOnForwStrand a) (bOnForwStrand b)) then bOnForwStrand a
  else if negb (uiAmbiguity a =? uiAmbiguity b) then uiAmbiguity a <? uiAmbiguity b
  else if negb (uiSoCNt a =? uiSoCNt b) then uiSoCNt a <? uiSoCNt b
  else if negb (uiDelta a =? uiDelta b) then uiDelta a <? uiDelta b
  else false.

(** The loop of [Seeds::mainStrandIsForward] over the seeds that are left,
    with the two counters and [size( )]. *)
Fixpoint mainStrandLoop (l : list Seed) (uiForw uiRev uiSize : Z) : bool :=
  match l with
  | [] => uiRev <=? uiForw
  | rS :: t =>
      let uiForw' := if bOnForwStrand rS then u64 (uiForw + 1) else uiForw in
      let uiRev' := if bOnForwStrand rS then uiRev else u64 (uiRev + 1) in
      if uiSize <=? u64 (uiForw' * 2) then true
      else if uiSize <=? u64 (uiRev' * 2) then false
      else mainStrandLoop t uiForw' uiRev' uiSize
  end.

Definition mainStrandIsForward (vContent : list Seed) : bool :=
  mainStrandLoop vContent 0 0 (Z.of_nat (List.length vContent)).

(** The numbers of seeds on the forward and on the reverse strand. *)
Definition countForward (l : list Seed) : Z :=
  Z.of_nat (List.length (filter bOnForwStrand l)).

Definition countReverse (l : list Seed) : Z :=
  Z.of_nat (List.length (filter (fun s => negb (bOnForwStrand s)) l)).

(** The values that [operator<] compares, in its order. *)
Definition keys (s : Seed) : list Z :=
  [start s; start_ref s; size s; (if bOnForwStrand s then 0 else 1);
   uiAmbiguity s; uiSoCNt s; uiDelta s].

(** The order of two lists of values by the first value that differs. *)
Fixpoint lexLt (a b : list Z) : bool :=
  match a, b with
  | x :: a', y :: b' => if negb (x =? y) then x <? y else lexLt a' b'
  | _, _ => false
  end.

(** ** The order of seeds *)

Lemma seedLt_keys a b : seedLt a b = lexLt (keys a) (keys b).
Proof.
  unfold seedLt, keys. cbn [lexLt].
  destruct (negb (start a =? start b)); [reflexivity|].
  destruct (negb (start_ref a =? start_ref b)); [reflexivity|].
  destruct (negb (size a =? size b)); [reflexivity|].
  destruct (bOnForwStrand a), (bOnForwStrand b); reflexivity.
Qed.

Lemma lexLt_irrefl a : lexLt a a = false.
Proof.
  induction a as [|x a IH]; [reflexivity|].
  cbn [lexLt]. rewrite Z.eqb_refl. exact IH.
Qed.

Lemma lexLt_trans a : forall b c,
  lexLt a b = true -> lexLt b c = true -> lexLt a c = true.
Proof.
  induction a as [|x a IH]; intros b c H1 H2; [discriminate H1|].
  destruct b as [|y b]; [discriminate H1|].
  destruct c as [|z c]; [discriminate H2|].
  cbn [lexLt] in *.
  destruct (Z.eqb_spec x y) as [Exy | Exy]; cbn [negb] in *;
    destruct (Z.eqb_spec y z) as [Eyz | Eyz]; cbn [negb] in *;
    destruct (Z.eqb_spec x z) as [Exz | Exz]; cbn [negb];
    try (apply Z.ltb_lt in H1); try (apply Z.ltb_lt in H2); try (apply Z.ltb_lt);
    try lia; exact (IH _ _ H1 H2).
Qed.

Lemma lexLt_total a : forall b,
  List.length a = List.length b ->
  lexLt a b = false -> lexLt b a = false -> a = b.
Proof.
  induction a as [|x a IH]; intros b Hlen H1 H2.
  - destruct b; [reflexivity | discriminate Hlen].
  - destruct b as [|y b]; [discriminate Hlen|].
    cbn [lexLt] in *. injection Hlen as Hlen.
    destruct (Z.eqb_spec x y) as [-> | Exy]; cbn [negb] in *.
    + rewrite Z.eqb_refl in H2. cbn [negb] in H2. f_equal. exact (IH _ Hlen H1 H2).
    + destruct (Z.eqb_spec y x) as [Eyx | Eyx]; [congruence|]. cbn [negb] in H2.
      apply Z.ltb_ge in H1. apply Z.ltb_ge in H2. lia.
Qed.

Lemma keys_inj a b : keys a = keys b -> a = b.
Proof.
  destruct a as [a1 a2 a3 a4 a5 a6 a7], b as [b1 b2 b3 b4 b5 b6 b7].
  unfold keys, start, start_ref, size. cbn.
  intros H. injection H as E1 E3 E2 E6 E4 E5 E7. subst.
  destruct a6, b6; try reflexivity; discriminate.
Qed.

(** X26. [Seed::operator<] is a strict total order of seeds: no seed is less
    than itself, the order is transitive, and of two seeds that differ in any
    field exactly one is less than the other.  Two seeds of which neither is
    less are the same seed, and equal for [operator==]. *)
Theorem seed_order_strict_total :
  forall (a b c : Seed),
    seedLt a a = false /\
    (seedLt a b = true -> seedLt b c = true -> seedLt a c = true) /\
    (seedLt a b = true -> seedLt b a = false) /\
    (seedLt a b = false -> seedLt b a = false -> a = b /\ seedEq a b = true).
Proof.
  intros a b c. rewrite !seedLt_keys.
  split; [apply lexLt_irrefl|]. split; [apply lexLt_trans|]. split.
  - intros H. destruct (lexLt (keys b) (keys a)) eqn:E; [|reflexivity].
    pose proof (lexLt_trans _ _ _ H E) as Hab. rewrite lexLt_irrefl in Hab.
    discriminate Hab.
  - intros H1 H2.
    assert (E : a = b) by (apply keys_inj; apply lexLt_total; [reflexivity | assumption..]).
    split; [exact E|]. subst b. unfold seedEq.
    rewrite !Z.eqb_refl. destruct (bOnForwStrand a); reflexivity.
Qed.

(** A forward seed comes before the reverse seed with the same positions and
    size. *)
Example seed_order_example :
  seedLt (mkSeed 5 10 40 1 0 true 0) (mkSeed 5 10 40 1 0 false 0) = true /\
  seedLt (mkSeed 5 10 40 1 0 false 0) (mkSeed 5 10 40 1 0 true 0) = false /\
  seedLt (mkSeed 5 10 40 9 0 true 0) (mkSeed 5 11 40 1 0 true 0) = true.
Proof. repeat split. Qed.

(** ** The main strand *)

Lemma counts_cons s t :
  countForward (s :: t) = (if bOnForwStrand s then 1 else 0) + countForward t /\
  countReverse (s :: t) = (if bOnForwStrand s then 0 else 1) + countReverse t.
Proof.
  unfold countForward, countReverse. cbn [filter].
  destruct (bOnForwStrand s); cbn [negb List.length]; lia.
Qed.

Lemma counts_length l :
  countForward l + countReverse l = Z.of_nat (List.length l) /\
  0 <= countForward l /\ 0 <= countReverse l.
Proof.
  induction l as [|s t IH].
  - unfold countForward, countReverse. cbn. lia.
  - destruct (counts_cons s t) as [E1 E2]. rewrite E1, E2. cbn [List.length].
    destruct (bOnForwStrand s); lia.
Qed.

Lemma last_of_one_strand (b : bool) d l :
  l <> [] -> (if b then countReverse l else countForward l) = 0 ->
  bOnForwStrand (last l d) = b.
Proof.
  induction l as [|s t IH]; intros Hne H0; [congruence|].
  destruct (counts_cons s t) as [E1 E2].
  destruct (counts_length t) as (_ & P1 & P2).
  destruct t as [|s' t'].
  - cbn [last]. destruct b; [rewrite E2 in H0 | rewrite E1 in H0];
      destruct (bOnForwStrand s); try reflexivity; lia.
  - change (last (s :: s' :: t') d) with (last (s' :: t') d).
    apply IH; [discriminate|].
    destruct b; [rewrite E2 in H0 | rewrite E1 in H0];
      destruct (bOnForwStrand s); lia.
Qed.

Lemma mainStrandLoop_spec d l : forall f r n,
  l <> [] -> 0 <= f -> 0 <= r -> n = f + r + Z.of_nat (List.length l) -> n < 2 ^ 62 ->
  2 * f < n -> 2 * r < n ->
  let F := f + countForward l in
  let R := r + countReverse l in
  (R < F -> mainStrandLoop l f r n = true) /\
  (F < R -> mainStrandLoop l f r n = false) /\
  (F = R -> mainStrandLoop l f r n = negb (bOnForwStrand (last l d))).
Proof.
  induction l as [|s t IH]; intros f r n Hne Hf Hr Hn Hsmall H2f H2r; [congruence|].
  cbv zeta.
  destruct (counts_cons s t) as [E1 E2]. rewrite E1, E2.
  destruct (counts_length t) as (Hsum & P1 & P2).
  cbn [List.length] in Hn. rewrite Nat2Z.inj_succ in Hn.
  cbn [mainStrandLoop].
  destruct (bOnForwStrand s) eqn:Hs.
  - rewrite (u64_small (f + 1)) by (unfold in_u64, two64; lia).
    rewrite (u64_small ((f + 1) * 2)), (u64_small (r * 2)) by (unfold in_u64, two64; lia).
    destruct (Z.leb_spec n ((f + 1) * 2)) as [Hret | Hgo].
    + split; [reflexivity|]. split; [lia|].
      intros E.
      assert (Ht : t <> []).
      { intros ->. change (countForward []) with 0 in *.
        change (countReverse []) with 0 in *. cbn [List.length] in *. lia. }
      assert (Hlast : bOnForwStrand (last (s :: t) d) = false).
      { destruct t as [|s' t']; [congruence|].
        change (last (s :: s' :: t') d) with (last (s' :: t') d).
        apply (last_of_one_strand false); [discriminate | lia]. }
      rewrite Hlast. reflexivity.
    + replace (n <=? r * 2) with false by (symmetry; apply Z.leb_gt; lia).
      assert (Ht : t <> []).
      { intros ->. cbn [List.length] in *. lia. }
      destruct (IH (f + 1) r n Ht) as (I1 & I2 & I3); try lia.
      cbv zeta in I1, I2, I3.
      assert (El : last (s :: t) d = last t d).
      { destruct t; [congruence | reflexivity]. }
      rewrite El.
      split; [intros H; apply I1; lia|]. split; [intros H; apply I2; lia|].
      intros H; apply I3; lia.
  - rewrite (u64_small (r + 1)) by (unfold in_u64, two64; lia).
    rewrite (u64_small ((r + 1) * 2)), (u64_small (f * 2)) by (unfold in_u64, two64; lia).
    replace (n <=? f * 2) with false by (symmetry; apply Z.leb_gt; lia).
    destruct (Z.leb_spec n ((r + 1) * 2)) as [Hret | Hgo].
    + split; [lia|]. split; [reflexivity|].
      intros E.
      assert (Ht : t <> []).
      { intros ->. change (countForward []) with 0 in *.
        change (countReverse []) with 0 in *. cbn [List.length] in *. lia. }
      assert (Hlast : bOnForwStrand (last (s :: t) d) = true).
      { destruct t as [|s' t']; [congruence|].
        change (last (s :: s' :: t') d) with (last (s' :: t') d).
        apply (last_of_one_strand true); [discriminate | lia]. }
      rewrite Hlast. reflexivity.
    + assert (Ht : t <> []).
      { intros ->. cbn [List.length] in *. lia. }
      destruct (IH f (r + 1) n Ht) as (I1 & I2 & I3); try lia.
      cbv zeta in I1, I2, I3.
      assert (El : last (s :: t) d = last t d).
      { destruct t; [congruence | reflexivity]. }
      rewrite El.
      split; [intros H; apply I1; lia|]. split; [intros H; apply I2; lia|].
      intros H; apply I3; lia.
Qed.

(** X27. [Seeds::mainStrandIsForward] answers by the majority of the seeds:
    true when more seeds lie on the forward strand, false when more lie on
    the reverse strand.  With as many seeds on either strand the answer
    depends on the order: it is true exactly when the last seed lies on the
    reverse strand; for an empty set it is true. *)
Theorem main_strand_majority :
  forall (vContent : list Seed) (d : Seed),
    Z.of_nat (List.length vContent) < 2 ^ 62 ->
    let F := countForward vContent in
    let R := countReverse vContent in
    (R < F -> mainStrandIsForward vContent = true) /\
    (F < R -> mainStrandIsForward vContent = false) /\
    (F = R ->
     mainStrandIsForward vContent =
     match vContent with
     | [] => true
     | _ :: _ => negb (bOnForwStrand (last vContent d))
     end).
Proof.
  intros l d Hsmall. cbv zeta. unfold mainStrandIsForward.
  destruct l as [|s t].
  - unfold countForward, countReverse. cbn. repeat split; intros; try lia; reflexivity.
  - assert (Hne : s :: t <> []) by discriminate.
    destruct (mainStrandLoop_spec d (s :: t) 0 0 (Z.of_nat (List.length (s :: t))) Hne)
      as (I1 & I2 & I3); try lia.
    { cbn [List.length]. lia. }
    { cbn [List.length]. lia. }
    cbv zeta in I1, I2, I3. rewrite !Z.add_0_l in I1, I2, I3.
    split; [exact I1|]. split; [exact I2 | exact I3].
Qed.

Lemma main_strand_witness :
  let f := mkSeed 0 5 0 1 0 true 0 in
  let r := mkSeed 0 5 0 1 0 false 0 in
  mainStrandIsForward [f; r; f] = true /\
  mainStrandIsForward [f; r] = true /\
  mainStrandIsForward [r; f] = false /\
  mainStrandIsForward [] = true.
Proof.
  cbv zeta.
  assert (Hsmall : Z.of_nat (List.length [mkSeed 0 5 0 1 0 true 0; mkSeed 0 5 0 1 0 false 0;
                                          mkSeed 0 5 0 1 0 true 0]) < 2 ^ 62)
    by (cbn; lia).
  split; [|repeat split].
  apply (proj1 (main_strand_majority _ (mkSeed 0 0 0 0 0 true 0) Hsmall)).
  cbn. lia.
Defined.

End SeedsMore.

(* ===================================================================== *)
(** * Intervals and rectangles (geom.h) *)
(* ===================================================================== *)

Module Geom.
Import MachineInt SeedDefs SvReseed.

(** [Interval::end( iVal )]: the size is set so that the interval ends at
    [iVal]. *)
Definition setEnd (i : Interval) (iVal : Z) : Interval :=
  mkInterval (ivStart i) (u64 (iVal - ivStart i)).

(** [Interval::start( iVal )]: the end is kept. *)
Definition setStart (i : Interval) (iVal : Z) : Interval :=
  setEnd (mkInterval iVal (ivSize i)) (ivEnd i).

(** [Interval::size( iVal )]. *)
Definition setSize (i : Interval) (iVal : Z) : Interval := mkInterval (ivStart i) iVal.

(** [Interval::set( iStart, iSize )]. *)
Definition set (i : Interval) (iStart iSize : Z) : Interval :=
  setSize (setStart i iStart) iSize.

(** [Interval::start_end( start, end )]. *)
Definition start_end (iStart iEnd : Z) : Interval := setEnd (mkInterval iStart 0) iEnd.

(** [Interval::center( )]. *)
Definition center (i : Interval) : Z := u64 (ivStart i + ivSize i / 2).

(** [Interval::distance( rxOther )]. *)
Definition distance (a b : Interval) : Z :=
  if (ivStart b <=? u64 (ivStart a + ivSize a)) && (ivStart a <=? u64 (ivStart b + ivSize b))
  then 0
  else if u64 (ivStart a + ivSize a) <? ivStart b
       then u64 (ivStart b - u64 (ivStart a + ivSize a))
       else u64 (ivStart a - u64 (ivStart b + ivSize b)).

(** One axis of [Rectangle::resize( iBy )]. *)
Definition resizeAxis (i : Interval) (iBy : Z) : Interval :=
  if iBy <=? ivStart i
  then mkInterval (u64 (ivStart i - iBy)) (u64 (ivSize i + u64 (iBy * 2)))
  else mkInterval 0 (u64 (ivSize i + ivStart i)).

(** [Rectangle::resize( iBy )]. *)
Definition resize (r : Rectangle) (iBy : Z) : Rectangle :=
  mkRect (resizeAxis (xXAxis r) iBy) (resizeAxis (xYAxis r) iBy).

(** [Rectangle::manhattonDistance( rxOther )]. *)
Definition manhattonDistance (a b : Rectangle) : Z :=
  u64 (distance (xXAxis a) (xXAxis b) + distance (xYAxis a) (xYAxis b)).

(** The interval holds values of [nucSeqIndex], and its end does not wrap
    around. *)
Definition interval_ok (i : Interval) : Prop :=
  0 <= ivStart i /\ 0 <= ivSize i /\ ivStart i + ivSize i < two64.

Lemma interval_end i : interval_ok i -> ivEnd i = ivStart i + ivSize i.
Proof. intros (A & B & C). apply u64_small. unfold in_u64. lia. Qed.

(** ** The distance of two intervals *)

Lemma distance_value a b :
  interval_ok a -> interval_ok b ->
  distance a b =
  Z.max 0 (Z.max (ivStart b - ivEnd a) (ivStart a - ivEnd b)).
Proof.
  intros Ha Hb. rewrite (interval_end a Ha), (interval_end b Hb).
  destruct Ha as (A1 & A2 & A3). destruct Hb as (B1 & B2 & B3).
  unfold distance.
  rewrite (u64_small (ivStart a + ivSize a)), (u64_small (ivStart b + ivSize b))
    by (unfold in_u64; lia).
  destruct (Z.leb_spec (ivStart b) (ivStart a + ivSize a));
    destruct (Z.leb_spec (ivStart a) (ivStart b + ivSize b)); cbn [andb]; try lia.
  - replace (ivStart a + ivSize a <? ivStart b) with false
      by (symmetry; apply Z.ltb_ge; lia).
    rewrite u64_small by (unfold in_u64; lia). lia.
  - replace (ivStart a + ivSize a <? ivStart b) with true
      by (symmetry; apply Z.ltb_lt; lia).
    rewrite u64_small by (unfold in_u64; lia). lia.
Qed.

(** X28. The distance of two intervals whose ends do not wrap around is the
    length of the gap between them: 0 when they overlap or touch, and else
    the distance from the end of the one to the start of the other.  It does
    not depend on the order of the two intervals, and the distance of two
    rectangles is the sum of the distances of their axes where that sum is
    below 2^64. *)
Theorem interval_distance :
  forall (a b : Interval),
    interval_ok a -> interval_ok b ->
    distance a b =
      Z.max 0 (Z.max (ivStart b - ivEnd a) (ivStart a - ivEnd b)) /\
    distance a b = distance b a /\
    (distance a b = 0 <-> ivStart b <= ivEnd a /\ ivStart a <= ivEnd b) /\
    (forall c d : Interval,
        interval_ok c -> interval_ok d -> distance a b + distance c d < two64 ->
        manhattonDistance (mkRect a c) (mkRect b d) = distance a b + distance c d).
Proof.
  intros a b Ha Hb.
  pose proof (distance_value a b Ha Hb) as E1.
  pose proof (distance_value b a Hb Ha) as E2.
  split; [exact E1|]. split; [rewrite E1, E2; lia|]. split; [rewrite E1; lia|].
  intros c d Hc Hd Hsum. unfold manhattonDistance. cbn [xXAxis xYAxis].
  pose proof (distance_value c d Hc Hd) as E3.
  apply u64_small. unfold in_u64. lia.
Qed.

Lemma interval_distance_witness :
  interval_ok (mkInterval 10 5) /\ interval_ok (mkInterval 20 5) /\
  distance (mkInterval 10 5) (mkInterval 20 5) = 5 /\
  distance (mkInterval 20 5) (mkInterval 10 5) = 5 /\
  distance (mkInterval 10 5) (mkInterval 15 5) = 0 /\
  distance (mkInterval 10 5) (mkInterval 20 5) = distance (mkInterval 20 5) (mkInterval 10 5).
Proof.
  assert (H1 : interval_ok (mkInterval 10 5)) by (unfold interval_ok, two64; cbn; lia).
  assert (H2 : interval_ok (mkInterval 20 5)) by (unfold interval_ok, two64; cbn; lia).
  split; [exact H1|]. split; [exact H2|].
  split; [reflexivity|]. split; [reflexivity|]. split; [reflexivity|].
  exact (proj1 (proj2 (interval_distance _ _ H1 H2))).
Defined.

(** ** Growing a rectangle *)

(** X29. [Rectangle::resize( iBy )] on an axis whose end does not wrap
    around: with [iBy] positions of room before the start, the axis grows by
    [iBy] at both ends; with less room it starts at 0 and keeps its end, so
    it does not grow behind its end.  In both cases the new axis holds the
    old one. *)
Theorem rectangle_resize :
  forall (r : Rectangle) (iBy : Z),
    interval_ok (xXAxis r) -> interval_ok (xYAxis r) -> 0 <= iBy ->
    ivEnd (xXAxis r) + 2 * iBy < two64 ->
    ivEnd (xYAxis r) + 2 * iBy < two64 ->
    let grown (i i' : Interval) :=
      ivStart i' = Z.max 0 (ivStart i - iBy) /\
      ivEnd i' = (if iBy <=? ivStart i then ivEnd i + iBy else ivEnd i) /\
      ivStart i' <= ivStart i /\ ivEnd i <= ivEnd i' in
    grown (xXAxis r) (xXAxis (resize r iBy)) /\
    grown (xYAxis r) (xYAxis (resize r iBy)).
Proof.
  intros r iBy Hx Hy Hby Hfx Hfy grown.
  assert (Haxis : forall i, interval_ok i -> ivEnd i + 2 * iBy < two64 ->
                            grown i (resizeAxis i iBy)).
  { intros i Hi Hf. unfold grown. rewrite (interval_end i Hi) in *.
    destruct Hi as (A & B & C). unfold resizeAxis.
    destruct (Z.leb_spec iBy (ivStart i)) as [Hroom | Hclip];
      unfold ivEnd; cbn [ivStart ivSize].
    - rewrite (u64_small (iBy * 2)) by (unfold in_u64; lia).
      rewrite (u64_small (ivStart i - iBy)) by (unfold in_u64; lia).
      rewrite (u64_small (ivSize i + iBy * 2)) by (unfold in_u64; lia).
      rewrite u64_small by (unfold in_u64; lia). lia.
    - rewrite (u64_small (ivSize i + ivStart i)) by (unfold in_u64; lia).
      rewrite u64_small by (unfold in_u64; lia). lia. }
  unfold resize. cbn [xXAxis xYAxis].
  split; apply Haxis; assumption.
Qed.

Lemma rectangle_resize_witness :
  let r := Rectangle_ 10 3 5 5 in
  interval_ok (xXAxis r) /\ interval_ok (xYAxis r) /\
  resize r 4 = mkRect (mkInterval 6 13) (mkInterval 0 8) /\
  ivEnd (xXAxis (resize r 4)) = ivEnd (xXAxis r) + 4 /\
  ivEnd (xYAxis (resize r 4)) = ivEnd (xYAxis r).
Proof.
  cbv zeta.
  assert (Hx : interval_ok (xXAxis (Rectangle_ 10 3 5 5)))
    by (unfold interval_ok, two64; cbn; lia).
  assert (Hy : interval_ok (xYAxis (Rectangle_ 10 3 5 5)))
    by (unfold interval_ok, two64; cbn; lia).
  split; [exact Hx|]. split; [exact Hy|]. split; [reflexivity|].
  assert (Hby : 0 <= 4) by lia.
  assert (Hfx : ivEnd (xXAxis (Rectangle_ 10 3 5 5)) + 2 * 4 < two64)
    by (vm_compute; reflexivity).
  assert (Hfy : ivEnd (xYAxis (Rectangle_ 10 3 5 5)) + 2 * 4 < two64)
    by (vm_compute; reflexivity).
  pose proof (rectangle_resize (Rectangle_ 10 3 5 5) 4 Hx Hy Hby Hfx Hfy) as H.
  cbv zeta in H. destruct H as [(_ & H1 & _) (_ & H2 & _)].
  split; [exact H1 | exact H2].
Defined.

(** ** Setting the ends of an interval *)

(** X30. The setters of an interval whose values do not wrap around:
    setting the end keeps the start; setting the start keeps the end, so the
    size changes; [set] gives the start and the size that are set; and
    [start_end] builds the interval from its two ends. *)
Theorem interval_setters :
  forall (i : Interval) (iVal iSize : Z),
    interval_ok i -> 0 <= iVal <= ivEnd i -> 0 <= iSize ->
    (ivStart (setStart i iVal) = iVal /\
     ivEnd (setStart i iVal) = ivEnd i /\
     ivSize (setStart i iVal) = ivEnd i - iVal) /\
    (forall iEnd, ivStart i <= iEnd < two64 ->
       ivStart (setEnd i iEnd) = ivStart i /\ ivEnd (setEnd i iEnd) = iEnd /\
       start_end (ivStart i) iEnd = setEnd i iEnd) /\
    set i iVal iSize = mkInterval iVal iSize.
Proof.
  intros i iVal iSize Hi Hv Hz. rewrite (interval_end i Hi) in *.
  destruct Hi as (A & B & C).
  split; [|split].
  - unfold setStart, setEnd, ivEnd. cbn [ivStart ivSize].
    rewrite (u64_small (ivStart i + ivSize i)) by (unfold in_u64; lia).
    rewrite (u64_small (ivStart i + ivSize i - iVal)) by (unfold in_u64; lia).
    split; [reflexivity|]. split; [|reflexivity].
    replace (iVal + (ivStart i + ivSize i - iVal)) with (ivStart i + ivSize i) by lia.
    apply u64_small. unfold in_u64. lia.
  - intros iEnd He. unfold start_end, setEnd, ivEnd. cbn [ivStart ivSize].
    rewrite (u64_small (iEnd - ivStart i)) by (unfold in_u64; lia).
    split; [reflexivity|]. split; [|reflexivity].
    replace (ivStart i + (iEnd - ivStart i)) with iEnd by lia.
    apply u64_small. unfold in_u64. lia.
  - reflexivity.
Qed.

Lemma interval_setters_witness :
  interval_ok (mkInterval 10 5) /\
  setStart (mkInterval 10 5) 12 = mkInterval 12 3 /\
  ivEnd (setStart (mkInterval 10 5) 12) = ivEnd (mkInterval 10 5).
Proof.
  assert (H1 : interval_ok (mkInterval 10 5)) by (unfold interval_ok, two64; cbn; lia).
  split; [exact H1|]. split; [reflexivity|].
  assert (Hv : 0 <= 12 <= ivEnd (mkInterval 10 5)) by (vm_compute; split; discriminate).
  assert (Hz : 0 <= 0) by lia.
  exact (proj1 (proj2 (proj1 (interval_setters (mkInterval 10 5) 12 0 H1 Hv Hz)))).
Defined.

End Geom.
